(** * valai: validation engine and JSON repair pipeline

    A shallow embedding of the core of [packages/core/src]: the parse
    context ([parse/context.ts]), the schema hierarchy ([schemas/*.ts]) and
    the repair pipeline ([repair/*.ts]), followed by the properties of the
    specification that were checked against it.

    Conventions of the embedding.
    - A JavaScript string is a sequence of UTF-16 code units; the embedding
      covers the code units 0..255 and represents a string as a [string]
      (one [ascii] per code unit).
    - A JavaScript number is [NaN], an infinity, or a finite value kept as
      an exact rational (no rounding, no negative zero).
    - Objects are association lists in property-enumeration order.
    - Mutable arrays that are shared between objects (the [issues] array of
      a [ParseContext]) live in an explicit store and are addressed by
      their allocation index. *)

From Stdlib Require Import String Ascii List Bool Arith ZArith QArith Lia.
From Stdlib Require DecimalString.
From stdpp Require Import base list.
Import ListNotations.

Set Warnings "-register-all".

Local Open Scope string_scope.
Local Close Scope Q_scope.
Local Open Scope nat_scope.

(* ================================================================== *)
(** * JavaScript strings *)
(* ================================================================== *)

Module JSString.

Definition code (c : ascii) : nat := nat_of_ascii c.

(** The double quote and the control characters used by the scanners. *)
Definition dquote : ascii := ascii_of_nat 34.
Definition backslash : ascii := ascii_of_nat 92.
Definition newline : ascii := ascii_of_nat 10.

(** [\s], which is also the set removed by [String.prototype.trim]:
    TAB, LF, VT, FF, CR, SPACE and NBSP among the code units 0..255. *)
Definition is_space (c : ascii) : bool :=
  let n := code c in
  ((9 <=? n) && (n <=? 13)) || (n =? 32) || (n =? 160).

Definition is_digit (c : ascii) : bool :=
  let n := code c in (48 <=? n) && (n <=? 57).

Definition is_upper (c : ascii) : bool :=
  let n := code c in (65 <=? n) && (n <=? 90).

Definition is_lower (c : ascii) : bool :=
  let n := code c in (97 <=? n) && (n <=? 122).

Definition is_alpha (c : ascii) : bool := is_upper c || is_lower c.

(** [\w] *)
Definition is_word (c : ascii) : bool :=
  is_alpha c || is_digit c || (code c =? 95).

Definition is_empty (s : string) : bool :=
  match s with EmptyString => true | String _ _ => false end.

Fixpoint trimStart (s : string) : string :=
  match s with
  | EmptyString => EmptyString
  | String c s' => if is_space c then trimStart s' else s
  end.

Fixpoint trimEnd (s : string) : string :=
  match s with
  | EmptyString => EmptyString
  | String c s' =>
      let t := trimEnd s' in
      if is_space c && is_empty t then EmptyString else String c t
  end.

(** [s.trim()] *)
Definition trim (s : string) : string := trimEnd (trimStart s).

(** [s.startsWith(p)] *)
Definition startsWith (s p : string) : bool := String.prefix p s.

(** [s.endsWith(p)] *)
Definition endsWith (s p : string) : bool :=
  let n := String.length s in
  let m := String.length p in
  (m <=? n) && String.eqb (String.substring (n - m) m s) p.

(** [s.includes(p)] *)
Fixpoint includes (s p : string) : bool :=
  String.prefix p s ||
  match s with
  | EmptyString => false
  | String _ s' => includes s' p
  end.

(** Replace every apostrophe of a literal by a double quote; used only to
    write JSON texts legibly in the examples. *)
Fixpoint dq (s : string) : string :=
  match s with
  | EmptyString => EmptyString
  | String c s' => String (if Ascii.eqb c "'"%char then dquote else c) (dq s')
  end.

Fixpoint all_chars (p : ascii -> bool) (s : string) : bool :=
  match s with
  | EmptyString => true
  | String c s' => p c && all_chars p s'
  end.

End JSString.
Import JSString.

(* ================================================================== *)
(** * Regular expressions

    A backtracking matcher with the priorities of ECMAScript: the left
    alternative first, a greedy star takes one more iteration first, a lazy
    star takes the continuation first, and an iteration of a star that
    consumes nothing is rejected. *)
(* ================================================================== *)

Module Regex.

Inductive regex : Type :=
| REps                                   (* empty pattern *)
| RChar (c : ascii)                      (* literal character *)
| RSet (p : ascii -> bool)               (* character class *)
| RSeq (r1 r2 : regex)
| RAlt (r1 r2 : regex)
| RStar (greedy : bool) (r : regex)      (* r* and r*? *)
| RGroup (n : nat) (r : regex)           (* capture group number n *)
| RWordB                                 (* \b *)
| RBegin                                 (* ^ *)
| REnd.                                  (* $ *)

Record mstate : Type := MState {
  prev : option ascii;          (* the character before the position *)
  rest : string;                (* the input from the position on *)
  caps : list (nat * string)    (* capture groups matched so far *)
}.

Definition word_before (st : mstate) : bool :=
  match prev st with Some c => is_word c | None => false end.

Definition word_after (st : mstate) : bool :=
  match rest st with String c _ => is_word c | EmptyString => false end.

Definition consumed (before after : mstate) : string :=
  String.substring 0 (String.length (rest before) - String.length (rest after))
                   (rest before).

Fixpoint rmatch (r : regex) (st : mstate)
         (k : mstate -> option mstate) {struct r} : option mstate :=
  match r with
  | REps => k st
  | RChar c =>
      match rest st with
      | String c' s' =>
          if Ascii.eqb c c' then k (MState (Some c') s' (caps st)) else None
      | EmptyString => None
      end
  | RSet p =>
      match rest st with
      | String c' s' =>
          if p c' then k (MState (Some c') s' (caps st)) else None
      | EmptyString => None
      end
  | RSeq r1 r2 => rmatch r1 st (fun st' => rmatch r2 st' k)
  | RAlt r1 r2 =>
      match rmatch r1 st k with
      | Some res => Some res
      | None => rmatch r2 st k
      end
  | RStar greedy r1 =>
      (fix iter (fuel : nat) (st : mstate) {struct fuel} : option mstate :=
         match fuel with
         | O => k st
         | S fuel' =>
             let again (st' : mstate) :=
               if String.length (rest st') <? String.length (rest st)
               then iter fuel' st' else None in
             if greedy then
               match rmatch r1 st again with
               | Some res => Some res
               | None => k st
               end
             else
               match k st with
               | Some res => Some res
               | None => rmatch r1 st again
               end
         end) (S (String.length (rest st))) st
  | RGroup n r1 =>
      rmatch r1 st
        (fun st' => k (MState (prev st') (rest st')
                              ((n, consumed st st') :: caps st')))
  | RWordB => if xorb (word_before st) (word_after st) then k st else None
  | RBegin => match prev st with None => k st | Some _ => None end
  | REnd => match rest st with EmptyString => k st | String _ _ => None end
  end.

(** Derived forms. *)
Definition RPlus (r : regex) : regex := RSeq r (RStar true r).
Definition ROpt (r : regex) : regex := RAlt r REps.

Fixpoint RStr (s : string) : regex :=
  match s with
  | EmptyString => REps
  | String c s' => RSeq (RChar c) (RStr s')
  end.

Fixpoint RRepeat (n : nat) (r : regex) : regex :=
  match n with
  | O => REps
  | S n' => RSeq r (RRepeat n' r)
  end.

(** A match: the text before it, the matched text, the capture groups
    and the text after it. *)
Record rmatch_result : Type := MatchResult {
  m_before : string;
  m_text : string;
  m_caps : list (nat * string);
  m_after : string
}.

(** Group [n] of a match; [None] when the group did not participate. *)
Fixpoint group (n : nat) (cs : list (nat * string)) : option string :=
  match cs with
  | [] => None
  | (m, s) :: cs' => if n =? m then Some s else group n cs'
  end.

(** [m?.[n]] used as a condition: the group exists and is not empty. *)
Definition group_truthy (n : nat) (m : option rmatch_result) : option string :=
  match m with
  | Some res =>
      match group n (m_caps res) with
      | Some s => if is_empty s then None else Some s
      | None => None
      end
  | None => None
  end.

(** The match that starts exactly at the current position. *)
Definition match_here (r : regex) (p : option ascii) (s : string)
  : option (string * list (nat * string) * string) :=
  match rmatch r (MState p s []) Some with
  | Some st =>
      Some (String.substring 0 (String.length s - String.length (rest st)) s,
            caps st, rest st)
  | None => None
  end.

(** [r.exec(s)] from a position: the leftmost match. *)
Fixpoint exec_from (r : regex) (p : option ascii) (s : string)
  : option rmatch_result :=
  match match_here r p s with
  | Some (txt, cs, after) => Some (MatchResult EmptyString txt cs after)
  | None =>
      match s with
      | EmptyString => None
      | String c s' =>
          match exec_from r (Some c) s' with
          | Some res =>
              Some (MatchResult (String c (m_before res)) (m_text res)
                                (m_caps res) (m_after res))
          | None => None
          end
      end
  end.

(** [r.exec(s)] and [s.match(r)] for a regular expression without the
    [g] flag. *)
Definition exec (r : regex) (s : string) : option rmatch_result :=
  exec_from r None s.

(** [r.test(s)] *)
Definition test (r : regex) (s : string) : bool :=
  match exec r s with Some _ => true | None => false end.

Fixpoint last_char (p : option ascii) (s : string) : option ascii :=
  match s with
  | EmptyString => p
  | String c s' => last_char (Some c) s'
  end.

(** [s.replace(r, f)] for a regular expression with the [g] flag; the
    replacement is computed from the capture groups. *)
Fixpoint replace_from (fuel : nat) (r : regex)
         (f : list (nat * string) -> string)
         (p : option ascii) (s : string) : string :=
  match fuel with
  | O => s
  | S fuel' =>
      match exec_from r p s with
      | None => s
      | Some res =>
          let p' := last_char (last_char p (m_before res)) (m_text res) in
          m_before res ++ f (m_caps res) ++
          (if is_empty (m_text res) then
             match m_after res with
             | EmptyString => EmptyString
             | String c s' => String c (replace_from fuel' r f (Some c) s')
             end
           else replace_from fuel' r f p' (m_after res))
      end
  end.

Definition replace_all (r : regex) (f : list (nat * string) -> string)
           (s : string) : string :=
  replace_from (S (String.length s)) r f None s.

(** [$n] in a replacement *)
Definition dollar (n : nat) (cs : list (nat * string)) : string :=
  match group n cs with Some s => s | None => EmptyString end.

(** Character classes *)
Definition any_char (c : ascii) : bool := true.                 (* [\s\S] *)
Definition one_of (s : string) (c : ascii) : bool :=
  existsb (Ascii.eqb c) (list_ascii_of_string s).
Definition none_of (s : string) (c : ascii) : bool := negb (one_of s c).

End Regex.
Import Regex.

(* ================================================================== *)
(** * JavaScript numbers and values *)
(* ================================================================== *)

Inductive JSNumber : Type :=
| NaN
| Infinity (negative : bool)
| Finite (q : Q).

Module JSNum.

Definition of_Z (z : Z) : JSNumber := Finite (z # 1).
Definition of_nat (n : nat) : JSNumber := of_Z (Z.of_nat n).
Definition zero : JSNumber := of_Z 0.

(** [Number.isNaN], [Number.isFinite], [Number.isInteger] *)
Definition isNaN (n : JSNumber) : bool :=
  match n with NaN => true | _ => false end.

Definition isFinite (n : JSNumber) : bool :=
  match n with Finite _ => true | _ => false end.

Definition isInteger (n : JSNumber) : bool :=
  match n with
  | Finite q => Pos.eqb (Qden (Qred q)) 1
  | _ => false
  end.

(** [a < b] and [a <= b] on numbers; every comparison with [NaN] is false. *)
Definition lt (a b : JSNumber) : bool :=
  match a, b with
  | NaN, _ | _, NaN => false
  | Infinity true, Infinity true => false
  | Infinity true, _ => true
  | _, Infinity true => false
  | Infinity false, _ => false
  | Finite _, Infinity false => true
  | Finite x, Finite y => negb (Qle_bool y x)
  end.

Definition le (a b : JSNumber) : bool :=
  match a, b with
  | NaN, _ | _, NaN => false
  | Infinity true, _ => true
  | _, Infinity true => false
  | _, Infinity false => true
  | Infinity false, Finite _ => false
  | Finite x, Finite y => Qle_bool x y
  end.

Definition gt (a b : JSNumber) : bool := lt b a.
Definition ge (a b : JSNumber) : bool := le b a.

(** Digits *)
Definition digit_value (c : ascii) : option Z :=
  if is_digit c then Some (Z.of_nat (code c - 48))
  else if (97 <=? code c) && (code c <=? 102) then Some (Z.of_nat (code c - 87))
  else if (65 <=? code c) && (code c <=? 70) then Some (Z.of_nat (code c - 55))
  else None.

Definition is_digit_in (radix : Z) (c : ascii) : bool :=
  match digit_value c with
  | Some d => (d <? radix)%Z
  | None => false
  end.

(** The value of a digit string in a radix, most significant digit first. *)
Fixpoint digits_value (radix : Z) (acc : Z) (s : string) : Z :=
  match s with
  | EmptyString => acc
  | String c s' =>
      match digit_value c with
      | Some d => digits_value radix (acc * radix + d)%Z s'
      | None => acc
      end
  end.

(** The longest prefix of characters satisfying [p], and what follows. *)
Fixpoint span (p : ascii -> bool) (s : string) : string * string :=
  match s with
  | EmptyString => (EmptyString, EmptyString)
  | String c s' =>
      if p c then let (a, b) := span p s' in (String c a, b)
      else (EmptyString, s)
  end.

(** [m * 10^e] as a number *)
Definition scale10 (m e : Z) : JSNumber :=
  match e with
  | Zneg p => Finite (Qred (m # Pos.pow 10 p))
  | _ => Finite ((m * 10 ^ e)%Z # 1)
  end.

(** The optional exponent part [e[+-]ddd] at the end of a literal. *)
Definition exponent_part (s : string) : option Z :=
  match s with
  | EmptyString => Some 0%Z
  | String c s' =>
      if Ascii.eqb c "e" || Ascii.eqb c "E" then
        let '(negative, ds) :=
          match s' with
          | String "+" t => (false, t)
          | String "-" t => (true, t)
          | _ => (false, s')
          end in
        if negb (is_empty ds) && all_chars is_digit ds
        then Some (if negative then - digits_value 10 0 ds
                   else digits_value 10 0 ds)%Z
        else None
      else None
  end.

(** An unsigned decimal literal: digits, an optional fraction, an
    optional exponent; at least one digit before the exponent. *)
Definition unsigned_decimal (s : string) : option (Z * Z) :=
  let (ip, r1) := span is_digit s in
  let (fp, r2) :=
    match r1 with
    | String "." t => span is_digit t
    | _ => (EmptyString, r1)
    end in
  if is_empty ip && is_empty fp then None
  else
    match exponent_part r2 with
    | Some e =>
        Some (digits_value 10 0 (ip ++ fp), (e - Z.of_nat (String.length fp))%Z)
    | None => None
    end.

Definition radix_literal (radix : Z) (ds : string) : JSNumber :=
  if negb (is_empty ds) && all_chars (is_digit_in radix) ds
  then of_Z (digits_value radix 0 ds) else NaN.

(** [Number(s)] for a string: the StringToNumber conversion. *)
Definition StringToNumber (s : string) : JSNumber :=
  let t := trim s in
  match t with
  | EmptyString => zero
  | String "0" (String "x" ds) | String "0" (String "X" ds) => radix_literal 16 ds
  | String "0" (String "o" ds) | String "0" (String "O" ds) => radix_literal 8 ds
  | String "0" (String "b" ds) | String "0" (String "B" ds) => radix_literal 2 ds
  | _ =>
      let '(negative, body) :=
        match t with
        | String "+" u => (false, u)
        | String "-" u => (true, u)
        | _ => (false, t)
        end in
      if String.eqb body "Infinity" then Infinity negative
      else
        match unsigned_decimal body with
        | Some (m, e) => scale10 (if negative then - m else m)%Z e
        | None => NaN
        end
  end.

(** Decimal rendering of an integer, as in a template literal. *)
Definition Z_to_string (z : Z) : string :=
  match z with
  | Z0 => "0"
  | Zpos p => DecimalString.NilEmpty.string_of_uint (Pos.to_uint p)
  | Zneg p => "-" ++ DecimalString.NilEmpty.string_of_uint (Pos.to_uint p)
  end.

(** The fractional digits of [r / d], until the remainder vanishes. *)
Fixpoint fraction_digits (fuel : nat) (r d : Z) : string :=
  match fuel with
  | O => EmptyString
  | S fuel' =>
      if (r =? 0)%Z then EmptyString
      else Z_to_string (r * 10 / d) ++ fraction_digits fuel' (r * 10 mod d)%Z d
  end.

(** [String(n)] for a number. Integers and terminating decimals are
    rendered exactly (the exponent notation of very large and very small
    magnitudes is outside the embedding). *)
Definition toString (n : JSNumber) : string :=
  match n with
  | NaN => "NaN"
  | Infinity false => "Infinity"
  | Infinity true => "-Infinity"
  | Finite q =>
      let q' := Qred q in
      let num := Qnum q' in
      let den := Zpos (Qden q') in
      let a := Z.abs num in
      (if (num <? 0)%Z then "-" else "") ++
      Z_to_string (a / den) ++
      (if (a mod den =? 0)%Z then ""
       else "." ++ fraction_digits 40 (a mod den) den)
  end.

End JSNum.

(** The built-in objects that a property read on a plain object can
    reach through the prototype chain: [Object.prototype] itself (read
    through [__proto__]) and the functions that it holds. *)
Inductive Builtin : Type :=
| Object_prototype
| Object_constructor
| defineGetter
| defineSetter
| hasOwnProperty
| lookupGetter
| lookupSetter
| isPrototypeOf
| propertyIsEnumerable
| Object_toString
| Object_valueOf
| toLocaleString.

(** Dynamic values: [undefined], [null], booleans, numbers, strings,
    arrays, plain objects (by their own enumerable properties) and the
    built-in objects above. *)
Inductive value : Type :=
| VUndefined
| VNull
| VBool (b : bool)
| VNumber (n : JSNumber)
| VString (s : string)
| VArray (items : list value)
| VObject (props : list (string * value))
| VBuiltin (b : Builtin).

Module JSValue.

(** [Array.isArray(v)] *)
Definition isArray (v : value) : bool :=
  match v with VArray _ => true | _ => false end.

(** [typeof v] *)
Definition typeof (v : value) : string :=
  match v with
  | VUndefined => "undefined"
  | VNull => "object"
  | VBool _ => "boolean"
  | VNumber _ => "number"
  | VString _ => "string"
  | VArray _ => "object"
  | VObject _ => "object"
  | VBuiltin Object_prototype => "object"
  | VBuiltin _ => "function"
  end.

(** [a ?? b] *)
Definition nullish (a b : value) : value :=
  match a with
  | VUndefined | VNull => b
  | _ => a
  end.

(** The own property [k] of an object; [None] when there is none. *)
Fixpoint own {A : Type} (props : list (string * A)) (k : string) : option A :=
  match props with
  | [] => None
  | (k', v) :: props' => if String.eqb k k' then Some v else own props' k
  end.

(** [Object.prototype.hasOwnProperty.call(o, k)] *)
Fixpoint has_own {A : Type} (props : list (string * A)) (k : string) : bool :=
  match props with
  | [] => false
  | (k', _) :: props' => String.eqb k k' || has_own props' k
  end.

(** The property [k] of [Object.prototype], which every plain object
    inherits. *)
Definition inherited (k : string) : option Builtin :=
  if String.eqb k "__proto__" then Some Object_prototype
  else if String.eqb k "constructor" then Some Object_constructor
  else if String.eqb k "__defineGetter__" then Some defineGetter
  else if String.eqb k "__defineSetter__" then Some defineSetter
  else if String.eqb k "hasOwnProperty" then Some hasOwnProperty
  else if String.eqb k "__lookupGetter__" then Some lookupGetter
  else if String.eqb k "__lookupSetter__" then Some lookupSetter
  else if String.eqb k "isPrototypeOf" then Some isPrototypeOf
  else if String.eqb k "propertyIsEnumerable" then Some propertyIsEnumerable
  else if String.eqb k "toString" then Some Object_toString
  else if String.eqb k "valueOf" then Some Object_valueOf
  else if String.eqb k "toLocaleString" then Some toLocaleString
  else None.

(** [o[k]] for a plain object: the own property, else the property that
    [Object.prototype] holds, else [undefined]. *)
Definition get (props : list (string * value)) (k : string) : value :=
  match own props k with
  | Some v => v
  | None =>
      match inherited k with
      | Some b => VBuiltin b
      | None => VUndefined
      end
  end.

(** [k in o] for a plain object. *)
Definition has (props : list (string * value)) (k : string) : bool :=
  has_own props k || match inherited k with Some _ => true | None => false end.

(** [o[k]] and [k in o] when [o] is [Object.prototype] itself; its own
    prototype is [null]. *)
Definition prototype_get (k : string) : value :=
  match inherited k with
  | Some Object_prototype => VNull
  | Some b => VBuiltin b
  | None => VUndefined
  end.

Definition prototype_has (k : string) : bool :=
  match inherited k with Some _ => true | None => false end.

(** [Object.keys(o)] *)
Definition keys {A : Type} (props : list (string * A)) : list string :=
  map fst props.

(** A canonical array index: these keys are enumerated first, in
    ascending numeric order. *)
Definition array_index (k : string) : option Z :=
  match k with
  | EmptyString => None
  | String "0" EmptyString => Some 0%Z
  | String "0" _ => None
  | _ =>
      if all_chars is_digit k then
        let n := JSNum.digits_value 10 0 k in
        if (n <? 4294967295)%Z then Some n else None
      else None
  end.

(** Position of a new key in the enumeration order. *)
Fixpoint insert_new {A : Type} (k : string) (v : A)
         (props : list (string * A)) : list (string * A) :=
  match props with
  | [] => [(k, v)]
  | (k', v') :: props' =>
      match array_index k, array_index k' with
      | Some i, Some j =>
          if (i <? j)%Z then (k, v) :: props
          else (k', v') :: insert_new k v props'
      | Some _, None => (k, v) :: props
      | None, _ => (k', v') :: insert_new k v props'
      end
  end.

Fixpoint overwrite {A : Type} (k : string) (v : A)
         (props : list (string * A)) : list (string * A) :=
  match props with
  | [] => []
  | (k', v') :: props' =>
      if String.eqb k k' then (k', v) :: props'
      else (k', v') :: overwrite k v props'
  end.

(** [CreateDataProperty(o, k, v)]: what an object literal, a spread and
    [JSON.parse] do for every key, [__proto__] included. *)
Definition set {A : Type} (props : list (string * A)) (k : string) (v : A)
  : list (string * A) :=
  if has_own props k then overwrite k v props else insert_new k v props.

(** [o[k] = v] for a plain object. An own property is overwritten and a
    new one is created, except for the key [__proto__]: without an own
    property of that name the assignment runs the setter that
    [Object.prototype] holds, which replaces the prototype of [o] when [v]
    is an object or [null] and adds no property in any case. The embedding
    keeps the own properties of an object and does not record its
    prototype. *)
Definition assign {A : Type} (props : list (string * A)) (k : string) (v : A)
  : list (string * A) :=
  if has_own props k then overwrite k v props
  else if String.eqb k "__proto__" then props
  else insert_new k v props.

Fixpoint join (sep : string) (l : list string) : string :=
  match l with
  | [] => EmptyString
  | [s] => s
  | s :: l' => s ++ sep ++ join sep l'
  end.

(** [String(v)] for a primitive value. *)
Definition primitive_toString (v : value) : string :=
  match v with
  | VUndefined => "undefined"
  | VNull => "null"
  | VBool true => "true"
  | VBool false => "false"
  | VNumber n => JSNum.toString n
  | VString s => s
  | _ => EmptyString
  end.

(** The text that [Function.prototype.toString] gives for a built-in
    function (as Node prints it). *)
Definition builtin_name (b : Builtin) : string :=
  match b with
  | Object_prototype => "Object.prototype"
  | Object_constructor => "Object"
  | defineGetter => "__defineGetter__"
  | defineSetter => "__defineSetter__"
  | hasOwnProperty => "hasOwnProperty"
  | lookupGetter => "__lookupGetter__"
  | lookupSetter => "__lookupSetter__"
  | isPrototypeOf => "isPrototypeOf"
  | propertyIsEnumerable => "propertyIsEnumerable"
  | Object_toString => "toString"
  | Object_valueOf => "valueOf"
  | toLocaleString => "toLocaleString"
  end.

Definition native_code (b : Builtin) : string :=
  "function " ++ builtin_name b ++ "() { [native code] }".

(** What a call [f.call(o)] without arguments gives when [f] is one of
    the functions of [Object.prototype] and [o] a plain object. *)
Inductive Called : Type :=
| returns_primitive (v : value)
| returns_object
| throws.

Definition call_plain (b : Builtin) (props : list (string * value)) : Called :=
  match b with
  | Object_toString => returns_primitive (VString "[object Object]")
  | Object_valueOf | Object_constructor => returns_object
  | hasOwnProperty | propertyIsEnumerable =>
      returns_primitive (VBool (has_own props "undefined"))
  | isPrototypeOf => returns_primitive (VBool false)
  | lookupGetter | lookupSetter => returns_primitive VUndefined
  | defineGetter | defineSetter => throws
  | toLocaleString | Object_prototype => throws
  end.

(** [toLocaleString] invokes the [toString] method of its receiver; when
    that method is [toLocaleString] again the call does not end and the
    engine throws a [RangeError]. *)
Definition call (b : Builtin) (props : list (string * value)) : Called :=
  match b with
  | toLocaleString =>
      match get props "toString" with
      | VBuiltin toLocaleString | VBuiltin Object_prototype => throws
      | VBuiltin f => call_plain f props
      | _ => throws
      end
  | _ => call_plain b props
  end.

(** One step of [OrdinaryToPrimitive]: the method [name], when it is
    callable, is called; a primitive result ends the conversion. *)
Definition method_result (props : list (string * value)) (name : string)
  : Called :=
  match get props name with
  | VBuiltin Object_prototype => returns_object
  | VBuiltin f => call f props
  | _ => returns_object
  end.

(** [String(o)] for a plain object: [toString] first, then [valueOf];
    [None] is the [TypeError] (or [RangeError]) that the conversion
    throws. *)
Definition object_toString (props : list (string * value)) : option string :=
  match method_result props "toString" with
  | returns_primitive v => Some (primitive_toString v)
  | throws => None
  | returns_object =>
      match method_result props "valueOf" with
      | returns_primitive v => Some (primitive_toString v)
      | throws | returns_object => None
      end
  end.

(** [out + sep + s], threading the exception. *)
Definition join_next (sep : string) (first : bool) (out s : option string)
  : option string :=
  match out, s with
  | Some o, Some t => Some (if first then t else o ++ sep ++ t)
  | _, _ => None
  end.

(** [String(v)]; [None] when the conversion throws. An array is joined
    with commas, [undefined] and [null] elements giving the empty
    string. *)
Fixpoint toString (v : value) : option string :=
  match v with
  | VArray items =>
      (fix each (l : list value) (first : bool) (out : option string)
         : option string :=
         match l with
         | [] => out
         | x :: l' =>
             each l' false
               (join_next "," first out
                  (match x with
                   | VUndefined | VNull => Some EmptyString
                   | _ => toString x
                   end))
         end) items true (Some EmptyString)
  | VObject props => object_toString props
  | VBuiltin Object_prototype => Some "[object Object]"
  | VBuiltin b => Some (native_code b)
  | _ => Some (primitive_toString v)
  end.

(** [typeof v === 'object' && v !== null] *)
Definition is_object (v : value) : bool :=
  match v with
  | VArray _ | VObject _ | VBuiltin Object_prototype => true
  | _ => false
  end.

(** The test of [ValaiObject._parse]:
    [typeof v === 'object' && v !== null && !Array.isArray(v)] *)
Definition is_plain_object (v : value) : bool :=
  match v with
  | VObject _ | VBuiltin Object_prototype => true
  | _ => false
  end.

(** [o[k]], [k in o] and [Object.keys(o)] for a value that passed the
    test above. *)
Definition lookup (o : value) (k : string) : value :=
  match o with
  | VObject props => get props k
  | VBuiltin Object_prototype => prototype_get k
  | _ => VUndefined
  end.

Definition has_in (o : value) (k : string) : bool :=
  match o with
  | VObject props => has props k
  | VBuiltin Object_prototype => prototype_has k
  | _ => false
  end.

Definition own_keys (o : value) : list string :=
  match o with
  | VObject props => keys props
  | _ => []
  end.

(** The own enumerable properties that a spread copies: the properties
    of a plain object, the elements of an array under their indices. *)
Fixpoint index_entries (i : nat) (items : list value)
  : list (string * value) :=
  match items with
  | [] => []
  | x :: items' =>
      (JSNum.Z_to_string (Z.of_nat i), x) :: index_entries (S i) items'
  end.

Definition entries (v : value) : list (string * value) :=
  match v with
  | VObject props => props
  | VArray items => index_entries 0 items
  | _ => []
  end.

(** [{ ...target, ...source }] *)
Definition spread {A : Type} (target source : list (string * A))
  : list (string * A) :=
  fold_left (fun r kv => set r (fst kv) (snd kv)) source target.

End JSValue.

(* ================================================================== *)
(** * [JSON.parse]

    The strict JSON grammar of ECMA-404. [None] stands for the
    [SyntaxError] that [JSON.parse] throws. A [\uXXXX] escape above
    [00FF] denotes a code unit outside the alphabet of the embedding and
    is reported as [None] too. *)
(* ================================================================== *)

Module JSON.

(** JSON white space: space, TAB, LF, CR. *)
Definition is_ws (c : ascii) : bool :=
  let n := code c in (n =? 32) || (n =? 9) || (n =? 10) || (n =? 13).

Fixpoint skip_ws (s : string) : string :=
  match s with
  | String c s' => if is_ws c then skip_ws s' else s
  | EmptyString => EmptyString
  end.

Definition hex4 (a b c d : ascii) : option Z :=
  match JSNum.digit_value a, JSNum.digit_value b,
        JSNum.digit_value c, JSNum.digit_value d with
  | Some x, Some y, Some z, Some w => Some (((x * 16 + y) * 16 + z) * 16 + w)%Z
  | _, _, _, _ => None
  end.

(** The characters of a string literal after its opening quote. *)
Fixpoint parse_string (s : string) : option (string * string) :=
  match s with
  | EmptyString => None
  | String c s' =>
      if Ascii.eqb c dquote then Some (EmptyString, s')
      else if Ascii.eqb c backslash then
        match s' with
        | String e s'' =>
            let continue (ch : ascii) (r : string) :=
              match parse_string r with
              | Some (body, after) => Some (String ch body, after)
              | None => None
              end in
            if Ascii.eqb e dquote then continue dquote s''
            else if Ascii.eqb e backslash then continue backslash s''
            else if Ascii.eqb e "/" then continue "/"%char s''
            else if Ascii.eqb e "b" then continue (ascii_of_nat 8) s''
            else if Ascii.eqb e "f" then continue (ascii_of_nat 12) s''
            else if Ascii.eqb e "n" then continue (ascii_of_nat 10) s''
            else if Ascii.eqb e "r" then continue (ascii_of_nat 13) s''
            else if Ascii.eqb e "t" then continue (ascii_of_nat 9) s''
            else if Ascii.eqb e "u" then
              match s'' with
              | String h1 (String h2 (String h3 (String h4 r))) =>
                  match hex4 h1 h2 h3 h4 with
                  | Some n =>
                      if (n <? 256)%Z
                      then continue (ascii_of_nat (Z.to_nat n)) r
                      else None
                  | None => None
                  end
              | _ => None
              end
            else None
        | EmptyString => None
        end
      else if code c <? 32 then None
      else
        match parse_string s' with
        | Some (body, after) => Some (String c body, after)
        | None => None
        end
  end.

(** A number literal: an optional minus sign, an integer part without
    superfluous leading zero, an optional fraction and an optional
    exponent. *)
Definition parse_number (s : string) : option (JSNumber * string) :=
  let '(negative, s1) :=
    match s with
    | String "-" t => (true, t)
    | _ => (false, s)
    end in
  let (ip, s2) := JSNum.span is_digit s1 in
  let int_ok :=
    match ip with
    | EmptyString => false
    | String "0" (String _ _) => false
    | _ => true
    end in
  let frac :=
    match s2 with
    | String "." t =>
        let (fp, s3) := JSNum.span is_digit t in
        if is_empty fp then None else Some (fp, s3)
    | _ => Some (EmptyString, s2)
    end in
  match int_ok, frac with
  | true, Some (fp, s3) =>
      let expo :=
        match s3 with
        | String c t =>
            if Ascii.eqb c "e" || Ascii.eqb c "E" then
              let '(eneg, t1) :=
                match t with
                | String "+" u => (false, u)
                | String "-" u => (true, u)
                | _ => (false, t)
                end in
              let (ds, s4) := JSNum.span is_digit t1 in
              if is_empty ds then None
              else Some ((if eneg then - JSNum.digits_value 10 0 ds
                          else JSNum.digits_value 10 0 ds)%Z, s4)
            else Some (0%Z, s3)
        | EmptyString => Some (0%Z, s3)
        end in
      match expo with
      | Some (e, s4) =>
          let m := JSNum.digits_value 10 0 (ip ++ fp) in
          Some (JSNum.scale10 (if negative then - m else m)%Z
                              (e - Z.of_nat (String.length fp))%Z, s4)
      | None => None
      end
  | _, _ => None
  end.

Definition expect (lit : string) (v : value) (s : string)
  : option (value * string) :=
  if String.prefix lit s
  then Some (v, String.substring (String.length lit)
                                 (String.length s - String.length lit) s)
  else None.

(** [parse_value] reads one value; [parse_elements] and [parse_members]
    read what follows the first element of an array or the first member
    of an object. The fuel bounds the number of nested calls. *)
Fixpoint parse_value (fuel : nat) (s : string) {struct fuel}
  : option (value * string) :=
  match fuel with
  | O => None
  | S fuel' =>
      match skip_ws s with
      | EmptyString => None
      | String c s' =>
          if Ascii.eqb c "{" then
            match skip_ws s' with
            | String "}" r => Some (VObject [], r)
            | _ => parse_members fuel' [] s'
            end
          else if Ascii.eqb c "[" then
            match skip_ws s' with
            | String "]" r => Some (VArray [], r)
            | _ => parse_elements fuel' [] s'
            end
          else if Ascii.eqb c dquote then
            match parse_string s' with
            | Some (str, r) => Some (VString str, r)
            | None => None
            end
          else if Ascii.eqb c "t" then expect "true" (VBool true) (String c s')
          else if Ascii.eqb c "f" then expect "false" (VBool false) (String c s')
          else if Ascii.eqb c "n" then expect "null" VNull (String c s')
          else
            match parse_number (String c s') with
            | Some (n, r) => Some (VNumber n, r)
            | None => None
            end
      end
  end

with parse_elements (fuel : nat) (acc : list value) (s : string)
     {struct fuel} : option (value * string) :=
  match fuel with
  | O => None
  | S fuel' =>
      match parse_value fuel' s with
      | Some (v, r) =>
          match skip_ws r with
          | String "," r' => parse_elements fuel' (acc ++ [v]) r'
          | String "]" r' => Some (VArray (acc ++ [v]), r')
          | _ => None
          end
      | None => None
      end
  end

with parse_members (fuel : nat) (acc : list (string * value)) (s : string)
     {struct fuel} : option (value * string) :=
  match fuel with
  | O => None
  | S fuel' =>
      match skip_ws s with
      | String c s1 =>
          if Ascii.eqb c dquote then
            match parse_string s1 with
            | Some (key, s2) =>
                match skip_ws s2 with
                | String ":" s3 =>
                    match parse_value fuel' s3 with
                    | Some (v, r) =>
                        match skip_ws r with
                        | String "," r' =>
                            parse_members fuel' (JSValue.set acc key v) r'
                        | String "}" r' =>
                            Some (VObject (JSValue.set acc key v), r')
                        | _ => None
                        end
                    | None => None
                    end
                | _ => None
                end
            | None => None
            end
          else None
      | EmptyString => None
      end
  end.

(** [JSON.parse(text)] *)
Definition parse (text : string) : option value :=
  match parse_value (2 * String.length text + 4) text with
  | Some (v, r) => if is_empty (skip_ws r) then Some v else None
  | None => None
  end.

End JSON.

(* ================================================================== *)
(** * The repair pipeline ([repair/]) *)
(* ================================================================== *)

Module Repair.

Definition ch_eq (a b : ascii) : bool := Ascii.eqb a b.

(** ** [extractors/markdown.ts] *)

Record MarkdownExtractionResult : Type := {
  md_extracted : bool;
  md_text : string;
  md_language : option string
}.

Definition backticks3 : regex := RStr "```".

(** [/```(?:json|JSON)\s*\n?([\s\S]*?)```/] *)
Definition jsonBlockRegex : regex :=
  RSeq backticks3
    (RSeq (RAlt (RStr "json") (RStr "JSON"))
       (RSeq (RStar true (RSet is_space))
          (RSeq (ROpt (RChar newline))
             (RSeq (RGroup 1 (RStar false (RSet any_char))) backticks3)))).

(** [/```\s*\n?([\s\S]*?)```/] *)
Definition genericBlockRegex : regex :=
  RSeq backticks3
    (RSeq (RStar true (RSet is_space))
       (RSeq (ROpt (RChar newline))
          (RSeq (RGroup 1 (RStar false (RSet any_char))) backticks3))).

(** [/`(\{[^`]*\})`/] *)
Definition inlineObjectRegex : regex :=
  RSeq (RChar "`")
    (RSeq (RGroup 1 (RSeq (RChar "{")
                       (RSeq (RStar true (RSet (none_of "`"))) (RChar "}"))))
       (RChar "`")).

(** [/`(\[[^`]*\])`/] *)
Definition inlineArrayRegex : regex :=
  RSeq (RChar "`")
    (RSeq (RGroup 1 (RSeq (RChar "[")
                       (RSeq (RStar true (RSet (none_of "`"))) (RChar "]"))))
       (RChar "`")).

Definition no_markdown (trimmed : string) : MarkdownExtractionResult :=
  {| md_extracted := false; md_text := trimmed; md_language := None |}.

Definition inline_code (trimmed : string) : MarkdownExtractionResult :=
  match group_truthy 1 (exec inlineObjectRegex trimmed) with
  | Some obj => {| md_extracted := true; md_text := obj; md_language := None |}
  | None =>
      match group_truthy 1 (exec inlineArrayRegex trimmed) with
      | Some arr =>
          {| md_extracted := true; md_text := arr; md_language := None |}
      | None => no_markdown trimmed
      end
  end.

Definition extractFromMarkdown (input : string) : MarkdownExtractionResult :=
  let trimmed := trim input in
  match group_truthy 1 (exec jsonBlockRegex trimmed) with
  | Some block =>
      {| md_extracted := true; md_text := trim block;
         md_language := Some "json" |}
  | None =>
      match group_truthy 1 (exec genericBlockRegex trimmed) with
      | Some block =>
          let content := trim block in
          if startsWith content "{" || startsWith content "["
          then {| md_extracted := true; md_text := content;
                  md_language := None |}
          else inline_code trimmed
      | None => inline_code trimmed
      end
  end.

(** ** [extractors/text.ts] *)

Record TextExtractionResult : Type := {
  tx_extracted : bool;
  tx_text : string
}.

(** The loop of [findBalancedJSON], from index [i] on: the characters up
    to and including the closer that brings the depth back to zero. *)
Fixpoint balanced_from (openChar closeChar : ascii) (depth : Z)
         (inString escapeNext : bool) (s : string) : option string :=
  match s with
  | EmptyString => None
  | String c s' =>
      let keep (r : option string) := option_map (String c) r in
      if escapeNext then
        keep (balanced_from openChar closeChar depth inString false s')
      else if ch_eq c backslash && inString then
        keep (balanced_from openChar closeChar depth inString true s')
      else if ch_eq c dquote then
        keep (balanced_from openChar closeChar depth (negb inString) false s')
      else if inString then
        keep (balanced_from openChar closeChar depth inString false s')
      else if ch_eq c openChar then
        keep (balanced_from openChar closeChar (depth + 1)%Z inString false s')
      else if ch_eq c closeChar then
        if (depth - 1 =? 0)%Z then Some (String c EmptyString)
        else keep (balanced_from openChar closeChar (depth - 1)%Z
                                 inString false s')
      else keep (balanced_from openChar closeChar depth inString false s')
  end.

(** The text from [text.indexOf(openChar)] on. *)
Fixpoint from_first (openChar : ascii) (s : string) : option string :=
  match s with
  | EmptyString => None
  | String c s' => if ch_eq c openChar then Some s else from_first openChar s'
  end.

Definition findBalancedJSON (text : string) (openChar closeChar : ascii)
  : option string :=
  match from_first openChar text with
  | None => None
  | Some s => balanced_from openChar closeChar 0 false false s
  end.

Definition extractJSONFromText (input : string) : TextExtractionResult :=
  let trimmed := trim input in
  if (startsWith trimmed "{" && endsWith trimmed "}") ||
     (startsWith trimmed "[" && endsWith trimmed "]")
  then {| tx_extracted := false; tx_text := trimmed |}
  else
    match findBalancedJSON trimmed "{" "}" with
    | Some json => {| tx_extracted := true; tx_text := json |}
    | None =>
        match findBalancedJSON trimmed "[" "]" with
        | Some json => {| tx_extracted := true; tx_text := json |}
        | None => {| tx_extracted := false; tx_text := trimmed |}
        end
    end.

(** ** [fixers/comments.ts] *)

Inductive comment_mode : Type := InCode | InLineComment | InBlockComment.

(** The main loop of [removeJSONComments] with its two inner loops: a
    line comment is skipped up to (not including) the line feed; a block
    comment is skipped while [i < input.length - 1], so the last
    character of an unterminated block comment is handed back to the
    main loop. *)
Fixpoint comments_loop (mode : comment_mode) (inString escapeNext : bool)
         (s : string) : string :=
  match s with
  | EmptyString => EmptyString
  | String c s' =>
      match mode with
      | InLineComment =>
          if ch_eq c newline
          then String c (comments_loop InCode false false s')
          else comments_loop InLineComment false false s'
      | InBlockComment =>
          match s' with
          | EmptyString => String c EmptyString
          | String c' s'' =>
              if ch_eq c "*" && ch_eq c' "/"
              then comments_loop InCode false false s''
              else comments_loop InBlockComment false false s'
          end
      | InCode =>
          if escapeNext then String c (comments_loop InCode inString false s')
          else if ch_eq c backslash && inString
          then String c (comments_loop InCode inString true s')
          else if ch_eq c dquote
          then String c (comments_loop InCode (negb inString) false s')
          else
            match s' with
            | String c' s'' =>
                if negb inString && ch_eq c "/" && ch_eq c' "/"
                then comments_loop InLineComment false false s''
                else if negb inString && ch_eq c "/" && ch_eq c' "*"
                then comments_loop InBlockComment false false s''
                else String c (comments_loop InCode inString false s')
            | EmptyString => String c EmptyString
            end
      end
  end.

Definition removeJSONComments (input : string) : string :=
  comments_loop InCode false false input.

(** ** [fixers/quotes.ts] *)

Fixpoint quotes_loop (inDoubleString inSingleString : bool) (s : string)
  : string :=
  match s with
  | EmptyString => EmptyString
  | String c s' =>
      if ch_eq c backslash then
        match s' with
        | String nextChar s'' =>
            if inSingleString && ch_eq nextChar "'"
            then String backslash
                   (String dquote
                      (quotes_loop inDoubleString inSingleString s''))
            else String c
                   (String nextChar
                      (quotes_loop inDoubleString inSingleString s''))
        | EmptyString => String c EmptyString
        end
      else if ch_eq c dquote && negb inSingleString
      then String c (quotes_loop (negb inDoubleString) inSingleString s')
      else if ch_eq c "'" && negb inDoubleString
      then String dquote (quotes_loop inDoubleString (negb inSingleString) s')
      else String c (quotes_loop inDoubleString inSingleString s')
  end.

Definition fixSingleQuotes (input : string) : string :=
  quotes_loop false false input.

(** ** [fixers/keys.ts] *)

Definition is_ident_start (c : ascii) : bool :=
  is_alpha c || ch_eq c "_" || ch_eq c "$".
Definition is_ident_char (c : ascii) : bool :=
  is_alpha c || is_digit c || ch_eq c "_" || ch_eq c "$".

(** The global pattern of [fixUnquotedKeys], written here with spaces
    between its parts: [( [{,] \s* ) ( [a-zA-Z_$] [a-zA-Z0-9_$]* ) \s* :] *)
Definition unquotedKeyRegex : regex :=
  RSeq (RGroup 1 (RSeq (RSet (one_of "{,")) (RStar true (RSet is_space))))
    (RSeq (RGroup 2 (RSeq (RSet is_ident_start)
                       (RStar true (RSet is_ident_char))))
       (RSeq (RStar true (RSet is_space)) (RChar ":"))).

Definition fixUnquotedKeys (input : string) : string :=
  replace_all unquotedKeyRegex
    (fun cs => dollar 1 cs ++ String dquote (dollar 2 cs)
               ++ String dquote ":")
    input.

(** ** [fixers/numbers.ts] *)

(** [/:\s*<body>/] *)
Definition after_colon (body : regex) : regex :=
  RSeq (RChar ":") (RSeq (RStar true (RSet is_space)) body).

(** [/:\s*NaN\b/g] *)
Definition nanRegex : regex := after_colon (RSeq (RStr "NaN") RWordB).
(** [/:\s*Infinity\b/g] *)
Definition infinityRegex : regex :=
  after_colon (RSeq (RStr "Infinity") RWordB).
(** [/:\s*-Infinity\b/g] *)
Definition minusInfinityRegex : regex :=
  after_colon (RSeq (RStr "-Infinity") RWordB).
(** [/:\s*-?Infinity\b/g] *)
Definition anyInfinityRegex : regex :=
  after_colon (RSeq (ROpt (RChar "-")) (RSeq (RStr "Infinity") RWordB)).
(** [/:\s*undefined\b/g] *)
Definition undefinedRegex : regex :=
  after_colon (RSeq (RStr "undefined") RWordB).

Definition quoted (s : string) : string :=
  String dquote (s ++ String dquote EmptyString).

Definition fixSpecialNumbers (input : string) (asStrings : bool) : string :=
  let result := input in
  let result :=
    if asStrings
    then replace_all nanRegex (fun _ => ": " ++ quoted "NaN") result
    else replace_all nanRegex (fun _ => ": null") result in
  let result :=
    if asStrings
    then replace_all minusInfinityRegex (fun _ => ": " ++ quoted "-Infinity")
           (replace_all infinityRegex (fun _ => ": " ++ quoted "Infinity")
              result)
    else replace_all anyInfinityRegex (fun _ => ": null") result in
  replace_all undefinedRegex (fun _ => ": null") result.

(** [/:\s*\.(\d)/g] *)
Definition leadingDotRegex : regex :=
  after_colon (RSeq (RChar ".") (RGroup 1 (RSet is_digit))).

(** [/:\s*(\d+)\.\s*(,|\}|\])/g] *)
Definition trailingDotRegex : regex :=
  after_colon
    (RSeq (RGroup 1 (RPlus (RSet is_digit)))
       (RSeq (RChar ".")
          (RSeq (RStar true (RSet is_space))
             (RGroup 2 (RAlt (RChar ",") (RAlt (RChar "}") (RChar "]"))))))).

(** [/:\s*0x([0-9a-fA-F]+)\b/g], [/:\s*0o([0-7]+)\b/g], [/:\s*0b([01]+)\b/g] *)
Definition radixRegex (letter : ascii) (radix : Z) : regex :=
  after_colon
    (RSeq (RChar "0")
       (RSeq (RChar letter)
          (RSeq (RGroup 1 (RPlus (RSet (JSNum.is_digit_in radix)))) RWordB))).

(** [`: ${parseInt(digits, radix)}`] *)
Definition radix_replacement (radix : Z) (cs : list (nat * string)) : string :=
  ": " ++ JSNum.Z_to_string (JSNum.digits_value radix 0 (dollar 1 cs)).

Definition fixNumberFormats (input : string) : string :=
  let result := input in
  let result :=
    replace_all leadingDotRegex (fun cs => ": 0." ++ dollar 1 cs) result in
  let result :=
    replace_all trailingDotRegex
      (fun cs => ": " ++ dollar 1 cs ++ ".0" ++ dollar 2 cs) result in
  let result := replace_all (radixRegex "x" 16) (radix_replacement 16) result in
  let result := replace_all (radixRegex "o" 8) (radix_replacement 8) result in
  replace_all (radixRegex "b" 2) (radix_replacement 2) result.

(** ** [fixers/commas.ts] *)

(** The look-ahead of [fixTrailingCommas]: after white space, a closing
    brace or bracket. *)
Definition closer_follows (s : string) : bool :=
  match trimStart s with
  | String c _ => ch_eq c "}" || ch_eq c "]"
  | EmptyString => false
  end.

Fixpoint commas_loop (inString escapeNext : bool) (s : string) : string :=
  match s with
  | EmptyString => EmptyString
  | String c s' =>
      if escapeNext then String c (commas_loop inString false s')
      else if ch_eq c backslash && inString
      then String c (commas_loop inString true s')
      else if ch_eq c dquote
      then String c (commas_loop (negb inString) false s')
      else if inString then String c (commas_loop inString false s')
      else if ch_eq c "," && closer_follows s'
      then commas_loop inString false s'
      else String c (commas_loop inString false s')
  end.

Definition fixTrailingCommas (input : string) : string :=
  commas_loop false false input.

(** ** [fixers/brackets.ts] *)

(** The scan of [tryCloseBrackets]: the stack of expected closers (top
    first) and whether the scan ends inside a string. *)
Fixpoint brackets_scan (stack : list ascii) (inString escapeNext : bool)
         (s : string) : list ascii * bool :=
  match s with
  | EmptyString => (stack, inString)
  | String c s' =>
      if escapeNext then brackets_scan stack inString false s'
      else if ch_eq c backslash && inString
      then brackets_scan stack inString true s'
      else if ch_eq c dquote then brackets_scan stack (negb inString) false s'
      else if inString then brackets_scan stack inString false s'
      else if ch_eq c "{" then brackets_scan ("}"%char :: stack) inString false s'
      else if ch_eq c "[" then brackets_scan ("]"%char :: stack) inString false s'
      else if ch_eq c "}" || ch_eq c "]" then
        match stack with
        | top :: stack' =>
            if ch_eq top c then brackets_scan stack' inString false s'
            else brackets_scan stack inString false s'
        | [] => brackets_scan stack inString false s'
        end
      else brackets_scan stack inString false s'
  end.

Definition tryCloseBrackets (input : string) : string :=
  let (stack, inString) := brackets_scan [] false false input in
  input ++ (if inString then String dquote EmptyString else EmptyString)
        ++ string_of_list_ascii stack.

(** ** [repair.ts] *)

(** [RepairOptions]; [None] is an absent field. *)
Record RepairOptions : Type := {
  markdown : option bool;
  extractFromText : option bool;
  removeComments : option bool;
  singleQuotes : option bool;
  unquotedKeys : option bool;
  trailingCommas : option bool;
  closeBrackets : option bool;
  handleSpecialNumbers : option bool;
  fixNumberFormatsOpt : option bool
}.

(** [{}], the default argument. *)
Definition no_options : RepairOptions :=
  {| markdown := None; extractFromText := None; removeComments := None;
     singleQuotes := None; unquotedKeys := None; trailingCommas := None;
     closeBrackets := None; handleSpecialNumbers := None;
     fixNumberFormatsOpt := None |}.

(** [{ ...DEFAULT_OPTIONS, ...options }.field]: every default is [true]. *)
Definition enabled (field : option bool) : bool :=
  match field with Some b => b | None => true end.

Record RepairAction : Type := {
  ra_type : string;
  ra_description : string
}.

Inductive JSError : Type := SyntaxError.

Record RepairResult : Type := {
  success : bool;
  data : option value;
  text : string;
  repaired : bool;
  repairs : list RepairAction;
  error : option JSError
}.

(** One fixer stage: run it when enabled, log it when the text changed. *)
Definition stage (on : bool) (fixer : string -> string) (action : RepairAction)
           (st : string * list RepairAction) : string * list RepairAction :=
  let (text, repairs) := st in
  if on then
    let before := text in
    let text := fixer text in
    if negb (String.eqb text before) then (text, (repairs ++ [action])%list)
    else (text, repairs)
  else st.

(** One extractor stage: replace the text and log only when something was
    extracted. *)
Definition extract_stage (on : bool) (extractor : string -> bool * string)
           (action : RepairAction)
           (st : string * list RepairAction) : string * list RepairAction :=
  let (text, repairs) := st in
  if on then
    let (extracted, result) := extractor text in
    if extracted then (result, (repairs ++ [action])%list) else st
  else st.

Definition act (type description : string) : RepairAction :=
  {| ra_type := type; ra_description := description |}.

(** The nine stages, in the order of the source. *)
Definition run_stages (opts : RepairOptions) (input : string)
  : string * list RepairAction :=
  let st := (input, []) in
  let st := extract_stage (enabled (markdown opts))
              (fun t => let r := extractFromMarkdown t in
                        (md_extracted r, md_text r))
              (act "markdown" "Extracted JSON from markdown code block") st in
  let st := extract_stage (enabled (extractFromText opts))
              (fun t => let r := extractJSONFromText t in
                        (tx_extracted r, tx_text r))
              (act "extractFromText" "Extracted JSON from surrounding text")
              st in
  let st := stage (enabled (removeComments opts)) removeJSONComments
              (act "removeComments" "Removed comments") st in
  let st := stage (enabled (singleQuotes opts)) fixSingleQuotes
              (act "singleQuotes" "Converted single quotes to double quotes")
              st in
  let st := stage (enabled (unquotedKeys opts)) fixUnquotedKeys
              (act "unquotedKeys" "Added quotes to unquoted keys") st in
  let st := stage (enabled (handleSpecialNumbers opts))
              (fun t => fixSpecialNumbers t false)
              (act "specialNumbers" "Replaced special number values") st in
  let st := stage (enabled (fixNumberFormatsOpt opts)) fixNumberFormats
              (act "numberFormats" "Fixed non-standard number formats") st in
  let st := stage (enabled (trailingCommas opts)) fixTrailingCommas
              (act "trailingCommas" "Removed trailing commas") st in
  stage (enabled (closeBrackets opts)) tryCloseBrackets
    (act "closeBrackets" "Closed unclosed brackets") st.

Definition repairJSON (input : string) (options : RepairOptions)
  : RepairResult :=
  let originalText := input in
  let (text, repairs) := run_stages options input in
  match JSON.parse text with
  | Some parsed =>
      {| success := true; data := Some parsed; text := text;
         repaired := negb (String.eqb text originalText);
         repairs := repairs; error := None |}
  | None =>
      {| success := false; data := None; text := text;
         repaired := negb (String.eqb text originalText);
         repairs := repairs; error := Some SyntaxError |}
  end.

(** [isValidJSON(input)] *)
Definition isValidJSON (input : string) : bool :=
  match JSON.parse input with Some _ => true | None => false end.

End Repair.


(* ================================================================== *)
(** * Issues and the parse context ([errors/], [parse/]) *)
(* ================================================================== *)

Inductive PathSegment : Type :=
| PKey (key : string)
| PIndex (index : nat).

(** A validation issue: its code with the fields of that code, the path
    and the message. [message = None] stands for the default message that
    [getErrorMessage] renders from the other fields (the message catalogue
    of [errors/messages.ts] is a lookup table and is not embedded). *)
Inductive Issue : Type :=
| Build_Issue (detail : IssueDetail) (path : list PathSegment)
              (message : option string)
with IssueDetail : Type :=
| invalid_type (expected received : string)
| invalid_string (validation : string)
| too_small (type : string) (minimum : JSNumber) (inclusive : bool)
            (exact : option bool)
| too_big (type : string) (maximum : JSNumber) (inclusive : bool)
          (exact : option bool)
| not_finite
| unrecognized_keys (keys : list string)
| invalid_union (unionErrors : list Issue)
| invalid_enum_value (options : list string) (received : string)
| invalid_intersection_types.

Definition issue_detail (i : Issue) : IssueDetail :=
  match i with Build_Issue d _ _ => d end.
Definition issue_path (i : Issue) : list PathSegment :=
  match i with Build_Issue _ p _ => p end.
Definition issue_message (i : Issue) : option string :=
  match i with Build_Issue _ _ m => m end.

(** [ValaiError]: the error object carries the issue list. *)
Record ValaiError : Type := { error_issues : list Issue }.

(** [errors/messages.ts], [getTypeName] *)
Definition getTypeName (v : value) : string :=
  match v with
  | VNull => "null"
  | VUndefined => "undefined"
  | VArray _ => "array"
  | VObject _ | VBuiltin Object_prototype => "object"
  | _ => JSValue.typeof v
  end.

(** ** [parse/result.ts] *)

(** The two results of [_parse], and a third outcome for a call of
    [_parse] that does not return because an exception leaves it (the
    [TypeError] of a conversion to string); no code of the validation
    catches it, so it leaves every caller as well. *)
Inductive ParseReturnType : Type :=
| valid (v : value)
| invalid
| thrown.

Definition isValid (r : ParseReturnType) : bool :=
  match r with valid _ => true | _ => false end.

(** The two results of the entry points, and [ParseThrows] for a call
    that an exception leaves. *)
Inductive ParseResult : Type :=
| ParseSuccess (data : value)
| ParseFailure (error : ValaiError) (partial : value)
| ParseThrows.

Definition result_success (r : ParseResult) : bool :=
  match r with ParseSuccess _ => true | _ => false end.

(** ** The store of issue arrays

    Every [ParseContext] owns one [issues] array, allocated by its
    constructor and later mutated through [push] by the context itself and
    by its descendants. The store maps the allocation index of an array to
    its current content. *)

Abbreviation Store := (list (list Issue)).

Definition M (A : Type) : Type := Store -> A * Store.

Definition ret {A : Type} (a : A) : M A := fun st => (a, st).

Definition bind {A B : Type} (m : M A) (k : A -> M B) : M B :=
  fun st => let (a, st') := m st in k a st'.

Notation "'let*' x ':=' m 'in' k" := (bind m (fun x => k))
  (at level 10, x pattern, m at level 100, k at level 200).

(** [new Array()] *)
Definition alloc : M nat := fun st => (length st, (st ++ [[]])%list).

(** [arr.push(i)] *)
Definition push (arr : nat) (i : Issue) : M unit :=
  fun st => (tt, alter (fun l => (l ++ [i])%list) arr st).

(** The current content of an array. *)
Definition read (arr : nat) : M (list Issue) :=
  fun st => (default [] (st !! arr), st).

(** ** [parse/context.ts] *)

Inductive ParseMode : Type := strict_mode | llm_mode.

(** [LLMParseOptions]; [None] is an absent (or [undefined]) field. *)
Record LLMParseOptions : Type := {
  coerce : option bool;
  repair : option bool;
  extractFromMarkdown : option bool;
  useDefaults : option bool
}.

Definition default_llmOptions : LLMParseOptions :=
  {| coerce := Some true; repair := Some true;
     extractFromMarkdown := Some true; useDefaults := Some true |}.

Inductive ParseContext : Type := Build_ParseContext {
  data : value;
  mode : ParseMode;
  path : list PathSegment;
  issues : nat;                      (* the [issues] array, by reference *)
  parent : option ParseContext;
  llmOptions : LLMParseOptions
}.

(** [new ParseContext(options)] *)
Definition new_ParseContext (d : value) (m : ParseMode)
           (p : option (list PathSegment)) (par : option ParseContext)
           (o : option LLMParseOptions) : M ParseContext :=
  let* arr := alloc in
  ret {| data := d; mode := m;
         path := match p with Some p' => p' | None => [] end;
         issues := arr; parent := par;
         llmOptions := match o with
                       | Some o' => o'
                       | None => default_llmOptions
                       end |}.

Definition child (ctx : ParseContext) (d : value) (pathSegment : PathSegment)
  : M ParseContext :=
  new_ParseContext d (mode ctx) (Some (path ctx ++ [pathSegment])%list)
                   (Some ctx) (Some (llmOptions ctx)).

Definition sibling (ctx : ParseContext) (d : value) : M ParseContext :=
  new_ParseContext d (mode ctx) (Some (path ctx)) (parent ctx)
                   (Some (llmOptions ctx)).

Definition isLLMMode (ctx : ParseContext) : bool :=
  match mode ctx with llm_mode => true | strict_mode => false end.

(** [x ?? true] *)
Definition or_true (x : option bool) : bool :=
  match x with Some b => b | None => true end.

Definition shouldCoerce (ctx : ParseContext) : bool :=
  isLLMMode ctx && or_true (coerce (llmOptions ctx)).

Definition shouldUseDefaults (ctx : ParseContext) : bool :=
  isLLMMode ctx && or_true (useDefaults (llmOptions ctx)).

(** [collectIssueInParent] follows the [parent] references up to the root. *)
Fixpoint collectIssueInParent (ctx : ParseContext) (issue : Issue) : M unit :=
  match ctx with
  | Build_ParseContext _ _ _ _ (Some p) _ =>
      let* _ := push (issues p) issue in
      collectIssueInParent p issue
  | Build_ParseContext _ _ _ _ None _ => ret tt
  end.

Definition addIssue (ctx : ParseContext) (detail : IssueDetail)
           (message : option string) : M ParseReturnType :=
  let fullIssue := Build_Issue detail (path ctx) message in
  let* _ := push (issues ctx) fullIssue in
  let* _ := collectIssueInParent ctx fullIssue in
  ret invalid.

Definition addInvalidTypeIssue (ctx : ParseContext) (expected : string)
           (received : value) : M ParseReturnType :=
  addIssue ctx
    (invalid_type expected (getTypeName (JSValue.nullish received (data ctx))))
    None.

Definition success (ctx : ParseContext) (v : value) : M ParseReturnType :=
  ret (valid v).

Definition hasIssues (ctx : ParseContext) : M bool :=
  let* l := read (issues ctx) in ret (0 <? length l).

Definition finalize (ctx : ParseContext) (result : ParseReturnType)
  : M ParseResult :=
  let* l := read (issues ctx) in
  match result with
  | valid v =>
      if length l =? 0 then ret (ParseSuccess v)
      else ret (ParseFailure {| error_issues := l |} v)
  | invalid => ret (ParseFailure {| error_issues := l |} VUndefined)
  | thrown => ret ParseThrows        (* the call is never reached *)
  end.

(** The ancestors of a context, nearest first. *)
Fixpoint ancestors (ctx : ParseContext) : list ParseContext :=
  match ctx with
  | Build_ParseContext _ _ _ _ (Some p) _ => p :: ancestors p
  | Build_ParseContext _ _ _ _ None _ => []
  end.

Definition createStrictContext (d : value) : M ParseContext :=
  new_ParseContext d strict_mode None None None.

(** [{ coerce: true, repair: true, extractFromMarkdown: true,
       useDefaults: true, ...options }] *)
Definition merge_llmOptions (options : option LLMParseOptions)
  : LLMParseOptions :=
  let over (x : option bool) :=
    match x with Some b => Some b | None => Some true end in
  match options with
  | None => default_llmOptions
  | Some o =>
      {| coerce := over (coerce o); repair := over (repair o);
         extractFromMarkdown := over (extractFromMarkdown o);
         useDefaults := over (useDefaults o) |}
  end.

Definition createLLMContext (d : value) (options : option LLMParseOptions)
  : M ParseContext :=
  new_ParseContext d llm_mode None None (Some (merge_llmOptions options)).

(* ================================================================== *)
(** * The schema hierarchy ([schemas/])

    The embedding covers the string, number, array, object, union, enum
    and intersection schemas and the optional, nullable and default
    wrappers. Of the checks,
    [multipleOf] (a remainder of binary floating-point numbers) is not
    embedded, and a [regex] check carries a pattern without the [g] and [y]
    flags. *)
(* ================================================================== *)

(** [ValaiTypeDef]: the metadata shared by all definitions. *)
Record Meta : Type := {
  description : option string;
  examples : option (list value)
}.

Definition no_meta : Meta := {| description := None; examples := None |}.

(** [StringCheck] of [types/base.ts] *)
Inductive StringCheck : Type :=
| SMin (value : JSNumber) (message : option string)
| SMax (value : JSNumber) (message : option string)
| SLength (value : JSNumber) (message : option string)
| SEmail (message : option string)
| SUrl (message : option string)
| SUuid (message : option string)
| SCuid (message : option string)
| SRegex (pattern : regex) (message : option string)
| SIncludes (value : string) (message : option string)
| SStartsWith (value : string) (message : option string)
| SEndsWith (value : string) (message : option string)
| STrim
| SToLowerCase
| SToUpperCase.

(** [NumberCheck] of [types/base.ts] *)
Inductive NumberCheck : Type :=
| NMin (value : JSNumber) (inclusive : bool) (message : option string)
| NMax (value : JSNumber) (inclusive : bool) (message : option string)
| NInt (message : option string)
| NPositive (message : option string)
| NNegative (message : option string)
| NNonnegative (message : option string)
| NNonpositive (message : option string)
| NFinite (message : option string).

Inductive UnknownKeys : Type := uk_strict | uk_strip | uk_passthrough.

Inductive Schema : Type :=
| ValaiString (checks : option (list StringCheck)) (meta : Meta)
| ValaiNumber (checks : option (list NumberCheck)) (meta : Meta)
| ValaiArray (element : Schema)
             (minLength maxLength exactLength : option JSNumber) (meta : Meta)
| ValaiObject (shape : list (string * Schema))
              (unknownKeys : option UnknownKeys) (meta : Meta)
| ValaiUnion (options : list Schema) (meta : Meta)
| ValaiEnum (values : list string) (meta : Meta)
| ValaiIntersection (leftSchema rightSchema : Schema) (meta : Meta)
| ValaiOptional (innerType : Schema) (meta : Meta)
| ValaiNullable (innerType : Schema) (meta : Meta)
| ValaiDefault (innerType : Schema) (defaultValue : value) (meta : Meta).

(** ** [schemas/string.ts] *)

Module StringPatterns.

Definition not_space_at (c : ascii) : bool :=
  negb (is_space c) && negb (Ascii.eqb c "@").

(** [/^[^\s@]+@[^\s@]+\.[^\s@]+$/] *)
Definition EMAIL_REGEX : regex :=
  RSeq RBegin
    (RSeq (RPlus (RSet not_space_at))
       (RSeq (RChar "@")
          (RSeq (RPlus (RSet not_space_at))
             (RSeq (RChar ".") (RSeq (RPlus (RSet not_space_at)) REnd))))).

(** A letter of a pattern with the [i] flag. *)
Definition ci (lower upper : ascii) : regex :=
  RSet (fun c => Ascii.eqb c lower || Ascii.eqb c upper).

(** [.]: any character except a line terminator. *)
Definition dot (c : ascii) : bool := negb (code c =? 10) && negb (code c =? 13).

(** [/^https?:\/\/[^\s/$.?#].[^\s]*$/i] *)
Definition URL_REGEX : regex :=
  RSeq RBegin
    (RSeq (ci "h" "H")
       (RSeq (ci "t" "T")
          (RSeq (ci "t" "T")
             (RSeq (ci "p" "P")
                (RSeq (ROpt (ci "s" "S"))
                   (RSeq (RStr "://")
                      (RSeq (RSet (fun c => negb (is_space c)
                                            && none_of "/$.?#" c))
                         (RSeq (RSet dot)
                            (RSeq (RStar true (RSet (fun c => negb (is_space c))))
                               REnd))))))))).

(** [[0-9a-f]] with the [i] flag *)
Definition hex_ci (c : ascii) : bool := JSNum.is_digit_in 16 c.

(** [/^[0-9a-f]{8}-[0-9a-f]{4}-4[0-9a-f]{3}-[89ab][0-9a-f]{3}-[0-9a-f]{12}$/i] *)
Definition UUID_REGEX : regex :=
  RSeq RBegin
    (RSeq (RRepeat 8 (RSet hex_ci))
       (RSeq (RChar "-")
          (RSeq (RRepeat 4 (RSet hex_ci))
             (RSeq (RChar "-")
                (RSeq (RChar "4")
                   (RSeq (RRepeat 3 (RSet hex_ci))
                      (RSeq (RChar "-")
                         (RSeq (RSet (one_of "89abAB"))
                            (RSeq (RRepeat 3 (RSet hex_ci))
                               (RSeq (RChar "-")
                                  (RSeq (RRepeat 12 (RSet hex_ci))
                                     REnd))))))))))).

Definition not_space_dash (c : ascii) : bool :=
  negb (is_space c) && negb (Ascii.eqb c "-").

(** [/^c[^\s-]{8,}$/i] *)
Definition CUID_REGEX : regex :=
  RSeq RBegin
    (RSeq (ci "c" "C")
       (RSeq (RRepeat 8 (RSet not_space_dash))
          (RSeq (RStar true (RSet not_space_dash)) REnd))).

End StringPatterns.

(** [toLowerCase] and [toUpperCase] on the code units 0..255. The two code
    units whose upper case lies outside this range (U+00B5, U+00FF) are
    left unchanged. *)
Definition lower_char (c : ascii) : ascii :=
  let n := code c in
  if is_upper c || ((192 <=? n) && (n <=? 222) && negb (n =? 215))
  then ascii_of_nat (n + 32) else c.

Fixpoint toLowerCase (s : string) : string :=
  match s with
  | EmptyString => EmptyString
  | String c s' => String (lower_char c) (toLowerCase s')
  end.

Fixpoint toUpperCase (s : string) : string :=
  match s with
  | EmptyString => EmptyString
  | String c s' =>
      let n := code c in
      if n =? 223 then String "S" (String "S" (toUpperCase s'))
      else if is_lower c || ((224 <=? n) && (n <=? 254) && negb (n =? 247))
      then String (ascii_of_nat (n - 32)) (toUpperCase s')
      else String c (toUpperCase s')
  end.

(** [a !== b] on numbers *)
Definition num_neq (a b : JSNumber) : bool :=
  match a, b with
  | Finite x, Finite y => negb (Qeq_bool x y)
  | Infinity s, Infinity t => negb (Bool.eqb s t)
  | _, _ => true
  end.

(** [x ?? d] for an optional message *)
Definition message_or (m : option string) (d : string) : option string :=
  match m with Some s => Some s | None => Some d end.

(** [if (cond) ctx.addIssue(...)] *)
Definition issue_when (cond : bool) (ctx : ParseContext) (d : IssueDetail)
           (message : option string) : M unit :=
  if cond then let* _ := addIssue ctx d message in ret tt else ret tt.

(** One iteration of the check loop of [ValaiString._parse]: the running
    value after the check. *)
Definition string_check (ctx : ParseContext) (check : StringCheck)
           (result : string) : M string :=
  let len := JSNum.of_nat (String.length result) in
  match check with
  | STrim => ret (trim result)
  | SToLowerCase => ret (toLowerCase result)
  | SToUpperCase => ret (toUpperCase result)
  | SMin v m =>
      let* _ := issue_when (JSNum.lt len v) ctx
                  (too_small "string" v true None) m in ret result
  | SMax v m =>
      let* _ := issue_when (JSNum.gt len v) ctx
                  (too_big "string" v true None) m in ret result
  | SLength v m =>
      let* _ := issue_when (num_neq len v) ctx
                  (too_small "string" v true (Some true)) m in ret result
  | SEmail m =>
      let* _ := issue_when (negb (test StringPatterns.EMAIL_REGEX result)) ctx
                  (invalid_string "email") m in ret result
  | SUrl m =>
      let* _ := issue_when (negb (test StringPatterns.URL_REGEX result)) ctx
                  (invalid_string "url") m in ret result
  | SUuid m =>
      let* _ := issue_when (negb (test StringPatterns.UUID_REGEX result)) ctx
                  (invalid_string "uuid") m in ret result
  | SCuid m =>
      let* _ := issue_when (negb (test StringPatterns.CUID_REGEX result)) ctx
                  (invalid_string "cuid") m in ret result
  | SRegex r m =>
      let* _ := issue_when (negb (test r result)) ctx
                  (invalid_string "regex") m in ret result
  | SIncludes v m =>
      let* _ := issue_when (negb (includes result v)) ctx
                  (invalid_string "includes")
                  (message_or m ("String must include " ++ Repair.quoted v)) in
      ret result
  | SStartsWith v m =>
      let* _ := issue_when (negb (startsWith result v)) ctx
                  (invalid_string "startsWith")
                  (message_or m ("String must start with " ++ Repair.quoted v)) in
      ret result
  | SEndsWith v m =>
      let* _ := issue_when (negb (endsWith result v)) ctx
                  (invalid_string "endsWith")
                  (message_or m ("String must end with " ++ Repair.quoted v)) in
      ret result
  end.

Fixpoint string_checks (ctx : ParseContext) (cs : list StringCheck)
         (result : string) : M string :=
  match cs with
  | [] => ret result
  | check :: cs' =>
      let* result' := string_check ctx check result in
      string_checks ctx cs' result'
  end.

(** [checks ?? []] *)
Definition or_nil {A : Type} (l : option (list A)) : list A :=
  match l with Some l' => l' | None => [] end.

Definition ValaiString_parse (checks : option (list StringCheck))
           (ctx : ParseContext) : M ParseReturnType :=
  let value := data ctx in
  let value :=
    if shouldCoerce ctx then
      match value with
      | VUndefined | VNull | VString _ => Some value
      | _ => option_map VString (JSValue.toString value)
      end
    else Some value in
  match value with
  | None => ret thrown
  | Some (VString s) =>
      let* result := string_checks ctx (or_nil checks) s in
      let* has := hasIssues ctx in
      if has then ret invalid else success ctx (VString result)
  | Some _ => addInvalidTypeIssue ctx "string" VUndefined
  end.

(** ** [schemas/number.ts] *)

Definition number_check (ctx : ParseContext) (check : NumberCheck)
           (value : JSNumber) : M unit :=
  match check with
  | NMin v inclusive m =>
      issue_when (if inclusive then JSNum.lt value v else JSNum.le value v) ctx
        (too_small "number" v inclusive None) m
  | NMax v inclusive m =>
      issue_when (if inclusive then JSNum.gt value v else JSNum.ge value v) ctx
        (too_big "number" v inclusive None) m
  | NInt m =>
      issue_when (negb (JSNum.isInteger value)) ctx
        (invalid_type "integer" "float") m
  | NPositive m =>
      issue_when (JSNum.le value JSNum.zero) ctx
        (too_small "number" JSNum.zero false None)
        (message_or m "Number must be positive")
  | NNegative m =>
      issue_when (JSNum.ge value JSNum.zero) ctx
        (too_big "number" JSNum.zero false None)
        (message_or m "Number must be negative")
  | NNonnegative m =>
      issue_when (JSNum.lt value JSNum.zero) ctx
        (too_small "number" JSNum.zero true None)
        (message_or m "Number must be non-negative")
  | NNonpositive m =>
      issue_when (JSNum.gt value JSNum.zero) ctx
        (too_big "number" JSNum.zero true None)
        (message_or m "Number must be non-positive")
  | NFinite m =>
      issue_when (negb (JSNum.isFinite value)) ctx not_finite m
  end.

Fixpoint number_checks (ctx : ParseContext) (cs : list NumberCheck)
         (value : JSNumber) : M unit :=
  match cs with
  | [] => ret tt
  | check :: cs' =>
      let* _ := number_check ctx check value in
      number_checks ctx cs' value
  end.

Definition ValaiNumber_parse (checks : option (list NumberCheck))
           (ctx : ParseContext) : M ParseReturnType :=
  let value := data ctx in
  let value :=
    match value with
    | VString s =>
        if shouldCoerce ctx then
          let parsed := JSNum.StringToNumber s in
          if negb (JSNum.isNaN parsed) then VNumber parsed else value
        else value
    | _ => value
    end in
  match value with
  | VNumber n =>
      if JSNum.isNaN n then addInvalidTypeIssue ctx "number" (VString "NaN")
      else
        let* _ := number_checks ctx (or_nil checks) n in
        let* has := hasIssues ctx in
        if has then ret invalid else success ctx (VNumber n)
  | _ => addInvalidTypeIssue ctx "number" VUndefined
  end.

(** ** [_parse] of each schema class *)

Definition or_strip (u : option UnknownKeys) : UnknownKeys :=
  match u with Some u' => u' | None => uk_strip end.

Definition is_undefined (v : value) : bool :=
  match v with VUndefined => true | _ => false end.

(** [arr.includes(k)] *)
Definition includes_key (l : list string) (k : string) : bool :=
  existsb (String.eqb k) l.

(** The length checks of [ValaiArray._parse]. *)
Definition array_length_checks (ctx : ParseContext) (len : JSNumber)
           (minLength maxLength exactLength : option JSNumber) : M unit :=
  let* _ :=
    match minLength with
    | Some n => issue_when (JSNum.lt len n) ctx (too_small "array" n true None) None
    | None => ret tt
    end in
  let* _ :=
    match maxLength with
    | Some n => issue_when (JSNum.gt len n) ctx (too_big "array" n true None) None
    | None => ret tt
    end in
  match exactLength with
  | Some n =>
      issue_when (num_neq len n) ctx (too_small "array" n true (Some true)) None
  | None => ret tt
  end.

(** The element loop of [ValaiArray._parse]; [None] when the validation
    of an element throws. *)
Definition array_elements (parse_element : ParseContext -> M ParseReturnType)
           (ctx : ParseContext)
  : nat -> list value -> list value -> M (option (list value)) :=
  fix each (i : nat) (items : list value) (result : list value)
    : M (option (list value)) :=
    match items with
    | [] => ret (Some result)
    | item :: items' =>
        let* childCtx := child ctx item (PIndex i) in
        let* parseResult := parse_element childCtx in
        match parseResult with
        | valid v => each (S i) items' (result ++ [v])%list
        | invalid => each (S i) items' result
        | thrown => ret None
        end
    end.

(** The loop of [ValaiObject._parse] over the keys of the shape; [None]
    when the validation of a property throws. *)
Definition object_properties
           (parse_with : Schema -> ParseContext -> M ParseReturnType)
           (ctx : ParseContext) (input : value)
  : list (string * Schema) -> list (string * value)
    -> M (option (list (string * value))) :=
  fix each (entries : list (string * Schema))
      (result : list (string * value))
    : M (option (list (string * value))) :=
    match entries with
    | [] => ret (Some result)
    | (key, schema) :: entries' =>
        let value := JSValue.lookup input key in
        let* childCtx := child ctx value (PKey key) in
        let* parseResult := parse_with schema childCtx in
        match parseResult with
        | valid v =>
            if negb (is_undefined v) || JSValue.has_in input key
            then each entries' (JSValue.assign result key v)
            else each entries' result
        | invalid => each entries' result
        | thrown => ret None
        end
    end.

(** The unknown-key policy of [ValaiObject._parse]. *)
Definition object_unknown_keys (ctx : ParseContext)
           (unknownKeys : option UnknownKeys) (shapeKeys : list string)
           (input : value) (result : list (string * value))
  : M (list (string * value)) :=
  let inputKeys := JSValue.own_keys input in
  let extraKeys :=
    filter (fun k => negb (includes_key shapeKeys k)) inputKeys in
  if 0 <? length extraKeys then
    match or_strip unknownKeys with
    | uk_strict =>
        let* _ := addIssue ctx (unrecognized_keys extraKeys) None in
        ret result
    | uk_passthrough =>
        ret (fold_left
               (fun r key => JSValue.assign r key (JSValue.lookup input key))
               extraKeys result)
    | uk_strip => ret result
    end
  else ret result.

(** The loop of [ValaiUnion._parse] over the options. *)
Definition union_options
           (parse_with : Schema -> ParseContext -> M ParseReturnType)
           (ctx : ParseContext)
  : list Schema -> list Issue -> M ParseReturnType :=
  fix try (options : list Schema) (unionErrors : list Issue)
    : M ParseReturnType :=
    match options with
    | [] => addIssue ctx (invalid_union unionErrors) None
    | option :: options' =>
        let* testCtx := sibling ctx (data ctx) in
        let* result := parse_with option testCtx in
        let* has := hasIssues testCtx in
        match result with
        | valid v =>
            if negb has then success ctx v
            else
              let* collected := read (issues testCtx) in
              try options' (unionErrors ++ collected)%list
        | invalid =>
            let* collected := read (issues testCtx) in
            try options' (unionErrors ++ collected)%list
        | thrown => ret thrown
        end
    end.

(** ** [schemas/enum.ts] *)

Definition ValaiEnum_parse (options : list string) (ctx : ParseContext)
  : M ParseReturnType :=
  let value := data ctx in
  let checkValue :=
    match value with
    | VString _ => Some value
    | _ =>
        if shouldCoerce ctx then option_map VString (JSValue.toString value)
        else Some value
    end in
  match checkValue with
  | None => ret thrown
  | Some (VString s) =>
      let strict :=
        if negb (includes_key options s)
        then addIssue ctx (invalid_enum_value options s) None
        else success ctx (VString s) in
      if isLLMMode ctx then
        let lowerValue := toLowerCase s in
        match find (fun opt => String.eqb (toLowerCase opt) lowerValue)
                   options with
        | Some found =>
            if is_empty found then strict else success ctx (VString found)
        | None => strict
        end
      else strict
  | Some _ => addInvalidTypeIssue ctx "string" VUndefined
  end.

(** ** [ValaiIntersection] of [schemas/union.ts] *)

(** [a === b] when one of the two is not an object (two objects are
    merged before they are compared). *)
Definition same_primitive (a b : value) : bool :=
  match a, b with
  | VUndefined, VUndefined | VNull, VNull => true
  | VBool x, VBool y => Bool.eqb x y
  | VNumber x, VNumber y => negb (num_neq x y)
  | VString x, VString y => String.eqb x y
  | VBuiltin x, VBuiltin y =>
      String.eqb (JSValue.builtin_name x) (JSValue.builtin_name y)
  | _, _ => false
  end.

(** What [ValaiIntersection._parse] does with the two results. *)
Definition intersection_merge (ctx : ParseContext)
           (leftResult rightResult : ParseReturnType) : M ParseReturnType :=
  match leftResult, rightResult with
  | thrown, _ | _, thrown => ret thrown
  | valid leftValue, valid rightValue =>
      if JSValue.is_object leftValue && JSValue.is_object rightValue
      then success ctx
             (VObject (JSValue.spread
                         (JSValue.spread [] (JSValue.entries leftValue))
                         (JSValue.entries rightValue)))
      else if same_primitive leftValue rightValue then success ctx leftValue
      else addIssue ctx invalid_intersection_types
                    (Some "Intersection results could not be merged")
  | _, _ => ret invalid
  end.

Fixpoint Schema_parse (schema : Schema) (ctx : ParseContext) {struct schema}
  : M ParseReturnType :=
  match schema with
  | ValaiString checks _ => ValaiString_parse checks ctx
  | ValaiNumber checks _ => ValaiNumber_parse checks ctx

  | ValaiOptional innerType _ =>
      match data ctx with
      | VUndefined => success ctx VUndefined
      | _ => Schema_parse innerType ctx
      end

  | ValaiNullable innerType _ =>
      match data ctx with
      | VNull => success ctx VNull
      | _ => Schema_parse innerType ctx
      end

  | ValaiDefault innerType defaultValue _ =>
      match data ctx with
      | VUndefined => success ctx defaultValue
      | _ => Schema_parse innerType ctx
      end

  | ValaiArray element minLength maxLength exactLength _ =>
      match data ctx with
      | VArray input =>
          let* _ := array_length_checks ctx (JSNum.of_nat (length input))
                      minLength maxLength exactLength in
          let* elements :=
            array_elements (Schema_parse element) ctx 0 input [] in
          match elements with
          | Some result =>
              let* has := hasIssues ctx in
              if has then ret invalid else success ctx (VArray result)
          | None => ret thrown
          end
      | _ => addInvalidTypeIssue ctx "array" VUndefined
      end

  | ValaiObject shape unknownKeys _ =>
      if JSValue.is_plain_object (data ctx) then
        let input := data ctx in
        let shapeKeys := JSValue.keys shape in
        let* properties := object_properties Schema_parse ctx input shape [] in
        match properties with
        | Some result =>
            let* result :=
              object_unknown_keys ctx unknownKeys shapeKeys input result in
            let* has := hasIssues ctx in
            if has then ret invalid else success ctx (VObject result)
        | None => ret thrown
        end
      else addInvalidTypeIssue ctx "object" VUndefined

  | ValaiUnion options _ => union_options Schema_parse ctx options []

  | ValaiEnum values _ => ValaiEnum_parse values ctx

  | ValaiIntersection leftSchema rightSchema _ =>
      let* leftResult := Schema_parse leftSchema ctx in
      match leftResult with
      | thrown => ret thrown
      | _ =>
          let* siblingCtx := sibling ctx (data ctx) in
          let* rightResult := Schema_parse rightSchema siblingCtx in
          intersection_merge ctx leftResult rightResult
      end
  end.

(** ** [schemas/base.ts]: the abstract class [ValaiType]

    [_parse] is the abstract method; the entry points are defined once,
    for every class that implements it. *)

Class ValaiType (T : Type) : Type := {
  _parse : T -> ParseContext -> M ParseReturnType
}.

#[export] Instance Schema_ValaiType : ValaiType Schema := {
  _parse := Schema_parse
}.

(** A top-level call starts with no context allocated. *)
Definition run {A : Type} (m : M A) : A := fst (m []).

Definition safeParse {T : Type} `{ValaiType T} (schema : T) (d : value)
  : ParseResult :=
  run (let* ctx := createStrictContext d in
       let* result := _parse schema ctx in
       finalize ctx result).

(** What [parse] throws: the [ValaiError] of a failed validation, or the
    exception that left [safeParse]. *)
Inductive Thrown : Type :=
| ThrownValaiError (e : ValaiError)
| ThrownTypeError.

(** [parse] returns the data or throws; what it throws is the right
    injection. *)
Definition parse {T : Type} `{ValaiType T} (schema : T) (d : value)
  : value + Thrown :=
  match safeParse schema d with
  | ParseSuccess v => inl v
  | ParseFailure e _ => inr (ThrownValaiError e)
  | ParseThrows => inr ThrownTypeError
  end.

Definition parseStrict {T : Type} `{ValaiType T} (schema : T) (d : value)
  : ParseResult :=
  safeParse schema d.

(** The pattern [/```(?:json)?\s*([\s\S]*?)```/] *)
Definition markdownRegex : regex :=
  RSeq Repair.backticks3
    (RSeq (ROpt (RStr "json"))
       (RSeq (RStar true (RSet is_space))
          (RSeq (RGroup 1 (RStar false (RSet any_char))) Repair.backticks3))).

(** The pattern [/(\{[\s\S]*\}|\[[\s\S]*\])/] *)
Definition jsonRegex : regex :=
  RGroup 1
    (RAlt (RSeq (RChar "{") (RSeq (RStar true (RSet any_char)) (RChar "}")))
          (RSeq (RChar "[") (RSeq (RStar true (RSet any_char)) (RChar "]")))).

Definition _extractAndRepairJSON (input : string) : value :=
  let text := trim input in
  let text :=
    match group_truthy 1 (exec markdownRegex text) with
    | Some block => trim block
    | None => text
    end in
  let text :=
    match group_truthy 1 (exec jsonRegex text) with
    | Some json => json
    | None => text
    end in
  match JSON.parse text with
  | Some parsed => parsed
  | None => VString text
  end.

Definition parseLLM {T : Type} `{ValaiType T} (schema : T) (d : value)
           (options : option LLMParseOptions) : ParseResult :=
  let processedData :=
    match d with
    | VString s =>
        if or_true (match options with
                    | Some o => extractFromMarkdown o
                    | None => None
                    end)
        then _extractAndRepairJSON s else d
    | _ => d
    end in
  run (let* ctx := createLLMContext processedData options in
       let* result := _parse schema ctx in
       finalize ctx result).

(** ** [factory.ts] *)

Module v.

Definition string : Schema := ValaiString None no_meta.
Definition number : Schema := ValaiNumber None no_meta.
Definition array (element : Schema) : Schema :=
  ValaiArray element None None None no_meta.
(** The constructor of [ValaiObject] sets [unknownKeys: 'strip']. *)
Definition object (shape : list (String.string * Schema)) : Schema :=
  ValaiObject shape (Some uk_strip) no_meta.
Definition union (options : list Schema) : Schema := ValaiUnion options no_meta.
Definition enum (values : list String.string) : Schema :=
  ValaiEnum values no_meta.
Definition intersection (leftSchema rightSchema : Schema) : Schema :=
  ValaiIntersection leftSchema rightSchema no_meta.

End v.

(** ** Chainable configuration methods

    What a method returns, as a function of the receiver, both taken as
    schema terms. *)

Definition meta_of (this : Schema) : Meta :=
  match this with
  | ValaiString _ m | ValaiNumber _ m | ValaiArray _ _ _ _ m
  | ValaiObject _ _ m | ValaiUnion _ m | ValaiEnum _ m
  | ValaiIntersection _ _ m | ValaiOptional _ m
  | ValaiNullable _ m | ValaiDefault _ _ m => m
  end.

(** [this._clone({ ...this._def, <metadata> })] *)
Definition with_meta (this : Schema) (m : Meta) : Schema :=
  match this with
  | ValaiString c _ => ValaiString c m
  | ValaiNumber c _ => ValaiNumber c m
  | ValaiArray e a b c _ => ValaiArray e a b c m
  | ValaiObject s u _ => ValaiObject s u m
  | ValaiUnion o _ => ValaiUnion o m
  | ValaiEnum vs _ => ValaiEnum vs m
  | ValaiIntersection l r _ => ValaiIntersection l r m
  | ValaiOptional i _ => ValaiOptional i m
  | ValaiNullable i _ => ValaiNullable i m
  | ValaiDefault i d _ => ValaiDefault i d m
  end.

Inductive Method : Type :=
(* ValaiType *)
| describe (d : string)
| with_examples (ex : list value)
| optional
| nullable
| with_default (defaultValue : value)
(* ValaiString and ValaiNumber, through [_addCheck] *)
| string_addCheck (check : StringCheck)
| number_addCheck (check : NumberCheck)
(* ValaiArray *)
| array_minLength (n : JSNumber)
| array_maxLength (n : JSNumber)
| array_length (n : JSNumber)
(* ValaiObject *)
| object_strict
| object_strip
| object_passthrough.

(** The definition of the object that a method call returns, computed from
    the definition of the receiver; [None] when the class of the receiver
    has no such method. *)
Definition returned (m : Method) (this : Schema) : option Schema :=
  match m, this with
  | describe d, _ =>
      Some (with_meta this {| description := Some d;
                              examples := examples (meta_of this) |})
  | with_examples ex, _ =>
      Some (with_meta this {| description := description (meta_of this);
                              examples := Some ex |})
  | optional, _ => Some (ValaiOptional this no_meta)
  | nullable, _ => Some (ValaiNullable this no_meta)
  | with_default d, _ => Some (ValaiDefault this d no_meta)
  | string_addCheck check, ValaiString checks meta =>
      Some (ValaiString (Some (or_nil checks ++ [check])%list) meta)
  | number_addCheck check, ValaiNumber checks meta =>
      Some (ValaiNumber (Some (or_nil checks ++ [check])%list) meta)
  | array_minLength n, ValaiArray e _ b c meta =>
      Some (ValaiArray e (Some n) b c meta)
  | array_maxLength n, ValaiArray e a _ c meta =>
      Some (ValaiArray e a (Some n) c meta)
  | array_length n, ValaiArray e a b _ meta =>
      Some (ValaiArray e a b (Some n) meta)
  | object_strict, ValaiObject shape _ meta =>
      Some (ValaiObject shape (Some uk_strict) meta)
  | object_strip, ValaiObject shape _ meta =>
      Some (ValaiObject shape (Some uk_strip) meta)
  | object_passthrough, ValaiObject shape _ meta =>
      Some (ValaiObject shape (Some uk_passthrough) meta)
  | _, _ => None
  end.

(** The string methods as the source spells them. *)
Definition string_min (n : nat) : Method :=
  string_addCheck (SMin (JSNum.of_nat n) None).
Definition string_max (n : nat) : Method :=
  string_addCheck (SMax (JSNum.of_nat n) None).
Definition string_email : Method := string_addCheck (SEmail None).

(** ** Schema objects and their methods

    The objects that the schema classes create live in a heap and are
    addressed by allocation index: the instances of the classes, the
    definition objects that their [_def] property refers to, the shape
    objects, and the arrays of checks, of options and of enum values. A
    property holds a primitive value, plain data handed over by the caller
    (a default value, the array of examples) or a reference to an object
    of the heap. The check objects of an array of checks are written once,
    when the array literal is built, and stand in the array as values.

    A method is a program over the heap, translated statement by
    statement: it reads properties, allocates the objects of its object
    and array literals, and [new] allocates the instance and runs the
    constructors, which assign properties of [this]. [None] is a
    [TypeError], or a step that leaves the embedding. *)
Module Objects.

Abbreviation addr := nat.

Inductive Class : Type :=
| C_ValaiString
| C_ValaiNumber
| C_ValaiArray
| C_ValaiObject
| C_ValaiUnion
| C_ValaiEnum
| C_ValaiIntersection
| C_ValaiOptional
| C_ValaiNullable
| C_ValaiDefault.

(** The value of a property. *)
Inductive Field : Type :=
| FUndefined
| FString (s : string)
| FNumber (n : JSNumber)
| FData (d : value)
| FExamples (examples : list value)
| FRef (a : addr).

Inductive Object : Type :=
| OInstance (class : Class) (props : list (string * Field))
| OPlain (props : list (string * Field))
| OStringChecks (checks : list StringCheck)
| ONumberChecks (checks : list NumberCheck)
| OSchemas (items : list addr)
| OStrings (items : list string).

Abbreviation Heap := (list Object).

Definition H (A : Type) : Type := Heap -> option (A * Heap).

Definition ret {A : Type} (x : A) : H A := fun h => Some (x, h).

Definition bind {A B : Type} (m : H A) (k : A -> H B) : H B :=
  fun h => match m h with
           | Some (x, h') => k x h'
           | None => None
           end.

Definition throw {A : Type} : H A := fun _ => None.

Notation "'let+' x ':=' m 'in' k" := (bind m (fun x => k))
  (at level 10, x name, m at level 100, k at level 200).

(** A new object. *)
Definition alloc (o : Object) : H addr :=
  fun h => Some (length h, (h ++ [o])%list).

Definition load (a : addr) : H Object :=
  fun h => match h !! a with
           | Some o => Some (o, h)
           | None => None
           end.

(** The object at [a] is replaced: every reference to it sees the
    change. *)
Definition store (a : addr) (o : Object) : H unit :=
  fun h => match h !! a with
           | Some _ => Some (tt, <[a := o]> h)
           | None => None
           end.

(** The own property [k] of a property list, [undefined] when absent. *)
Definition field (props : list (string * Field)) (k : string) : Field :=
  match JSValue.own props k with
  | Some f => f
  | None => FUndefined
  end.

(** [o.k] *)
Definition get (o : Field) (k : string) : H Field :=
  match o with
  | FRef a =>
      let+ obj := load a in
      match obj with
      | OInstance _ props | OPlain props => ret (field props k)
      | _ => throw
      end
  | _ => throw
  end.

(** [o.k = x] *)
Definition put (a : addr) (k : string) (x : Field) : H unit :=
  let+ obj := load a in
  match obj with
  | OInstance c props => store a (OInstance c (JSValue.assign props k x))
  | OPlain props => store a (OPlain (JSValue.assign props k x))
  | _ => throw
  end.

(** The own properties that a spread [...o] copies; none when [o] is
    [undefined]. *)
Definition entries (o : Field) : H (list (string * Field)) :=
  match o with
  | FUndefined => ret []
  | FRef a =>
      let+ obj := load a in
      match obj with
      | OInstance _ props | OPlain props => ret props
      | _ => throw
      end
  | _ => throw
  end.

(** [arr ?? []] followed by the spread of the array, for the [checks] of
    a string and of a number definition. *)
Definition string_checks_or_empty (checks : Field) : H (list StringCheck) :=
  match checks with
  | FUndefined => ret []
  | FRef a =>
      let+ obj := load a in
      match obj with
      | OStringChecks l => ret l
      | _ => throw
      end
  | _ => throw
  end.

Definition number_checks_or_empty (checks : Field) : H (list NumberCheck) :=
  match checks with
  | FUndefined => ret []
  | FRef a =>
      let+ obj := load a in
      match obj with
      | ONumberChecks l => ret l
      | _ => throw
      end
  | _ => throw
  end.

(** *** Constructors

    [new C(...)] for a class [C]: the constructor of [ValaiType] receives
    the fresh instance and assigns [this._def = def]; the constructors of
    the classes build the definition they pass to [super]. *)
Definition new_ValaiType (c : Class) (def : Field) : H addr :=
  let+ this := alloc (OInstance c []) in
  let+ _ := put this "_def" def in
  ret this.

(** [super({ typeName: 'ValaiString', ...def })] *)
Definition new_ValaiString (def : Field) : H addr :=
  let+ props := entries def in
  let+ d := alloc (OPlain (JSValue.spread
                             [("typeName", FString "ValaiString")] props)) in
  new_ValaiType C_ValaiString (FRef d).

Definition new_ValaiNumber (def : Field) : H addr :=
  let+ props := entries def in
  let+ d := alloc (OPlain (JSValue.spread
                             [("typeName", FString "ValaiNumber")] props)) in
  new_ValaiType C_ValaiNumber (FRef d).

(** [super({ typeName: 'ValaiArray', element, ...def })] *)
Definition new_ValaiArray (element def : Field) : H addr :=
  let+ props := entries def in
  let+ d := alloc (OPlain (JSValue.spread
                             [("typeName", FString "ValaiArray");
                              ("element", element)] props)) in
  new_ValaiType C_ValaiArray (FRef d).

(** [super({ typeName: 'ValaiObject', shape, unknownKeys: 'strip', ...def });
     this.shape = shape] *)
Definition new_ValaiObject (shape def : Field) : H addr :=
  let+ props := entries def in
  let+ d := alloc (OPlain (JSValue.spread
                             [("typeName", FString "ValaiObject");
                              ("shape", shape);
                              ("unknownKeys", FString "strip")] props)) in
  let+ this := new_ValaiType C_ValaiObject (FRef d) in
  let+ _ := put this "shape" shape in
  ret this.

(** [super({ typeName: 'ValaiUnion', options, ...def });
     this.options = options] *)
Definition new_ValaiUnion (options def : Field) : H addr :=
  let+ props := entries def in
  let+ d := alloc (OPlain (JSValue.spread
                             [("typeName", FString "ValaiUnion");
                              ("options", options)] props)) in
  let+ this := new_ValaiType C_ValaiUnion (FRef d) in
  let+ _ := put this "options" options in
  ret this.

(** [super({ typeName: 'ValaiEnum', values, ...def });
     this.options = values] *)
Definition new_ValaiEnum (values def : Field) : H addr :=
  let+ props := entries def in
  let+ d := alloc (OPlain (JSValue.spread
                             [("typeName", FString "ValaiEnum");
                              ("values", values)] props)) in
  let+ this := new_ValaiType C_ValaiEnum (FRef d) in
  let+ _ := put this "options" values in
  ret this.

(** [super({ typeName: 'ValaiIntersection', left, right, ...def })] *)
Definition new_ValaiIntersection (left_ right_ def : Field) : H addr :=
  let+ props := entries def in
  let+ d := alloc (OPlain (JSValue.spread
                             [("typeName", FString "ValaiIntersection");
                              ("left", left_); ("right", right_)] props)) in
  new_ValaiType C_ValaiIntersection (FRef d).

(** *** [_clone] of each class *)
Definition _clone (this : addr) (def : Field) : H addr :=
  let+ obj := load this in
  match obj with
  | OInstance c _ =>
      match c with
      | C_ValaiString => new_ValaiString def
      | C_ValaiNumber => new_ValaiNumber def
      | C_ValaiArray =>
          let+ element := get def "element" in
          new_ValaiArray element def
      | C_ValaiObject =>
          let+ shape := get def "shape" in
          new_ValaiObject shape def
      | C_ValaiUnion =>
          let+ options := get def "options" in
          new_ValaiUnion options def
      | C_ValaiEnum =>
          let+ values := get def "values" in
          new_ValaiEnum values def
      | C_ValaiIntersection =>
          let+ left_ := get def "left" in
          let+ right_ := get def "right" in
          new_ValaiIntersection left_ right_ def
      | C_ValaiOptional | C_ValaiNullable | C_ValaiDefault =>
          new_ValaiType c def
      end
  | _ => throw
  end.

(** *** The methods of [ValaiType] *)

(** [this._clone({ ...this._def, description })] *)
Definition ValaiType_describe (this : addr) (description : string) : H addr :=
  let+ def := get (FRef this) "_def" in
  let+ props := entries def in
  let+ literal :=
    alloc (OPlain (JSValue.set (JSValue.spread [] props)
                               "description" (FString description))) in
  _clone this (FRef literal).

(** [this._clone({ ...this._def, examples })] *)
Definition ValaiType_examples (this : addr) (examples : list value) : H addr :=
  let+ def := get (FRef this) "_def" in
  let+ props := entries def in
  let+ literal :=
    alloc (OPlain (JSValue.set (JSValue.spread [] props)
                               "examples" (FExamples examples))) in
  _clone this (FRef literal).

(** [new ValaiOptional({ typeName: 'ValaiOptional', innerType: this })] *)
Definition ValaiType_optional (this : addr) : H addr :=
  let+ literal := alloc (OPlain [("typeName", FString "ValaiOptional");
                                 ("innerType", FRef this)]) in
  new_ValaiType C_ValaiOptional (FRef literal).

Definition ValaiType_nullable (this : addr) : H addr :=
  let+ literal := alloc (OPlain [("typeName", FString "ValaiNullable");
                                 ("innerType", FRef this)]) in
  new_ValaiType C_ValaiNullable (FRef literal).

Definition ValaiType_default (this : addr) (defaultValue : value) : H addr :=
  let+ literal := alloc (OPlain [("typeName", FString "ValaiDefault");
                                 ("innerType", FRef this);
                                 ("defaultValue", FData defaultValue)]) in
  new_ValaiType C_ValaiDefault (FRef literal).

(** *** [_addCheck] of [ValaiString] and of [ValaiNumber]:
    [new ValaiString({ ...this._def,
                       checks: [...(this._def.checks ?? []), check] })] *)
Definition ValaiString_addCheck (this : addr) (check : StringCheck) : H addr :=
  let+ def := get (FRef this) "_def" in
  let+ props := entries def in
  let+ checks := get def "checks" in
  let+ old := string_checks_or_empty checks in
  let+ array := alloc (OStringChecks (old ++ [check])%list) in
  let+ literal :=
    alloc (OPlain (JSValue.set (JSValue.spread [] props)
                               "checks" (FRef array))) in
  new_ValaiString (FRef literal).

Definition ValaiNumber_addCheck (this : addr) (check : NumberCheck) : H addr :=
  let+ def := get (FRef this) "_def" in
  let+ props := entries def in
  let+ checks := get def "checks" in
  let+ old := number_checks_or_empty checks in
  let+ array := alloc (ONumberChecks (old ++ [check])%list) in
  let+ literal :=
    alloc (OPlain (JSValue.set (JSValue.spread [] props)
                               "checks" (FRef array))) in
  new_ValaiNumber (FRef literal).

(** *** The length methods of [ValaiArray]:
    [new ValaiArray(this._def.element, { ...this._def, minLength: length })] *)
Definition ValaiArray_with (this : addr) (k : string) (length : JSNumber)
  : H addr :=
  let+ def := get (FRef this) "_def" in
  let+ element := get def "element" in
  let+ props := entries def in
  let+ literal :=
    alloc (OPlain (JSValue.set (JSValue.spread [] props) k (FNumber length))) in
  new_ValaiArray element (FRef literal).

Definition ValaiArray_min (this : addr) (length : JSNumber) : H addr :=
  ValaiArray_with this "minLength" length.
Definition ValaiArray_max (this : addr) (length : JSNumber) : H addr :=
  ValaiArray_with this "maxLength" length.
Definition ValaiArray_length (this : addr) (length : JSNumber) : H addr :=
  ValaiArray_with this "exactLength" length.

(** *** The unknown-key methods of [ValaiObject]:
    [new ValaiObject(this.shape, { ...this._def, unknownKeys: 'strict' })] *)
Definition ValaiObject_with (this : addr) (unknownKeys : string) : H addr :=
  let+ shape := get (FRef this) "shape" in
  let+ def := get (FRef this) "_def" in
  let+ props := entries def in
  let+ literal :=
    alloc (OPlain (JSValue.set (JSValue.spread [] props)
                               "unknownKeys" (FString unknownKeys))) in
  new_ValaiObject shape (FRef literal).

Definition ValaiObject_strict (this : addr) : H addr :=
  ValaiObject_with this "strict".
Definition ValaiObject_strip (this : addr) : H addr :=
  ValaiObject_with this "strip".
Definition ValaiObject_passthrough (this : addr) : H addr :=
  ValaiObject_with this "passthrough".

(** [receiver.m(...)]: the method is looked up in the class of the
    receiver. *)
Definition invoke (m : Method) (receiver : addr) : H addr :=
  let+ obj := load receiver in
  match obj with
  | OInstance c _ =>
      match m, c with
      | describe d, _ => ValaiType_describe receiver d
      | with_examples ex, _ => ValaiType_examples receiver ex
      | optional, _ => ValaiType_optional receiver
      | nullable, _ => ValaiType_nullable receiver
      | with_default d, _ => ValaiType_default receiver d
      | string_addCheck check, C_ValaiString =>
          ValaiString_addCheck receiver check
      | number_addCheck check, C_ValaiNumber =>
          ValaiNumber_addCheck receiver check
      | array_minLength n, C_ValaiArray => ValaiArray_min receiver n
      | array_maxLength n, C_ValaiArray => ValaiArray_max receiver n
      | array_length n, C_ValaiArray => ValaiArray_length receiver n
      | object_strict, C_ValaiObject => ValaiObject_strict receiver
      | object_strip, C_ValaiObject => ValaiObject_strip receiver
      | object_passthrough, C_ValaiObject => ValaiObject_passthrough receiver
      | _, _ => throw
      end
  | _ => throw
  end.

(** *** [factory.ts] *)

(** [string()]: [new ValaiString()] *)
Definition v_string : H addr := new_ValaiString FUndefined.
Definition v_number : H addr := new_ValaiNumber FUndefined.
(** [array(element)]: [new ValaiArray(element)] *)
Definition v_array (element : addr) : H addr :=
  new_ValaiArray (FRef element) FUndefined.
(** [object(shape)]: [new ValaiObject(shape)], for a shape object that the
    caller wrote as an object literal. *)
Definition v_object (shape : list (string * addr)) : H addr :=
  let+ literal :=
    alloc (OPlain (JSValue.spread []
                     (map (fun ks => (fst ks, FRef (snd ks))) shape))) in
  new_ValaiObject (FRef literal) FUndefined.

(** *** What a schema object validates

    [decode] reads, from the heap, the properties that [_parse] and the
    getters of an instance read, and gives the schema as a term; the
    schemas that the instance refers to are read in turn, [fuel] levels
    deep. [None] when a property does not hold what its class expects. *)
Definition plain_at (h : Heap) (f : Field) : option (list (string * Field)) :=
  match f with
  | FRef a => match h !! a with Some (OPlain props) => Some props | _ => None end
  | _ => None
  end.

Definition string_checks_at (h : Heap) (f : Field)
  : option (option (list StringCheck)) :=
  match f with
  | FUndefined => Some None
  | FRef a =>
      match h !! a with Some (OStringChecks l) => Some (Some l) | _ => None end
  | _ => None
  end.

Definition number_checks_at (h : Heap) (f : Field)
  : option (option (list NumberCheck)) :=
  match f with
  | FUndefined => Some None
  | FRef a =>
      match h !! a with Some (ONumberChecks l) => Some (Some l) | _ => None end
  | _ => None
  end.

Definition schemas_at (h : Heap) (f : Field) : option (list addr) :=
  match f with
  | FRef a => match h !! a with Some (OSchemas l) => Some l | _ => None end
  | _ => None
  end.

Definition strings_at (h : Heap) (f : Field) : option (list string) :=
  match f with
  | FRef a => match h !! a with Some (OStrings l) => Some l | _ => None end
  | _ => None
  end.

Definition at_ref {A : Type} (g : addr -> option A) (f : Field) : option A :=
  match f with
  | FRef a => g a
  | _ => None
  end.

Definition decode_description (f : Field) : option (option string) :=
  match f with
  | FUndefined => Some None
  | FString s => Some (Some s)
  | _ => None
  end.

Definition decode_examples (f : Field) : option (option (list value)) :=
  match f with
  | FUndefined => Some None
  | FExamples l => Some (Some l)
  | _ => None
  end.

Definition decode_meta (def : list (string * Field)) : option Meta :=
  d ← decode_description (field def "description");
  e ← decode_examples (field def "examples");
  Some {| description := d; examples := e |}.

Definition decode_length (f : Field) : option (option JSNumber) :=
  match f with
  | FUndefined => Some None
  | FNumber n => Some (Some n)
  | _ => None
  end.

(** [this._def.unknownKeys ?? 'strip'] *)
Definition decode_unknownKeys (f : Field) : option UnknownKeys :=
  match f with
  | FUndefined => Some uk_strip
  | FString s =>
      if String.eqb s "strict" then Some uk_strict
      else if String.eqb s "strip" then Some uk_strip
      else if String.eqb s "passthrough" then Some uk_passthrough
      else None
  | _ => None
  end.

Definition decode_default (f : Field) : option value :=
  match f with
  | FUndefined => Some VUndefined
  | FData d => Some d
  | _ => None
  end.

Definition decode_entry (g : addr -> option Schema) (kf : string * Field)
  : option (string * Schema) :=
  s ← at_ref g (snd kf); Some (fst kf, s).

Fixpoint decode (fuel : nat) (h : Heap) (a : addr) {struct fuel}
  : option Schema :=
  match fuel with
  | O => None
  | S fuel' =>
      match h !! a with
      | Some (OInstance c props) =>
          def ← plain_at h (field props "_def");
          meta ← decode_meta def;
          match c with
          | C_ValaiString =>
              checks ← string_checks_at h (field def "checks");
              Some (ValaiString checks meta)
          | C_ValaiNumber =>
              checks ← number_checks_at h (field def "checks");
              Some (ValaiNumber checks meta)
          | C_ValaiArray =>
              element ← at_ref (decode fuel' h) (field def "element");
              minLength ← decode_length (field def "minLength");
              maxLength ← decode_length (field def "maxLength");
              exactLength ← decode_length (field def "exactLength");
              Some (ValaiArray element minLength maxLength exactLength meta)
          | C_ValaiObject =>
              entries ← plain_at h (field props "shape");
              shape ← mapM (decode_entry (decode fuel' h)) entries;
              unknownKeys ← decode_unknownKeys (field def "unknownKeys");
              Some (ValaiObject shape (Some unknownKeys) meta)
          | C_ValaiUnion =>
              items ← schemas_at h (field props "options");
              options ← mapM (decode fuel' h) items;
              Some (ValaiUnion options meta)
          | C_ValaiEnum =>
              values ← strings_at h (field props "options");
              Some (ValaiEnum values meta)
          | C_ValaiIntersection =>
              leftSchema ← at_ref (decode fuel' h) (field def "left");
              rightSchema ← at_ref (decode fuel' h) (field def "right");
              Some (ValaiIntersection leftSchema rightSchema meta)
          | C_ValaiOptional =>
              innerType ← at_ref (decode fuel' h) (field def "innerType");
              Some (ValaiOptional innerType meta)
          | C_ValaiNullable =>
              innerType ← at_ref (decode fuel' h) (field def "innerType");
              Some (ValaiNullable innerType meta)
          | C_ValaiDefault =>
              innerType ← at_ref (decode fuel' h) (field def "innerType");
              defaultValue ← decode_default (field def "defaultValue");
              Some (ValaiDefault innerType defaultValue meta)
          end
      | _ => None
      end
  end.

(** [ref.safeParse(data)] for a reference into the heap. *)
Definition safeParse_at (fuel : nat) (h : Heap) (ref : addr) (d : value)
  : option ParseResult :=
  option_map (fun schema => safeParse schema d) (decode fuel h ref).

(** [const a = string(); const b = a.min(3);] *)
Definition a_then_b : H (addr * addr) :=
  let+ a := v_string in
  let+ b := invoke (string_addCheck (SMin (JSNum.of_nat 3) None)) a in
  ret (a, b).

(** An instance as its constructor leaves it: the property names of its
    definition object are distinct, and the property that the constructor
    of its class assigns to the instance holds what the definition holds
    ([this.shape = shape] with [shape] in the definition, and so on). *)
Definition constructed (h : Heap) (a : addr) : Prop :=
  exists c props def,
    h !! a = Some (OInstance c props) /\
    plain_at h (field props "_def") = Some def /\
    NoDup (JSValue.keys def) /\
    match c with
    | C_ValaiObject => field props "shape" = field def "shape"
    | C_ValaiUnion => field props "options" = field def "options"
    | C_ValaiEnum => field props "options" = field def "values"
    | _ => True
    end.

(** The objects that [_clone] allocates, by class, for a definition
    literal [L] at the address [lit] when the heap holds [n] objects: the
    definition that the constructor builds and the instance. *)
Definition cloned (c : Class) (lit : addr) (L : list (string * Field))
           (n : nat) : list Object :=
  match c with
  | C_ValaiString =>
      [OPlain (JSValue.spread [("typeName", FString "ValaiString")] L);
       OInstance c [("_def", FRef n)]]
  | C_ValaiNumber =>
      [OPlain (JSValue.spread [("typeName", FString "ValaiNumber")] L);
       OInstance c [("_def", FRef n)]]
  | C_ValaiArray =>
      [OPlain (JSValue.spread [("typeName", FString "ValaiArray");
                               ("element", field L "element")] L);
       OInstance c [("_def", FRef n)]]
  | C_ValaiObject =>
      [OPlain (JSValue.spread [("typeName", FString "ValaiObject");
                               ("shape", field L "shape");
                               ("unknownKeys", FString "strip")] L);
       OInstance c [("_def", FRef n); ("shape", field L "shape")]]
  | C_ValaiUnion =>
      [OPlain (JSValue.spread [("typeName", FString "ValaiUnion");
                               ("options", field L "options")] L);
       OInstance c [("_def", FRef n); ("options", field L "options")]]
  | C_ValaiEnum =>
      [OPlain (JSValue.spread [("typeName", FString "ValaiEnum");
                               ("values", field L "values")] L);
       OInstance c [("_def", FRef n); ("options", field L "values")]]
  | C_ValaiIntersection =>
      [OPlain (JSValue.spread [("typeName", FString "ValaiIntersection");
                               ("left", field L "left");
                               ("right", field L "right")] L);
       OInstance c [("_def", FRef n)]]
  | C_ValaiOptional | C_ValaiNullable | C_ValaiDefault =>
      [OInstance c [("_def", FRef lit)]]
  end.


(** Every object of [h] is in [h'], unchanged, at the same address. *)
Definition kept (h h' : Heap) : Prop :=
  forall a o, h !! a = Some o -> h' !! a = Some o.

(** A computation that writes no object that existed when the heap had
    [n] objects, and whose result satisfies [Q]. *)
Definition framed {A : Type} (n : nat) (Q : A -> Prop) (m : H A) : Prop :=
  forall h x h',
    n <= length h -> m h = Some (x, h') ->
    n <= length h' /\ (forall a, a < n -> h' !! a = h !! a) /\ Q x.

End Objects.

(* ================================================================== *)
(** * Definitions used by the statements *)
(* ================================================================== *)

(** The texts and values of the examples. *)
Module Examples.

(** [{"a": ": NaN"}] *)
Definition nan_in_string : string := dq "{'a': ': NaN'}".
(** [{"a": ": .5"}] *)
Definition dot_in_string : string := dq "{'a': ': .5'}".
(** [{"a": "{b: 1}"}] *)
Definition key_in_string : string := dq "{'a': '{b: 1}'}".
(** [{"a": "1,}"}] *)
Definition comma_in_string : string := dq "{'a': '1,}'}".
(** [{"a": "// x"}] *)
Definition comment_in_string : string := dq "{'a': '// x'}".

(** [{name: "x", extra: true}] *)
Definition named_with_extra : value :=
  VObject [("name", VString "x"); ("extra", VBool true)].

(** [object({name: string()})] *)
Definition named : Schema := v.object [("name", v.string)].

(** [object({user: object({name: string()})})] and [{user: {name: 123}}] *)
Definition user_schema : Schema :=
  v.object [("user", v.object [("name", v.string)])].
Definition user_input : value :=
  VObject [("user", VObject [("name", VNumber (JSNum.of_Z 123))])].

(** [union([number(), string()])] on its own, inside an object and inside
    an array. *)
Definition number_or_string : Schema := v.union [v.number; v.string].
Definition object_with_union : Schema := v.object [("a", number_or_string)].
Definition array_of_union : Schema := v.array number_or_string.

(** [intersection(object({name: string()}), object({age: number()}))] and
    [{name: "Ann", age: "old"}] *)
Definition named_only : Schema := v.object [("name", v.string)].
Definition aged : Schema := v.object [("age", v.number)].
Definition person : Schema := v.intersection named_only aged.
Definition person_input : value :=
  VObject [("name", VString "Ann"); ("age", VString "old")].

(** [{"toString": 1}] *)
Definition toString_key : string := dq "{'toString': 1}".

End Examples.

(** The repaired text of [x] and the second run over it. *)
Definition first_run (x : string) : Repair.RepairResult :=
  Repair.repairJSON x Repair.no_options.


(** A text is stable when no enabled stage changes it: the two extractors
    report that nothing was extracted and the seven fixers return the text
    as it is. *)
Definition unchanged_by (on : bool) (fixer : string -> string) (t : string)
  : bool :=
  negb on || String.eqb (fixer t) t.

Definition stable (opts : Repair.RepairOptions) (t : string) : bool :=
  (negb (Repair.enabled (Repair.markdown opts))
   || negb (Repair.md_extracted (Repair.extractFromMarkdown t)))
  && (negb (Repair.enabled (Repair.extractFromText opts))
      || negb (Repair.tx_extracted (Repair.extractJSONFromText t)))
  && unchanged_by (Repair.enabled (Repair.removeComments opts))
       Repair.removeJSONComments t
  && unchanged_by (Repair.enabled (Repair.singleQuotes opts))
       Repair.fixSingleQuotes t
  && unchanged_by (Repair.enabled (Repair.unquotedKeys opts))
       Repair.fixUnquotedKeys t
  && unchanged_by (Repair.enabled (Repair.handleSpecialNumbers opts))
       (fun t => Repair.fixSpecialNumbers t false) t
  && unchanged_by (Repair.enabled (Repair.fixNumberFormatsOpt opts))
       Repair.fixNumberFormats t
  && unchanged_by (Repair.enabled (Repair.trailingCommas opts))
       Repair.fixTrailingCommas t
  && unchanged_by (Repair.enabled (Repair.closeBrackets opts))
       Repair.tryCloseBrackets t.

(** A stage with condition [c] at [t]: it leaves [(t, [])] alone when the
    condition holds, it logs otherwise, and it never empties the log. *)
Definition logs (c : bool)
           (S : string * list Repair.RepairAction
                -> string * list Repair.RepairAction)
           (t : string) : Prop :=
  (c = true -> S (t, []) = (t, [])) /\
  (c = false -> snd (S (t, [])) <> []) /\
  (forall st, snd st <> [] -> snd (S st) <> []).

(** The issue list of a context in a store. *)
Definition issues_of (st : Store) (ctx : ParseContext) : list Issue :=
  default [] (st !! issues ctx).

(** A context and its ancestors, nearest first. *)
Definition chain (ctx : ParseContext) : list ParseContext :=
  ctx :: ancestors ctx.

(** The contexts of a chain own pairwise distinct, allocated arrays; this
    is what the constructor establishes. *)
Definition well_formed (st : Store) (ctx : ParseContext) : bool :=
  bool_decide (NoDup (map issues (chain ctx)))
  && forallb (fun c => issues c <? length st) (chain ctx).

(** The store only grows: arrays are never removed and never lose or
    change an element. *)
Definition grows (st st' : Store) : Prop :=
  forall r l, st !! r = Some l -> exists l', st' !! r = Some (l ++ l')%list.

(** A computation is monotone when it only grows the store. *)
Definition mono {A : Type} (m : M A) : Prop :=
  forall st, grows st (snd (m st)).

(** A computation never gives the result [bad]. *)
Definition never {A : Type} (bad : A) (m : M A) : Prop :=
  forall st, fst (m st) <> bad.

(** A computation flags a context when an [invalid] result comes with at
    least one issue in the list of that context. *)
Definition flags (ctx : ParseContext) (m : M ParseReturnType) : Prop :=
  forall st, is_Some (st !! issues ctx) ->
             fst (m st) = invalid -> issues_of (snd (m st)) ctx <> [].

(* ================================================================== *)
(** * Further functions of the repair modules *)
(* ================================================================== *)

Module RepairMore.

Import Repair.

(** The scan of [tryCloseBrackets] with the three variables it carries at
    the end of the text: the stack, [inString] and [escapeNext]. *)
Fixpoint brackets_state (stack : list ascii) (inString escapeNext : bool)
         (s : string) : list ascii * bool * bool :=
  match s with
  | EmptyString => (stack, inString, escapeNext)
  | String c s' =>
      if escapeNext then brackets_state stack inString false s'
      else if ch_eq c backslash && inString
      then brackets_state stack inString true s'
      else if ch_eq c dquote then brackets_state stack (negb inString) false s'
      else if inString then brackets_state stack inString false s'
      else if ch_eq c "{" then brackets_state ("}"%char :: stack) inString false s'
      else if ch_eq c "[" then brackets_state ("]"%char :: stack) inString false s'
      else if ch_eq c "}" || ch_eq c "]" then
        match stack with
        | top :: stack' =>
            if ch_eq top c then brackets_state stack' inString false s'
            else brackets_state stack inString false s'
        | [] => brackets_state stack inString false s'
        end
      else brackets_state stack inString false s'
  end.

(** The text ends in the middle of an escape sequence: its last character
    is a backslash that the scanner reads inside a string. *)
Definition ends_in_escape (s : string) : bool :=
  snd (brackets_state [] false false s).

(** [fixMissingCommas] of [fixers/commas.ts]; [last] is
    [lastNonWhitespaceChar], [None] for the empty string. *)
Definition needs_comma (last : option ascii) : bool :=
  match last with
  | None => false
  | Some l => negb (one_of ",:{[" l)
  end.

Fixpoint missing_commas_loop (inString escapeNext : bool)
         (last : option ascii) (s : string) : string :=
  match s with
  | EmptyString => EmptyString
  | String c s' =>
      if escapeNext
      then String c (missing_commas_loop inString false (Some c) s')
      else if ch_eq c backslash && inString
      then String c (missing_commas_loop inString true (Some c) s')
      else if ch_eq c dquote then
        (if negb inString && needs_comma last then "," else "")
        ++ String c (missing_commas_loop (negb inString) false (Some c) s')
      else if inString
      then String c (missing_commas_loop inString false (Some c) s')
      else
        (if (ch_eq c "{" || ch_eq c "[") && needs_comma last then "," else "")
        ++ String c (missing_commas_loop inString false
                       (if is_space c then last else Some c) s')
  end.

Definition fixMissingCommas (input : string) : string :=
  missing_commas_loop false false None input.

(** [removeHashComments] of [fixers/comments.ts]; [skipping] is the inner
    loop that runs up to the line feed. *)
Fixpoint hash_loop (skipping inString escapeNext : bool) (s : string)
  : string :=
  match s with
  | EmptyString => EmptyString
  | String c s' =>
      if skipping then
        if ch_eq c newline then String c (hash_loop false false false s')
        else hash_loop true false false s'
      else if escapeNext then String c (hash_loop false inString false s')
      else if ch_eq c backslash && inString
      then String c (hash_loop false inString true s')
      else if ch_eq c dquote
      then String c (hash_loop false (negb inString) false s')
      else if negb inString && ch_eq c "#" then hash_loop true false false s'
      else String c (hash_loop false inString false s')
  end.

Definition removeHashComments (input : string) : string :=
  hash_loop false false false input.

(** [ensureQuotedValues] of [fixers/quotes.ts]. The pattern, with spaces
    between its parts: [: \s* ( [a-zA-Z_] [a-zA-Z0-9_]* ) \s* ( , | } | ] )] *)
Definition is_name_start (c : ascii) : bool := is_alpha c || ch_eq c "_".
Definition is_name_char (c : ascii) : bool :=
  is_alpha c || is_digit c || ch_eq c "_".

Definition unquotedValueRegex : regex :=
  after_colon
    (RSeq (RGroup 1 (RSeq (RSet is_name_start)
                       (RStar true (RSet is_name_char))))
       (RSeq (RStar true (RSet is_space))
          (RGroup 2 (RAlt (RChar ",") (RAlt (RChar "}") (RChar "]")))))).

Definition ensureQuotedValues (input : string) : string :=
  replace_all unquotedValueRegex
    (fun cs =>
       let value := dollar 1 cs in
       let ending := dollar 2 cs in
       if String.eqb value "true" || String.eqb value "false"
          || String.eqb value "null"
       then ": " ++ value ++ ending
       else ": " ++ quoted value ++ ending)
    input.

(** [removeAllComments] *)
Definition removeAllComments (input : string) : string :=
  removeHashComments (removeJSONComments input).

(** [balanceBrackets] of [fixers/brackets.ts]. The first loop, from
    index [i] on: the stack of open brackets with their indices (top
    first) and the set [toRemove] of the indices of the closing brackets
    without a partner. *)
Fixpoint balance_scan (i : nat) (stack : list (ascii * nat))
         (toRemove : list nat) (inString escapeNext : bool) (s : string)
  : list (ascii * nat) * list nat :=
  match s with
  | EmptyString => (stack, toRemove)
  | String c s' =>
      if escapeNext then balance_scan (S i) stack toRemove inString false s'
      else if ch_eq c backslash && inString
      then balance_scan (S i) stack toRemove inString true s'
      else if ch_eq c dquote
      then balance_scan (S i) stack toRemove (negb inString) false s'
      else if inString then balance_scan (S i) stack toRemove inString false s'
      else if ch_eq c "{" || ch_eq c "["
      then balance_scan (S i) ((c, i) :: stack) toRemove inString false s'
      else if ch_eq c "}" then
        match stack with
        | (top, _) :: stack' =>
            if ch_eq top "{"
            then balance_scan (S i) stack' toRemove inString false s'
            else balance_scan (S i) stack (i :: toRemove) inString false s'
        | [] => balance_scan (S i) stack (i :: toRemove) inString false s'
        end
      else if ch_eq c "]" then
        match stack with
        | (top, _) :: stack' =>
            if ch_eq top "["
            then balance_scan (S i) stack' toRemove inString false s'
            else balance_scan (S i) stack (i :: toRemove) inString false s'
        | [] => balance_scan (S i) stack (i :: toRemove) inString false s'
        end
      else balance_scan (S i) stack toRemove inString false s'
  end.

(** [toRemove.has(i)] *)
Definition set_has (toRemove : list nat) (i : nat) : bool :=
  existsb (Nat.eqb i) toRemove.

(** The second loop: the characters whose index is not in [toRemove]. *)
Fixpoint without_indices (i : nat) (toRemove : list nat) (s : string)
  : string :=
  match s with
  | EmptyString => EmptyString
  | String c s' =>
      if set_has toRemove i then without_indices (S i) toRemove s'
      else String c (without_indices (S i) toRemove s')
  end.

(** The third loop: one closing bracket for every bracket left open. *)
Fixpoint close_open (stack : list (ascii * nat)) : string :=
  match stack with
  | [] => EmptyString
  | (c, _) :: stack' =>
      (if ch_eq c "{" then "}" else if ch_eq c "[" then "]" else "")
      ++ close_open stack'
  end.

Definition balanceBrackets (input : string) : string :=
  let (stack, toRemove) := balance_scan 0 [] [] false false input in
  without_indices 0 toRemove input ++ close_open stack.

(** The closing bracket that [tryCloseBrackets] keeps on its stack for an
    open bracket of the stack of [balanceBrackets]. *)
Definition closer_of (ci : ascii * nat) : ascii :=
  if ch_eq (fst ci) "{" then "}"%char else "]"%char.

(** A stack of [tryCloseBrackets] holds closing brackets only, a stack of
    [balanceBrackets] open brackets only. *)
Definition closers (stack : list ascii) : Prop :=
  Forall (fun c => c = "}"%char \/ c = "]"%char) stack.
Definition opens (stack : list (ascii * nat)) : Prop :=
  Forall (fun ci => fst ci = "{"%char \/ fst ci = "["%char) stack.

(** The text ends inside a string. *)
Definition ends_in_string (s : string) : bool :=
  snd (fst (brackets_state [] false false s)).

(** ** Notions used to state what the fixers preserve *)

(** The part of a text that the string scanner of the fixers reads as
    double-quoted strings: the delimiting quotes and everything between
    them, escapes included. *)
Fixpoint in_strings (inString escapeNext : bool) (s : string) : string :=
  match s with
  | EmptyString => EmptyString
  | String c s' =>
      if escapeNext then String c (in_strings inString false s')
      else if ch_eq c backslash && inString
      then String c (in_strings inString true s')
      else if ch_eq c dquote then String c (in_strings (negb inString) false s')
      else if inString then String c (in_strings inString false s')
      else in_strings inString false s'
  end.

(** A text without its commas that lie outside strings. *)
Fixpoint without_commas (inString escapeNext : bool) (s : string) : string :=
  match s with
  | EmptyString => EmptyString
  | String c s' =>
      if escapeNext then String c (without_commas inString false s')
      else if ch_eq c backslash && inString
      then String c (without_commas inString true s')
      else if ch_eq c dquote
      then String c (without_commas (negb inString) false s')
      else if inString then String c (without_commas inString false s')
      else if ch_eq c "," then without_commas inString false s'
      else String c (without_commas inString false s')
  end.

(** A text contains a character. *)
Fixpoint contains (c : ascii) (s : string) : bool :=
  match s with
  | EmptyString => false
  | String c' s' => Ascii.eqb c c' || contains c s'
  end.

(** The characters of a text, to speak of subsequences. *)
Definition chars (s : string) : list ascii := list_ascii_of_string s.

End RepairMore.

Module TextNotions.

(** [b] is [a] with some of its apostrophes turned into double quotes and
    nothing else changed. *)
Fixpoint requoted (a b : string) : bool :=
  match a, b with
  | EmptyString, EmptyString => true
  | String x a', String y b' =>
      (Ascii.eqb x y || (Ascii.eqb x "'" && Ascii.eqb y dquote))
      && requoted a' b'
  | _, _ => false
  end.

(** The last character of a text is [c]. *)
Fixpoint last_is (c : ascii) (s : string) : bool :=
  match s with
  | EmptyString => false
  | String x EmptyString => Ascii.eqb x c
  | String _ s' => last_is c s'
  end.

End TextNotions.

(** The remaining input of a matcher state is free of [c]. *)
Definition free_of (c : ascii) (st : mstate) : Prop :=
  RepairMore.contains c (rest st) = false.

(** A sufficient syntactic condition for "every match of [r] contains the
    character [c]". *)
Fixpoint requires (c : ascii) (r : regex) : bool :=
  match r with
  | RChar c' => Ascii.eqb c c'
  | RSeq r1 r2 => requires c r1 || requires c r2
  | RAlt r1 r2 => requires c r1 && requires c r2
  | RGroup _ r1 => requires c r1
  | _ => false
  end.

(* ================================================================== *)
(** * Notions used to state where a validation writes its issues *)
(* ================================================================== *)

(** The root context that [safeParse] creates for an input. *)
Definition strict_root (d : value) : ParseContext :=
  {| data := d; mode := strict_mode; path := []; issues := 0;
     parent := None; llmOptions := default_llmOptions |}.

(** The path of an issue extends a path. *)
Definition extends (p : list PathSegment) (i : Issue) : Prop :=
  exists k, issue_path i = (p ++ k)%list.

(** From one store to a later one, the arrays that exist already only
    receive new elements at their end, only the arrays selected by [R]
    receive any, and every new element satisfies [P]. *)
Definition writes (R : nat -> Prop) (P : Issue -> Prop) (st st' : Store)
  : Prop :=
  forall r l, st !! r = Some l ->
    exists l', st' !! r = Some (l ++ l')%list /\
               (R r \/ l' = []) /\ Forall P l'.

(** The arrays of a context and of its ancestors. *)
Definition own_arrays (ctx : ParseContext) (r : nat) : Prop :=
  In r (map issues (chain ctx)).

(** A computation is confined to a context when it writes only to the
    arrays of the chain of that context (and to arrays that it allocates
    itself), and only issues whose path extends the path of the context. *)
Definition confined {A : Type} (ctx : ParseContext) (m : M A) : Prop :=
  forall st, writes (own_arrays ctx) (extends (path ctx)) st (snd (m st)).

(** Where the issues of an object validation lie: below a key of the
    shape, or, in strict mode, at the object itself for its unknown
    keys. *)
Definition at_property (shape : list (string * Schema))
           (u : option UnknownKeys) (i : Issue) : Prop :=
  (exists k, In k (JSValue.keys shape) /\ extends [PKey k] i) \/
  (u = Some uk_strict /\
   exists ks, i = Build_Issue (unrecognized_keys ks) [] None).

(** Where the issues of an array validation lie: below an index of the
    input, or at the array itself for its length. *)
Definition at_element (items : list value) (i : Issue) : Prop :=
  (exists n, n < length items /\ extends [PIndex n] i) \/
  (exists n exact,
      i = Build_Issue (too_small "array" n true exact) [] None \/
      i = Build_Issue (too_big "array" n true None) [] None).

Definition is_string (x : value) : bool :=
  match x with VString _ => true | _ => false end.

(** The report expected of an array of strings: one [invalid_type] issue
    for every element that is not a string, at the index of the element,
    in the order of the elements. *)
Fixpoint string_items_issues (i : nat) (items : list value) : list Issue :=
  match items with
  | [] => []
  | VString _ :: items' => string_items_issues (S i) items'
  | item :: items' =>
      Build_Issue (invalid_type "string" (getTypeName item)) [PIndex i] None
      :: string_items_issues (S i) items'
  end.

(* ================================================================== *)
(** * The type that a schema describes *)
(* ================================================================== *)

(** The merge of two values by an intersection: the properties of the
    two when both are objects, their common value otherwise. *)
Definition merged (a b x : value) : Prop :=
  (JSValue.is_object a = true /\ JSValue.is_object b = true /\
   x = VObject (JSValue.spread (JSValue.spread [] (JSValue.entries a))
                               (JSValue.entries b))) \/
  (same_primitive a b = true /\ x = a).

(** One element of a list satisfies [P]. *)
Definition any_of {A : Type} (P : A -> Prop) : list A -> Prop :=
  fix any (l : list A) : Prop :=
    match l with
    | [] => False
    | a :: l' => P a \/ any l'
    end.

(** The values of the output type of a schema ([TOutput] in the source):
    a string, a number other than [NaN], an array of values of the element
    type, an object whose properties have the type of their key in the
    shape (in passthrough mode also any property outside the shape), a
    value of one of the members of a union, one of the values of an enum,
    the merge of a value of the left and a value of the right type for an
    intersection, [undefined] or [null] or the default value beside the
    values of the wrapped schema. *)
Fixpoint has_type (s : Schema) (x : value) {struct s} : Prop :=
  match s with
  | ValaiString _ _ => exists t, x = VString t
  | ValaiNumber _ _ => exists n, x = VNumber n /\ JSNum.isNaN n = false
  | ValaiArray element _ _ _ _ =>
      exists items, x = VArray items /\ Forall (has_type element) items
  | ValaiObject shape u _ =>
      exists props,
        x = VObject props /\
        Forall (fun kv : string * value =>
                  any_of (fun '(k, s') => fst kv = k /\ has_type s' (snd kv))
                         shape \/
                  (or_strip u = uk_passthrough /\
                   ~ In (fst kv) (JSValue.keys shape)))
               props
  | ValaiUnion options _ => any_of (fun o => has_type o x) options
  | ValaiEnum values _ => exists t, x = VString t /\ In t values
  | ValaiIntersection l r _ =>
      exists a b, has_type l a /\ has_type r b /\ merged a b x
  | ValaiOptional inner _ => x = VUndefined \/ has_type inner x
  | ValaiNullable inner _ => x = VNull \/ has_type inner x
  | ValaiDefault inner d _ => x = d \/ has_type inner x
  end.

(** Every result of a computation satisfies [Q], whatever the store. *)
Definition yields {A : Type} (Q : A -> Prop) (m : M A) : Prop :=
  forall st, Q (fst (m st)).

(** The result of a loop, when the loop ends without an exception,
    satisfies [Q]. *)
Definition unless_thrown {A : Type} (Q : A -> Prop) (o : option A) : Prop :=
  match o with Some a => Q a | None => True end.

(** A [valid] result carries a value that satisfies [P]. *)
Definition valid_in (P : value -> Prop) (r : ParseReturnType) : Prop :=
  match r with valid x => P x | _ => True end.

(* ================================================================== *)
(** * The shape methods of [ValaiObject] ([schemas/object.ts]) *)
(* ================================================================== *)

(** Operations on a shape object: a plain object whose own properties,
    kept in enumeration order as for [JSValue], hold schemas. *)
Module Shape.

(** The own property [k]; [None] when there is none. *)
Definition get {A : Type} (props : list (string * A)) (k : string)
  : option A :=
  JSValue.own props k.

(** [k in o]: an own property, or one that [Object.prototype] holds. *)
Definition has {A : Type} (props : list (string * A)) (k : string) : bool :=
  JSValue.has_own props k ||
  match JSValue.inherited k with Some _ => true | None => false end.

(** [CreateDataProperty(o, k, x)], as in an object literal or a spread. *)
Definition set {A : Type} (props : list (string * A)) (k : string) (x : A)
  : list (string * A) :=
  JSValue.set props k x.

(** [o[k] = x]. For the key [__proto__] (when no own property has that
    name) the assignment replaces the prototype of the shape by [x] and
    adds no property; a shape with another prototype than
    [Object.prototype] is outside the embedding, hence [None]. *)
Definition assign {A : Type} (props : list (string * A)) (k : string) (x : A)
  : option (list (string * A)) :=
  if JSValue.has_own props k then Some (JSValue.overwrite k x props)
  else if String.eqb k "__proto__" then None
  else Some (JSValue.insert_new k x props).

(** [delete o[k]] *)
Definition delete {A : Type} (props : list (string * A)) (k : string)
  : list (string * A) :=
  List.filter (fun kv => negb (String.eqb k (fst kv))) props.

(** [{ ...target, ...source }] *)
Definition spread {A : Type} (target source : list (string * A))
  : list (string * A) :=
  fold_left (fun r kv => set r (fst kv) (snd kv)) source target.

End Shape.

Inductive ObjectMethod : Type :=
| extend (shape : list (string * Schema))
| merge (other : Schema)
| pick (keys : list string)       (* [Object.keys] of the mask *)
| omit (keys : list string)
| partial
| required.

(** One iteration of the loop of [pick]:
    [if (key in this.shape) newShape[key] = this.shape[key]].
    For a key that the shape only inherits from [Object.prototype] the
    test holds as well: the assignment then stores a built-in function
    where a schema is expected ([None]: the object returned is not a
    schema), or, for [__proto__], sets the prototype of the new shape to
    [Object.prototype], which it is already. *)
Definition pick_step (shape : list (string * Schema))
           (newShape : option (list (string * Schema))) (key : string)
  : option (list (string * Schema)) :=
  match newShape with
  | None => None
  | Some acc =>
      match Shape.get shape key with
      | Some schema => Shape.assign acc key schema
      | None =>
          match JSValue.inherited key with
          | Some Object_prototype => Some acc
          | Some _ => None
          | None => Some acc
          end
      end
  end.

Definition pick_shape (shape : list (string * Schema)) (keys : list string)
  : option (list (string * Schema)) :=
  fold_left (pick_step shape) keys (Some []).

Definition omit_shape (shape : list (string * Schema)) (keys : list string)
  : list (string * Schema) :=
  fold_left Shape.delete keys (Shape.spread [] shape).

(** [newShape[key] = f(schema)] for every entry of the shape. *)
Definition map_shape (f : Schema -> Schema) (shape : list (string * Schema))
  : option (list (string * Schema)) :=
  fold_left (fun newShape ks =>
               match newShape with
               | Some acc => Shape.assign acc (fst ks) (f (snd ks))
               | None => None
               end)
            shape (Some []).

Definition partial_shape (shape : list (string * Schema))
  : option (list (string * Schema)) :=
  map_shape (fun schema => ValaiOptional schema no_meta) shape.

(** [schema instanceof ValaiOptional ? schema.unwrap() : schema] *)
Definition unwrap_optional (schema : Schema) : Schema :=
  match schema with
  | ValaiOptional innerType _ => innerType
  | _ => schema
  end.

Definition required_shape (shape : list (string * Schema))
  : option (list (string * Schema)) :=
  map_shape unwrap_optional shape.

(** The object that a shape method returns. [extend] and [merge] pass the
    unknown-key policy and the metadata of the receiver to the
    constructor; the other four call [new ValaiObject(newShape)]. *)
Definition object_returned (m : ObjectMethod) (this : Schema)
  : option Schema :=
  match this with
  | ValaiObject shape unknownKeys meta =>
      match m with
      | extend shape' =>
          Some (ValaiObject (Shape.spread (Shape.spread [] shape) shape')
                            unknownKeys meta)
      | merge (ValaiObject shape' _ _) =>
          Some (ValaiObject (Shape.spread (Shape.spread [] shape) shape')
                            unknownKeys meta)
      | merge _ => None
      | pick keys => option_map v.object (pick_shape shape keys)
      | omit keys => Some (v.object (omit_shape shape keys))
      | partial => option_map v.object (partial_shape shape)
      | required => option_map v.object (required_shape shape)
      end
  | _ => None
  end.

(** [schema.shape] *)
Definition shape_of (schema : Schema) : list (string * Schema) :=
  match schema with
  | ValaiObject shape _ _ => shape
  | _ => []
  end.

(** The shape of the object that a shape method returns. *)
Definition returned_shape (m : ObjectMethod) (this : Schema)
  : list (string * Schema) :=
  match object_returned m this with
  | Some o => shape_of o
  | None => []
  end.

(** [k] is one of [keys]. *)
Definition among (keys : list string) (k : string) : bool :=
  existsb (String.eqb k) keys.

(** A key of a mask that [pick] handles as its documentation says: an own
    key of the shape other than [__proto__], or a name that the shape does
    not have at all, or [__proto__] when the shape has no own property of
    that name. *)
Definition pickable (shape : list (string * Schema)) (key : string) : bool :=
  match Shape.get shape key with
  | Some _ => negb (String.eqb key "__proto__")
  | None =>
      match JSValue.inherited key with
      | Some Object_prototype | None => true
      | Some _ => false
      end
  end.

(* ================================================================== *)
(** * Notions used to compare the arrays of a chain and the two modes *)
(* ================================================================== *)

(** A schema without a union and without an intersection anywhere
    inside: these are the two classes that validate in a sibling
    context. *)
Fixpoint sibling_free (s : Schema) : bool :=
  match s with
  | ValaiString _ _ | ValaiNumber _ _ | ValaiEnum _ _ => true
  | ValaiArray element _ _ _ _ => sibling_free element
  | ValaiObject shape _ _ => forallb (fun '(_, s') => sibling_free s') shape
  | ValaiUnion _ _ | ValaiIntersection _ _ _ => false
  | ValaiOptional inner _ | ValaiNullable inner _ | ValaiDefault inner _ _ =>
      sibling_free inner
  end.

(** A schema that is not an intersection, under any number of wrappers. *)
Fixpoint reports (s : Schema) : bool :=
  match s with
  | ValaiIntersection _ _ _ => false
  | ValaiOptional inner _ | ValaiNullable inner _ | ValaiDefault inner _ _ =>
      reports inner
  | _ => true
  end.

(** A schema built from the string, number, array and object classes and
    the three wrappers. *)
Fixpoint plain (s : Schema) : bool :=
  match s with
  | ValaiString _ _ | ValaiNumber _ _ => true
  | ValaiArray element _ _ _ _ => plain element
  | ValaiObject shape _ _ => forallb (fun '(_, s') => plain s') shape
  | ValaiUnion _ _ | ValaiEnum _ _ | ValaiIntersection _ _ _ => false
  | ValaiOptional inner _ | ValaiNullable inner _ | ValaiDefault inner _ _ =>
      plain inner
  end.

(** A computation is uniform on a context when every array of the chain
    of that context receives the same issues, in the same order. *)
Definition uniform {A : Type} (ctx : ParseContext) (m : M A) : Prop :=
  forall st, well_formed st ctx = true ->
    exists l, forall a x, In a (chain ctx) -> st !! issues a = Some x ->
                          snd (m st) !! issues a = Some (x ++ l)%list.

(** Two contexts at the same place: they hold the same data at the same
    path, own the same array, and so do their ancestors in turn; they may
    differ in their mode and options. *)
Fixpoint same_place (a b : ParseContext) {struct a} : Prop :=
  match a with
  | Build_ParseContext d _ p i par _ =>
      d = data b /\ p = path b /\ i = issues b /\
      match par, parent b with
      | Some pa, Some pb => same_place pa pb
      | None, None => True
      | _, _ => False
      end
  end.

(** The validation of a schema agrees in two contexts at the same place,
    the first of them strict with an empty array, when it is valid in the
    first. *)
Definition agrees (s : Schema) : Prop :=
  forall cs cl st v,
    same_place cs cl -> mode cs = strict_mode ->
    well_formed st cs = true -> st !! issues cs = Some [] ->
    fst (Schema_parse s cs st) = valid v ->
    Schema_parse s cs st = Schema_parse s cl st.

(* ================================================================== *)
(** * Properties *)
(* ================================================================== *)

(** ** Object unknown-key modes *)

(** C6. With the shape [{name: string()}] and the input
    [{name: "x", extra: true}]: the default mode and [strip()] succeed with
    [{name: "x"}]; [strict()] fails with one [unrecognized_keys] issue that
    lists [["extra"]]; [passthrough()] succeeds with
    [{name: "x", extra: true}]. *)
Theorem object_unknown_key_modes :
  safeParse Examples.named Examples.named_with_extra
    = ParseSuccess (VObject [("name", VString "x")]) /\
  option_map (fun s => safeParse s Examples.named_with_extra)
             (returned object_strip Examples.named)
    = Some (ParseSuccess (VObject [("name", VString "x")])) /\
  option_map (fun s => safeParse s Examples.named_with_extra)
             (returned object_strict Examples.named)
    = Some (ParseFailure
              {| error_issues :=
                   [Build_Issue (unrecognized_keys ["extra"]) [] None] |}
              VUndefined) /\
  option_map (fun s => safeParse s Examples.named_with_extra)
             (returned object_passthrough Examples.named)
    = Some (ParseSuccess
              (VObject [("name", VString "x"); ("extra", VBool true)])).
Proof. repeat split; vm_compute; reflexivity. Qed.

(** ** Issues reach every ancestor *)

Section store_lemmas.

Lemma if_decide_cons {A : Type} (x a : nat) (l : list nat) (u w : A) :
  (if decide (x ∈ a :: l) then u else w) =
  (if decide (a = x) then u else if decide (x ∈ l) then u else w).
Proof.
  destruct (decide (a = x)) as [Heq | Hne];
    destruct (decide (x ∈ l)) as [Hin | Hnin];
    destruct (decide (x ∈ a :: l)) as [H | H];
    try reflexivity; exfalso.
  - apply H, elem_of_cons. left. symmetry. exact Heq.
  - apply H, elem_of_cons. left. symmetry. exact Heq.
  - apply H, elem_of_cons. right. exact Hin.
  - apply elem_of_cons in H as [H | H]; [apply Hne; symmetry; exact H | tauto].
Qed.

Lemma push_lookup (arr : nat) (i : Issue) (st : Store) (r : nat) :
  snd (push arr i st) !! r =
  if decide (arr = r) then (fun l => (l ++ [i])%list) <$> st !! r else st !! r.
Proof.
  unfold push; cbn [snd]. rewrite list_lookup_alter.
  destruct (decide (arr = r)) as [-> | _]; reflexivity.
Qed.

(** Induction along the [parent] references of a context. *)
Lemma ParseContext_chain_ind (P : ParseContext -> Prop) :
  (forall d m p i o, P (Build_ParseContext d m p i None o)) ->
  (forall d m p i par o,
      P par -> P (Build_ParseContext d m p i (Some par) o)) ->
  forall ctx, P ctx.
Proof.
  intros Hroot Hstep.
  fix IH 1. intros [d m p i [par|] o].
  - apply Hstep, IH.
  - apply Hroot.
Qed.

Lemma collect_lookup (ctx : ParseContext) (i : Issue) (st : Store) (r : nat) :
  NoDup (map issues (ancestors ctx)) ->
  snd (collectIssueInParent ctx i st) !! r =
  if decide (r ∈ map issues (ancestors ctx))
  then (fun l => (l ++ [i])%list) <$> st !! r else st !! r.
Proof.
  revert st.
  induction ctx as [d m p a o | d m p a par o IH] using ParseContext_chain_ind;
    intros st Hnd; simpl.
  - destruct (decide (r ∈ [])) as [Hin | _]; [inversion Hin | reflexivity].
  - simpl in Hnd. apply NoDup_cons in Hnd as [Hnotin Hnd].
    unfold bind. destruct (push (issues par) i st) as [u st1] eqn:Hpush.
    rewrite (IH st1 Hnd).
    assert (Hst1 : st1 = snd (push (issues par) i st))
      by (rewrite Hpush; reflexivity).
    subst st1. rewrite push_lookup, if_decide_cons.
    destruct (decide (issues par = r)) as [<- | Hne].
    + destruct (decide (issues par ∈ map issues (ancestors par)));
        [contradiction | reflexivity].
    + reflexivity.
Qed.

Lemma addIssue_lookup (ctx : ParseContext) (d : IssueDetail)
      (m : option string) (st : Store) (r : nat) :
  NoDup (map issues (chain ctx)) ->
  snd (addIssue ctx d m st) !! r =
  if decide (r ∈ map issues (chain ctx))
  then (fun l => (l ++ [Build_Issue d (path ctx) m])%list) <$> st !! r
  else st !! r.
Proof.
  intros Hnd. unfold chain in *. cbn [map] in *.
  apply NoDup_cons in Hnd as [Hnotin Hnd].
  set (full := Build_Issue d (path ctx) m).
  assert (Hsnd : snd (addIssue ctx d m st)
                 = snd (collectIssueInParent ctx full
                          (snd (push (issues ctx) full st)))).
  { unfold addIssue, bind. fold full.
    destruct (push (issues ctx) full st) as [u st1]. cbn [snd].
    destruct (collectIssueInParent ctx full st1) as [u' st2].
    reflexivity. }
  rewrite Hsnd, (collect_lookup _ _ _ _ Hnd), push_lookup, if_decide_cons.
  destruct (decide (issues ctx = r)) as [<- | Hne].
  - destruct (decide (issues ctx ∈ map issues (ancestors ctx)));
      [contradiction | reflexivity].
  - reflexivity.
Qed.

Lemma well_formed_spec (st : Store) (ctx : ParseContext) :
  well_formed st ctx = true ->
  NoDup (map issues (chain ctx)) /\
  forall c, In c (chain ctx) -> issues c < length st.
Proof.
  unfold well_formed. intros H.
  apply andb_true_iff in H as [Hnd Hall].
  split.
  - apply bool_decide_eq_true in Hnd. exact Hnd.
  - intros c Hc. rewrite forallb_forall in Hall.
    apply Nat.ltb_lt, Hall, Hc.
Qed.

End store_lemmas.

(** C8. An issue added in a context is appended to the issue list of that
    context and of every ancestor up to the root, and to no other list;
    and [object({user: object({name: string()})})] applied to
    [{user: {name: 123}}] fails with exactly one issue, whose path is
    [["user", "name"]]. *)
Theorem issue_reaches_every_ancestor :
  safeParse Examples.user_schema Examples.user_input
    = ParseFailure
        {| error_issues :=
             [Build_Issue (invalid_type "string" "number")
                          [PKey "user"; PKey "name"] None] |}
        VUndefined /\
  forall (ctx : ParseContext) (d : IssueDetail) (m : option string)
         (st : Store),
    well_formed st ctx = true ->
    (forall c, In c (chain ctx) ->
       issues_of (snd (addIssue ctx d m st)) c
         = (issues_of st c ++ [Build_Issue d (path ctx) m])%list) /\
    (forall r, ~ In r (map issues (chain ctx)) ->
       snd (addIssue ctx d m st) !! r = st !! r).
Proof.
  split; [vm_compute; reflexivity |].
  intros ctx d m st Hwf.
  apply well_formed_spec in Hwf as [Hnd Halloc].
  split.
  - intros c Hc. unfold issues_of.
    rewrite (addIssue_lookup _ _ _ _ _ Hnd).
    destruct (decide (issues c ∈ map issues (chain ctx))) as [_ | Hno].
    + destruct (lookup_lt_is_Some_2 st (issues c) (Halloc c Hc)) as [l Hl].
      rewrite Hl. reflexivity.
    + exfalso. apply Hno. apply list_elem_of_In, in_map, Hc.
  - intros r Hr.
    rewrite (addIssue_lookup _ _ _ _ _ Hnd).
    destruct (decide (r ∈ map issues (chain ctx))) as [Hin | _];
      [| reflexivity].
    exfalso. apply Hr, list_elem_of_In, Hin.
Qed.

Lemma issue_reaches_every_ancestor_witness :
  let root :=
    Build_ParseContext VNull strict_mode [] 0 None default_llmOptions in
  let kid :=
    Build_ParseContext VNull strict_mode [PKey "k"] 1 (Some root)
                       default_llmOptions in
  well_formed [[]; []] kid = true /\
  issues_of (snd (addIssue kid not_finite None [[]; []])) root
    = [Build_Issue not_finite [PKey "k"] None].
Proof.
  intros root kid. split; [reflexivity |].
  apply (proj1 (proj2 issue_reaches_every_ancestor kid not_finite None
                      [[]; []] eq_refl) root).
  right; left; reflexivity.
Defined.

(** ** Union members and their sibling contexts *)

(** A sibling context keeps the parent of the context it is derived from,
    so an issue raised in the sibling is forwarded to that parent. *)
Lemma sibling_shares_parent (ctx : ParseContext) (d : value) (st : Store) :
  parent (fst (sibling ctx d st)) = parent ctx /\
  ancestors (fst (sibling ctx d st)) = ancestors ctx.
Proof. destruct ctx as [d0 m p i [par|] o]; split; reflexivity. Qed.

(** C1, evaluated at the failing inputs. A union at the root accepts ["x"]
    through its second member; the same union inside an object or an array
    makes the whole [safeParse] fail, and the issue of the rejected first
    member is the issue reported. *)
Theorem union_member_issue_leaks_to_ancestors :
  safeParse Examples.number_or_string (VString "x")
    = ParseSuccess (VString "x") /\
  safeParse Examples.object_with_union (VObject [("a", VString "x")])
    = ParseFailure
        {| error_issues :=
             [Build_Issue (invalid_type "number" "string") [PKey "a"] None] |}
        VUndefined /\
  safeParse Examples.array_of_union (VArray [VString "x"])
    = ParseFailure
        {| error_issues :=
             [Build_Issue (invalid_type "number" "string") [PIndex 0] None] |}
        VUndefined.
Proof. repeat split; vm_compute; reflexivity. Qed.

(** ** The repair pipeline on clean input *)

(** C3, evaluated at the failing inputs. The three fixers that are written
    with global regular expressions rewrite text inside a double-quoted
    string; the fixers that scan with the string state leave such text
    alone. *)
Theorem regex_fixers_rewrite_string_content :
  Repair.fixSpecialNumbers Examples.nan_in_string false
    = dq "{'a': ': null'}" /\
  Repair.fixNumberFormats Examples.dot_in_string = dq "{'a': ': 0.5'}" /\
  Repair.fixUnquotedKeys Examples.key_in_string = dq "{'a': '{'b': 1}'}" /\
  Repair.fixTrailingCommas Examples.comma_in_string
    = Examples.comma_in_string /\
  Repair.removeJSONComments Examples.comment_in_string
    = Examples.comment_in_string /\
  Repair.tryCloseBrackets Examples.key_in_string = Examples.key_in_string.
Proof. repeat split; vm_compute; reflexivity. Qed.

(** C2, evaluated at the failing input. The text [{"a": ": NaN"}] is
    strictly valid JSON, yet the repair reports a change and returns data
    that differs from what [JSON.parse] returns for the text. *)
Theorem valid_json_is_rewritten :
  JSON.parse Examples.nan_in_string = Some (VObject [("a", VString ": NaN")]) /\
  Repair.repaired (first_run Examples.nan_in_string) = true /\
  Repair.text (first_run Examples.nan_in_string) = dq "{'a': ': null'}" /\
  Repair.data (first_run Examples.nan_in_string)
    = Some (VObject [("a", VString ": null")]) /\
  map Repair.ra_type (Repair.repairs (first_run Examples.nan_in_string))
    = ["specialNumbers"].
Proof. repeat split; vm_compute; reflexivity. Qed.

(** ** A second run of the repair *)

Section repair_lemmas.

Import Repair.

Lemma stage_unchanged (on : bool) (fixer : string -> string)
      (a : RepairAction) (t : string) (rs : list RepairAction) :
  unchanged_by on fixer t = true -> stage on fixer a (t, rs) = (t, rs).
Proof.
  unfold unchanged_by, stage. destruct on; simpl; [| reflexivity].
  intros H. rewrite H. simpl. apply String.eqb_eq in H. rewrite H. reflexivity.
Qed.

Lemma stage_changed (on : bool) (fixer : string -> string)
      (a : RepairAction) (t : string) (rs : list RepairAction) :
  unchanged_by on fixer t = false -> snd (stage on fixer a (t, rs)) <> [].
Proof.
  unfold unchanged_by, stage. destruct on; simpl; [| discriminate].
  intros H. rewrite H. simpl. destruct rs; discriminate.
Qed.

Lemma stage_keeps_log (on : bool) (fixer : string -> string)
      (a : RepairAction) (st : string * list RepairAction) :
  snd st <> [] -> snd (stage on fixer a st) <> [].
Proof.
  destruct st as [t rs]. unfold stage. intros H.
  destruct on; [| exact H].
  destruct (negb (fixer t =? t)%string); [| exact H].
  simpl. destruct rs; [contradiction | discriminate].
Qed.

Lemma extract_unchanged (on : bool) (ex : string -> bool * string)
      (a : RepairAction) (t : string) (rs : list RepairAction) :
  negb on || negb (fst (ex t)) = true -> extract_stage on ex a (t, rs) = (t, rs).
Proof.
  unfold extract_stage. destruct on; simpl; [| reflexivity].
  destruct (ex t) as [[] r]; simpl; [discriminate | reflexivity].
Qed.

Lemma extract_changed (on : bool) (ex : string -> bool * string)
      (a : RepairAction) (t : string) (rs : list RepairAction) :
  negb on || negb (fst (ex t)) = false ->
  snd (extract_stage on ex a (t, rs)) <> [].
Proof.
  unfold extract_stage. destruct on; simpl; [| discriminate].
  destruct (ex t) as [[] r]; simpl; [| discriminate].
  intros _. destruct rs; discriminate.
Qed.

Lemma extract_keeps_log (on : bool) (ex : string -> bool * string)
      (a : RepairAction) (st : string * list RepairAction) :
  snd st <> [] -> snd (extract_stage on ex a st) <> [].
Proof.
  destruct st as [t rs]. unfold extract_stage. intros H.
  destruct on; [| exact H].
  destruct (ex t) as [[] r]; [| exact H].
  simpl. destruct rs; [contradiction | discriminate].
Qed.

Lemma repairJSON_fields (x : string) (opts : RepairOptions) :
  text (repairJSON x opts) = fst (run_stages opts x) /\
  repairs (repairJSON x opts) = snd (run_stages opts x) /\
  repaired (repairJSON x opts)
    = negb (String.eqb (fst (run_stages opts x)) x) /\
  data (repairJSON x opts) = JSON.parse (fst (run_stages opts x)).
Proof.
  unfold repairJSON. destruct (run_stages opts x) as [t rs]. simpl.
  destruct (JSON.parse t); simpl; repeat split; reflexivity.
Qed.

Lemma logs_stage (on : bool) (fixer : string -> string) (a : RepairAction)
      (t : string) :
  logs (unchanged_by on fixer t) (stage on fixer a) t.
Proof.
  repeat split.
  - apply stage_unchanged.
  - apply stage_changed.
  - apply stage_keeps_log.
Qed.

Lemma logs_extract (on : bool) (ex : string -> bool * string)
      (a : RepairAction) (t : string) :
  logs (negb on || negb (fst (ex t))) (extract_stage on ex a) t.
Proof.
  repeat split.
  - apply extract_unchanged.
  - apply extract_changed.
  - apply extract_keeps_log.
Qed.

Lemma logs_compose (c1 c2 : bool)
      (S1 S2 : string * list RepairAction -> string * list RepairAction)
      (t : string) :
  logs c1 S1 t -> logs c2 S2 t -> logs (c1 && c2) (fun st => S2 (S1 st)) t.
Proof.
  intros (Hid1 & Hlog1 & Hkeep1) (Hid2 & Hlog2 & Hkeep2). repeat split.
  - intros H. apply andb_true_iff in H as [H1 H2].
    rewrite (Hid1 H1). apply (Hid2 H2).
  - intros H. destruct c1.
    + rewrite (Hid1 eq_refl). apply Hlog2. exact H.
    + apply Hkeep2, Hlog1. reflexivity.
  - intros st Hst. apply Hkeep2, Hkeep1, Hst.
Qed.

Lemma run_stages_logs (opts : RepairOptions) (t : string) :
  (stable opts t = true -> run_stages opts t = (t, [])) /\
  (stable opts t = false -> snd (run_stages opts t) <> []).
Proof.
  assert (H : logs (stable opts t)
                (fun st =>
                   stage (enabled (closeBrackets opts)) tryCloseBrackets
                     (act "closeBrackets" "Closed unclosed brackets")
                  (stage (enabled (trailingCommas opts)) fixTrailingCommas
                     (act "trailingCommas" "Removed trailing commas")
                  (stage (enabled (fixNumberFormatsOpt opts)) fixNumberFormats
                     (act "numberFormats" "Fixed non-standard number formats")
                  (stage (enabled (handleSpecialNumbers opts))
                     (fun t => fixSpecialNumbers t false)
                     (act "specialNumbers" "Replaced special number values")
                  (stage (enabled (unquotedKeys opts)) fixUnquotedKeys
                     (act "unquotedKeys" "Added quotes to unquoted keys")
                  (stage (enabled (singleQuotes opts)) fixSingleQuotes
                     (act "singleQuotes"
                          "Converted single quotes to double quotes")
                  (stage (enabled (removeComments opts)) removeJSONComments
                     (act "removeComments" "Removed comments")
                  (extract_stage (enabled (extractFromText opts))
                     (fun t => let r := extractJSONFromText t in
                               (tx_extracted r, tx_text r))
                     (act "extractFromText"
                          "Extracted JSON from surrounding text")
                  (extract_stage (enabled (markdown opts))
                     (fun t => let r := extractFromMarkdown t in
                               (md_extracted r, md_text r))
                     (act "markdown"
                          "Extracted JSON from markdown code block")
                     st))))))))) t).
  { unfold stable.
    repeat match goal with
           | |- logs (_ && _) (fun st => ?S2 (@?S1 st)) _ =>
               apply (logs_compose _ _ S1 S2)
           end;
      first [ apply logs_stage
            | apply (logs_extract _ (fun t => let r := extractJSONFromText t in
                                              (tx_extracted r, tx_text r)))
            | apply (logs_extract _ (fun t => let r := extractFromMarkdown t in
                                              (md_extracted r, md_text r))) ]. }
  destruct H as (Hid & Hlog & _). split; [exact Hid | exact Hlog].
Qed.

End repair_lemmas.


(** A run of the repair over a text [t] logs no action exactly when [t]
    is stable; in that case the run returns [t] itself, reports
    [repaired = false] and parses [t]. *)
Lemma repair_silent_iff_stable (opts : Repair.RepairOptions) (t : string) :
  (stable opts t = true <-> Repair.repairs (Repair.repairJSON t opts) = []) /\
  (stable opts t = true ->
   Repair.text (Repair.repairJSON t opts) = t /\
   Repair.repaired (Repair.repairJSON t opts) = false /\
   Repair.data (Repair.repairJSON t opts) = JSON.parse t).
Proof.
  destruct (repairJSON_fields t opts) as (Htext & Hreps & Hflag & Hdata).
  destruct (run_stages_logs opts t) as (Hid & Hlog).
  split.
  - rewrite Hreps. split.
    + intros H. rewrite (Hid H). reflexivity.
    + intros H. destruct (stable opts t) eqn:E; [reflexivity |].
      exfalso. apply (Hlog eq_refl). exact H.
  - intros H. rewrite Htext, Hflag, Hdata, (Hid H). simpl.
    rewrite String.eqb_refl. repeat split; reflexivity.
Qed.



(** ** Invariants of the store and of validation *)
Section ctx_invariants.

Lemma chain_issues_lt (st : Store) (ctx : ParseContext) :
  well_formed st ctx = true ->
  forall r, r ∈ map issues (chain ctx) -> r < length st.
Proof.
  intros H r Hr. apply well_formed_spec in H as [_ Hall].
  apply list_elem_of_In, in_map_iff in Hr as (c & <- & Hc). apply Hall, Hc.
Qed.

Lemma new_context_well_formed (d : value) (m : ParseMode)
      (p : option (list PathSegment)) (par : option ParseContext)
      (o : option LLMParseOptions) (st : Store) :
  match par with Some c => well_formed st c = true | None => True end ->
  let (ctx, st') := new_ParseContext d m p par o st in
  well_formed st' ctx = true /\ issues_of st' ctx = [] /\
  (forall r, r < length st -> st' !! r = st !! r).
Proof.
  intros Hpar. unfold new_ParseContext, bind, alloc, ret. simpl.
  split; [| split].
  - unfold well_formed, chain. simpl.
    apply andb_true_iff. split.
    + apply bool_decide_eq_true. destruct par as [c |]; simpl.
      * pose proof (well_formed_spec st c Hpar) as [Hnd Hall].
        apply NoDup_cons. split; [| exact Hnd].
        intros Hin. apply (chain_issues_lt st c Hpar) in Hin. lia.
      * apply NoDup_cons. split; [intros Hin; inversion Hin | apply NoDup_nil; exact I].
    + rewrite length_app. simpl. apply andb_true_iff. split.
      * apply Nat.ltb_lt. lia.
      * destruct par as [c |]; simpl; [| reflexivity].
        pose proof (well_formed_spec st c Hpar) as [_ Hall].
        apply (proj2 (forallb_forall
                        (fun c0 => issues c0 <? length st + 1) (chain c))).
        intros x Hx. apply Nat.ltb_lt.
        specialize (Hall x Hx). lia.
  - unfold issues_of. simpl. rewrite lookup_app_r by lia.
    rewrite Nat.sub_diag. reflexivity.
  - intros r Hr. apply lookup_app_l. exact Hr.
Qed.

(** The contexts that the code creates are well formed: a root context, a
    child of a well-formed context, and a sibling of one. *)
Lemma child_well_formed (ctx : ParseContext) (d : value)
      (segment : PathSegment) (st : Store) :
  well_formed st ctx = true ->
  well_formed (snd (child ctx d segment st)) (fst (child ctx d segment st))
  = true /\
  chain (fst (child ctx d segment st))
  = fst (child ctx d segment st) :: chain ctx /\
  path (fst (child ctx d segment st)) = (path ctx ++ [segment])%list.
Proof.
  intros Hwf. unfold child.
  pose proof (new_context_well_formed d (mode ctx)
                (Some (path ctx ++ [segment])%list) (Some ctx)
                (Some (llmOptions ctx)) st Hwf) as H.
  destruct (new_ParseContext _ _ _ _ _ st) as [c st'] eqn:E.
  destruct H as (H & _ & _). split; [exact H |].
  unfold new_ParseContext, bind, alloc, ret in E. injection E as <- <-.
  split; reflexivity.
Qed.

Lemma root_well_formed (d : value) :
  well_formed (snd (createStrictContext d [])) (fst (createStrictContext d []))
  = true.
Proof. reflexivity. Qed.

End ctx_invariants.

Section growth.

Lemma grows_refl (st : Store) : grows st st.
Proof. intros r l H. exists []. rewrite app_nil_r. exact H. Qed.

Lemma grows_trans (a b c : Store) : grows a b -> grows b c -> grows a c.
Proof.
  intros Hab Hbc r l H. destruct (Hab r l H) as [l1 H1].
  destruct (Hbc r _ H1) as [l2 H2]. exists (l1 ++ l2)%list.
  rewrite H2, app_assoc. reflexivity.
Qed.

Lemma grows_push (arr : nat) (i : Issue) (st : Store) :
  grows st (snd (push arr i st)).
Proof.
  intros r l H. rewrite push_lookup, H.
  destruct (decide (arr = r)); [exists [i] | exists []]; simpl;
    rewrite ?app_nil_r; reflexivity.
Qed.

Lemma grows_collect (ctx : ParseContext) (i : Issue) (st : Store) :
  grows st (snd (collectIssueInParent ctx i st)).
Proof.
  revert st.
  induction ctx as [d m p a o | d m p a par o IH] using ParseContext_chain_ind;
    intros st; simpl.
  - apply grows_refl.
  - unfold bind. pose proof (grows_push (issues par) i st) as Hp.
    destruct (push (issues par) i st) as [u st1]. simpl in Hp.
    eapply grows_trans; [exact Hp | apply IH].
Qed.

Lemma addIssue_snd (ctx : ParseContext) (d : IssueDetail) (m : option string)
      (st : Store) :
  snd (addIssue ctx d m st)
  = snd (collectIssueInParent ctx (Build_Issue d (path ctx) m)
           (snd (push (issues ctx) (Build_Issue d (path ctx) m) st))) /\
  fst (addIssue ctx d m st) = invalid.
Proof.
  unfold addIssue, bind.
  destruct (push (issues ctx) _ st) as [u st1]. cbn [snd].
  destruct (collectIssueInParent ctx _ st1) as [u' st2].
  split; reflexivity.
Qed.

Lemma grows_addIssue (ctx : ParseContext) (d : IssueDetail)
      (m : option string) (st : Store) :
  grows st (snd (addIssue ctx d m st)).
Proof.
  rewrite (proj1 (addIssue_snd ctx d m st)).
  eapply grows_trans; [apply grows_push | apply grows_collect].
Qed.

Lemma addIssue_own (ctx : ParseContext) (d : IssueDetail)
      (m : option string) (st : Store) :
  is_Some (st !! issues ctx) ->
  issues_of (snd (addIssue ctx d m st)) ctx <> [].
Proof.
  intros [l Hl]. rewrite (proj1 (addIssue_snd ctx d m st)).
  set (full := Build_Issue d (path ctx) m).
  assert (Hp : snd (push (issues ctx) full st) !! issues ctx
               = Some (l ++ [full])%list).
  { rewrite push_lookup, Hl.
    destruct (decide (issues ctx = issues ctx)); [reflexivity | contradiction]. }
  destruct (grows_collect ctx full _ _ _ Hp) as [l' Hl'].
  unfold issues_of. rewrite Hl'. simpl. destruct l; discriminate.
Qed.

End growth.

Section parse_invariants.

(** Induction on schemas that reaches the members of a union and the
    properties of an object. *)
Lemma Schema_nested_ind (P : Schema -> Prop) :
  (forall checks meta, P (ValaiString checks meta)) ->
  (forall checks meta, P (ValaiNumber checks meta)) ->
  (forall element a b c meta, P element -> P (ValaiArray element a b c meta)) ->
  (forall shape u meta,
      Forall (fun kv => P (snd kv)) shape -> P (ValaiObject shape u meta)) ->
  (forall options meta, Forall P options -> P (ValaiUnion options meta)) ->
  (forall inner meta, P inner -> P (ValaiOptional inner meta)) ->
  (forall inner meta, P inner -> P (ValaiNullable inner meta)) ->
  (forall inner d meta, P inner -> P (ValaiDefault inner d meta)) ->
  (forall values meta, P (ValaiEnum values meta)) ->
  (forall l r meta, P l -> P r -> P (ValaiIntersection l r meta)) ->
  forall s, P s.
Proof.
  intros Hs Hn Ha Ho Hu Hopt Hnul Hdef He Hi.
  fix IH 1. intros [checks meta | checks meta | element a b c meta
                   | shape u meta | options meta | values meta | l r meta
                   | inner meta | inner meta | inner d meta].
  - apply Hs.
  - apply Hn.
  - apply Ha, IH.
  - apply Ho. induction shape as [| [k s] shape IHshape]; constructor.
    + apply IH.
    + exact IHshape.
  - apply Hu. induction options as [| s options IHoptions]; constructor.
    + apply IH.
    + exact IHoptions.
  - apply He.
  - apply Hi; apply IH.
  - apply Hopt, IH.
  - apply Hnul, IH.
  - apply Hdef, IH.
Qed.

Lemma mono_ret {A : Type} (a : A) : mono (ret a).
Proof. intros st. apply grows_refl. Qed.

Lemma mono_bind {A B : Type} (m : M A) (k : A -> M B) :
  mono m -> (forall a, mono (k a)) -> mono (bind m k).
Proof.
  intros Hm Hk st. unfold bind. specialize (Hm st).
  destruct (m st) as [a st1]. simpl in Hm.
  eapply grows_trans; [exact Hm | apply Hk].
Qed.

Lemma mono_read (arr : nat) : mono (read arr).
Proof. intros st. apply grows_refl. Qed.

Lemma mono_hasIssues (ctx : ParseContext) : mono (hasIssues ctx).
Proof.
  unfold hasIssues. apply mono_bind; [apply mono_read | intros; apply mono_ret].
Qed.

Lemma mono_alloc : mono alloc.
Proof.
  intros st r l H. exists []. simpl. rewrite app_nil_r.
  rewrite lookup_app_l; [exact H | eapply lookup_lt_Some; exact H].
Qed.

Lemma mono_new (d : value) (m : ParseMode) (p : option (list PathSegment))
      (par : option ParseContext) (o : option LLMParseOptions) :
  mono (new_ParseContext d m p par o).
Proof.
  unfold new_ParseContext. apply mono_bind; [apply mono_alloc |].
  intros; apply mono_ret.
Qed.

Lemma mono_addIssue (ctx : ParseContext) (d : IssueDetail)
      (m : option string) : mono (addIssue ctx d m).
Proof. intros st. apply grows_addIssue. Qed.

Lemma mono_issue_when (c : bool) (ctx : ParseContext) (d : IssueDetail)
      (m : option string) : mono (issue_when c ctx d m).
Proof.
  unfold issue_when. destruct c; [| apply mono_ret].
  apply mono_bind; [apply mono_addIssue | intros; apply mono_ret].
Qed.

Lemma mono_string_checks (ctx : ParseContext) (cs : list StringCheck)
      (s : string) : mono (string_checks ctx cs s).
Proof.
  revert s. induction cs as [| c cs IH]; intros s; simpl; [apply mono_ret |].
  apply mono_bind; [| intros; apply IH].
  destruct c; simpl; try apply mono_ret;
    (apply mono_bind; [apply mono_issue_when | intros; apply mono_ret]).
Qed.

Lemma mono_number_checks (ctx : ParseContext) (cs : list NumberCheck)
      (n : JSNumber) : mono (number_checks ctx cs n).
Proof.
  induction cs as [| c cs IH]; simpl; [apply mono_ret |].
  apply mono_bind; [| intros; apply IH].
  destruct c; simpl; apply mono_issue_when.
Qed.

Lemma mono_guard {A : Type} (m : M A) (ctx : ParseContext) (f : A -> value) :
  mono m ->
  mono (let* x := m in
        let* has := hasIssues ctx in
        if has then ret invalid else success ctx (f x)).
Proof.
  intros Hm. apply mono_bind; [exact Hm |]. intros a.
  apply mono_bind; [apply mono_hasIssues |]. intros []; apply mono_ret.
Qed.

Lemma mono_array_length_checks ctx len a b c :
  mono (array_length_checks ctx len a b c).
Proof.
  unfold array_length_checks.
  apply mono_bind; [destruct a; [apply mono_issue_when | apply mono_ret] |].
  intros _.
  apply mono_bind; [destruct b; [apply mono_issue_when | apply mono_ret] |].
  intros _. destruct c; [apply mono_issue_when | apply mono_ret].
Qed.

Lemma mono_array_elements (parse_element : ParseContext -> M ParseReturnType)
      (ctx : ParseContext) :
  (forall c, mono (parse_element c)) ->
  forall items i result, mono (array_elements parse_element ctx i items result).
Proof.
  intros Hp. induction items as [| item items IH]; intros i result; simpl;
    [apply mono_ret |].
  apply mono_bind; [apply mono_new |]. intros childCtx.
  apply mono_bind; [apply Hp |]. intros [v | |]; first [apply IH | apply mono_ret].
Qed.

Lemma mono_object_properties
      (parse_with : Schema -> ParseContext -> M ParseReturnType)
      (ctx : ParseContext) (input : value)
      (entries : list (string * Schema)) :
  Forall (fun kv => forall c, mono (parse_with (snd kv) c)) entries ->
  forall result, mono (object_properties parse_with ctx input entries result).
Proof.
  induction 1 as [| [key schema] entries Hhead Htail IH]; intros result; simpl;
    [apply mono_ret |].
  apply mono_bind; [apply mono_new |]. intros childCtx.
  apply mono_bind; [apply Hhead |].
  intros [v | |]; [destruct (_ || _) | |]; first [apply IH | apply mono_ret].
Qed.

Lemma mono_object_unknown_keys ctx u shapeKeys input result :
  mono (object_unknown_keys ctx u shapeKeys input result).
Proof.
  unfold object_unknown_keys.
  destruct (0 <? _); [| apply mono_ret].
  destruct (or_strip u); try apply mono_ret.
  apply mono_bind; [apply mono_addIssue | intros; apply mono_ret].
Qed.

Lemma mono_union_options
      (parse_with : Schema -> ParseContext -> M ParseReturnType)
      (ctx : ParseContext) (options : list Schema) :
  Forall (fun s => forall c, mono (parse_with s c)) options ->
  forall errs, mono (union_options parse_with ctx options errs).
Proof.
  induction 1 as [| option opts Hhead Htail IH]; intros errs; simpl.
  - apply mono_addIssue.
  - apply mono_bind; [apply mono_new |]. intros testCtx.
    apply mono_bind; [apply Hhead |]. intros result.
    apply mono_bind; [apply mono_hasIssues |]. intros has.
    destruct result as [v | |]; [destruct (negb has); [apply mono_ret |] | |];
      first [apply mono_ret
            | apply mono_bind; [apply mono_read | intros; apply IH]].
Qed.

Lemma mono_ValaiEnum_parse (values : list string) (ctx : ParseContext) :
  mono (ValaiEnum_parse values ctx).
Proof.
  unfold ValaiEnum_parse.
  destruct (match data ctx with VString _ => _ | _ => _ end) as [[] |];
    try apply mono_addIssue; try apply mono_ret.
  destruct (isLLMMode ctx); [destruct (find _ _) as [found |];
                             [destruct (is_empty found) |] |];
    try apply mono_ret;
    (destruct (negb _); [apply mono_addIssue | apply mono_ret]).
Qed.

Lemma mono_intersection_merge ctx l r : mono (intersection_merge ctx l r).
Proof.
  unfold intersection_merge.
  destruct l as [x | |], r as [y | |]; try apply mono_ret.
  destruct (_ && _); [apply mono_ret |].
  destruct (same_primitive x y); [apply mono_ret | apply mono_addIssue].
Qed.

Lemma mono_Schema_parse (s : Schema) : forall ctx, mono (Schema_parse s ctx).
Proof.
  induction s as [checks meta | checks meta | element a b c meta IHe
                 | shape u meta IHshape | options meta IHoptions
                 | inner meta IH | inner meta IH | inner d meta IH
                 | values meta | l r meta IHl IHr]
    using Schema_nested_ind; intros ctx; simpl.
  - unfold ValaiString_parse.
    destruct (if shouldCoerce ctx then _ else _) as [[] |];
      try apply mono_addIssue; try apply mono_ret.
    apply (mono_guard _ ctx VString), mono_string_checks.
  - unfold ValaiNumber_parse.
    destruct (match data ctx with VString _ => _ | _ => _ end);
      try apply mono_addIssue.
    destruct (JSNum.isNaN n); [apply mono_addIssue |].
    apply (mono_guard _ ctx (fun _ => VNumber n)), mono_number_checks.
  - destruct (data ctx); try apply mono_addIssue.
    apply mono_bind; [apply mono_array_length_checks |]. intros _.
    apply mono_bind; [apply mono_array_elements, IHe |].
    intros [result |]; [| apply mono_ret].
    apply (mono_guard (ret result) ctx VArray), mono_ret.
  - destruct (JSValue.is_plain_object (data ctx)); [| apply mono_addIssue].
    apply mono_bind; [apply mono_object_properties, IHshape |].
    intros [result |]; [| apply mono_ret].
    apply (mono_guard _ ctx VObject), mono_object_unknown_keys.
  - apply mono_union_options, IHoptions.
  - destruct (data ctx); first [apply mono_ret | apply IH].
  - destruct (data ctx); first [apply mono_ret | apply IH].
  - destruct (data ctx); first [apply mono_ret | apply IH].
  - apply mono_ValaiEnum_parse.
  - apply mono_bind; [apply IHl |]. intros leftResult.
    assert (H : mono (let* siblingCtx := sibling ctx (data ctx) in
                      let* rightResult := Schema_parse r siblingCtx in
                      intersection_merge ctx leftResult rightResult)).
    { apply mono_bind; [apply mono_new |]. intros siblingCtx.
      apply mono_bind; [apply IHr |]. intros rightResult.
      apply mono_intersection_merge. }
    destruct leftResult; first [exact H | apply mono_ret].
Qed.

Lemma flags_addIssue (ctx : ParseContext) (d : IssueDetail)
      (m : option string) : flags ctx (addIssue ctx d m).
Proof. intros st Hs _. apply addIssue_own, Hs. Qed.

Lemma flags_valid (ctx : ParseContext) (v : value) : flags ctx (ret (valid v)).
Proof. intros st _ H. discriminate H. Qed.

Lemma flags_bind {A : Type} (ctx : ParseContext) (m : M A)
      (k : A -> M ParseReturnType) :
  mono m -> (forall a, flags ctx (k a)) -> flags ctx (bind m k).
Proof.
  intros Hm Hk st [l Hl]. unfold bind. specialize (Hm st).
  destruct (m st) as [a st1]. simpl in Hm.
  destruct (Hm _ _ Hl) as [l' Hl']. apply Hk. eexists; exact Hl'.
Qed.

Lemma flags_guard {A : Type} (m : M A) (ctx : ParseContext) (f : A -> value) :
  flags ctx (let* x := m in
             let* has := hasIssues ctx in
             if has then ret invalid else success ctx (f x)).
Proof.
  intros st _. unfold bind, hasIssues, read, bind, ret, success, ret.
  destruct (m st) as [x st1]. cbv beta.
  change (default [] (st1 !! issues ctx)) with (issues_of st1 ctx).
  destruct (issues_of st1 ctx) as [| i l] eqn:E; simpl.
  - discriminate.
  - intros _. unfold issues_of in E |- *. rewrite E. discriminate.
Qed.

Lemma flags_thrown (ctx : ParseContext) : flags ctx (ret thrown).
Proof. intros st _ H. discriminate H. Qed.

Lemma flags_union_options
      (parse_with : Schema -> ParseContext -> M ParseReturnType)
      (ctx : ParseContext) (options : list Schema) :
  (forall s c, mono (parse_with s c)) ->
  forall errs, flags ctx (union_options parse_with ctx options errs).
Proof.
  intros Hp. induction options as [| option opts IH]; intros errs; simpl.
  - apply flags_addIssue.
  - apply flags_bind; [apply mono_new |]. intros testCtx.
    apply flags_bind; [apply Hp |]. intros result.
    apply flags_bind; [apply mono_hasIssues |]. intros has.
    destruct result as [v | |]; [destruct (negb has); [apply flags_valid |] | |];
      first [apply flags_thrown
            | apply flags_bind; [apply mono_read | intros; apply IH]].
Qed.

Lemma flags_ValaiEnum_parse (values : list string) (ctx : ParseContext) :
  flags ctx (ValaiEnum_parse values ctx).
Proof.
  unfold ValaiEnum_parse.
  destruct (match data ctx with VString _ => _ | _ => _ end) as [[] |];
    try apply flags_addIssue; try apply flags_thrown.
  destruct (isLLMMode ctx); [destruct (find _ _) as [found |];
                             [destruct (is_empty found) |] |];
    try apply flags_valid;
    (destruct (negb _); [apply flags_addIssue | apply flags_valid]).
Qed.

(** Every class but the intersection reports an [invalid] result by an
    issue in the array of its context. *)
Lemma flags_Schema_parse (s : Schema) :
  reports s = true -> forall ctx, flags ctx (Schema_parse s ctx).
Proof.
  induction s as [checks meta | checks meta | element a b c meta IHe
                 | shape u meta IHshape | options meta IHoptions
                 | inner meta IH | inner meta IH | inner d meta IH
                 | values meta | l r meta IHl IHr]
    using Schema_nested_ind; cbn [reports]; intros Hr ctx; simpl.
  - unfold ValaiString_parse.
    destruct (if shouldCoerce ctx then _ else _) as [[] |];
      try apply flags_addIssue; try apply flags_thrown.
    apply (flags_guard _ ctx VString).
  - unfold ValaiNumber_parse.
    destruct (match data ctx with VString _ => _ | _ => _ end);
      try apply flags_addIssue.
    destruct (JSNum.isNaN n); [apply flags_addIssue |].
    apply (flags_guard _ ctx (fun _ => VNumber n)).
  - destruct (data ctx); try apply flags_addIssue.
    apply flags_bind; [apply mono_array_length_checks |]. intros _.
    apply flags_bind.
    + apply mono_array_elements. intros c0. apply mono_Schema_parse.
    + intros [result |]; [| apply flags_thrown].
      apply (flags_guard (ret result) ctx VArray).
  - destruct (JSValue.is_plain_object (data ctx)); [| apply flags_addIssue].
    apply flags_bind.
    + apply mono_object_properties.
      apply Forall_forall. intros kv _ c. apply mono_Schema_parse.
    + intros [result |]; [| apply flags_thrown].
      apply (flags_guard _ ctx VObject).
  - apply flags_union_options. intros s c. apply mono_Schema_parse.
  - destruct (data ctx); first [apply flags_valid | apply (IH Hr)].
  - destruct (data ctx); first [apply flags_valid | apply (IH Hr)].
  - destruct (data ctx); first [apply flags_valid | apply (IH Hr)].
  - apply flags_ValaiEnum_parse.
  - discriminate Hr.
Qed.

(** The root context of [safeParse] and the store in which it runs. *)
Lemma safeParse_unfold (s : Schema) (d : value) :
  safeParse s d
  = fst (let (r, st1) := Schema_parse s
                           {| data := d; mode := strict_mode; path := [];
                              issues := 0; parent := None;
                              llmOptions := default_llmOptions |} [[]] in
         finalize {| data := d; mode := strict_mode; path := [];
                     issues := 0; parent := None;
                     llmOptions := default_llmOptions |} r st1).
Proof. reflexivity. Qed.

(** Apart from the intersection, a failure of [safeParse] always carries
    at least one issue. *)
Lemma safeParse_failure_has_issue (s : Schema) (d : value)
      (e : ValaiError) (p : value) :
  reports s = true ->
  safeParse s d = ParseFailure e p -> error_issues e <> [].
Proof.
  intros Hr. rewrite safeParse_unfold.
  set (ctx := {| data := d; mode := strict_mode; path := []; issues := 0;
                 parent := None; llmOptions := default_llmOptions |}).
  pose proof (flags_Schema_parse s Hr ctx [[]]) as Hflag.
  destruct (Schema_parse s ctx [[]]) as [r st1]. simpl in Hflag.
  unfold finalize, bind, read, ret. cbv beta. cbn [issues ctx].
  unfold issues_of in Hflag. cbn [issues ctx] in Hflag.
  destruct r as [v | |].
  - destruct (default [] (st1 !! 0)) as [| i l]; simpl; intros H.
    + discriminate H.
    + injection H as <- _. simpl. discriminate.
  - simpl. intros H. injection H as <- _. simpl.
    apply Hflag; [eexists; reflexivity | reflexivity].
  - simpl. discriminate.
Qed.

(** *** In strict mode no validation throws *)

Lemma never_ret {A : Type} (bad a : A) : a <> bad -> never bad (ret a).
Proof. intros H st. exact H. Qed.

Lemma never_bind {A B : Type} (bad : B) (m : M A) (k : A -> M B) :
  (forall a, never bad (k a)) -> never bad (bind m k).
Proof. intros H st. unfold bind. destruct (m st) as [a st1]. apply H. Qed.

Lemma never_bind_with {A B : Type} (P : A -> Prop) (bad : B) (m : M A)
      (k : A -> M B) :
  (forall st, P (fst (m st))) -> (forall a, P a -> never bad (k a)) ->
  never bad (bind m k).
Proof.
  intros Hm H st. unfold bind. specialize (Hm st).
  destruct (m st) as [a st1]. apply H, Hm.
Qed.

Lemma never_addIssue ctx d m : never thrown (addIssue ctx d m).
Proof.
  intros st. destruct (addIssue_snd ctx d m st) as [_ ->]. discriminate.
Qed.

Lemma never_guard {A : Type} (m : M A) (ctx : ParseContext) (f : A -> value) :
  never thrown (let* x := m in
                let* has := hasIssues ctx in
                if has then ret invalid else success ctx (f x)).
Proof.
  apply never_bind. intros x. apply never_bind. intros [];
    apply never_ret; discriminate.
Qed.

Lemma new_context_mode d m p par o st :
  mode (fst (new_ParseContext d m p par o st)) = m.
Proof. reflexivity. Qed.

Lemma never_array_elements
      (parse_element : ParseContext -> M ParseReturnType)
      (ctx : ParseContext) :
  (forall c, mode c = mode ctx -> never thrown (parse_element c)) ->
  forall items i result,
    never None (array_elements parse_element ctx i items result).
Proof.
  intros Hp. induction items as [| item items IH]; intros i result;
    cbn [array_elements]; [apply never_ret; discriminate |].
  apply (never_bind_with (fun c => mode c = mode ctx));
    [intros st; apply new_context_mode |].
  intros c Hc st. unfold bind. specialize (Hp c Hc st).
  destruct (parse_element c st) as [[v | |] st1]; cbn [fst] in Hp;
    first [apply IH | exfalso; apply Hp; reflexivity].
Qed.

Lemma never_object_properties
      (parse_with : Schema -> ParseContext -> M ParseReturnType)
      (ctx : ParseContext) (input : value)
      (entries : list (string * Schema)) :
  Forall (fun kv => forall c, mode c = mode ctx ->
                              never thrown (parse_with (snd kv) c)) entries ->
  forall result,
    never None (object_properties parse_with ctx input entries result).
Proof.
  induction 1 as [| [key schema] entries Hhead Htail IH]; intros result;
    cbn [object_properties]; [apply never_ret; discriminate |].
  apply (never_bind_with (fun c => mode c = mode ctx));
    [intros st; apply new_context_mode |].
  intros c Hc st. unfold bind. specialize (Hhead c Hc st). cbn [snd] in Hhead.
  destruct (parse_with schema c st) as [[v | |] st1]; cbn [fst] in Hhead;
    [destruct (_ || _) | |];
    first [apply IH | exfalso; apply Hhead; reflexivity].
Qed.

Lemma never_union_options
      (parse_with : Schema -> ParseContext -> M ParseReturnType)
      (ctx : ParseContext) (options : list Schema) :
  Forall (fun s => forall c, mode c = mode ctx ->
                             never thrown (parse_with s c)) options ->
  forall errs, never thrown (union_options parse_with ctx options errs).
Proof.
  induction 1 as [| option opts Hhead Htail IH]; intros errs;
    cbn [union_options]; [apply never_addIssue |].
  apply (never_bind_with (fun c => mode c = mode ctx));
    [intros st; apply new_context_mode |].
  intros c Hc st. unfold bind at 1. specialize (Hhead c Hc st).
  destruct (parse_with option c st) as [[v | |] st1]; cbn [fst] in Hhead;
    [| | exfalso; apply Hhead; reflexivity];
    unfold bind at 1; destruct (hasIssues c st1) as [has st2];
    [destruct (negb has); [apply never_ret; discriminate |] |];
    (apply never_bind; intros; apply IH).
Qed.

Lemma never_intersection_merge ctx l r :
  l <> thrown -> r <> thrown -> never thrown (intersection_merge ctx l r).
Proof.
  intros Hl Hr. unfold intersection_merge.
  destruct l as [x | |], r as [y | |]; try (apply never_ret; discriminate);
        try (exfalso; apply Hl; reflexivity);
    try (exfalso; apply Hr; reflexivity).
  destruct (_ && _); [apply never_ret; discriminate |].
  destruct (same_primitive x y);
    [apply never_ret; discriminate | apply never_addIssue].
Qed.

Lemma strict_never_throws (s : Schema) :
  forall ctx, mode ctx = strict_mode -> never thrown (Schema_parse s ctx).
Proof.
  induction s as [checks meta | checks meta | element a b c meta IHe
                 | shape u meta IHshape | options meta IHoptions
                 | inner meta IH | inner meta IH | inner d meta IH
                 | values meta | l r meta IHl IHr]
    using Schema_nested_ind; intros ctx Hm; cbn [Schema_parse].
  - unfold ValaiString_parse, shouldCoerce, isLLMMode. rewrite Hm. cbn [andb].
    destruct (data ctx); try apply never_addIssue.
    apply (never_guard _ ctx VString).
  - unfold ValaiNumber_parse.
    destruct (match data ctx with VString _ => _ | _ => _ end);
      try apply never_addIssue.
    destruct (JSNum.isNaN n); [apply never_addIssue |].
    apply (never_guard _ ctx (fun _ => VNumber n)).
  - destruct (data ctx); try apply never_addIssue.
    apply never_bind. intros _ st. unfold bind at 1.
    pose proof (never_array_elements (Schema_parse element) ctx
                  ltac:(intros c0 Hc; apply IHe; congruence) items 0 [] st)
      as Hn.
    destruct (array_elements _ ctx 0 items [] st) as [[result |] st1];
      cbn [fst] in Hn; [| exfalso; apply Hn; reflexivity].
    apply (never_guard (ret result) ctx VArray).
  - destruct (JSValue.is_plain_object (data ctx)); [| apply never_addIssue].
    intros st. unfold bind at 1.
    pose proof (never_object_properties Schema_parse ctx (data ctx) shape
                  ltac:(eapply Forall_impl; [exact IHshape |];
                        intros kv Hkv c0 Hc; apply Hkv; congruence) [] st)
      as Hn.
    destruct (object_properties _ ctx _ shape [] st) as [[result |] st1];
      cbn [fst] in Hn; [| exfalso; apply Hn; reflexivity].
    apply (never_guard _ ctx VObject).
  - apply never_union_options.
    eapply Forall_impl; [exact IHoptions |].
    intros s Hs c0 Hc; apply Hs; congruence.
  - destruct (data ctx);
      first [apply never_ret; discriminate | apply IH, Hm].
  - destruct (data ctx);
      first [apply never_ret; discriminate | apply IH, Hm].
  - destruct (data ctx);
      first [apply never_ret; discriminate | apply IH, Hm].
  - unfold ValaiEnum_parse, shouldCoerce, isLLMMode. rewrite Hm. cbn [andb].
    assert (Hs : forall v0 s0,
               never thrown
                 (if negb (includes_key values s0)
                  then addIssue ctx (invalid_enum_value values s0) None
                  else success ctx v0)).
    { intros v0 s0. destruct (negb _);
        [apply never_addIssue | apply never_ret; discriminate]. }
    destruct (data ctx); try apply never_addIssue; apply Hs.
  - intros st. unfold bind at 1. specialize (IHl ctx Hm st).
    destruct (Schema_parse l ctx st) as [leftResult st1]. cbn [fst] in IHl.
    assert (H : never thrown
                  (let* siblingCtx := sibling ctx (data ctx) in
                   let* rightResult := Schema_parse r siblingCtx in
                   intersection_merge ctx leftResult rightResult)).
    { apply (never_bind_with (fun c => mode c = mode ctx));
        [intros st0; apply new_context_mode |].
      intros c Hc st0. unfold bind.
      specialize (IHr c ltac:(congruence) st0).
      destruct (Schema_parse r c st0) as [rightResult st2]. cbn [fst] in IHr.
      apply never_intersection_merge; assumption. }
    destruct leftResult; first [apply H | exfalso; apply IHl; reflexivity].
Qed.

(** [safeParse] returns a result: it is a strict validation. *)
Lemma safeParse_returns (s : Schema) (d : value) :
  safeParse s d <> ParseThrows.
Proof.
  rewrite safeParse_unfold.
  set (ctx := {| data := d; mode := strict_mode; path := []; issues := 0;
                 parent := None; llmOptions := default_llmOptions |}).
  pose proof (strict_never_throws s ctx eq_refl [[]]) as Hn.
  destruct (Schema_parse s ctx [[]]) as [r st1]. cbn [fst] in Hn.
  unfold finalize, bind, read, ret. cbv beta.
  destruct r as [v | |]; [destruct (length _ =? 0) | |]; cbn [fst];
    first [discriminate | exfalso; apply Hn; reflexivity].
Qed.

End parse_invariants.

(** ** [parse] and [safeParse] *)

(** [parse] is [safeParse] followed by a throw of the error. *)
Lemma parse_of_safeParse (T : Type) (C : ValaiType T) (schema : T) (d : value) :
  parse schema d
  = match safeParse schema d with
    | ParseSuccess v => inl v
    | ParseFailure e _ => inr (ThrownValaiError e)
    | ParseThrows => inr ThrownTypeError
    end.
Proof. reflexivity. Qed.

(** C7. The claim fails on the code in two places. An intersection whose
    right member rejects the input returns [invalid] without recording an
    issue in its own context: at the root, [safeParse] fails with an empty
    issue list and [parse] throws a [ValaiError] that carries no issue,
    although the right member alone reports one. And in lenient mode the
    string schema converts an object with an own [toString] property by
    [String(value)], which throws a [TypeError] out of [parseLLM]. *)
Theorem intersection_failure_carries_no_issue :
  safeParse Examples.person Examples.person_input
    = ParseFailure {| error_issues := [] |} VUndefined /\
  parse Examples.person Examples.person_input
    = inr (ThrownValaiError {| error_issues := [] |}) /\
  safeParse Examples.aged Examples.person_input
    = ParseFailure
        {| error_issues :=
             [Build_Issue (invalid_type "number" "string") [PKey "age"] None] |}
        VUndefined /\
  JSON.parse Examples.toString_key
    = Some (VObject [("toString", VNumber (JSNum.of_Z 1))]) /\
  parseLLM v.string (VString Examples.toString_key) None = ParseThrows.
Proof. vm_compute. repeat split; reflexivity. Qed.

(** ** The default wrapper *)

(** C9. The default wrapper substitutes its value for [undefined] in every
    mode and whatever the [useDefaults] option says: [safeParse], [parse]
    and [parseLLM] (with any options) all return the default. Any other
    input, [null] included, is delegated to the inner schema. *)
Theorem default_is_not_gated_on_lenient_mode
        (inner : Schema) (dflt : value) (meta : Meta) :
  safeParse (ValaiDefault inner dflt meta) VUndefined = ParseSuccess dflt /\
  parse (ValaiDefault inner dflt meta) VUndefined = inl dflt /\
  (forall options,
      parseLLM (ValaiDefault inner dflt meta) VUndefined options
      = ParseSuccess dflt) /\
  (forall ctx st,
      data ctx = VUndefined ->
      _parse (ValaiDefault inner dflt meta) ctx st = (valid dflt, st)) /\
  (forall ctx,
      data ctx = VNull ->
      _parse (ValaiDefault inner dflt meta) ctx = _parse inner ctx) /\
  safeParse (ValaiDefault inner dflt meta) VNull = safeParse inner VNull.
Proof.
  split; [reflexivity |].
  split; [reflexivity |].
  split; [intros options; reflexivity |].
  split; [intros ctx st H; simpl; rewrite H; reflexivity |].
  split; [intros ctx H; simpl; rewrite H; reflexivity |].
  reflexivity.
Qed.

Lemma default_is_not_gated_on_lenient_mode_witness :
  _parse (ValaiDefault v.string (VString "d") no_meta)
         (Build_ParseContext VUndefined strict_mode [] 0 None
            {| coerce := None; repair := None; extractFromMarkdown := None;
               useDefaults := Some false |})
         [[]]
  = (valid (VString "d"), [[]]).
Proof.
  apply (proj1 (proj2 (proj2 (proj2 (default_is_not_gated_on_lenient_mode
                                       v.string (VString "d") no_meta))))).
  reflexivity.
Defined.

(** ** Coercion of blank strings *)

Section blank_strings.

Lemma trimStart_blank (s : string) :
  all_chars is_space s = true -> trimStart s = EmptyString.
Proof.
  induction s as [| c s IH]; simpl; [reflexivity |].
  intros H. apply andb_true_iff in H as [Hc Hs].
  rewrite Hc. apply IH, Hs.
Qed.

Lemma trim_blank (s : string) :
  all_chars is_space s = true -> trim s = EmptyString.
Proof. intros H. unfold trim. rewrite (trimStart_blank s H). reflexivity. Qed.

Lemma StringToNumber_blank (s : string) :
  all_chars is_space s = true -> JSNum.StringToNumber s = JSNum.zero.
Proof.
  intros H. unfold JSNum.StringToNumber. rewrite (trim_blank s H). reflexivity.
Qed.

Lemma extractAndRepairJSON_blank (s : string) :
  all_chars is_space s = true -> _extractAndRepairJSON s = VString EmptyString.
Proof.
  intros H. unfold _extractAndRepairJSON. rewrite (trim_blank s H).
  vm_compute. reflexivity.
Qed.

(** The coercion of [ValaiNumber._parse]: with coercion enabled, a string
    whose [Number()] conversion is not [NaN] is accepted as that number. *)
Lemma number_coercion (meta : Meta) (ctx : ParseContext) (st : Store)
      (s : string) :
  data ctx = VString s ->
  shouldCoerce ctx = true ->
  JSNum.isNaN (JSNum.StringToNumber s) = false ->
  st !! issues ctx = Some [] ->
  _parse (ValaiNumber None meta) ctx st
  = (valid (VNumber (JSNum.StringToNumber s)), st).
Proof.
  intros Hdata Hcoerce Hnan Hclean. simpl. unfold ValaiNumber_parse.
  rewrite Hdata, Hcoerce, Hnan. simpl. rewrite Hnan.
  unfold bind, ret, hasIssues, read, bind, ret. cbv beta.
  rewrite Hclean. reflexivity.
Qed.

End blank_strings.

(** C10. In lenient mode with coercion enabled, the number schema accepts
    the empty string and every string of white space only, with the value
    [0]: [Number()] of such a string is [0], which is not [NaN]. *)
Theorem number_coerces_blank_string_to_zero
        (s : string) (options : option LLMParseOptions) (meta : Meta) :
  all_chars is_space s = true ->
  or_true (match options with Some o => coerce o | None => None end) = true ->
  parseLLM (ValaiNumber None meta) (VString s) options
  = ParseSuccess (VNumber JSNum.zero).
Proof.
  intros Hblank Hcoerce.
  assert (Hrun : forall d s',
             d = VString s' -> all_chars is_space s' = true ->
             run (let* ctx := createLLMContext d options in
                  let* result := _parse (ValaiNumber None meta) ctx in
                  finalize ctx result)
             = ParseSuccess (VNumber JSNum.zero)).
  { intros d s' -> Hs'. unfold run, createLLMContext, new_ParseContext.
    unfold bind at 1. unfold bind at 1. unfold alloc, ret. cbn [length app].
    unfold bind at 1.
    rewrite (number_coercion meta _ [[]] s').
    - rewrite (StringToNumber_blank s' Hs'). reflexivity.
    - reflexivity.
    - unfold shouldCoerce. simpl.
      destruct options as [[[[]|] r e u] |]; simpl in *;
        first [reflexivity | discriminate].
    - rewrite (StringToNumber_blank s' Hs'). reflexivity.
    - reflexivity. }
  unfold parseLLM.
  destruct (or_true match options with
                    | Some o => extractFromMarkdown o
                    | None => None
                    end).
  - apply (Hrun _ EmptyString).
    + apply extractAndRepairJSON_blank, Hblank.
    + reflexivity.
  - apply (Hrun _ s); [reflexivity | exact Hblank].
Qed.

Lemma number_coerces_blank_string_to_zero_witness :
  parseLLM v.number (VString "  ") None = ParseSuccess (VNumber JSNum.zero).
Proof.
  apply (number_coerces_blank_string_to_zero "  " None no_meta);
    reflexivity.
Defined.

(* ================================================================== *)
(** * Further properties of the repair functions *)
(* ================================================================== *)

Section string_lemmas.

Lemma append_nil_r (s : string) : s ++ "" = s.
Proof. induction s as [| c s IH]; simpl; [| rewrite IH]; reflexivity. Qed.

Lemma append_assoc (a b c : string) : (a ++ b) ++ c = a ++ (b ++ c).
Proof. induction a as [| x a IH]; simpl; [| rewrite IH]; reflexivity. Qed.

Lemma length_append (a b : string) :
  String.length (a ++ b) = String.length a + String.length b.
Proof. induction a as [| x a IH]; simpl; [| rewrite IH]; reflexivity. Qed.

End string_lemmas.

Section bracket_lemmas.

Import Repair RepairMore.

Lemma brackets_scan_state (stack : list ascii) (i e : bool) (s : string) :
  brackets_scan stack i e s
  = (fst (fst (brackets_state stack i e s)), snd (fst (brackets_state stack i e s))).
Proof.
  revert stack i e. induction s as [| c s IH]; intros stack i e; simpl;
    [reflexivity |].
  repeat match goal with
         | |- context [if ?b then _ else _] => destruct b
         | |- context [match ?l with [] => _ | _ :: _ => _ end] => destruct l
         end; apply IH.
Qed.

Lemma brackets_state_app (stack : list ascii) (i e : bool) (a b : string) :
  brackets_state stack i e (a ++ b)
  = let '(stack', i', e') := brackets_state stack i e a in
    brackets_state stack' i' e' b.
Proof.
  revert stack i e. induction a as [| c a IH]; intros stack i e; simpl;
    [reflexivity |].
  repeat match goal with
         | |- context [if ?b then _ else _] => destruct b
         | |- context [match ?l with [] => _ | _ :: _ => _ end] => destruct l
         end; apply IH.
Qed.

Lemma brackets_state_closers (stack : list ascii) (i e : bool) (s : string) :
  closers stack -> closers (fst (fst (brackets_state stack i e s))).
Proof.
  revert stack i e. induction s as [| c s IH]; intros stack i e H; simpl;
    [exact H |].
  repeat match goal with
         | |- context [if ?b then _ else _] => destruct b
         end; try (apply IH; exact H).
  - apply IH. constructor; [left; reflexivity | exact H].
  - apply IH. constructor; [right; reflexivity | exact H].
  - destruct stack as [| top stack']; [apply IH; exact H |].
    destruct (ch_eq top c); apply IH; [inversion H; assumption | exact H].
Qed.

Lemma brackets_state_pop (stack : list ascii) :
  closers stack ->
  brackets_state stack false false (string_of_list_ascii stack)
  = ([], false, false).
Proof.
  induction 1 as [| c stack Hc Hrest IH]; [reflexivity |].
  destruct Hc as [-> | ->]; simpl; exact IH.
Qed.

End bracket_lemmas.

(** X1. [tryCloseBrackets] balances every text that does not end in the
    middle of an escape sequence: a scan of its result ends outside any
    string with an empty stack, so applying it again changes nothing. *)
Theorem tryCloseBrackets_balances (x : string) :
  RepairMore.ends_in_escape x = false ->
  Repair.brackets_scan [] false false (Repair.tryCloseBrackets x) = ([], false) /\
  Repair.tryCloseBrackets (Repair.tryCloseBrackets x) = Repair.tryCloseBrackets x.
Proof.
  unfold RepairMore.ends_in_escape. intros Hesc.
  assert (Hscan : RepairMore.brackets_state [] false false
                    (Repair.tryCloseBrackets x) = ([], false, false)).
  { unfold Repair.tryCloseBrackets.
    rewrite (brackets_scan_state [] false false x).
    pose proof (brackets_state_closers [] false false x (List.Forall_nil _)) as Hcl.
    destruct (RepairMore.brackets_state [] false false x)
      as [[stack inString] esc] eqn:E.
    simpl in Hesc, Hcl |- *. subst esc.
    rewrite brackets_state_app, E.
    destruct inString; simpl; apply brackets_state_pop; exact Hcl. }
  assert (Hbal : Repair.brackets_scan [] false false (Repair.tryCloseBrackets x)
                 = ([], false))
    by (rewrite brackets_scan_state, Hscan; reflexivity).
  split; [exact Hbal |].
  unfold Repair.tryCloseBrackets at 1. rewrite Hbal. simpl.
  apply append_nil_r.
Qed.

Lemma tryCloseBrackets_balances_witness :
  Repair.tryCloseBrackets (Repair.tryCloseBrackets (dq "{'a': [1, {'b': 'x"))
  = Repair.tryCloseBrackets (dq "{'a': [1, {'b': 'x").
Proof.
  apply (proj2 (tryCloseBrackets_balances (dq "{'a': [1, {'b': 'x") eq_refl)).
Defined.

Section comma_lemmas.

Import Repair RepairMore.

Lemma commas_loop_keeps (i e : bool) (s : string) :
  without_commas i e (commas_loop i e s) = without_commas i e s /\
  in_strings i e (commas_loop i e s) = in_strings i e s.
Proof.
  revert i e. induction s as [| c s IH]; intros i e; [split; reflexivity |].
  cbn [commas_loop without_commas in_strings].
  destruct e.
  { destruct (IH i false) as [H1 H2]. cbn. rewrite H1, H2. split; reflexivity. }
  destruct (ch_eq c backslash && i) eqn:Eb.
  { destruct (IH i true) as [H1 H2]. cbn. rewrite Eb, H1, H2.
    split; reflexivity. }
  destruct (ch_eq c dquote) eqn:Eq.
  { destruct (IH (negb i) false) as [H1 H2]. cbn. rewrite Eb, Eq, H1, H2.
    split; reflexivity. }
  destruct i.
  { destruct (IH true false) as [H1 H2]. cbn. rewrite Eb, Eq, H1, H2.
    split; reflexivity. }
  destruct (IH false false) as [H1 H2].
  destruct (ch_eq c ",") eqn:Ec; simpl.
  - destruct (closer_follows s); [split; assumption |].
    cbn. rewrite Eb, Eq, Ec. split; assumption.
  - cbn. rewrite Eb, Eq, Ec, H1. split; [reflexivity | assumption].
Qed.

Lemma missing_commas_loop_keeps (i e : bool) (last : option ascii)
      (s : string) :
  without_commas i e (missing_commas_loop i e last s) = without_commas i e s /\
  in_strings i e (missing_commas_loop i e last s) = in_strings i e s.
Proof.
  revert i e last.
  induction s as [| c s IH]; intros i e last; [split; reflexivity |].
  cbn [missing_commas_loop without_commas in_strings].
  destruct e.
  { destruct (IH i false (Some c)) as [H1 H2]. cbn. rewrite H1, H2.
    split; reflexivity. }
  destruct (ch_eq c backslash && i) eqn:Eb.
  { destruct (IH i true (Some c)) as [H1 H2]. cbn. rewrite Eb, H1, H2.
    split; reflexivity. }
  destruct (ch_eq c dquote) eqn:Eq.
  { destruct i.
    - destruct (IH false false (Some c)) as [H1 H2].
      cbn. rewrite Eb, Eq. cbn. rewrite H1, H2. split; reflexivity.
    - destruct (IH true false (Some c)) as [H1 H2].
      destruct (needs_comma last); cbn; rewrite Eb, Eq; cbn;
        rewrite H1, H2; split; reflexivity. }
  destruct i.
  { destruct (IH true false (Some c)) as [H1 H2]. cbn. rewrite Eb, Eq, H1, H2.
    split; reflexivity. }
  destruct (IH false false (if is_space c then last else Some c)) as [H1 H2].
  destruct ((ch_eq c "{" || ch_eq c "[") && needs_comma last) eqn:En.
  - assert (Ec : ch_eq c "," = false).
    { apply andb_prop in En as [En _]. unfold ch_eq in *.
      destruct (Ascii.eqb_spec c "{") as [-> |]; [reflexivity |].
      destruct (Ascii.eqb_spec c "[") as [-> |]; [reflexivity | discriminate]. }
    cbn. rewrite Eb, Eq, Ec, H1, H2. split; reflexivity.
  - cbn. rewrite Eb, Eq, H1, H2. split; reflexivity.
Qed.

End comma_lemmas.

(** X2. The two comma fixers change nothing but commas outside strings:
    [fixTrailingCommas] and [fixMissingCommas] return a text that, with
    the commas outside strings left out, is the input with those commas
    left out, and whose double-quoted strings are those of the input. *)
Theorem comma_fixers_touch_only_commas (x : string) :
  (RepairMore.without_commas false false (Repair.fixTrailingCommas x)
   = RepairMore.without_commas false false x /\
   RepairMore.in_strings false false (Repair.fixTrailingCommas x)
   = RepairMore.in_strings false false x) /\
  (RepairMore.without_commas false false (RepairMore.fixMissingCommas x)
   = RepairMore.without_commas false false x /\
   RepairMore.in_strings false false (RepairMore.fixMissingCommas x)
   = RepairMore.in_strings false false x).
Proof.
  split; [apply commas_loop_keeps | apply missing_commas_loop_keeps].
Qed.

Section quote_lemmas.

Import Repair RepairMore TextNotions.

Lemma quotes_loop_requoted (s : string) :
  (forall d q, requoted s (quotes_loop d q s) = true) /\
  (forall c d q, requoted (String c s) (quotes_loop d q (String c s)) = true).
Proof.
  induction s as [| a s [IH1 IH2]].
  - split; [reflexivity |]. intros c d q. cbn [quotes_loop]. unfold ch_eq.
    destruct (Ascii.eqb_spec c backslash) as [-> | _]; [reflexivity |].
    destruct (Ascii.eqb c dquote && negb q);
      [cbn [requoted]; rewrite Ascii.eqb_refl; reflexivity |].
    destruct (Ascii.eqb_spec c "'") as [-> | _].
    + destruct d; reflexivity.
    + cbn [andb requoted]. rewrite Ascii.eqb_refl. reflexivity.
  - split; [intros d q; apply IH2 |]. intros c d q.
    cbn [quotes_loop]. unfold ch_eq.
    destruct (Ascii.eqb_spec c backslash) as [-> | _].
    + destruct (q && Ascii.eqb a "'") eqn:E.
      * apply andb_prop in E as [_ E]. apply Ascii.eqb_eq in E. subst a.
        cbn [requoted]. rewrite IH1. reflexivity.
      * cbn [requoted]. rewrite !Ascii.eqb_refl, IH1. reflexivity.
    + destruct (Ascii.eqb c dquote && negb q).
      { cbn [requoted]. rewrite Ascii.eqb_refl. cbn [orb andb]. apply IH2. }
      destruct (Ascii.eqb_spec c "'") as [-> | _].
      * destruct d; cbn [andb negb requoted];
          rewrite ?Ascii.eqb_refl, ?orb_true_r; cbn [orb andb]; apply IH2.
      * cbn [andb requoted]. rewrite Ascii.eqb_refl. cbn [orb andb].
        apply IH2.
Qed.

Lemma requoted_length (a b : string) :
  requoted a b = true -> String.length b = String.length a.
Proof.
  revert b. induction a as [| x a IH]; intros [| y b] H;
    cbn [requoted] in H; try discriminate; [reflexivity |].
  apply andb_prop in H as [_ H]. simpl. rewrite (IH b H). reflexivity.
Qed.

Lemma requoted_same (a b : string) :
  contains "'" a = false -> requoted a b = true -> b = a.
Proof.
  revert b. induction a as [| x a IH]; intros [| y b] Hc H;
    cbn [contains requoted] in *; try discriminate; [reflexivity |].
  apply orb_false_elim in Hc as [Hx Hc].
  apply andb_prop in H as [Hxy H].
  rewrite (IH b Hc H). f_equal.
  rewrite Ascii.eqb_sym in Hx. rewrite Hx in Hxy. simpl in Hxy.
  rewrite orb_false_r in Hxy. apply Ascii.eqb_eq in Hxy. congruence.
Qed.

End quote_lemmas.

(** X3. [fixSingleQuotes] changes apostrophes into double quotes and
    nothing else: its result has the length of the input and differs from
    it only at positions where the input has an apostrophe and the result
    a double quote. *)
Theorem fixSingleQuotes_only_requotes (x : string) :
  TextNotions.requoted x (Repair.fixSingleQuotes x) = true /\
  String.length (Repair.fixSingleQuotes x) = String.length x.
Proof.
  assert (H : TextNotions.requoted x (Repair.fixSingleQuotes x) = true)
    by apply quotes_loop_requoted.
  split; [exact H | apply requoted_length; exact H].
Qed.

(** X4. A text without an apostrophe is returned unchanged by
    [fixSingleQuotes]. *)
Theorem fixSingleQuotes_without_apostrophe (x : string) :
  RepairMore.contains "'" x = false -> Repair.fixSingleQuotes x = x.
Proof.
  intros H. apply requoted_same; [exact H | apply quotes_loop_requoted].
Qed.

Lemma fixSingleQuotes_without_apostrophe_witness :
  Repair.fixSingleQuotes (Repair.quoted "a\b" ++ ": 1")
  = (Repair.quoted "a\b" ++ ": 1").
Proof.
  apply (fixSingleQuotes_without_apostrophe
           (Repair.quoted "a\b" ++ ": 1") eq_refl).
Defined.

Section comment_lemmas.

Import Repair RepairMore.

Lemma comments_loop_sublist (n : nat) :
  forall s, String.length s <= n ->
  forall mode i e, chars (comments_loop mode i e s) `sublist_of` chars s.
Proof.
  induction n as [| n IH]; intros [| c s] Hlen mode i e;
    try (apply sublist_nil); [simpl in Hlen; lia |].
  simpl in Hlen. assert (Hs : String.length s <= n) by lia.
  cbn [comments_loop]. destruct mode.
  - destruct e; [apply sublist_skip, IH; exact Hs |].
    destruct (ch_eq c backslash && i); [apply sublist_skip, IH; exact Hs |].
    destruct (ch_eq c dquote); [apply sublist_skip, IH; exact Hs |].
    destruct s as [| c' s'']; [reflexivity |].
    assert (Hs' : String.length s'' <= n) by (simpl in Hs; lia).
    destruct (negb i && ch_eq c "/" && ch_eq c' "/");
      [apply sublist_cons, sublist_cons, IH; exact Hs' |].
    destruct (negb i && ch_eq c "/" && ch_eq c' "*");
      [apply sublist_cons, sublist_cons, IH; exact Hs' |].
    apply sublist_skip, IH; exact Hs.
  - destruct (ch_eq c newline);
      [apply sublist_skip | apply sublist_cons]; apply IH; exact Hs.
  - destruct s as [| c' s'']; [reflexivity |].
    assert (Hs' : String.length s'' <= n) by (simpl in Hs; lia).
    destruct (ch_eq c "*" && ch_eq c' "/");
      [apply sublist_cons, sublist_cons, IH; exact Hs' |].
    apply sublist_cons, IH; exact Hs.
Qed.

Lemma hash_loop_sublist (k i e : bool) (s : string) :
  chars (hash_loop k i e s) `sublist_of` chars s.
Proof.
  revert k i e. induction s as [| c s IH]; intros k i e;
    [apply sublist_nil |].
  cbn [hash_loop].
  repeat match goal with
         | |- context [if ?b then _ else _] => destruct b
         end;
    first [apply sublist_skip, IH | apply sublist_cons, IH].
Qed.

(** Inside a string literal without escapes nothing is a comment. *)
Lemma comments_loop_in_string (body rest : string) :
  contains dquote body = false -> contains backslash body = false ->
  comments_loop InCode true false (body ++ String dquote rest)
  = body ++ String dquote (comments_loop InCode false false rest).
Proof.
  induction body as [| c body IH]; intros Hq Hb.
  - reflexivity.
  - cbn [contains] in Hq, Hb.
    apply orb_false_elim in Hq as [Hq Hq'].
    apply orb_false_elim in Hb as [Hb Hb'].
    rewrite Ascii.eqb_sym in Hq. rewrite Ascii.eqb_sym in Hb.
    change ((String c body) ++ String dquote rest)
      with (String c (body ++ String dquote rest)).
    cbn [comments_loop]. unfold ch_eq. rewrite Hb, Hq. cbn [andb negb].
    rewrite (IH Hq' Hb').
    destruct body; reflexivity.
Qed.

Lemma hash_loop_in_string (body rest : string) :
  contains dquote body = false -> contains backslash body = false ->
  hash_loop false true false (body ++ String dquote rest)
  = body ++ String dquote (hash_loop false false false rest).
Proof.
  induction body as [| c body IH]; intros Hq Hb.
  - reflexivity.
  - cbn [contains] in Hq, Hb.
    apply orb_false_elim in Hq as [Hq Hq'].
    apply orb_false_elim in Hb as [Hb Hb'].
    rewrite Ascii.eqb_sym in Hq. rewrite Ascii.eqb_sym in Hb.
    change ((String c body) ++ String dquote rest)
      with (String c (body ++ String dquote rest)).
    cbn [hash_loop]. unfold ch_eq. rewrite Hb, Hq. cbn [andb negb].
    rewrite (IH Hq' Hb'). reflexivity.
Qed.

End comment_lemmas.

(** X5. The comment removers only delete: the results of
    [removeJSONComments], [removeHashComments] and [removeAllComments]
    are subsequences of the input. *)
Theorem comment_removers_only_delete (x : string) :
  RepairMore.chars (Repair.removeJSONComments x)
    `sublist_of` RepairMore.chars x /\
  RepairMore.chars (RepairMore.removeHashComments x)
    `sublist_of` RepairMore.chars x /\
  RepairMore.chars (RepairMore.removeAllComments x)
    `sublist_of` RepairMore.chars x.
Proof.
  assert (H : RepairMore.chars (Repair.removeJSONComments x)
                `sublist_of` RepairMore.chars x)
    by (apply (comments_loop_sublist (String.length x)); lia).
  split; [exact H |]. split; [apply hash_loop_sublist |].
  unfold RepairMore.removeAllComments.
  etransitivity; [apply hash_loop_sublist | exact H].
Qed.

(** X6. Comment markers inside a string are kept: a text that starts
    with a string literal without escapes is returned by
    [removeJSONComments] and [removeHashComments] with that literal
    verbatim, followed by the result for the rest of the text. *)
Theorem comment_removers_keep_strings (body rest : string) :
  RepairMore.contains dquote body = false ->
  RepairMore.contains backslash body = false ->
  Repair.removeJSONComments (Repair.quoted body ++ rest)
  = Repair.quoted body ++ Repair.removeJSONComments rest /\
  RepairMore.removeHashComments (Repair.quoted body ++ rest)
  = Repair.quoted body ++ RepairMore.removeHashComments rest.
Proof.
  intros Hq Hb.
  assert (E : forall r, Repair.quoted body ++ r
                        = String dquote (body ++ String dquote r)).
  { intros r. unfold Repair.quoted. simpl. rewrite append_assoc.
    reflexivity. }
  rewrite !E. unfold Repair.removeJSONComments, RepairMore.removeHashComments.
  split.
  - change (Repair.comments_loop Repair.InCode false false
              (String dquote (body ++ String dquote rest)))
      with (String dquote
              (Repair.comments_loop Repair.InCode true false
                 (body ++ String dquote rest))).
    rewrite (comments_loop_in_string body rest Hq Hb). reflexivity.
  - change (RepairMore.hash_loop false false false
              (String dquote (body ++ String dquote rest)))
      with (String dquote
              (RepairMore.hash_loop false true false
                 (body ++ String dquote rest))).
    rewrite (hash_loop_in_string body rest Hq Hb). reflexivity.
Qed.

Lemma comment_removers_keep_strings_witness :
  Repair.removeJSONComments (Repair.quoted "a // # /* b" ++ ": 1 // c")
  = Repair.quoted "a // # /* b" ++ Repair.removeJSONComments ": 1 // c".
Proof.
  apply (proj1 (comment_removers_keep_strings "a // # /* b" ": 1 // c"
                  eq_refl eq_refl)).
Defined.

Section trim_lemmas.

Import TextNotions.

Lemma trimStart_cases (s : string) :
  trimStart s = EmptyString \/
  exists c s', trimStart s = String c s' /\ is_space c = false.
Proof.
  induction s as [| c s IH]; [left; reflexivity |].
  simpl. destruct (is_space c) eqn:E; [exact IH |].
  right. exists c, s. split; [reflexivity | exact E].
Qed.

Lemma trimEnd_idem (s : string) : trimEnd (trimEnd s) = trimEnd s.
Proof.
  induction s as [| c s IH]; [reflexivity |].
  cbn [trimEnd]. destruct (is_space c && is_empty (trimEnd s)) eqn:E;
    [reflexivity |].
  cbn [trimEnd]. rewrite IH, E. reflexivity.
Qed.

Lemma trimEnd_head (c : ascii) (s : string) :
  is_space c = false -> trimEnd (String c s) = String c (trimEnd s).
Proof. intros H. cbn [trimEnd]. rewrite H. reflexivity. Qed.

Lemma trim_idem (s : string) : trim (trim s) = trim s.
Proof.
  unfold trim. destruct (trimStart_cases s) as [-> | (c & s' & -> & Hc)];
    [reflexivity |].
  rewrite (trimEnd_head c s' Hc). cbn [trimStart]. rewrite Hc.
  rewrite <- (trimEnd_head c s' Hc). apply trimEnd_idem.
Qed.

Lemma last_is_nonempty (c : ascii) (s : string) :
  last_is c s = true -> s <> EmptyString.
Proof. destruct s; [discriminate | discriminate]. Qed.

Lemma trimEnd_last (c : ascii) (s : string) :
  is_space c = false -> last_is c s = true -> trimEnd s = s.
Proof.
  intros Hc. induction s as [| x s IH]; [discriminate |].
  intros H. cbn [trimEnd]. destruct s as [| y s].
  - cbn [last_is] in H. apply Ascii.eqb_eq in H. subst x.
    rewrite Hc. reflexivity.
  - rewrite (IH H). rewrite andb_false_r. reflexivity.
Qed.

Lemma trim_delimited (o c : ascii) (s : string) :
  is_space o = false -> is_space c = false ->
  last_is c (String o s) = true -> trim (String o s) = String o s.
Proof.
  intros Ho Hc H. unfold trim. cbn [trimStart]. rewrite Ho.
  apply (trimEnd_last c); assumption.
Qed.

Lemma endsWith_last (c : ascii) (s : string) :
  endsWith s (String c EmptyString) = last_is c s.
Proof.
  unfold endsWith. destruct s as [| x s]; [reflexivity |].
  change (String.length (String c "")) with 1.
  change (String.length (String x s)) with (S (String.length s)).
  replace (S (String.length s) - 1) with (String.length s) by lia.
  cbn [Nat.leb andb]. revert x.
  induction s as [| y s IH]; intros x.
  - cbn. destruct (Ascii.eqb x c); reflexivity.
  - change (substring (String.length (String y s)) 1
              (String x (String y s)))
      with (substring (String.length s) 1 (String y s)).
    rewrite (IH y). reflexivity.
Qed.

Lemma startsWith_head (o : ascii) (s : string) :
  startsWith (String o s) (String o EmptyString) = true.
Proof.
  unfold startsWith. cbn [String.prefix].
  destruct (ascii_dec o o) as [_ | n]; [| contradiction].
  destruct s; reflexivity.
Qed.

End trim_lemmas.

Section text_extractor_lemmas.

Import Repair TextNotions.

Lemma balanced_from_shape (o c : ascii) (d : Z) (i e : bool) (s r : string) :
  balanced_from o c d i e s = Some r ->
  last_is c r = true /\
  match s with
  | EmptyString => False
  | String x _ => exists r', r = String x r'
  end.
Proof.
  revert d i e r. induction s as [| x s IH]; intros d i e r H;
    [discriminate |].
  cbn [balanced_from] in H.
  assert (K : forall d' i' e',
             option_map (String x) (balanced_from o c d' i' e' s) = Some r ->
             last_is c r = true /\ exists r', r = String x r').
  { intros d' i' e' Hk.
    destruct (balanced_from o c d' i' e' s) as [r' |] eqn:E;
      [| discriminate].
    injection Hk as <-. destruct (IH _ _ _ _ E) as [Hl _].
    split; [| exists r'; reflexivity].
    destruct r'; [discriminate | exact Hl]. }
  repeat match type of H with
         | (if ?b then _ else _) = _ => destruct b eqn:?
         end; try (eapply K; exact H).
  injection H as <-. split; [| exists EmptyString; reflexivity].
  cbn [last_is]. assumption.
Qed.

Lemma from_first_shape (o : ascii) (s t : string) :
  from_first o s = Some t -> exists t', t = String o t'.
Proof.
  induction s as [| x s IH]; [discriminate |].
  cbn [from_first]. unfold ch_eq.
  destruct (Ascii.eqb_spec x o) as [-> | _]; [| exact IH].
  intros [= <-]. exists s. reflexivity.
Qed.

Lemma findBalancedJSON_shape (text : string) (o c : ascii) (json : string) :
  findBalancedJSON text o c = Some json ->
  exists r, json = String o r /\ last_is c json = true.
Proof.
  unfold findBalancedJSON.
  destruct (from_first o text) as [t |] eqn:E; [| discriminate].
  destruct (from_first_shape _ _ _ E) as [t' ->].
  intros H. destruct (balanced_from_shape _ _ _ _ _ _ _ H) as [Hl [r ->]].
  exists r. split; [reflexivity | exact Hl].
Qed.

Lemma extractJSONFromText_trim (x : string) :
  extractJSONFromText (trim x) = extractJSONFromText x.
Proof. unfold extractJSONFromText. rewrite trim_idem. reflexivity. Qed.

Lemma extractJSONFromText_delimited (o c : ascii) (r : string) :
  (o = "{"%char /\ c = "}"%char) \/ (o = "["%char /\ c = "]"%char) ->
  last_is c (String o r) = true ->
  extractJSONFromText (String o r)
  = {| tx_extracted := false; tx_text := String o r |}.
Proof.
  intros Hoc Hl. unfold extractJSONFromText.
  assert (Ht : trim (String o r) = String o r)
    by (destruct Hoc as [[-> ->] | [-> ->]];
        [apply (trim_delimited "{" "}" r eq_refl eq_refl Hl)
        | apply (trim_delimited "[" "]" r eq_refl eq_refl Hl)]).
  rewrite Ht.
  destruct Hoc as [[-> ->] | [-> ->]].
  - rewrite (startsWith_head "{" r), (endsWith_last "}"), Hl. reflexivity.
  - rewrite (startsWith_head "[" r), (endsWith_last "]"), Hl.
    cbn [andb]. rewrite orb_true_r. reflexivity.
Qed.

End text_extractor_lemmas.

(** X7. [extractJSONFromText] is idempotent: run on its own result it
    extracts nothing and returns that text unchanged. *)
Theorem extractJSONFromText_idempotent (x : string) :
  Repair.extractJSONFromText (Repair.tx_text (Repair.extractJSONFromText x))
  = {| Repair.tx_extracted := false;
       Repair.tx_text := Repair.tx_text (Repair.extractJSONFromText x) |}.
Proof.
  assert (Hcases :
            Repair.extractJSONFromText x
            = {| Repair.tx_extracted := false; Repair.tx_text := trim x |} \/
            exists o c r,
              ((o = "{"%char /\ c = "}"%char) \/ (o = "["%char /\ c = "]"%char))
              /\ TextNotions.last_is c (String o r) = true
              /\ Repair.tx_text (Repair.extractJSONFromText x) = String o r).
  { unfold Repair.extractJSONFromText.
    destruct ((startsWith (trim x) "{" && endsWith (trim x) "}")
              || (startsWith (trim x) "[" && endsWith (trim x) "]"));
      [left; reflexivity |].
    destruct (Repair.findBalancedJSON (trim x) "{" "}") as [json |] eqn:Eo.
    { right. destruct (findBalancedJSON_shape _ _ _ _ Eo) as (r & -> & Hl).
      exists "{"%char, "}"%char, r. split; [left; split; reflexivity |].
      split; [exact Hl | reflexivity]. }
    destruct (Repair.findBalancedJSON (trim x) "[" "]") as [json |] eqn:Ea.
    { right. destruct (findBalancedJSON_shape _ _ _ _ Ea) as (r & -> & Hl).
      exists "["%char, "]"%char, r. split; [right; split; reflexivity |].
      split; [exact Hl | reflexivity]. }
    left; reflexivity. }
  destruct Hcases as [E | (o & c & r & Hoc & Hl & E)].
  - rewrite E. cbn [Repair.tx_text]. rewrite extractJSONFromText_trim.
    exact E.
  - rewrite E. apply (extractJSONFromText_delimited o c r Hoc Hl).
Qed.

Section regex_lemmas.

Import RepairMore.

Variable c : ascii.

Lemma contains_tail (x : ascii) (s : string) :
  contains c (String x s) = false -> contains c s = false.
Proof.
  cbn [contains]. intros H. apply orb_false_elim in H as [_ H]. exact H.
Qed.

Lemma rmatch_free (r : regex) :
  forall st k, (forall st', free_of c st' -> k st' = None) ->
               free_of c st -> rmatch r st k = None.
Proof.
  unfold free_of.
  induction r as [| x | p | r1 IH1 r2 IH2 | r1 IH1 r2 IH2 | g r1 IH1
                  | n r1 IH1 | | |]; intros st k Hk Hst.
  - apply Hk, Hst.
  - cbn [rmatch]. destruct (rest st) as [| c' s'] eqn:E; [reflexivity |].
    destruct (Ascii.eqb x c'); [| reflexivity].
    apply Hk. cbn [rest]. apply (contains_tail c' s' Hst).
  - cbn [rmatch]. destruct (rest st) as [| c' s'] eqn:E; [reflexivity |].
    destruct (p c'); [| reflexivity].
    apply Hk. cbn [rest]. apply (contains_tail c' s' Hst).
  - cbn [rmatch]. apply IH1; [| exact Hst].
    intros st' Hst'. apply IH2; assumption.
  - cbn [rmatch]. rewrite (IH1 st k Hk Hst). apply IH2; assumption.
  - assert (Hiter :
              forall fuel st0, contains c (rest st0) = false ->
                (fix iter (fuel : nat) (st : mstate) {struct fuel}
                   : option mstate :=
                   match fuel with
                   | O => k st
                   | S fuel' =>
                       let again (st' : mstate) :=
                         if String.length (rest st') <? String.length (rest st)
                         then iter fuel' st' else None in
                       if g then
                         match rmatch r1 st again with
                         | Some res => Some res
                         | None => k st
                         end
                       else
                         match k st with
                         | Some res => Some res
                         | None => rmatch r1 st again
                         end
                   end) fuel st0 = None).
    { induction fuel as [| fuel IHf]; intros st0 Hst0; [apply Hk, Hst0 |].
      cbv zeta. rewrite (Hk st0 Hst0).
      rewrite IH1; [destruct g; reflexivity | | exact Hst0].
      intros st' Hst'.
      destruct (String.length (rest st') <? String.length (rest st0));
        [apply IHf, Hst' | reflexivity]. }
    exact (Hiter (S (String.length (rest st))) st Hst).
  - cbn [rmatch]. apply IH1; [| exact Hst].
    intros st' Hst'. apply Hk. exact Hst'.
  - cbn [rmatch]. destruct (xorb (word_before st) (word_after st));
      [apply Hk, Hst | reflexivity].
  - cbn [rmatch]. destruct (prev st); [reflexivity | apply Hk, Hst].
  - cbn [rmatch]. destruct (rest st) eqn:E; [| reflexivity].
    apply Hk. rewrite E. reflexivity.
Qed.

Lemma rmatch_requires (r : regex) :
  requires c r = true ->
  forall st k, free_of c st -> rmatch r st k = None.
Proof.
  unfold free_of.
  induction r as [| x | p | r1 IH1 r2 IH2 | r1 IH1 r2 IH2 | g r1 IH1
                  | n r1 IH1 | | |]; cbn [requires]; intros Hr st k Hst;
    try discriminate; cbn [rmatch].
  - destruct (rest st) as [| c' s'] eqn:E; [reflexivity |].
    apply Ascii.eqb_eq in Hr. subst x.
    cbn [contains] in Hst. apply orb_false_elim in Hst as [-> _].
    reflexivity.
  - apply orb_prop in Hr as [Hr | Hr].
    + apply IH1; assumption.
    + apply rmatch_free; [| exact Hst].
      intros st' Hst'. apply IH2; assumption.
  - apply andb_prop in Hr as [Hr1 Hr2].
    rewrite (IH1 Hr1 st k Hst). apply IH2; assumption.
  - apply IH1; assumption.
Qed.

Lemma exec_from_requires (r : regex) (p : option ascii) (s : string) :
  requires c r = true -> contains c s = false -> exec_from r p s = None.
Proof.
  intros Hr. revert p. induction s as [| x s IH]; intros p Hs;
    cbn [exec_from]; unfold match_here;
    rewrite (rmatch_requires r Hr (MState p _ []) Some Hs); [reflexivity |].
  rewrite (IH (Some x) (contains_tail x s Hs)). reflexivity.
Qed.

Lemma replace_all_requires (r : regex) (f : list (nat * string) -> string)
      (s : string) :
  requires c r = true -> contains c s = false -> replace_all r f s = s.
Proof.
  intros Hr Hs. unfold replace_all. cbn [replace_from].
  rewrite (exec_from_requires r None s Hr Hs). reflexivity.
Qed.

Lemma contains_trimStart (s : string) :
  contains c s = false -> contains c (trimStart s) = false.
Proof.
  induction s as [| x s IH]; [reflexivity |]. intros H.
  cbn [trimStart]. destruct (is_space x); [| exact H].
  apply IH, (contains_tail x s H).
Qed.

Lemma contains_trimEnd (s : string) :
  contains c s = false -> contains c (trimEnd s) = false.
Proof.
  induction s as [| x s IH]; [reflexivity |]. intros H.
  cbn [trimEnd]. destruct (is_space x && is_empty (trimEnd s));
    [reflexivity |].
  cbn [contains] in H |- *. apply orb_false_elim in H as [-> H].
  apply IH, H.
Qed.

Lemma contains_trim (s : string) :
  contains c s = false -> contains c (trim s) = false.
Proof. intros H. apply contains_trimEnd, contains_trimStart, H. Qed.

End regex_lemmas.

(** X8. The fixers written with regular expressions act only after a
    colon: a text without a colon, such as an array at the top level, is
    returned unchanged by [fixSpecialNumbers], [fixNumberFormats],
    [fixUnquotedKeys] and [ensureQuotedValues]. *)
Theorem regex_fixers_need_a_colon (x : string) (asStrings : bool) :
  RepairMore.contains ":" x = false ->
  Repair.fixSpecialNumbers x asStrings = x /\
  Repair.fixNumberFormats x = x /\
  Repair.fixUnquotedKeys x = x /\
  RepairMore.ensureQuotedValues x = x.
Proof.
  intros H.
  assert (R : forall r f, requires ":" r = true -> replace_all r f x = x)
    by (intros r f Hr; apply (replace_all_requires ":" r f x Hr H)).
  split; [| split; [| split]].
  - unfold Repair.fixSpecialNumbers. destruct asStrings;
      rewrite ?(R Repair.nanRegex), ?(R Repair.infinityRegex),
        ?(R Repair.minusInfinityRegex), ?(R Repair.anyInfinityRegex),
        ?(R Repair.undefinedRegex); reflexivity.
  - unfold Repair.fixNumberFormats.
    rewrite (R Repair.leadingDotRegex), (R Repair.trailingDotRegex),
      !(R (Repair.radixRegex _ _)); reflexivity.
  - unfold Repair.fixUnquotedKeys. apply R. reflexivity.
  - unfold RepairMore.ensureQuotedValues. apply R. reflexivity.
Qed.

Lemma regex_fixers_need_a_colon_witness :
  Repair.fixSpecialNumbers "[NaN, .5, 0x1F]" false = "[NaN, .5, 0x1F]" /\
  Repair.fixNumberFormats "[NaN, .5, 0x1F]" = "[NaN, .5, 0x1F]" /\
  Repair.fixUnquotedKeys "[NaN, .5, 0x1F]" = "[NaN, .5, 0x1F]" /\
  RepairMore.ensureQuotedValues "[NaN, .5, 0x1F]" = "[NaN, .5, 0x1F]".
Proof.
  apply (regex_fixers_need_a_colon "[NaN, .5, 0x1F]" false eq_refl).
Defined.

(** X9. Without a backtick there is no Markdown to extract:
    [extractFromMarkdown] returns the trimmed text with
    [extracted = false] and no language. *)
Theorem extractFromMarkdown_needs_a_backtick (x : string) :
  RepairMore.contains "`" x = false ->
  Repair.extractFromMarkdown x = Repair.no_markdown (trim x).
Proof.
  intros H. apply contains_trim in H.
  assert (E : forall r, requires "`" r = true -> exec r (trim x) = None)
    by (intros r Hr; apply (exec_from_requires "`" r None (trim x) Hr H)).
  unfold Repair.extractFromMarkdown, Repair.inline_code.
  rewrite (E Repair.jsonBlockRegex eq_refl),
    (E Repair.genericBlockRegex eq_refl),
    (E Repair.inlineObjectRegex eq_refl),
    (E Repair.inlineArrayRegex eq_refl).
  reflexivity.
Qed.

Lemma extractFromMarkdown_needs_a_backtick_witness :
  Repair.extractFromMarkdown "  see {a: 1}  "
  = Repair.no_markdown (trim "  see {a: 1}  ").
Proof.
  apply (extractFromMarkdown_needs_a_backtick "  see {a: 1}  " eq_refl).
Defined.

(* ================================================================== *)
(** * Further properties of the validation *)
(* ================================================================== *)

Section confinement.

Lemma writes_refl R P (st : Store) : writes R P st st.
Proof.
  intros r l H. exists []. rewrite app_nil_r.
  split; [exact H |]. split; [right; reflexivity | constructor].
Qed.

Lemma writes_trans R P (a b c : Store) :
  writes R P a b -> writes R P b c -> writes R P a c.
Proof.
  intros Hab Hbc r l H.
  destruct (Hab r l H) as (l1 & H1 & HR1 & HP1).
  destruct (Hbc r _ H1) as (l2 & H2 & HR2 & HP2).
  exists (l1 ++ l2)%list. rewrite H2, app_assoc.
  split; [reflexivity |]. split.
  - destruct HR1 as [HR | ->]; [left; exact HR |].
    destruct HR2 as [HR | ->]; [left; exact HR | right; reflexivity].
  - apply Forall_app. split; assumption.
Qed.

Lemma writes_weaken (R R' : nat -> Prop) (P P' : Issue -> Prop)
      (st st' : Store) :
  (forall r, r < length st -> R r -> R' r) ->
  (forall i, P i -> P' i) ->
  writes R P st st' -> writes R' P' st st'.
Proof.
  intros HR HP H r l Hl. destruct (H r l Hl) as (l' & H1 & H2 & H3).
  exists l'. split; [exact H1 |]. split.
  - destruct H2 as [H2 | H2]; [left | right; exact H2].
    apply HR; [eapply lookup_lt_Some; exact Hl | exact H2].
  - eapply Forall_impl; [exact H3 | exact HP].
Qed.

Lemma writes_alloc R P (st : Store) : writes R P st (st ++ [[]])%list.
Proof.
  intros r l H. exists []. rewrite app_nil_r.
  split; [| split; [right; reflexivity | constructor]].
  rewrite lookup_app_l; [exact H | eapply lookup_lt_Some; exact H].
Qed.

Lemma writes_after_alloc R P (st st' : Store) :
  writes R P (st ++ [[]])%list st' -> writes R P st st'.
Proof. intros H. eapply writes_trans; [apply writes_alloc | exact H]. Qed.

Lemma writes_push (R : nat -> Prop) (P : Issue -> Prop) (arr : nat)
      (i : Issue) (st : Store) :
  R arr -> P i -> writes R P st (snd (push arr i st)).
Proof.
  intros HR HP r l H. rewrite push_lookup, H.
  destruct (decide (arr = r)) as [<- | _].
  - exists [i]. split; [reflexivity |].
    split; [left; exact HR | repeat constructor; exact HP].
  - exists []. rewrite app_nil_r. split; [reflexivity |].
    split; [right; reflexivity | constructor].
Qed.

Lemma writes_collect (R : nat -> Prop) (P : Issue -> Prop)
      (ctx : ParseContext) (i : Issue) :
  (forall r, In r (map issues (ancestors ctx)) -> R r) -> P i ->
  forall st, writes R P st (snd (collectIssueInParent ctx i st)).
Proof.
  intros HR HP.
  induction ctx as [d m p a o | d m p a par o IH] using ParseContext_chain_ind;
    intros st; simpl.
  - apply writes_refl.
  - unfold bind.
    pose proof (writes_push R P (issues par) i st) as Hp.
    destruct (push (issues par) i st) as [u st1]. simpl in Hp.
    eapply writes_trans.
    + apply Hp; [apply HR; left; reflexivity | exact HP].
    + apply IH. intros r Hr. apply HR. right. exact Hr.
Qed.

Lemma extends_refl (p : list PathSegment) (d : IssueDetail)
      (m : option string) : extends p (Build_Issue d p m).
Proof. exists []. simpl. rewrite app_nil_r. reflexivity. Qed.

Lemma extends_app (p q : list PathSegment) (i : Issue) :
  extends (p ++ q) i -> extends p i.
Proof.
  intros [k Hk]. exists (q ++ k)%list. rewrite Hk, app_assoc. reflexivity.
Qed.

Lemma writes_addIssue (R : nat -> Prop) (P : Issue -> Prop)
      (ctx : ParseContext) (d : IssueDetail) (m : option string) :
  (forall r, own_arrays ctx r -> R r) -> P (Build_Issue d (path ctx) m) ->
  forall st, writes R P st (snd (addIssue ctx d m st)).
Proof.
  intros HR HP st. rewrite (proj1 (addIssue_snd ctx d m st)).
  eapply writes_trans.
  - apply writes_push; [apply HR; left; reflexivity | exact HP].
  - apply writes_collect; [| exact HP].
    intros r Hr. apply HR. right. exact Hr.
Qed.

Lemma confined_ret {A : Type} (ctx : ParseContext) (a : A) :
  confined ctx (ret a).
Proof. intros st. apply writes_refl. Qed.

Lemma confined_bind {A B : Type} (ctx : ParseContext) (m : M A)
      (k : A -> M B) :
  confined ctx m -> (forall a, confined ctx (k a)) -> confined ctx (bind m k).
Proof.
  intros Hm Hk st. unfold bind. specialize (Hm st).
  destruct (m st) as [a st1]. simpl in Hm.
  eapply writes_trans; [exact Hm | apply Hk].
Qed.

Lemma confined_read (ctx : ParseContext) (arr : nat) : confined ctx (read arr).
Proof. intros st. apply writes_refl. Qed.

Lemma confined_hasIssues (ctx c : ParseContext) : confined ctx (hasIssues c).
Proof.
  unfold hasIssues.
  apply confined_bind; [apply confined_read | intros; apply confined_ret].
Qed.

Lemma confined_addIssue (ctx : ParseContext) (d : IssueDetail)
      (m : option string) : confined ctx (addIssue ctx d m).
Proof.
  intros st. apply writes_addIssue; [tauto | apply extends_refl].
Qed.

Lemma confined_issue_when (c : bool) (ctx : ParseContext) (d : IssueDetail)
      (m : option string) : confined ctx (issue_when c ctx d m).
Proof.
  unfold issue_when. destruct c; [| apply confined_ret].
  apply confined_bind; [apply confined_addIssue | intros; apply confined_ret].
Qed.

Lemma confined_string_checks (ctx : ParseContext) (cs : list StringCheck)
      (s : string) : confined ctx (string_checks ctx cs s).
Proof.
  revert s. induction cs as [| c cs IH]; intros s; simpl;
    [apply confined_ret |].
  apply confined_bind; [| intros; apply IH].
  destruct c; simpl; try apply confined_ret;
    (apply confined_bind;
     [apply confined_issue_when | intros; apply confined_ret]).
Qed.

Lemma confined_number_checks (ctx : ParseContext) (cs : list NumberCheck)
      (n : JSNumber) : confined ctx (number_checks ctx cs n).
Proof.
  induction cs as [| c cs IH]; simpl; [apply confined_ret |].
  apply confined_bind; [| intros; apply IH].
  destruct c; simpl; apply confined_issue_when.
Qed.

Lemma confined_guard {A : Type} (m : M A) (ctx : ParseContext)
      (f : A -> value) :
  confined ctx m ->
  confined ctx (let* x := m in
                let* has := hasIssues ctx in
                if has then ret invalid else success ctx (f x)).
Proof.
  intros Hm. apply confined_bind; [exact Hm |]. intros a.
  apply confined_bind; [apply confined_hasIssues |].
  intros []; apply confined_ret.
Qed.

Lemma confined_array_length_checks ctx len a b c :
  confined ctx (array_length_checks ctx len a b c).
Proof.
  unfold array_length_checks.
  apply confined_bind;
    [destruct a; [apply confined_issue_when | apply confined_ret] |].
  intros _.
  apply confined_bind;
    [destruct b; [apply confined_issue_when | apply confined_ret] |].
  intros _. destruct c; [apply confined_issue_when | apply confined_ret].
Qed.

(** A computation in a context that was just created below or beside
    [ctx], followed by a computation confined to [ctx]. *)
Lemma writes_fresh {A B : Type} (R : nat -> Prop) (P : Issue -> Prop)
      (ctx : ParseContext) (d : value) (p : list PathSegment)
      (par : option ParseContext)
      (body : ParseContext -> M A) (k : ParseContext -> A -> M B) :
  (forall c st, issues c = length st -> path c = p -> parent c = par ->
                writes R P st (snd (body c (st ++ [[]])%list))) ->
  (forall c a st, writes R P st (snd (k c a st))) ->
  forall st,
    writes R P st
      (snd ((let* c := new_ParseContext d (mode ctx) (Some p) par
                         (Some (llmOptions ctx)) in
             let* a := body c in k c a) st)).
Proof.
  intros Hbody Hk st.
  unfold new_ParseContext, alloc, bind, ret. cbn [fst snd].
  set (c := {| data := d; mode := mode ctx; path := p; issues := length st;
               parent := par; llmOptions := llmOptions ctx |}).
  specialize (Hbody c st eq_refl eq_refl eq_refl).
  destruct (body c (st ++ [[]])%list) as [a st1]. cbn [snd] in Hbody.
  eapply writes_trans; [exact Hbody | apply Hk].
Qed.

Lemma chain_unfold (c : ParseContext) :
  chain c = c :: match parent c with Some p => chain p | None => [] end.
Proof. destruct c as [d m p a [par |] o]; reflexivity. Qed.

Lemma ancestors_unfold (c : ParseContext) :
  ancestors c = match parent c with Some p => chain p | None => [] end.
Proof. destruct c as [d m p a [par |] o]; reflexivity. Qed.

(** What a computation confined to a new context [c] writes, seen from
    the store before the array of [c] was allocated: the arrays of the
    ancestors of [c]. *)
Lemma confined_fresh {A : Type} (c : ParseContext) (m : M A) (st : Store) :
  issues c = length st -> confined c m ->
  writes (fun r => In r (map issues (ancestors c))) (extends (path c))
         st (snd (m (st ++ [[]])%list)).
Proof.
  intros Hi Hm r l Hl.
  assert (Hlt : r < length st) by (eapply lookup_lt_Some; exact Hl).
  destruct (Hm (st ++ [[]])%list r l) as (l' & H1 & H2 & H3).
  { rewrite lookup_app_l; assumption. }
  exists l'. split; [exact H1 |]. split; [| exact H3].
  destruct H2 as [H2 | H2]; [| right; exact H2].
  unfold own_arrays, chain in H2. cbn [map] in H2.
  destruct H2 as [H2 | H2]; [lia | left; exact H2].
Qed.

Lemma confined_with_child {A B : Type} (ctx : ParseContext) (d : value)
      (seg : PathSegment) (body : ParseContext -> M A)
      (k : ParseContext -> A -> M B) :
  (forall c, confined c (body c)) -> (forall c a, confined ctx (k c a)) ->
  confined ctx (let* c := child ctx d seg in let* a := body c in k c a).
Proof.
  intros Hbody Hk st. unfold child.
  apply (writes_fresh _ _ ctx d _ (Some ctx) body k); [| intros; apply Hk].
  intros c st0 Hi Hpath Hpar.
  eapply writes_weaken; [| | apply (confined_fresh c (body c) st0 Hi), Hbody].
  - intros r _. rewrite ancestors_unfold, Hpar. tauto.
  - intros i. rewrite Hpath. apply extends_app.
Qed.

Lemma confined_with_sibling {A B : Type} (ctx : ParseContext) (d : value)
      (body : ParseContext -> M A) (k : ParseContext -> A -> M B) :
  (forall c, confined c (body c)) -> (forall c a, confined ctx (k c a)) ->
  confined ctx (let* c := sibling ctx d in let* a := body c in k c a).
Proof.
  intros Hbody Hk st. unfold sibling.
  apply (writes_fresh _ _ ctx d _ (parent ctx) body k); [| intros; apply Hk].
  intros c st0 Hi Hpath Hpar.
  eapply writes_weaken; [| | apply (confined_fresh c (body c) st0 Hi), Hbody].
  - intros r _. rewrite ancestors_unfold, Hpar.
    unfold own_arrays. rewrite chain_unfold. cbn [map]. intros H.
    right. exact H.
  - intros i. rewrite Hpath. tauto.
Qed.

Lemma confined_array_elements
      (parse_element : ParseContext -> M ParseReturnType)
      (ctx : ParseContext) :
  (forall c, confined c (parse_element c)) ->
  forall items i result,
    confined ctx (array_elements parse_element ctx i items result).
Proof.
  intros Hp. induction items as [| item items IH]; intros i result; simpl;
    [apply confined_ret |].
  apply (confined_with_child ctx item (PIndex i) parse_element
           (fun _ parseResult =>
              match parseResult with
              | valid v =>
                  array_elements parse_element ctx (S i) items
                                 (result ++ [v])%list
                            | invalid => array_elements parse_element ctx (S i) items result
              | thrown => ret None
              end)); [exact Hp |].
  intros _ [v | |]; first [apply IH | apply confined_ret].
Qed.

Lemma confined_object_properties
      (parse_with : Schema -> ParseContext -> M ParseReturnType)
      (ctx : ParseContext) (input : value)
      (entries : list (string * Schema)) :
  Forall (fun kv => forall c, confined c (parse_with (snd kv) c)) entries ->
  forall result,
    confined ctx (object_properties parse_with ctx input entries result).
Proof.
  induction 1 as [| [key schema] entries Hhead Htail IH]; intros result; simpl;
    [apply confined_ret |].
    apply (confined_with_child ctx (JSValue.lookup input key) (PKey key)
           (parse_with schema)
           (fun _ parseResult =>
              match parseResult with
              | valid v =>
                  if negb (is_undefined v) || JSValue.has_in input key
                  then object_properties parse_with ctx input entries
                                         (JSValue.assign result key v)
                  else object_properties parse_with ctx input entries result
              | invalid =>
                  object_properties parse_with ctx input entries result
              | thrown => ret None
              end)); [exact Hhead |].
  intros _ [v | |]; [destruct (_ || _) | |];
    first [apply IH | apply confined_ret].
Qed.

Lemma confined_object_unknown_keys ctx u shapeKeys input result :
  confined ctx (object_unknown_keys ctx u shapeKeys input result).
Proof.
  unfold object_unknown_keys.
  destruct (0 <? _); [| apply confined_ret].
  destruct (or_strip u); try apply confined_ret.
  apply confined_bind; [apply confined_addIssue | intros; apply confined_ret].
Qed.

Lemma confined_union_options
      (parse_with : Schema -> ParseContext -> M ParseReturnType)
      (ctx : ParseContext) (options : list Schema) :
  Forall (fun s => forall c, confined c (parse_with s c)) options ->
  forall errs, confined ctx (union_options parse_with ctx options errs).
Proof.
  induction 1 as [| option opts Hhead Htail IH]; intros errs; simpl.
  - apply confined_addIssue.
  - apply (confined_with_sibling ctx (data ctx) (parse_with option)
             (fun testCtx result =>
                let* has := hasIssues testCtx in
                match result with
                | valid v =>
                    if negb has then success ctx v
                    else
                      let* collected := read (issues testCtx) in
                      union_options parse_with ctx opts
                                    (errs ++ collected)%list
                                | invalid =>
                    let* collected := read (issues testCtx) in
                    union_options parse_with ctx opts (errs ++ collected)%list
                | thrown => ret thrown
                end)); [exact Hhead |].
    intros testCtx result.
    apply confined_bind; [apply confined_hasIssues |]. intros has.
    destruct result as [v | |];
      [destruct (negb has); [apply confined_ret |] | |];
      first [apply confined_ret
            | apply confined_bind; [apply confined_read | intros; apply IH]].
Qed.

Lemma confined_ValaiEnum_parse (values : list string) (ctx : ParseContext) :
  confined ctx (ValaiEnum_parse values ctx).
Proof.
  unfold ValaiEnum_parse.
  destruct (match data ctx with VString _ => _ | _ => _ end) as [[] |];
    try apply confined_addIssue; try apply confined_ret.
  destruct (isLLMMode ctx); [destruct (find _ _) as [found |];
                             [destruct (is_empty found) |] |];
    try apply confined_ret;
    (destruct (negb _); [apply confined_addIssue | apply confined_ret]).
Qed.

Lemma confined_intersection_merge ctx l r :
  confined ctx (intersection_merge ctx l r).
Proof.
  unfold intersection_merge.
  destruct l as [x | |], r as [y | |]; try apply confined_ret.
  destruct (_ && _); [apply confined_ret |].
  destruct (same_primitive x y); [apply confined_ret | apply confined_addIssue].
Qed.

Lemma confined_Schema_parse (s : Schema) :
  forall ctx, confined ctx (Schema_parse s ctx).
Proof.
  induction s as [checks meta | checks meta | element a b c meta IHe
                 | shape u meta IHshape | options meta IHoptions
                 | inner meta IH | inner meta IH | inner d meta IH
                 | values meta | l r meta IHl IHr]
    using Schema_nested_ind; intros ctx; simpl.
  - unfold ValaiString_parse.
    destruct (if shouldCoerce ctx then _ else _) as [[] |];
      try apply confined_addIssue; try apply confined_ret.
    apply (confined_guard _ ctx VString), confined_string_checks.
  - unfold ValaiNumber_parse.
    destruct (match data ctx with VString _ => _ | _ => _ end);
      try apply confined_addIssue.
    destruct (JSNum.isNaN n); [apply confined_addIssue |].
    apply (confined_guard _ ctx (fun _ => VNumber n)), confined_number_checks.
    - destruct (data ctx); try apply confined_addIssue.
    apply confined_bind; [apply confined_array_length_checks |]. intros _.
    apply confined_bind; [apply confined_array_elements, IHe |].
    intros [result |]; [| apply confined_ret].
    apply (confined_guard (ret result) ctx VArray), confined_ret.
  - destruct (JSValue.is_plain_object (data ctx));
      [| apply confined_addIssue].
    apply confined_bind; [apply confined_object_properties, IHshape |].
    intros [result |]; [| apply confined_ret].
    apply (confined_guard _ ctx VObject), confined_object_unknown_keys.
  - apply confined_union_options, IHoptions.
  - destruct (data ctx); first [apply confined_ret | apply IH].
  - destruct (data ctx); first [apply confined_ret | apply IH].
  - destruct (data ctx); first [apply confined_ret | apply IH].
  - apply confined_ValaiEnum_parse.
  - apply confined_bind; [apply IHl |]. intros leftResult.
    assert (H : confined ctx
                  (let* siblingCtx := sibling ctx (data ctx) in
                   let* rightResult := Schema_parse r siblingCtx in
                   intersection_merge ctx leftResult rightResult)).
    { apply (confined_with_sibling ctx (data ctx) (Schema_parse r)
               (fun _ rightResult =>
                  intersection_merge ctx leftResult rightResult));
        [exact IHr |].
      intros; apply confined_intersection_merge. }
    destruct leftResult; first [exact H | apply confined_ret].
Qed.

End confinement.

(** X10. A validation is confined to its context: whatever the schema,
    [_parse] only appends to the issue arrays that exist when it starts,
    it appends only to the arrays of the context and of its ancestors,
    and every issue it appends has a path that extends the path of the
    context. *)
Theorem validation_is_confined (s : Schema) (ctx : ParseContext)
        (st : Store) (r : nat) (l : list Issue) :
  st !! r = Some l ->
  exists l', snd (Schema_parse s ctx st) !! r = Some (l ++ l')%list /\
             (In r (map issues (chain ctx)) \/ l' = []) /\
             Forall (extends (path ctx)) l'.
Proof. apply (confined_Schema_parse s ctx st r l). Qed.

Lemma validation_is_confined_witness :
  exists l',
    snd (Schema_parse Examples.user_schema
           (fst (createStrictContext Examples.user_input [[]]))
           (snd (createStrictContext Examples.user_input [[]]))) !! 0
    = Some ([] ++ l')%list /\
    (In 0 (map issues
             (chain (fst (createStrictContext Examples.user_input [[]]))))
     \/ l' = []) /\
    Forall (extends
              (path (fst (createStrictContext Examples.user_input [[]])))) l'.
Proof.
  apply (validation_is_confined Examples.user_schema
           (fst (createStrictContext Examples.user_input [[]]))
           (snd (createStrictContext Examples.user_input [[]])) 0 []
           eq_refl).
Defined.

Section located_issues.

(** The issues of a failed [safeParse] are those that [_parse] appends to
    the array of the root context. *)
Lemma safeParse_issues (s : Schema) (d : value) (P : Issue -> Prop) :
  (forall ctx st, path ctx = [] -> data ctx = d ->
                  writes (own_arrays ctx) P st (snd (Schema_parse s ctx st))) ->
  forall e p, safeParse s d = ParseFailure e p -> Forall P (error_issues e).
Proof.
  intros Hw e p.
  unfold safeParse, run, createStrictContext, new_ParseContext.
  unfold bind at 1. unfold bind at 1. unfold alloc, ret. cbn [length app].
  unfold bind at 1. cbn [_parse Schema_ValaiType].
  set (ctx := {| data := d; mode := strict_mode; path := []; issues := 0;
                 parent := None; llmOptions := default_llmOptions |}).
  destruct (Hw ctx [[]] eq_refl eq_refl 0 [] eq_refl) as (l' & H1 & _ & H3).
  destruct (Schema_parse s ctx [[]]) as [r st1]. cbn [snd] in H1.
  unfold finalize, bind, read, ret. cbv beta. cbn [issues ctx].
    rewrite H1. cbn [default app fst]. unfold id.
  destruct r as [v | |].
  - destruct (length l' =? 0); cbn [fst]; intros H; [discriminate H |].
    injection H as <- _. exact H3.
  - cbn [fst]. intros H. injection H as <- _. exact H3.
  - cbn [fst]. discriminate.
Qed.

Lemma located_object_properties
      (ctx : ParseContext) (input : value)
      (P : Issue -> Prop) (entries : list (string * Schema)) :
  (forall k i, In k (JSValue.keys entries) ->
               extends (path ctx ++ [PKey k]) i -> P i) ->
  forall result st,
    writes (own_arrays ctx) P st
      (snd (object_properties Schema_parse ctx input entries result st)).
Proof.
  induction entries as [| [key schema] entries IH]; intros HP result st;
    [apply writes_refl |].
  cbn [object_properties]. unfold child.
    apply (writes_fresh _ _ ctx (JSValue.lookup input key) _ (Some ctx)
           (Schema_parse schema)
           (fun _ parseResult =>
              match parseResult with
              | valid v =>
                  if negb (is_undefined v) || JSValue.has_in input key
                  then object_properties Schema_parse ctx input entries
                                         (JSValue.assign result key v)
                  else object_properties Schema_parse ctx input entries result
              | invalid =>
                  object_properties Schema_parse ctx input entries result
              | thrown => ret None
              end)).
  - intros c st0 Hi Hpath Hpar.
    eapply writes_weaken;
      [| | apply (confined_fresh c (Schema_parse schema c) st0 Hi),
             confined_Schema_parse].
    + intros r _. rewrite ancestors_unfold, Hpar. tauto.
    + intros i. rewrite Hpath. apply HP. left. reflexivity.
    - intros _ [v | |] st0; [destruct (_ || _) | |];
      first [apply writes_refl
            | apply IH; intros k i Hk; apply HP; right; exact Hk].
Qed.

Lemma located_array_elements
      (element : Schema) (ctx : ParseContext) (P : Issue -> Prop)
      (items : list value) :
  forall i,
    (forall n j, i <= n < i + length items ->
                 extends (path ctx ++ [PIndex n]) j -> P j) ->
    forall result st,
      writes (own_arrays ctx) P st
        (snd (array_elements (Schema_parse element) ctx i items result st)).
Proof.
  induction items as [| item items IH]; intros i HP result st;
    [apply writes_refl |].
  cbn [array_elements]. unfold child.
  apply (writes_fresh _ _ ctx item _ (Some ctx) (Schema_parse element)
           (fun _ parseResult =>
              match parseResult with
              | valid v =>
                  array_elements (Schema_parse element) ctx (S i) items
                                 (result ++ [v])%list
                            | invalid =>
                  array_elements (Schema_parse element) ctx (S i) items result
              | thrown => ret None
              end)).
  - intros c st0 Hi Hpath Hpar.
    eapply writes_weaken;
      [| | apply (confined_fresh c (Schema_parse element c) st0 Hi),
             confined_Schema_parse].
    + intros r _. rewrite ancestors_unfold, Hpar. tauto.
    + intros j. rewrite Hpath. apply HP. simpl. lia.
    - intros _ [v | |] st0;
      first [apply writes_refl
            | apply IH; intros n j Hn; apply HP; simpl; lia].
Qed.

End located_issues.

(** X11. The issues of an object validation are located: every issue
    that [safeParse] reports for an object schema and an object input
    lies below a key of the shape, or is, in strict mode, the
    [unrecognized_keys] issue of the object itself. *)
Theorem object_issues_are_located (shape : list (string * Schema))
        (u : option UnknownKeys) (meta : Meta)
        (input : list (string * value)) (e : ValaiError) (p : value) :
  safeParse (ValaiObject shape u meta) (VObject input) = ParseFailure e p ->
  Forall (at_property shape u) (error_issues e).
Proof.
    apply safeParse_issues. intros ctx st Hpath Hdata.
  cbn [Schema_parse]. rewrite Hdata. cbn [JSValue.is_plain_object].
  unfold bind.
  pose proof (located_object_properties ctx (VObject input)
                (at_property shape u) shape) as H1.
  destruct (object_properties Schema_parse ctx (VObject input) shape [] st)
    as [[result |] st1] eqn:E1.
  2:{ specialize (H1 ltac:(intros k i Hk Hi; left; exists k;
                           rewrite Hpath in Hi; split; assumption) [] st).
      rewrite E1 in H1. exact H1. }
  eapply writes_trans.
  { specialize (H1 ltac:(intros k i Hk Hi; left; exists k;
                         rewrite Hpath in Hi; split; assumption) [] st).
    rewrite E1 in H1. exact H1. }
  assert (H2 : writes (own_arrays ctx) (at_property shape u) st1
                 (snd (object_unknown_keys ctx u (JSValue.keys shape)
                         (VObject input) result st1))).
  { unfold object_unknown_keys.
    destruct (0 <? _); [| apply writes_refl].
    destruct u as [[| |] |]; cbn [or_strip]; try apply writes_refl.
    unfold bind.
    assert (Ha : writes (own_arrays ctx) (at_property shape (Some uk_strict))
                   st1
                   (snd (addIssue ctx
                           (unrecognized_keys
                              (filter
                                 (fun k =>
                                    negb (includes_key (JSValue.keys shape) k))
                                 (JSValue.keys input))) None st1))).
    { apply writes_addIssue; [tauto |]. right. split; [reflexivity |].
      rewrite Hpath. eexists. reflexivity. }
    destruct (addIssue ctx _ None st1) as [a st2]. exact Ha. }
    destruct (object_unknown_keys ctx u (JSValue.keys shape) (VObject input)
              result st1) as [result' st2].
  cbn [snd] in H2. unfold hasIssues, read, bind, ret. cbv beta.
  destruct (0 <? _); exact H2.
Qed.

Lemma object_issues_are_located_witness :
  Forall (at_property [("a", v.number)] (Some uk_strict))
    [Build_Issue (invalid_type "number" "string") [PKey "a"] None;
     Build_Issue (unrecognized_keys ["b"]) [] None].
Proof.
  apply (object_issues_are_located [("a", v.number)] (Some uk_strict) no_meta
           [("a", VString "x"); ("b", VNull)]
           {| error_issues :=
               [Build_Issue (invalid_type "number" "string") [PKey "a"] None;
                Build_Issue (unrecognized_keys ["b"]) [] None] |}
           VUndefined eq_refl).
Defined.

(** X12. The issues of an array validation are located: every issue that
    [safeParse] reports for an array schema and an array input lies below
    an index of the input, or is a length issue of the array itself. *)
Theorem array_issues_are_located (element : Schema)
        (a b c : option JSNumber) (meta : Meta) (items : list value)
        (e : ValaiError) (p : value) :
  safeParse (ValaiArray element a b c meta) (VArray items) = ParseFailure e p ->
  Forall (at_element items) (error_issues e).
Proof.
  apply safeParse_issues. intros ctx st Hpath Hdata.
  cbn [Schema_parse]. rewrite Hdata.
  assert (Hwhen : forall cond d st0,
             (exists n exact,
                 d = too_small "array" n true exact \/
                 d = too_big "array" n true None) ->
             writes (own_arrays ctx) (at_element items) st0
                    (snd (issue_when cond ctx d None st0))).
  { intros cond d st0 (n & exact & Hd). unfold issue_when.
    destruct cond; [| apply writes_refl]. unfold bind.
    assert (Ha : writes (own_arrays ctx) (at_element items) st0
                   (snd (addIssue ctx d None st0))).
    { apply writes_addIssue; [tauto |]. right. exists n, exact.
      rewrite Hpath. destruct Hd as [-> | ->]; [left | right]; reflexivity. }
    destruct (addIssue ctx d None st0) as [x st1]. exact Ha. }
  unfold bind at 1.
  assert (H1 : writes (own_arrays ctx) (at_element items) st
                 (snd (array_length_checks ctx
                         (JSNum.of_nat (length items)) a b c st))).
  { unfold array_length_checks. unfold bind.
    destruct a as [n |].
    - pose proof (Hwhen (JSNum.lt (JSNum.of_nat (length items)) n)
                    (too_small "array" n true None) st
                    ltac:(eexists _, _; left; reflexivity)) as Hx.
      destruct (issue_when _ ctx _ None st) as [x st1]. cbn [snd] in Hx.
      eapply writes_trans; [exact Hx |]. clear Hx.
      destruct b as [n' |].
      + pose proof (Hwhen (JSNum.gt (JSNum.of_nat (length items)) n')
                      (too_big "array" n' true None) st1
                      ltac:(eexists _, None; right; reflexivity)) as Hx.
        destruct (issue_when _ ctx _ None st1) as [x' st2]. cbn [snd] in Hx.
        eapply writes_trans; [exact Hx |]. clear Hx.
        destruct c as [n'' |]; [| apply writes_refl].
        apply Hwhen. eexists _, _; left; reflexivity.
      + cbn [ret]. destruct c as [n'' |]; [| apply writes_refl].
        apply Hwhen. eexists _, _; left; reflexivity.
    - cbn [ret].
      destruct b as [n' |].
      + pose proof (Hwhen (JSNum.gt (JSNum.of_nat (length items)) n')
                      (too_big "array" n' true None) st
                      ltac:(eexists _, None; right; reflexivity)) as Hx.
        destruct (issue_when _ ctx _ None st) as [x' st2]. cbn [snd] in Hx.
        eapply writes_trans; [exact Hx |]. clear Hx.
        destruct c as [n'' |]; [| apply writes_refl].
        apply Hwhen. eexists _, _; left; reflexivity.
      + cbn [ret]. destruct c as [n'' |]; [| apply writes_refl].
        apply Hwhen. eexists _, _; left; reflexivity. }
  destruct (array_length_checks ctx _ a b c st) as [x st1]. cbn [snd] in H1.
  eapply writes_trans; [exact H1 |]. unfold bind.
  pose proof (located_array_elements element ctx (at_element items) items 0
                ltac:(intros n j Hn Hj; left; exists n; rewrite Hpath in Hj;
                      split; [lia | exact Hj]) [] st1) as H2.
    destruct (array_elements (Schema_parse element) ctx 0 items [] st1)
    as [[result |] st2]; cbn [snd] in H2; [| exact H2].
  unfold hasIssues, read, bind, ret. cbv beta.
  destruct (0 <? _); exact H2.
Qed.

Lemma array_issues_are_located_witness :
  Forall (at_element [VString "a"; VNull])
    [Build_Issue (too_small "array" (JSNum.of_nat 3) true None) [] None;
     Build_Issue (invalid_type "string" "null") [PIndex 1] None].
Proof.
  apply (array_issues_are_located v.string (Some (JSNum.of_nat 3)) None None
           no_meta [VString "a"; VNull]
           {| error_issues :=
               [Build_Issue (too_small "array" (JSNum.of_nat 3) true None)
                  [] None;
                Build_Issue (invalid_type "string" "null") [PIndex 1] None] |}
           VUndefined eq_refl).
Defined.

Section root_union.

(** At a context without parent, the members of a union are tried in
    contexts that have no ancestor: the array of the context is written
    once, at the end, when every member has failed. *)
Lemma union_options_root (ctx : ParseContext) (options : list Schema) :
  parent ctx = None ->
  forall errs st l r st',
    st !! issues ctx = Some l ->
    union_options Schema_parse ctx options errs st = (r, st') ->
    (exists v, r = valid v /\ st' !! issues ctx = Some l) \/
    (r = invalid /\
     exists errs',
       st' !! issues ctx
       = Some (l ++ [Build_Issue (invalid_union errs') (path ctx) None])%list)
    \/ r = thrown.
Proof.
  intros Hpar.
    induction options as [| option opts IH]; intros errs st l r st' Hl E.
  - right. left. cbn [union_options] in E.
    pose proof (addIssue_snd ctx (invalid_union errs) None st) as [_ Hfst].
    pose proof (addIssue_lookup ctx (invalid_union errs) None st (issues ctx))
      as Hlook.
    rewrite E in Hfst, Hlook. cbn [fst snd] in Hfst, Hlook.
    split; [exact Hfst |]. exists errs. rewrite Hlook.
    + destruct (decide (issues ctx ∈ map issues (chain ctx))) as [_ | n].
      * rewrite Hl. reflexivity.
      * exfalso. apply n. unfold chain. cbn [map]. apply elem_of_cons.
        left. reflexivity.
    + rewrite chain_unfold, Hpar. cbn [map].
      apply NoDup_cons.
      split; [intros H; inversion H | apply NoDup_nil; exact I].
  - cbn [union_options] in E.
    unfold sibling, new_ParseContext, alloc, ret in E.
    unfold bind at 1 2 3 in E. cbn [fst snd] in E.
    set (c := {| data := data ctx; mode := mode ctx; path := path ctx;
                 issues := length st; parent := parent ctx;
                 llmOptions := llmOptions ctx |}) in E.
    pose proof (confined_fresh c (Schema_parse option c) st eq_refl
                  (confined_Schema_parse option c) (issues ctx) l Hl)
      as (l' & H1 & H2 & _).
    assert (Hl1 : snd (Schema_parse option c (st ++ [[]])%list) !! issues ctx
                  = Some l).
    { rewrite H1. destruct H2 as [H2 | ->]; [| rewrite app_nil_r; reflexivity].
      rewrite ancestors_unfold in H2. cbn [parent c] in H2.
      rewrite Hpar in H2. destruct H2. }
    destruct (Schema_parse option c (st ++ [[]])%list) as [result st1].
    cbn [snd] in Hl1. clear H1 H2.
    unfold hasIssues, read, ret in E. unfold bind at 1 2 in E. cbv beta in E.
        destruct result as [v | |].
    + destruct (negb (0 <? length (default [] (st1 !! issues c)))).
      * left. exists v. injection E as <- <-. split; [reflexivity | exact Hl1].
      * unfold bind at 1 in E. apply (IH _ _ _ _ _ Hl1 E).
    + unfold bind at 1 in E. apply (IH _ _ _ _ _ Hl1 E).
    + right. right. injection E as <- _. reflexivity.
Qed.

End root_union.

(** X13. A union at the top level isolates its members: [safeParse]
    either succeeds, or fails with exactly one issue, the [invalid_union]
    issue of the union itself at the empty path; no issue of a rejected
    member appears in the list. *)
Theorem root_union_reports_one_issue (options : list Schema) (meta : Meta)
        (d : value) :
  (exists v, safeParse (ValaiUnion options meta) d = ParseSuccess v) \/
  (exists errs,
      safeParse (ValaiUnion options meta) d
      = ParseFailure
          {| error_issues := [Build_Issue (invalid_union errs) [] None] |}
          VUndefined).
Proof.
  assert (H : forall res, safeParse (ValaiUnion options meta) d = res ->
              (exists v, res = ParseSuccess v) \/
              (exists errs,
                  res = ParseFailure
                          {| error_issues :=
                              [Build_Issue (invalid_union errs) [] None] |}
                          VUndefined));
    [| apply H; reflexivity].
  intros res Hres.
  unfold safeParse, run, createStrictContext, new_ParseContext in Hres.
  unfold bind at 1 in Hres. unfold bind at 1 in Hres.
  unfold alloc, ret in Hres. cbn [length app] in Hres.
  unfold bind at 1 in Hres. cbn [_parse Schema_ValaiType Schema_parse] in Hres.
  set (ctx := {| data := d; mode := strict_mode; path := []; issues := 0;
                 parent := None; llmOptions := default_llmOptions |}) in Hres.
  destruct (union_options Schema_parse ctx options [] [[]]) as [r st1] eqn:E.
    pose proof (strict_never_throws (ValaiUnion options meta) ctx eq_refl [[]])
    as Hn.
  cbn [Schema_parse] in Hn. rewrite E in Hn. cbn [fst] in Hn.
  destruct (union_options_root ctx options eq_refl [] [[]] [] r st1
              eq_refl E) as [(v & -> & Hs) | [(-> & errs & Hs) | ->]];
    [| | exfalso; apply Hn; reflexivity];
    unfold finalize, bind, read, ret in Hres; cbv beta in Hres;
    cbn [issues ctx path] in Hs, Hres; rewrite Hs in Hres; cbn in Hres.
  - left. exists v. symmetry. exact Hres.
  - right. exists errs. symmetry. exact Hres.
Qed.

Section array_of_strings.

(** [ValaiString._parse] without checks, in a strict context whose array
    is empty. *)
Lemma string_parse_strict (c : ParseContext) (st : Store) :
  mode c = strict_mode -> st !! issues c = Some [] ->
  Schema_parse v.string c st
  = match data c with
    | VString s => (valid (VString s), st)
    | _ => addIssue c (invalid_type "string" (getTypeName (data c))) None st
    end.
Proof.
  intros Hm Hs. cbn [Schema_parse v.string]. unfold ValaiString_parse.
  unfold shouldCoerce, isLLMMode. rewrite Hm. cbn [andb].
  destruct (data c) eqn:E; unfold addInvalidTypeIssue; rewrite ?E;
    try reflexivity.
  cbn [or_nil string_checks]. unfold bind, ret, hasIssues, read, bind, ret.
  rewrite Hs. reflexivity.
Qed.

Lemma string_items_loop (ctx : ParseContext) (items : list value) :
  parent ctx = None -> mode ctx = strict_mode -> path ctx = [] ->
  forall i result st l r st',
    st !! issues ctx = Some l ->
        array_elements (Schema_parse v.string) ctx i items result st = (r, st') ->
    r = Some (result ++ filter (fun x => is_string x) items)%list /\
    st' !! issues ctx = Some (l ++ string_items_issues i items)%list.
Proof.
  intros Hpar Hmode Hpath.
  induction items as [| item items IH]; intros i result st l r st' Hl E.
  - cbn in E. injection E as <- <-. cbn. rewrite !app_nil_r.
    split; [reflexivity | exact Hl].
  - cbn [array_elements] in E.
    unfold child, new_ParseContext, alloc, ret, bind in E.
    set (c := {| data := item; mode := mode ctx;
                 path := (path ctx ++ [PIndex i])%list;
                 issues := length st; parent := Some ctx;
                 llmOptions := llmOptions ctx |}) in E.
    assert (Hlt : issues ctx < length st)
      by (eapply lookup_lt_Some; exact Hl).
    assert (Hnew : (st ++ [[]])%list !! issues c = Some [])
      by (cbn [issues c]; rewrite lookup_app_r, Nat.sub_diag by lia;
          reflexivity).
    assert (Hold : (st ++ [[]])%list !! issues ctx = Some l)
      by (rewrite lookup_app_l; assumption).
    rewrite (string_parse_strict c _ Hmode Hnew) in E. cbn [data c] in E.
    assert (Hbad : forall d,
               snd (addIssue c d None (st ++ [[]])%list) !! issues ctx
               = Some (l ++ [Build_Issue d [PIndex i] None])%list /\
               fst (addIssue c d None (st ++ [[]])%list) = invalid).
    { intros d. split; [| apply addIssue_snd].
      rewrite addIssue_lookup.
      - destruct (decide (issues ctx ∈ map issues (chain c))) as [_ | n].
        + rewrite Hold. cbn [path c]. rewrite Hpath. reflexivity.
        + exfalso. apply n. unfold chain. cbn [ancestors c map].
          apply elem_of_cons. right.
          destruct ctx; apply elem_of_cons; left; reflexivity.
      - unfold chain. cbn [ancestors c map]. rewrite ancestors_unfold, Hpar.
        cbn [issues c map]. apply NoDup_cons. split.
        + intros H. apply elem_of_cons in H as [H | H]; [lia | inversion H].
        + apply NoDup_cons.
          split; [intros H; inversion H | apply NoDup_nil; exact I]. }
        destruct item as [| | b | n | s | xs | props | bi];
      try (destruct (Hbad (invalid_type "string"
                             (getTypeName (data c)))) as [Hs Hf];
           cbn [data c] in Hs, Hf;
           destruct (addIssue c _ None (st ++ [[]])%list) as [r0 st1];
           cbn [fst snd] in Hs, Hf; subst r0;
           destruct (IH (S i) result st1 _ _ _ Hs E) as [IH1 IH2];
           cbn [filter is_string string_items_issues];
           rewrite IH1, IH2, <- app_assoc; split; reflexivity).
    destruct (IH (S i) (result ++ [VString s])%list _ _ _ _ Hold E)
      as [IH1 IH2].
    cbn [filter string_items_issues]. rewrite IH1, IH2, <- app_assoc.
    split; reflexivity.
Qed.

Lemma string_items_all (items : list value) (i : nat) :
  string_items_issues i items = [] ->
  filter (fun x => is_string x) items = items.
Proof.
  revert i. induction items as [| item items IH]; intros i H; [reflexivity |].
  destruct item; cbn [string_items_issues] in H; try discriminate H.
  cbn. f_equal. apply (IH (S i) H).
Qed.

End array_of_strings.

(** X14. An array of strings reports every element that is not a string:
    [safeParse] succeeds with the input when there is none, and otherwise
    fails with one [invalid_type] issue per such element, each at the
    index of its element, in the order of the elements. *)
Theorem array_of_strings_reports_each_element (items : list value) :
  safeParse (v.array v.string) (VArray items)
  = match string_items_issues 0 items with
    | [] => ParseSuccess (VArray items)
    | l => ParseFailure {| error_issues := l |} VUndefined
    end.
Proof.
  unfold safeParse, run, createStrictContext, new_ParseContext.
  unfold bind at 1. unfold bind at 1. unfold alloc, ret. cbn [length app].
  unfold bind at 1. cbn [_parse Schema_ValaiType Schema_parse v.array].
  set (ctx := {| data := VArray items; mode := strict_mode; path := [];
                 issues := 0; parent := None;
                 llmOptions := default_llmOptions |}).
  cbn [data ctx]. unfold array_length_checks.
  unfold bind at 1 2 3. unfold ret at 1 2 3. cbn [fst snd]. unfold bind at 1.
  destruct (array_elements (Schema_parse v.string) ctx 0 items [] [[]])
    as [result st1] eqn:E.
  destruct (string_items_loop ctx items eq_refl eq_refl eq_refl 0 [] [[]] []
              result st1 eq_refl E) as [H1 H2].
    cbn [fst snd issues ctx app] in H1, H2. subst result.
  unfold hasIssues, read, bind, ret, finalize, bind, read, ret, success, ret.
  cbv beta. cbn [issues ctx]. rewrite H2. cbn [default from_option id].
  destruct (string_items_issues 0 items) as [| i l] eqn:E0.
  - cbn. rewrite H2. cbn. rewrite (string_items_all items 0 E0). reflexivity.
  - cbn. rewrite H2. reflexivity.
Qed.

Section number_bounds.

Lemma lower_bound_test (inclusive : bool) (lo q : Q) :
  (if inclusive then JSNum.lt (Finite q) (Finite lo)
   else JSNum.le (Finite q) (Finite lo)) = false
  <-> (if inclusive then lo <= q else lo < q)%Q.
Proof.
  destruct inclusive; cbn [JSNum.lt JSNum.le].
  - rewrite negb_false_iff. apply Qle_bool_iff.
  - rewrite <- not_true_iff_false, Qle_bool_iff. split.
    + apply Qnot_le_lt.
    + apply Qlt_not_le.
Qed.

Lemma upper_bound_test (inclusive : bool) (hi q : Q) :
  (if inclusive then JSNum.gt (Finite q) (Finite hi)
   else JSNum.ge (Finite q) (Finite hi)) = false
  <-> (if inclusive then q <= hi else q < hi)%Q.
Proof. apply lower_bound_test. Qed.

End number_bounds.

(** X15. The bounds of a number schema are those of the rational order:
    a schema with a lower and an upper bound, each inclusive ([min],
    [max]) or exclusive ([gt], [lt]), accepts a finite number exactly
    when it lies between the bounds, and then returns it unchanged. *)
Theorem number_bounds_are_exact (lo hi q : Q) (inclusive1 inclusive2 : bool)
        (m1 m2 : option string) (meta : Meta) :
  safeParse
    (ValaiNumber (Some [NMin (Finite lo) inclusive1 m1;
                        NMax (Finite hi) inclusive2 m2]) meta)
    (VNumber (Finite q))
  = ParseSuccess (VNumber (Finite q))
  <-> (if inclusive1 then lo <= q else lo < q)%Q /\
      (if inclusive2 then q <= hi else q < hi)%Q.
Proof.
  rewrite <- lower_bound_test, <- upper_bound_test.
  unfold safeParse, run, createStrictContext, new_ParseContext.
  cbn [_parse Schema_ValaiType Schema_parse]. unfold ValaiNumber_parse.
  unfold bind at 1 2. unfold alloc, ret at 1.
  cbn [fst snd length app data JSNum.isNaN or_nil number_checks number_check].
  destruct (if inclusive1 then _ else _);
    destruct (if inclusive2 then JSNum.gt _ _ else _); cbn;
    split; try (intros [? ?]; discriminate); try discriminate;
    try (split; reflexivity); reflexivity.
Qed.

Lemma number_bounds_are_exact_witness :
  safeParse
    (ValaiNumber (Some [NMin (Finite (1 # 2)) true None;
                        NMax (Finite (3 # 1)) false None]) no_meta)
    (VNumber (Finite (1 # 2)))
  = ParseSuccess (VNumber (Finite (1 # 2))).
Proof.
  apply (proj2 (number_bounds_are_exact (1 # 2) (3 # 1) (1 # 2) true false
                  None None no_meta)).
  split; [apply Qle_refl | reflexivity].
Defined.

Section output_types.

Lemma yields_ret {A : Type} (Q : A -> Prop) (a : A) : Q a -> yields Q (ret a).
Proof. intros H st. exact H. Qed.

Lemma yields_bind {A B : Type} (Qa : A -> Prop) (Q : B -> Prop) (m : M A)
      (k : A -> M B) :
  yields Qa m -> (forall a, Qa a -> yields Q (k a)) -> yields Q (bind m k).
Proof.
  intros Hm Hk st. unfold bind. specialize (Hm st).
  destruct (m st) as [a st1]. apply Hk, Hm.
Qed.

Lemma yields_any {A : Type} (m : M A) : yields (fun _ => True) m.
Proof. intros st. exact I. Qed.

Lemma yields_then {A B : Type} (Q : B -> Prop) (m : M A) (k : A -> M B) :
  (forall a, yields Q (k a)) -> yields Q (bind m k).
Proof.
  intros Hk. apply (yields_bind (fun _ => True)); [apply yields_any |].
  intros a _. apply Hk.
Qed.

Lemma yields_addIssue (P : value -> Prop) (ctx : ParseContext)
      (d : IssueDetail) (m : option string) :
  yields (valid_in P) (addIssue ctx d m).
Proof.
  intros st. rewrite (proj2 (addIssue_snd ctx d m st)). exact I.
Qed.

Lemma yields_guard {A : Type} (P : value -> Prop) (Qa : A -> Prop) (m : M A)
      (ctx : ParseContext) (f : A -> value) :
  yields Qa m -> (forall a, Qa a -> P (f a)) ->
  yields (valid_in P)
    (let* x := m in
     let* has := hasIssues ctx in
     if has then ret invalid else success ctx (f x)).
Proof.
  intros Hm Hf. apply (yields_bind Qa); [exact Hm |]. intros a Ha.
  apply yields_then. intros [].
  - apply yields_ret. exact I.
  - apply yields_ret. apply Hf, Ha.
Qed.

Lemma yields_array_elements (P : value -> Prop)
      (parse_element : ParseContext -> M ParseReturnType)
      (ctx : ParseContext) :
  (forall c, yields (valid_in P) (parse_element c)) ->
    forall items i result,
    Forall P result ->
    yields (unless_thrown (Forall P))
           (array_elements parse_element ctx i items result).
Proof.
  intros Hp. induction items as [| item items IH]; intros i result Hr; simpl;
    [apply yields_ret, Hr |].
  apply yields_then. intros c.
  apply (yields_bind (valid_in P)); [apply Hp |].
  intros [x | |] Hx; [apply IH | apply IH; exact Hr | apply yields_ret; exact I].
  apply Forall_app. split; [exact Hr | repeat constructor; exact Hx].
Qed.

Lemma any_of_weaken {A : Type} (P Q : A -> Prop) (l : list A) :
  Forall (fun a => P a -> Q a) l -> any_of P l -> any_of Q l.
Proof.
  induction 1 as [| a l Ha Hl IH]; [exact (fun H => H) |].
  intros [H | H]; [left; apply Ha, H | right; apply IH, H].
Qed.

Lemma any_of_In {A : Type} (P : A -> Prop) (l : list A) (a : A) :
  In a l -> P a -> any_of P l.
Proof.
  induction l as [| b l IH]; [intros [] |].
  intros [-> | H] Ha; [left; exact Ha | right; apply IH; assumption].
Qed.

Lemma Forall_overwrite {A : Type} (Q : string * A -> Prop) (k : string)
      (x : A) (props : list (string * A)) :
  Forall Q props -> Q (k, x) -> Forall Q (JSValue.overwrite k x props).
Proof.
  intros H Hx. induction H as [| [k' x'] props Hh Ht IH]; [constructor |].
  cbn [JSValue.overwrite]. destruct (String.eqb_spec k k') as [<- | _];
    constructor; assumption.
Qed.

Lemma Forall_insert_new {A : Type} (Q : string * A -> Prop) (k : string)
      (x : A) (props : list (string * A)) :
  Forall Q props -> Q (k, x) -> Forall Q (JSValue.insert_new k x props).
Proof.
  intros H Hx. induction H as [| [k' x'] props Hh Ht IH];
    [repeat constructor; exact Hx |].
  cbn [JSValue.insert_new].
  destruct (JSValue.array_index k), (JSValue.array_index k');
    try destruct (_ <? _)%Z; repeat (constructor; try assumption).
Qed.

Lemma Forall_set {A : Type} (Q : string * A -> Prop) (k : string) (x : A)
      (props : list (string * A)) :
  Forall Q props -> Q (k, x) -> Forall Q (JSValue.set props k x).
Proof.
  intros H Hx. unfold JSValue.set. destruct (JSValue.has_own props k);
    [apply Forall_overwrite | apply Forall_insert_new]; assumption.
Qed.

Lemma Forall_assign {A : Type} (Q : string * A -> Prop) (k : string) (x : A)
      (props : list (string * A)) :
  Forall Q props -> Q (k, x) -> Forall Q (JSValue.assign props k x).
Proof.
  intros H Hx. unfold JSValue.assign. destruct (JSValue.has_own props k);
    [apply Forall_overwrite; assumption |].
  destruct (String.eqb k "__proto__");
    [exact H | apply Forall_insert_new; assumption].
Qed.

Lemma yields_object_properties (Q : string * value -> Prop)
      (parse_with : Schema -> ParseContext -> M ParseReturnType)
      (ctx : ParseContext) (input : value)
      (entries : list (string * Schema)) :
  Forall (fun ks => forall c,
              yields (valid_in (fun x => Q (fst ks, x)))
                     (parse_with (snd ks) c)) entries ->
  forall result,
    Forall Q result ->
    yields (unless_thrown (Forall Q))
           (object_properties parse_with ctx input entries result).
Proof.
  induction 1 as [| [key schema] entries Hhead Htail IH]; intros result Hr;
    simpl; [apply yields_ret, Hr |].
  apply yields_then. intros c.
  apply (yields_bind (valid_in (fun x => Q (key, x)))); [apply Hhead |].
  intros [x | |] Hx; [destruct (_ || _) | |];
    first [apply yields_ret; exact I | apply IH; try exact Hr].
  apply Forall_assign; assumption.
Qed.

Lemma yields_object_unknown_keys (Q : string * value -> Prop)
      (ctx : ParseContext) (u : option UnknownKeys) (shapeKeys : list string)
      (input : value) (result : list (string * value)) :
  (forall k, or_strip u = uk_passthrough -> ~ In k shapeKeys ->
             Q (k, JSValue.lookup input k)) ->
  Forall Q result ->
  yields (Forall Q) (object_unknown_keys ctx u shapeKeys input result).
Proof.
  intros HQ Hr. unfold object_unknown_keys.
  destruct (0 <? _); [| apply yields_ret, Hr].
  destruct (or_strip u) eqn:E.
  - apply yields_then. intros _. apply yields_ret, Hr.
  - apply yields_ret, Hr.
  - apply yields_ret.
        assert (Hextra : Forall (fun k => ~ In k shapeKeys)
                       (filter (fun k => negb (includes_key shapeKeys k))
                          (JSValue.own_keys input))).
    { apply Forall_forall. intros k Hk.
      apply list_elem_of_filter in Hk as [Hk _]. intros Hin.
      assert (Ht : includes_key shapeKeys k = true)
        by (apply existsb_exists; exists k; split;
            [exact Hin | apply String.eqb_refl]).
      rewrite Ht in Hk. exact Hk. }
    revert result Hr. induction Hextra as [| k ks Hk Hks IH];
      intros result Hr; [exact Hr |].
        cbn [fold_left]. apply IH, Forall_assign; [exact Hr |].
    apply HQ; [reflexivity | exact Hk].
Qed.

Lemma yields_union_options (P : value -> Prop)
      (parse_with : Schema -> ParseContext -> M ParseReturnType)
      (ctx : ParseContext) (options : list Schema) :
  Forall (fun o => forall c, yields (valid_in P) (parse_with o c)) options ->
  forall errs,
    yields (valid_in P) (union_options parse_with ctx options errs).
Proof.
  induction 1 as [| option opts Hhead Htail IH]; intros errs; simpl.
  - apply yields_addIssue.
  - apply yields_then. intros testCtx.
    apply (yields_bind (valid_in P)); [apply Hhead |]. intros result Hresult.
    apply yields_then. intros has.
        destruct result as [x | |];
      [destruct (negb has); [apply yields_ret; exact Hresult |] | |];
      first [apply yields_ret; exact I
            | apply yields_then; intros; apply IH].
Qed.

Lemma yields_ValaiEnum_parse (values : list string) (meta : Meta)
      (ctx : ParseContext) :
  yields (valid_in (has_type (ValaiEnum values meta)))
         (ValaiEnum_parse values ctx).
Proof.
  unfold ValaiEnum_parse.
  destruct (match data ctx with VString _ => _ | _ => _ end) as [[] |];
    try apply yields_addIssue; try (apply yields_ret; exact I).
  assert (Hs : yields (valid_in (has_type (ValaiEnum values meta)))
                 (if negb (includes_key values s)
                  then addIssue ctx (invalid_enum_value values s) None
                  else success ctx (VString s))).
  { destruct (includes_key values s) eqn:E; cbn [negb];
      [| apply yields_addIssue].
    apply yields_ret. exists s. split; [reflexivity |].
    apply existsb_exists in E as (t & Ht & Heq).
    apply String.eqb_eq in Heq. subst t. exact Ht. }
  destruct (isLLMMode ctx); [| exact Hs].
  destruct (find _ values) as [found |] eqn:E; [| exact Hs].
  destruct (is_empty found); [exact Hs |].
  apply yields_ret. exists found. split; [reflexivity |].
  apply find_some in E as [Hin _]. exact Hin.
Qed.

Lemma yields_intersection_merge (l r : Schema) (meta : Meta)
      (ctx : ParseContext) (leftResult rightResult : ParseReturnType) :
  valid_in (has_type l) leftResult -> valid_in (has_type r) rightResult ->
  yields (valid_in (has_type (ValaiIntersection l r meta)))
         (intersection_merge ctx leftResult rightResult).
Proof.
  intros Hl Hr. unfold intersection_merge.
  destruct leftResult as [x | |], rightResult as [y | |];
    try (apply yields_ret; exact I).
  cbn [valid_in] in Hl, Hr.
  destruct (JSValue.is_object x && JSValue.is_object y) eqn:E.
  - apply yields_ret. exists x, y. split; [exact Hl |]. split; [exact Hr |].
    left. apply andb_true_iff in E as [E1 E2]. repeat split; assumption.
  - destruct (same_primitive x y) eqn:E'; [| apply yields_addIssue].
    apply yields_ret. exists x, y. split; [exact Hl |]. split; [exact Hr |].
    right. split; [exact E' | reflexivity].
Qed.

Lemma yields_Schema_parse (s : Schema) :
  forall ctx, yields (valid_in (has_type s)) (Schema_parse s ctx).
Proof.
  induction s as [checks meta | checks meta | element a b c meta IHe
                 | shape u meta IHshape | options meta IHoptions
                 | inner meta IH | inner meta IH | inner d meta IH
                 | values meta | l r meta IHl IHr]
    using Schema_nested_ind; intros ctx; cbn [Schema_parse].
  - unfold ValaiString_parse.
    destruct (if shouldCoerce ctx then _ else _) as [[] |];
      try apply yields_addIssue; try (apply yields_ret; exact I).
    apply (yields_guard _ (fun _ => True) _ ctx VString);
      [apply yields_any |].
    intros t _. exists t. reflexivity.
  - unfold ValaiNumber_parse.
    destruct (match data ctx with VString _ => _ | _ => _ end);
      try apply yields_addIssue.
    destruct (JSNum.isNaN n) eqn:E; [apply yields_addIssue |].
    apply (yields_guard _ (fun _ => True) _ ctx (fun _ => VNumber n));
      [apply yields_any |].
    intros _ _. exists n. split; [reflexivity | exact E].
    - destruct (data ctx); try apply yields_addIssue.
    apply yields_then. intros _.
    apply (yields_bind (unless_thrown (Forall (has_type element)))).
    + apply yields_array_elements; [exact IHe | constructor].
    + intros [xs |] H; [| apply yields_ret; exact I].
      apply (yields_guard _ (Forall (has_type element)) (ret xs) ctx VArray).
      * apply yields_ret. exact H.
      * intros ys Hy. exists ys. split; [reflexivity | exact Hy].
  - destruct (JSValue.is_plain_object (data ctx));
      [| apply yields_addIssue].
    set (Q := fun kv : string * value =>
                any_of (fun '(k, s') => fst kv = k /\ has_type s' (snd kv))
                       shape \/
                (or_strip u = uk_passthrough /\
                 ~ In (fst kv) (JSValue.keys shape))).
        apply (yields_bind (unless_thrown (Forall Q))).
    + apply yields_object_properties; [| constructor].
      apply Forall_forall. intros [k s'] Hin c st.
      rewrite Forall_forall in IHshape.
      specialize (IHshape (k, s') Hin c st). cbn [fst snd] in IHshape |- *.
      destruct (fst (Schema_parse s' c st)) as [x | |]; [| exact I | exact I].
      left. apply (any_of_In _ shape (k, s')).
      * apply list_elem_of_In. exact Hin.
      * split; [reflexivity | exact IHshape].
    + intros [result |] Hresult; [| apply yields_ret; exact I].
      apply (yields_guard _ (Forall Q) _ ctx VObject).
      * apply yields_object_unknown_keys; [| exact Hresult].
        intros k Hu Hk. right. split; assumption.
      * intros ps H. exists ps. split; [reflexivity | exact H].
  - apply yields_union_options.
    rewrite Forall_forall in IHoptions. apply Forall_forall.
        intros o Hin c st. specialize (IHoptions o Hin c st).
    destruct (fst (Schema_parse o c st)) as [x | |]; [| exact I | exact I].
    apply (any_of_In _ options o); [apply list_elem_of_In; exact Hin |].
    exact IHoptions.
  - destruct (data ctx);
      first [apply yields_ret; left; reflexivity
            | intros st; specialize (IH ctx st); cbn [Schema_parse];
              destruct (fst (Schema_parse inner ctx st)); [right | |];
              exact IH].
  - destruct (data ctx);
      first [apply yields_ret; left; reflexivity
            | intros st; specialize (IH ctx st); cbn [Schema_parse];
              destruct (fst (Schema_parse inner ctx st)); [right | |];
              exact IH].
    - destruct (data ctx);
      first [apply yields_ret; left; reflexivity
            | intros st; specialize (IH ctx st); cbn [Schema_parse];
              destruct (fst (Schema_parse inner ctx st)); [right | |];
              exact IH].
  - apply yields_ValaiEnum_parse.
  - apply (yields_bind (valid_in (has_type l))); [apply IHl |].
    intros leftResult Hl.
    assert (H : yields (valid_in (has_type (ValaiIntersection l r meta)))
                  (let* siblingCtx := sibling ctx (data ctx) in
                   let* rightResult := Schema_parse r siblingCtx in
                   intersection_merge ctx leftResult rightResult)).
    { apply yields_then. intros c.
      apply (yields_bind (valid_in (has_type r))); [apply IHr |].
      intros rightResult Hr. apply yields_intersection_merge; assumption. }
    destruct leftResult; first [exact H | apply yields_ret; exact I].
Qed.

End output_types.

(** X16. Validated data has the type of its schema: whatever the schema,
    the mode and the input, a value that [safeParse] or [parseLLM]
    returns as a success is a value of the output type of the schema; in
    particular a number schema never returns [NaN]. *)
Theorem validated_output_has_schema_type (s : Schema) (d x : value)
        (options : option LLMParseOptions) :
  (safeParse s d = ParseSuccess x -> has_type s x) /\
  (parseLLM s d options = ParseSuccess x -> has_type s x).
Proof.
  assert (H : forall ctx st r st',
             Schema_parse s ctx st = (r, st') ->
             fst (finalize ctx r st') = ParseSuccess x -> has_type s x).
  { intros ctx st r st' E. pose proof (yields_Schema_parse s ctx st) as Hy.
    rewrite E in Hy. cbn [fst] in Hy.
        unfold finalize, bind, read, ret. cbv beta.
    destruct r as [y | |]; [| discriminate | discriminate].
    destruct (_ =? 0); cbn [fst]; [| discriminate].
    intros [= <-]. exact Hy. }
  split.
  - unfold safeParse, run, createStrictContext, new_ParseContext.
    unfold bind at 1. unfold bind at 1. unfold alloc, ret. cbn [length app].
    unfold bind at 1. cbn [_parse Schema_ValaiType].
    destruct (Schema_parse s _ [[]]) as [r st'] eqn:E. apply (H _ _ _ _ E).
  - unfold parseLLM, run, createLLMContext, new_ParseContext.
    unfold bind at 1. unfold bind at 1. unfold alloc, ret. cbn [length app].
    unfold bind at 1. cbn [_parse Schema_ValaiType].
    destruct (Schema_parse s _ [[]]) as [r st'] eqn:E. apply (H _ _ _ _ E).
Qed.

Lemma validated_output_has_schema_type_witness :
  has_type (v.object [("a", v.array v.number)])
           (VObject [("a", VArray [VNumber (Finite (1 # 2))])]).
Proof.
  apply (proj1 (validated_output_has_schema_type
                  (v.object [("a", v.array v.number)])
                  (VObject [("a", VArray [VNumber (Finite (1 # 2))])])
                  (VObject [("a", VArray [VNumber (Finite (1 # 2))])])
                  None)
               eq_refl).
Defined.

Section more_checks.

Lemma string_checks_app (ctx : ParseContext) (cs1 cs2 : list StringCheck)
      (s : string) (st : Store) :
  string_checks ctx (cs1 ++ cs2) s st
  = (let* r := string_checks ctx cs1 s in string_checks ctx cs2 r) st.
Proof.
  revert s st. induction cs1 as [| c cs1 IH]; intros s st; [reflexivity |].
  cbn [app string_checks]. unfold bind.
  destruct (string_check ctx c s st) as [r st1].
  rewrite IH. reflexivity.
Qed.

Lemma number_checks_app (ctx : ParseContext) (cs1 cs2 : list NumberCheck)
      (n : JSNumber) (st : Store) :
  number_checks ctx (cs1 ++ cs2) n st
  = (let* _ := number_checks ctx cs1 n in number_checks ctx cs2 n) st.
Proof.
  revert st. induction cs1 as [| c cs1 IH]; intros st; [reflexivity |].
  cbn [app number_checks]. unfold bind.
  destruct (number_check ctx c n st) as [r st1].
  rewrite IH. reflexivity.
Qed.

Lemma safeParse_string (checks : option (list StringCheck)) (meta : Meta)
      (d : value) :
  result_success (safeParse (ValaiString checks meta) d) = true <->
  exists s, d = VString s /\
            snd (string_checks (strict_root d) (or_nil checks) s [[]]) !! 0 = Some [].
Proof.
  unfold safeParse, run, createStrictContext, new_ParseContext.
  unfold bind at 1. unfold bind at 1. unfold alloc, ret. cbn [length app].
  unfold bind at 1. cbn [_parse Schema_ValaiType Schema_parse].
  fold (strict_root d). unfold ValaiString_parse.
  replace (shouldCoerce (strict_root d)) with false by reflexivity.
  cbn [data strict_root].
  destruct d as [| | b | n | s | xs | props | bi];
    try (split; [| intros (s & E & _); discriminate E];
         unfold addInvalidTypeIssue;
         rewrite (surjective_pairing (addIssue _ _ _ _)),
           (proj2 (addIssue_snd _ _ _ _));
         unfold finalize, bind, read, ret; cbn; discriminate).
  unfold bind at 1.
  pose proof (mono_string_checks (strict_root (VString s)) (or_nil checks) s [[]]
                0 [] eq_refl) as [l Hl].
  destruct (string_checks (strict_root (VString s)) (or_nil checks) s [[]])
    as [r st1] eqn:Ep.
  cbn [snd] in Hl |- *. cbn [app] in Hl.
  unfold hasIssues, read, bind, ret, finalize, bind, read, ret, success, ret.
  cbv beta. cbn [issues strict_root]. rewrite Hl. cbn [default from_option id].
  destruct l as [| i l]; cbn.
  - rewrite ?Hl. cbn. split; [| reflexivity].
    intros _. exists s. rewrite Ep. split; [reflexivity | exact Hl].
  - rewrite ?Hl. cbn. split; [discriminate |].
    intros (s' & [= <-] & E). rewrite Ep in E. cbn [snd] in E. congruence.
Qed.

Lemma safeParse_number (checks : option (list NumberCheck)) (meta : Meta)
      (d : value) :
  result_success (safeParse (ValaiNumber checks meta) d) = true <->
  exists n, d = VNumber n /\ JSNum.isNaN n = false /\
            snd (number_checks (strict_root d) (or_nil checks) n [[]]) !! 0 = Some [].
Proof.
  unfold safeParse, run, createStrictContext, new_ParseContext.
  unfold bind at 1. unfold bind at 1. unfold alloc, ret. cbn [length app].
  unfold bind at 1. cbn [_parse Schema_ValaiType Schema_parse].
  fold (strict_root d). unfold ValaiNumber_parse.
  replace (shouldCoerce (strict_root d)) with false by reflexivity.
  cbn [data strict_root].
  destruct d as [| | b | n | s | xs | props | bi];
    try (split; [| intros (s' & E & _); discriminate E];
         unfold addInvalidTypeIssue;
         rewrite (surjective_pairing (addIssue _ _ _ _)),
           (proj2 (addIssue_snd _ _ _ _));
         unfold finalize, bind, read, ret; cbn; discriminate).
  destruct (JSNum.isNaN n) eqn:En.
  { split; [| intros (n' & [= <-] & E & _); congruence].
    unfold addInvalidTypeIssue.
    rewrite (surjective_pairing (addIssue _ _ _ _)),
      (proj2 (addIssue_snd _ _ _ _)).
    unfold finalize, bind, read, ret; cbn; discriminate. }
  unfold bind at 1.
  pose proof (mono_number_checks (strict_root (VNumber n)) (or_nil checks) n [[]]
                0 [] eq_refl) as [l Hl].
  destruct (number_checks (strict_root (VNumber n)) (or_nil checks) n [[]])
    as [r st1] eqn:Ep.
  cbn [snd] in Hl |- *. cbn [app] in Hl.
  unfold hasIssues, read, bind, ret, finalize, bind, read, ret, success, ret.
  cbv beta. cbn [issues strict_root]. rewrite Hl. cbn [default from_option id].
  destruct l as [| i l]; cbn.
  - rewrite ?Hl. cbn. split; [| reflexivity].
    intros _. exists n. rewrite Ep.
    split; [reflexivity |]. split; [exact En | exact Hl].
  - rewrite ?Hl. cbn. split; [discriminate |].
    intros (n' & [= <-] & _ & E). rewrite Ep in E. cbn [snd] in E.
    congruence.
Qed.

Lemma grows_nil (st st' : Store) (r : nat) :
  grows st st' -> is_Some (st !! r) -> st' !! r = Some [] -> st !! r = Some [].
Proof.
  intros Hg [l Hl] H. destruct (Hg r l Hl) as [l' Hl'].
  rewrite Hl' in H. injection H as H.
  apply app_eq_nil in H as [-> _]. exact Hl.
Qed.

End more_checks.

(** X17. Adding a check never makes a schema accept more: if the schema
    returned by [_addCheck] on a string or number schema accepts a value,
    so does the receiver. *)
Theorem addCheck_never_accepts_more (m : Method) (this that : Schema)
        (d : value) :
  (exists c, m = string_addCheck c) \/ (exists c, m = number_addCheck c) ->
  returned m this = Some that ->
  result_success (safeParse that d) = true ->
  result_success (safeParse this d) = true.
Proof.
  intros [[c ->] | [c ->]] Hret.
  - destruct this as [checks meta | | | | | | | | |]; try discriminate Hret.
    injection Hret as <-.
    rewrite !safeParse_string. cbn [or_nil].
    intros (s & -> & H). exists s. split; [reflexivity |].
    rewrite string_checks_app in H. unfold bind in H.
    pose proof (mono_string_checks
                  {| data := VString s; mode := strict_mode; path := [];
                     issues := 0; parent := None;
                     llmOptions := default_llmOptions |}
                  (or_nil checks) s [[]] 0 [] eq_refl) as [l Hl].
    destruct (string_checks _ (or_nil checks) s [[]]) as [r st1].
    cbn [snd] in Hl |- *.
    eapply (grows_nil st1 _ 0); [| eexists; exact Hl | exact H].
    apply mono_string_checks.
  - destruct this as [| checks meta | | | | | | | |]; try discriminate Hret.
    injection Hret as <-.
    rewrite !safeParse_number. cbn [or_nil].
    intros (n & -> & Hn & H). exists n. split; [reflexivity |].
    split; [exact Hn |].
    rewrite number_checks_app in H. unfold bind in H.
    pose proof (mono_number_checks
                  {| data := VNumber n; mode := strict_mode; path := [];
                     issues := 0; parent := None;
                     llmOptions := default_llmOptions |}
                  (or_nil checks) n [[]] 0 [] eq_refl) as [l Hl].
    destruct (number_checks _ (or_nil checks) n [[]]) as [r st1].
    cbn [snd] in Hl |- *.
    eapply (grows_nil st1 _ 0); [| eexists; exact Hl | exact H].
    apply mono_number_checks.
Qed.

Lemma addCheck_never_accepts_more_witness :
  result_success (safeParse v.string (VString "a@b.c")) = true.
Proof.
  apply (addCheck_never_accepts_more string_email v.string
           (ValaiString (Some [SEmail None]) no_meta) (VString "a@b.c")
           (or_introl (ex_intro _ (SEmail None) eq_refl)) eq_refl eq_refl).
Defined.

Section shape_lemmas.

Context {A : Type}.
Implicit Types (props : list (string * A)) (k : string) (x : A).

Lemma has_get props k :
  JSValue.has_own props k = true <-> is_Some (Shape.get props k).
Proof.
  unfold Shape.get.
  induction props as [| [k' x'] props IH]; cbn [JSValue.has_own JSValue.own].
  - split; [discriminate | intros [? H]; discriminate H].
  - destruct (String.eqb k k'); [| exact IH].
    split; [intros _; eexists; reflexivity | reflexivity].
Qed.

Lemma get_none props k :
  JSValue.has_own props k = false -> Shape.get props k = None.
Proof.
  intros H. destruct (Shape.get props k) eqn:E; [| reflexivity].
  assert (Ht : JSValue.has_own props k = true)
    by (apply has_get; eexists; exact E).
  congruence.
Qed.

Lemma has_own_none props k :
  Shape.get props k = None -> JSValue.has_own props k = false.
Proof.
  intros H. destruct (JSValue.has_own props k) eqn:E; [| reflexivity].
  apply has_get in E as [x E]. congruence.
Qed.

Lemma get_overwrite props k x k' :
  JSValue.has_own props k = true ->
  Shape.get (JSValue.overwrite k x props) k'
  = if String.eqb k' k then Some x else Shape.get props k'.
Proof.
  unfold Shape.get.
  induction props as [| [k0 x0] props IH]; cbn [JSValue.has_own];
    [discriminate |].
  cbn [JSValue.overwrite].
  destruct (String.eqb_spec k k0) as [<- | Hne]; cbn [JSValue.own orb].
  - intros _. destruct (String.eqb k' k); reflexivity.
  - intros H. rewrite (IH H).
    destruct (String.eqb_spec k' k0) as [-> | _]; [| reflexivity].
    destruct (String.eqb_spec k0 k) as [-> | _]; [contradiction | reflexivity].
Qed.

Lemma get_insert_new props k x k' :
  JSValue.has_own props k = false ->
  Shape.get (JSValue.insert_new k x props) k'
  = if String.eqb k' k then Some x else Shape.get props k'.
Proof.
  unfold Shape.get.
  induction props as [| [k0 x0] props IH]; cbn [JSValue.has_own].
  - intros _. reflexivity.
  - intros H. apply orb_false_elim in H as [Hk H].
    cbn [JSValue.insert_new].
    assert (Hstep :
              JSValue.own ((k0, x0) :: JSValue.insert_new k x props) k'
              = if String.eqb k' k then Some x
                else JSValue.own ((k0, x0) :: props) k').
    { cbn [JSValue.own]. rewrite (IH H).
      destruct (String.eqb_spec k' k0) as [-> | _]; [| reflexivity].
      rewrite String.eqb_sym in Hk. rewrite Hk. reflexivity. }
    destruct (JSValue.array_index k), (JSValue.array_index k0);
      try destruct (_ <? _)%Z; first [exact Hstep | reflexivity].
Qed.

Lemma get_set props k x k' :
  Shape.get (Shape.set props k x) k'
  = if String.eqb k' k then Some x else Shape.get props k'.
Proof.
  unfold Shape.set, JSValue.set. destruct (JSValue.has_own props k) eqn:E;
    [apply get_overwrite | apply get_insert_new]; exact E.
Qed.

Lemma get_assign props k x props' k' :
  Shape.assign props k x = Some props' ->
  Shape.get props' k'
  = if String.eqb k' k then Some x else Shape.get props k'.
Proof.
  unfold Shape.assign. destruct (JSValue.has_own props k) eqn:E.
  - intros [= <-]. apply get_overwrite, E.
  - destruct (String.eqb k "__proto__"); [discriminate |].
    intros [= <-]. apply get_insert_new, E.
Qed.

Lemma assign_defined props k x :
  String.eqb k "__proto__" = false -> is_Some (Shape.assign props k x).
Proof.
  intros H. unfold Shape.assign. rewrite H.
  destruct (JSValue.has_own props k); eexists; reflexivity.
Qed.

Lemma assign_proto props x :
  JSValue.has_own props "__proto__" = false ->
  Shape.assign props "__proto__" x = None.
Proof. intros H. unfold Shape.assign. rewrite H. reflexivity. Qed.

Lemma get_delete props k k' :
  Shape.get (Shape.delete props k) k'
  = if String.eqb k' k then None else Shape.get props k'.
Proof.
  unfold Shape.delete, Shape.get.
  induction props as [| [k0 x0] props IH]; cbn [List.filter JSValue.own fst].
  - destruct (String.eqb k' k); reflexivity.
  - destruct (String.eqb_spec k k0) as [<- | Hne]; cbn [negb JSValue.own].
    + rewrite IH. destruct (String.eqb k' k); reflexivity.
    + rewrite IH. destruct (String.eqb_spec k' k0) as [-> | _];
        [| reflexivity].
      destruct (String.eqb_spec k0 k) as [-> | _];
        [contradiction | reflexivity].
Qed.

Lemma has_keys props k :
  JSValue.has_own props k = true <-> k ∈ JSValue.keys props.
Proof.
  induction props as [| [k1 x1] props IH];
    cbn [JSValue.has_own JSValue.keys map fst].
  - split; [discriminate | intros H; inversion H].
  - rewrite elem_of_cons, orb_true_iff, IH.
    destruct (String.eqb_spec k k1) as [-> | Hne]; [tauto |].
    split; intros [H | H]; try discriminate; try contradiction; tauto.
Qed.

Lemma keys_overwrite props k x :
  JSValue.keys (JSValue.overwrite k x props) = JSValue.keys props.
Proof.
  induction props as [| [k1 x1] props IH]; [reflexivity |].
  cbn [JSValue.overwrite]. destruct (String.eqb k k1); [reflexivity |].
  unfold JSValue.keys in *. cbn [map fst]. rewrite IH. reflexivity.
Qed.

Lemma insert_new_Permutation props k x :
  Permutation (JSValue.insert_new k x props) ((k, x) :: props).
Proof.
  induction props as [| [k1 x1] props IH]; [reflexivity |].
  cbn [JSValue.insert_new].
  assert (Hstep : Permutation ((k1, x1) :: JSValue.insert_new k x props)
                              ((k, x) :: (k1, x1) :: props)).
  { rewrite IH. apply perm_swap. }
  destruct (JSValue.array_index k), (JSValue.array_index k1);
    try destruct (_ <? _)%Z; first [exact Hstep | reflexivity].
Qed.

Lemma NoDup_keys_set props k x :
  NoDup (JSValue.keys props) -> NoDup (JSValue.keys (Shape.set props k x)).
Proof.
  intros H. unfold Shape.set, JSValue.set.
  destruct (JSValue.has_own props k) eqn:E.
  - rewrite keys_overwrite. exact H.
  - unfold JSValue.keys. rewrite (insert_new_Permutation props k x).
    cbn [map fst]. apply NoDup_cons. split; [| exact H].
    intros Hin. apply has_keys in Hin. congruence.
Qed.

Lemma NoDup_keys_assign props k x props' :
  Shape.assign props k x = Some props' ->
  NoDup (JSValue.keys props) -> NoDup (JSValue.keys props').
Proof.
  unfold Shape.assign. destruct (JSValue.has_own props k) eqn:E.
  - intros [= <-] H. rewrite keys_overwrite. exact H.
  - destruct (String.eqb k "__proto__"); [discriminate |].
    intros [= <-] H.
    unfold JSValue.keys. rewrite (insert_new_Permutation props k x).
    cbn [map fst]. apply NoDup_cons. split; [| exact H].
    intros Hin. apply has_keys in Hin. congruence.
Qed.

End shape_lemmas.

Section fold_lemmas.

Context {A B : Type}.

(** Folding [set] over the entries of an object without duplicate keys. *)
Lemma get_fold_set (f : B -> A) (source : list (string * B))
      (props : list (string * A)) (k : string) :
  NoDup (JSValue.keys source) ->
  Shape.get (fold_left (fun r kv => Shape.set r (fst kv) (f (snd kv)))
               source props) k
  = match Shape.get source k with
    | Some y => Some (f y)
    | None => Shape.get props k
    end.
Proof.
  revert props. induction source as [| [k0 y0] source IH]; intros props Hnd;
    [reflexivity |].
  cbn [JSValue.keys map fst] in Hnd. apply NoDup_cons in Hnd as [Hnotin Hnd].
  cbn [fold_left fst snd]. rewrite (IH _ Hnd), get_set.
  change (Shape.get ((k0, y0) :: source) k)
    with (if String.eqb k k0 then Some y0 else Shape.get source k).
  destruct (String.eqb_spec k k0) as [-> | _]; [| reflexivity].
  assert (Hn : Shape.get source k0 = None).
  { apply get_none. destruct (JSValue.has_own source k0) eqn:E;
      [| reflexivity].
    exfalso. apply Hnotin, has_keys, E. }
  rewrite Hn. reflexivity.
Qed.

Lemma get_fold_delete (props : list (string * A)) (keys : list string)
      (k : string) :
  Shape.get (fold_left Shape.delete keys props) k
  = if among keys k then None else Shape.get props k.
Proof.
  revert props. induction keys as [| k0 keys IH]; intros props; [reflexivity |].
  cbn [fold_left among existsb]. rewrite IH, get_delete.
  fold (among keys k). destruct (among keys k), (String.eqb k k0); reflexivity.
Qed.

End fold_lemmas.

Lemma get_spread {A : Type} (target source : list (string * A)) (k : string) :
  NoDup (JSValue.keys source) ->
  Shape.get (Shape.spread target source) k
  = match Shape.get source k with
    | Some y => Some y
    | None => Shape.get target k
    end.
Proof. apply (get_fold_set (fun y => y)). Qed.

Section pick_lemmas.

Lemma fold_pick_step_None (shape : list (string * Schema))
      (keys : list string) :
  fold_left (pick_step shape) keys None = None.
Proof. induction keys as [| k keys IH]; [reflexivity | exact IH]. Qed.

Lemma pick_fold (shape : list (string * Schema)) (keys : list string) :
  forallb (pickable shape) keys = true ->
  forall acc,
  exists newShape,
    fold_left (pick_step shape) keys (Some acc) = Some newShape /\
    forall k,
      Shape.get newShape k
      = if among keys k
        then match Shape.get shape k with
             | Some s => Some s
             | None => Shape.get acc k
             end
        else Shape.get acc k.
Proof.
  induction keys as [| k0 keys IH]; intros Hkeys acc.
  - exists acc. split; reflexivity.
  - cbn [forallb] in Hkeys. apply andb_true_iff in Hkeys as [Hk0 Hkeys].
    cbn [fold_left]. unfold pick_step at 2. unfold pickable in Hk0.
    destruct (Shape.get shape k0) as [s0 |] eqn:E0.
    + apply negb_true_iff in Hk0.
      destruct (assign_defined acc k0 s0 Hk0) as [acc' Hacc'].
      rewrite Hacc'. destruct (IH Hkeys acc') as (newShape & Hfold & Hget).
      exists newShape. split; [exact Hfold |]. intros k.
      rewrite Hget, (get_assign _ _ _ _ k Hacc').
      cbn [among existsb]. fold (among keys k).
      destruct (String.eqb_spec k k0) as [-> | _]; cbn [orb];
        [rewrite E0 |]; destruct (among keys _); reflexivity.
    + assert (Hsame : match JSValue.inherited k0 with
                      | Some Object_prototype => Some acc
                      | Some _ => None
                      | None => Some acc
                      end = Some acc).
      { destruct (JSValue.inherited k0) as [[] |];
          first [reflexivity | discriminate Hk0]. }
      rewrite Hsame. destruct (IH Hkeys acc) as (newShape & Hfold & Hget).
      exists newShape. split; [exact Hfold |]. intros k.
      rewrite Hget. cbn [among existsb]. fold (among keys k).
      destruct (String.eqb_spec k k0) as [-> | _]; cbn [orb];
        [rewrite E0 |]; destruct (among keys _); reflexivity.
Qed.

End pick_lemmas.

Section map_lemmas.

Variable f : Schema -> Schema.

Abbreviation map_step :=
  (fun (newShape : option (list (string * Schema))) (ks : string * Schema) =>
     match newShape with
     | Some acc => Shape.assign acc (fst ks) (f (snd ks))
     | None => None
     end).

Lemma map_fold (entries : list (string * Schema)) :
  NoDup (JSValue.keys entries) ->
  JSValue.has_own entries "__proto__" = false ->
  forall acc,
  exists newShape,
    fold_left map_step entries (Some acc) = Some newShape /\
    (NoDup (JSValue.keys acc) -> NoDup (JSValue.keys newShape)) /\
    (forall k,
        Shape.get newShape k
        = match Shape.get entries k with
          | Some s => Some (f s)
          | None => Shape.get acc k
          end) /\
    (forall Q : string * Schema -> Prop,
        Forall Q acc ->
        Forall (fun ks => Q (fst ks, f (snd ks))) entries ->
        Forall Q newShape).
Proof.
  induction entries as [| [k0 s0] entries IH]; intros Hnd Hproto acc.
  - exists acc. repeat split; auto.
  - cbn [JSValue.keys map fst] in Hnd. apply NoDup_cons in Hnd as [Hnotin Hnd].
    cbn [JSValue.has_own] in Hproto.
    apply orb_false_elim in Hproto as [Hk0 Hproto].
    rewrite String.eqb_sym in Hk0.
    cbn [fold_left fst snd].
    destruct (assign_defined acc k0 (f s0) Hk0) as [acc' Hacc'].
    rewrite Hacc'. destruct (IH Hnd Hproto acc') as (newShape & Hfold & Hk & Hget & HQ).
    exists newShape. split; [exact Hfold |]. split; [| split].
    + intros Hacc. apply Hk. exact (NoDup_keys_assign _ _ _ _ Hacc' Hacc).
    + intros k. rewrite Hget, (get_assign _ _ _ _ k Hacc').
      change (Shape.get ((k0, s0) :: entries) k)
        with (if String.eqb k k0 then Some s0 else Shape.get entries k).
      destruct (String.eqb_spec k k0) as [-> | _]; [| reflexivity].
      assert (Hn : Shape.get entries k0 = None).
      { apply get_none. destruct (JSValue.has_own entries k0) eqn:E;
          [| reflexivity].
        exfalso. apply Hnotin, has_keys, E. }
      rewrite Hn. reflexivity.
    + intros Q Hacc Hall. apply Forall_cons in Hall as [Hhead Hall].
      apply HQ; [| exact Hall].
      revert Hacc'. unfold Shape.assign.
      destruct (JSValue.has_own acc k0);
        [intros [= <-]; apply Forall_overwrite; assumption |].
      destruct (String.eqb k0 "__proto__"); [discriminate |].
      intros [= <-]. apply Forall_insert_new; assumption.
Qed.

Lemma map_shape_defined (shape : list (string * Schema)) :
  NoDup (JSValue.keys shape) ->
  JSValue.has_own shape "__proto__" = false ->
  exists newShape,
    map_shape f shape = Some newShape /\
    NoDup (JSValue.keys newShape) /\
    JSValue.has_own newShape "__proto__" = false /\
    (forall k, Shape.get newShape k = option_map f (Shape.get shape k)) /\
    Forall (fun ks => exists s, In (fst ks, s) shape /\ snd ks = f s) newShape.
Proof.
  intros Hnd Hproto.
  destruct (map_fold shape Hnd Hproto []) as (newShape & Hfold & Hk & Hget & HQ).
  exists newShape. split; [exact Hfold |].
  assert (Hg : forall k, Shape.get newShape k = option_map f (Shape.get shape k)).
  { intros k. rewrite Hget. destruct (Shape.get shape k); reflexivity. }
  split; [apply Hk, NoDup_nil; exact I |]. split; [| split; [exact Hg |]].
  - apply has_own_none. rewrite Hg, (get_none shape _ Hproto). reflexivity.
  - apply HQ; [constructor |]. apply List.Forall_forall. intros [k s] Hin.
    exists s. split; [exact Hin | reflexivity].
Qed.

End map_lemmas.

(** X18. The shape methods of an object schema, by what they make of
    each own key of the shape. [extend] takes the schema of the extension
    where it has the key and that of the receiver elsewhere; [omit]
    removes exactly the keys of the mask. [pick], for a mask whose keys
    are all pickable (an own key of the shape other than [__proto__], or a
    name that the shape does not have at all, or [__proto__] when the
    shape has no own property of that name), keeps exactly the keys of the
    mask. For a shape without an own property [__proto__], [partial] wraps
    every schema into an optional one and [required] after [partial] gives
    back the schema of every key. *)
Theorem shape_methods_by_key (shape ext : list (string * Schema))
        (u : option UnknownKeys) (meta : Meta) (keys : list string) :
  NoDup (JSValue.keys shape) -> NoDup (JSValue.keys ext) ->
  (forall k,
      Shape.get (returned_shape (extend ext) (ValaiObject shape u meta)) k
      = match Shape.get ext k with
        | Some s => Some s
        | None => Shape.get shape k
        end) /\
  (forall k,
      Shape.get (returned_shape (omit keys) (ValaiObject shape u meta)) k
      = (if among keys k then None else Shape.get shape k)) /\
  (forallb (pickable shape) keys = true ->
   exists picked,
     object_returned (pick keys) (ValaiObject shape u meta)
     = Some (v.object picked) /\
     forall k, Shape.get picked k
               = (if among keys k then Shape.get shape k else None)) /\
  (JSValue.has_own shape "__proto__" = false ->
   exists wrapped restored,
     object_returned partial (ValaiObject shape u meta)
     = Some (v.object wrapped) /\
     (forall k, Shape.get wrapped k
                = option_map (fun s => ValaiOptional s no_meta)
                             (Shape.get shape k)) /\
     object_returned required (v.object wrapped)
     = Some (v.object restored) /\
     (forall k, Shape.get restored k = Shape.get shape k)).
Proof.
  intros Hshape Hext.
  unfold returned_shape. cbn [object_returned shape_of v.object].
  split; [| split; [| split]].
  - intros k. rewrite (get_spread _ ext k Hext), (get_spread [] shape k Hshape).
    destruct (Shape.get ext k), (Shape.get shape k); reflexivity.
  - intros k. unfold omit_shape.
    rewrite get_fold_delete, (get_spread [] shape k Hshape).
    destruct (among keys k), (Shape.get shape k); reflexivity.
  - intros Hkeys. destruct (pick_fold shape keys Hkeys []) as (picked & Hfold & Hget).
    exists picked. unfold pick_shape. rewrite Hfold. split; [reflexivity |].
    intros k. rewrite Hget.
    destruct (among keys k), (Shape.get shape k); reflexivity.
  - intros Hproto.
    destruct (map_shape_defined (fun s => ValaiOptional s no_meta) shape
                Hshape Hproto)
      as (wrapped & Hw & Hnd & Hp & Hget & _).
    destruct (map_shape_defined unwrap_optional wrapped Hnd Hp)
      as (restored & Hr & _ & _ & Hget' & _).
    exists wrapped, restored. unfold partial_shape, required_shape.
    rewrite Hw, Hr. repeat split; try exact Hget.
    intros k. rewrite Hget', Hget. destruct (Shape.get shape k); reflexivity.
Qed.

Lemma shape_methods_by_key_witness :
  exists picked,
    object_returned (pick ["b"; "c"])
      (ValaiObject [("a", v.string); ("b", v.number)]
                   (Some uk_strict) no_meta)
    = Some (v.object picked) /\
    forall k, Shape.get picked k
              = (if among ["b"; "c"] k
                 then Shape.get [("a", v.string); ("b", v.number)] k
                 else None).
Proof.
  apply (shape_methods_by_key [("a", v.string); ("b", v.number)]
           [("b", v.string)] (Some uk_strict) no_meta ["b"; "c"]);
    [| | reflexivity];
    repeat (apply NoDup_cons; split;
            [intros H;
             repeat (apply elem_of_cons in H as [H | H]; [discriminate H |]);
             inversion H |]);
    apply NoDup_nil; exact I.
Defined.

Section partial_lemmas.

Lemma get_absent (input : list (string * value)) (k : string) :
  JSValue.has input k = false -> JSValue.get input k = VUndefined.
Proof.
  unfold JSValue.has, JSValue.get. intros H.
  apply orb_false_elim in H as [Hown Hproto].
  pose proof (get_none input k Hown) as E. unfold Shape.get in E. rewrite E.
  destruct (JSValue.inherited k); [discriminate Hproto | reflexivity].
Qed.

Lemma object_properties_absent (ctx : ParseContext)
      (input : list (string * value)) (entries : list (string * Schema)) :
  Forall (fun ks => JSValue.has input (fst ks) = false /\
                    exists s m, snd ks = ValaiOptional s m) entries ->
  forall result st,
    object_properties Schema_parse ctx (VObject input) entries result st
    = (Some result, (st ++ repeat [] (length entries))%list).
Proof.
  induction 1 as [| [key schema] entries [Hhas (s & m & Hs)] Htail IH];
    intros result st.
  - cbn. rewrite app_nil_r. reflexivity.
  - cbn [fst snd] in Hhas, Hs. subst schema.
    cbn [object_properties]. unfold child, new_ParseContext, alloc, ret.
    unfold bind at 1 2. cbn [fst snd].
    unfold bind at 1. cbn [Schema_parse data JSValue.lookup JSValue.has_in].
    rewrite (get_absent input key Hhas). unfold success, ret.
    cbn [is_undefined negb orb]. rewrite Hhas.
    rewrite IH. cbn [length repeat]. rewrite <- app_assoc. reflexivity.
Qed.

End partial_lemmas.

(** X19. [partial] makes every key optional and forgets the unknown-key
    policy of the receiver: the schema it returns accepts every object in
    which none of the keys of the shape is present, as an own property or
    as one inherited from [Object.prototype], even when the receiver is
    strict, and returns the empty object. *)
Theorem partial_accepts_absent_keys (shape : list (string * Schema))
        (u : option UnknownKeys) (meta : Meta)
        (input : list (string * value)) :
  NoDup (JSValue.keys shape) ->
  (forall k, In k (JSValue.keys shape) -> JSValue.has input k = false) ->
  exists o,
    object_returned partial (ValaiObject shape u meta) = Some o /\
    safeParse o (VObject input) = ParseSuccess (VObject []).
Proof.
  intros Hnd Habsent.
  assert (Hproto : JSValue.has_own shape "__proto__" = false).
  { destruct (JSValue.has_own shape "__proto__") eqn:E; [| reflexivity].
    apply has_keys, list_elem_of_In, Habsent in E.
    unfold JSValue.has in E. cbn in E. rewrite orb_true_r in E.
    discriminate E. }
  destruct (map_shape_defined (fun s => ValaiOptional s no_meta) shape
              Hnd Hproto) as (wrapped & Hw & _ & _ & _ & Hall).
  exists (v.object wrapped). cbn [object_returned]. unfold partial_shape.
  rewrite Hw. split; [reflexivity |].
  unfold safeParse, run, createStrictContext, new_ParseContext.
  unfold bind at 1. unfold bind at 1. unfold alloc, ret. cbn [length app].
  unfold bind at 1. cbn [_parse Schema_ValaiType Schema_parse v.object data
                           JSValue.is_plain_object].
  unfold bind at 1.
  rewrite object_properties_absent.
  - unfold object_unknown_keys. cbn [or_strip].
    unfold bind at 1.
    assert (E : forall b : bool,
               (if b then ret (@nil (string * value))
                else ret (@nil (string * value)))
               = ret (@nil (string * value)))
      by (intros []; reflexivity).
    rewrite E. unfold ret at 1.
    unfold hasIssues, read, bind, ret, finalize, bind, read, ret, success, ret.
    cbv beta. cbn [issues app]. reflexivity.
  - eapply Forall_impl; [exact Hall |].
    intros [k o] (s & Hin & Hs). cbn [fst snd] in *. split.
    + apply Habsent. apply (in_map fst) in Hin. exact Hin.
    + exists s, no_meta. exact Hs.
Qed.

Lemma partial_accepts_absent_keys_witness :
  exists o,
    object_returned partial
      (ValaiObject [("a", v.string)] (Some uk_strict) no_meta) = Some o /\
    safeParse o (VObject [("b", VNull)]) = ParseSuccess (VObject []).
Proof.
  apply (partial_accepts_absent_keys [("a", v.string)] (Some uk_strict)
           no_meta [("b", VNull)]).
  - apply NoDup_cons. split; [intros H; inversion H | apply NoDup_nil; exact I].
  - intros k [<- | []]. reflexivity.
Defined.

(** X20. The [repaired] flag is never set without a logged action: when
    [repairJSON] reports [repaired = true], its list of repairs is not
    empty; and a run without any logged action returns the input text. *)
Theorem repaired_implies_logged (x : string) (opts : Repair.RepairOptions) :
  (Repair.repaired (Repair.repairJSON x opts) = true ->
   Repair.repairs (Repair.repairJSON x opts) <> []) /\
  (Repair.repairs (Repair.repairJSON x opts) = [] ->
   Repair.text (Repair.repairJSON x opts) = x).
Proof.
  destruct (repair_silent_iff_stable opts x) as ([_ Hfrom] & Hfix).
  split.
  - intros Hflag Hlog. destruct (Hfix (Hfrom Hlog)) as (_ & Hfalse & _).
    congruence.
  - intros Hlog. apply (Hfix (Hfrom Hlog)).
Qed.

Lemma repaired_implies_logged_witness :
  Repair.repairs (Repair.repairJSON "[1,]" Repair.no_options) <> [].
Proof.
  apply (proj1 (repaired_implies_logged "[1,]" Repair.no_options) eq_refl).
Defined.

Section balance_lemmas.

Import Repair RepairMore.

Lemma scan_set_has (s : string) :
  forall i stack R inS esc j,
    j < i ->
    set_has (snd (balance_scan i stack R inS esc s)) j = set_has R j.
Proof.
  induction s as [| c s IH]; intros i stack R inS esc j Hj; [reflexivity |].
  cbn [balance_scan].
  assert (Hadd : forall stack',
             set_has (snd (balance_scan (S i) stack' (i :: R) inS false s)) j
             = set_has R j).
  { intros stack'. rewrite IH by lia. unfold set_has. cbn [existsb].
    destruct (Nat.eqb_spec j i); [lia | reflexivity]. }
  repeat match goal with
         | |- context [if ?b then _ else _] => destruct b
         | |- context [match ?l with [] => _ | _ :: _ => _ end] =>
             destruct l as [| [? ?] ?]
         end;
    first [apply IH; lia | apply Hadd].
Qed.

Lemma set_has_fresh (R : list nat) (i : nat) :
  (forall j, set_has R j = true -> j < i) -> set_has R i = false.
Proof.
  intros H. destruct (set_has R i) eqn:E; [| reflexivity].
  apply H in E. lia.
Qed.

Lemma set_has_bound (R : list nat) (i : nat) :
  (forall j, set_has R j = true -> j < i) ->
  forall j, set_has R j = true -> j < S i.
Proof. intros H j Hj. apply H in Hj. lia. Qed.

Lemma set_has_add (R : list nat) (i : nat) :
  (forall j, set_has R j = true -> j < i) ->
  forall j, set_has (i :: R) j = true -> j < S i.
Proof.
  intros H j. unfold set_has. cbn [existsb].
  destruct (Nat.eqb_spec j i) as [-> | _]; [lia |].
  intros Hj. apply H in Hj. lia.
Qed.

Lemma balance_simulation (s : string) :
  forall i stack R inS esc stack' R',
    opens stack -> (forall j, set_has R j = true -> j < i) ->
    balance_scan i stack R inS esc s = (stack', R') ->
    opens stack' /\
    exists inS' esc',
      brackets_state (map closer_of stack) inS esc (without_indices i R' s)
      = (map closer_of stack', inS', esc') /\
      forall stk, exists stk', brackets_state stk inS esc s = (stk', inS', esc').
Proof.
  induction s as [| c s IH]; intros i stack R inS esc stack' R' Hop HR E.
  - cbn in E. injection E as <- <-. split; [exact Hop |].
    exists inS, esc. split; [reflexivity |]. intros stk. exists stk. reflexivity.
  - cbn [balance_scan] in E.
    (* a step that keeps the character *)
    assert (Hkeep : forall stackX inSX escX,
               opens stackX ->
               balance_scan (S i) stackX R inSX escX s = (stack', R') ->
               brackets_state (map closer_of stack) inS esc
                 (String c (without_indices (S i) R' s))
               = brackets_state (map closer_of stackX) inSX escX
                   (without_indices (S i) R' s) ->
               (forall stk, exists stk0,
                     brackets_state stk inS esc (String c s)
                     = brackets_state stk0 inSX escX s) ->
               opens stack' /\
               exists inS' esc',
                 brackets_state (map closer_of stack) inS esc
                   (without_indices i R' (String c s))
                 = (map closer_of stack', inS', esc') /\
                 forall stk, exists stk',
                     brackets_state stk inS esc (String c s)
                     = (stk', inS', esc')).
    { intros stackX inSX escX HopX EX Hstep Hany.
      destruct (IH (S i) stackX R inSX escX stack' R' HopX
                  (set_has_bound R i HR) EX) as (Hop' & inS' & esc' & H1 & H2).
      split; [exact Hop' |]. exists inS', esc'. split.
      - cbn [without_indices].
        pose proof (scan_set_has s (S i) stackX R inSX escX i
                      (Nat.lt_succ_diag_r i)) as Hmem.
        rewrite EX in Hmem. cbn [snd] in Hmem.
        rewrite Hmem, (set_has_fresh R i HR), Hstep. exact H1.
      - intros stk. destruct (Hany stk) as [stk0 ->]. apply H2. }
    (* a step that removes the character *)
    assert (Hdrop : opens stack ->
               balance_scan (S i) stack (i :: R) inS false s = (stack', R') ->
               esc = false ->
               (forall stk, exists stk0,
                     brackets_state stk inS esc (String c s)
                     = brackets_state stk0 inS false s) ->
               opens stack' /\
               exists inS' esc',
                 brackets_state (map closer_of stack) inS esc
                   (without_indices i R' (String c s))
                 = (map closer_of stack', inS', esc') /\
                 forall stk, exists stk',
                     brackets_state stk inS esc (String c s)
                     = (stk', inS', esc')).
    { intros HopX EX -> Hany.
      destruct (IH (S i) stack (i :: R) inS false stack' R' HopX
                  (set_has_add R i HR) EX) as (Hop' & inS' & esc' & H1 & H2).
      split; [exact Hop' |]. exists inS', esc'. split.
      - cbn [without_indices].
        pose proof (scan_set_has s (S i) stack (i :: R) inS false i
                      (Nat.lt_succ_diag_r i)) as Hmem.
        rewrite EX in Hmem. cbn [snd] in Hmem.
        rewrite Hmem. unfold set_has at 1. cbn [existsb].
        rewrite Nat.eqb_refl. cbn [orb]. exact H1.
      - intros stk. destruct (Hany stk) as [stk0 ->]. apply H2. }
    destruct esc.
    { apply (Hkeep stack inS false Hop E); [reflexivity |].
      intros stk. exists stk. reflexivity. }
    destruct (ch_eq c backslash && inS) eqn:Eb.
    { apply (Hkeep stack inS true Hop E).
      - cbn [brackets_state]. rewrite Eb. reflexivity.
      - intros stk. exists stk. cbn [brackets_state]. rewrite Eb. reflexivity. }
    destruct (ch_eq c dquote) eqn:Eq.
    { apply (Hkeep stack (negb inS) false Hop E).
      - cbn [brackets_state]. rewrite Eb, Eq. reflexivity.
      - intros stk. exists stk. cbn [brackets_state]. rewrite Eb, Eq.
        reflexivity. }
    destruct inS.
    { apply (Hkeep stack true false Hop E).
      - cbn [brackets_state]. rewrite Eb, Eq. reflexivity.
      - intros stk. exists stk. cbn [brackets_state]. rewrite Eb, Eq.
        reflexivity. }
    assert (Hany_closer : forall stk,
               ch_eq c "}" || ch_eq c "]" = true ->
               ch_eq c "{" = false -> ch_eq c "[" = false ->
               exists stk0, brackets_state stk false false (String c s)
                            = brackets_state stk0 false false s).
    { intros stk Hc H1 H2. cbn [brackets_state].
      rewrite Eb, Eq, H1, H2, Hc.
      destruct stk as [| top stk]; [exists []; reflexivity |].
      destruct (ch_eq top c); eexists; reflexivity. }
    destruct (ch_eq c "{") eqn:E1.
    { apply Ascii.eqb_eq in E1. subst c. cbn [orb] in E.
      apply (Hkeep (("{"%char, i) :: stack) false false);
        [constructor; [left; reflexivity | exact Hop] | exact E
        | reflexivity |].
      intros stk. exists ("}"%char :: stk). reflexivity. }
    destruct (ch_eq c "[") eqn:E2.
    { apply Ascii.eqb_eq in E2. subst c. cbn [orb] in E.
      apply (Hkeep (("["%char, i) :: stack) false false);
        [constructor; [right; reflexivity | exact Hop] | exact E
        | reflexivity |].
      intros stk. exists ("]"%char :: stk). reflexivity. }
    cbn [orb] in E.
    destruct (ch_eq c "}") eqn:E3.
    { destruct stack as [| [top ti] stack0].
      - apply (Hdrop Hop E eq_refl). intros stk.
        apply Hany_closer; rewrite ?E1, ?E2, ?E3, ?E4; reflexivity.
      - inversion Hop as [| ? ? Htop Hop0]; subst.
        cbn [fst] in Htop. destruct Htop as [-> | ->].
        + apply Ascii.eqb_eq in E3. subst c.
          apply (Hkeep stack0 false false Hop0 E); [reflexivity |].
          intros stk. apply Hany_closer; reflexivity.
        + apply (Hdrop Hop E eq_refl). intros stk.
          apply Hany_closer; rewrite ?E1, ?E2, ?E3, ?E4; reflexivity. }
    destruct (ch_eq c "]") eqn:E4.
    { destruct stack as [| [top ti] stack0].
      - apply (Hdrop Hop E eq_refl). intros stk.
        apply Hany_closer; rewrite ?E1, ?E2, ?E3, ?E4; reflexivity.
      - inversion Hop as [| ? ? Htop Hop0]; subst.
        cbn [fst] in Htop. destruct Htop as [-> | ->].
        + apply (Hdrop Hop E eq_refl). intros stk.
          apply Hany_closer; rewrite ?E1, ?E2, ?E3, ?E4; reflexivity.
        + apply Ascii.eqb_eq in E4. subst c.
          apply (Hkeep stack0 false false Hop0 E); [reflexivity |].
          intros stk. apply Hany_closer; reflexivity. }
    apply (Hkeep stack false false Hop E).
    + cbn [brackets_state]. rewrite Eb, Eq, E1, E2, E3, E4. reflexivity.
    + intros stk. exists stk. cbn [brackets_state].
      rewrite Eb, Eq, E1, E2, E3, E4. reflexivity.
Qed.

Lemma close_open_closers (stack : list (ascii * nat)) :
  opens stack ->
  close_open stack = string_of_list_ascii (map closer_of stack) /\
  closers (map closer_of stack).
Proof.
  induction 1 as [| [c i] stack Hc Hrest [IH1 IH2]];
    [split; [reflexivity | constructor] |].
  cbn [fst] in Hc. cbn [close_open map string_of_list_ascii]. unfold closer_of.
  cbn [fst]. destruct Hc as [-> | ->]; cbn; rewrite IH1;
    (split; [reflexivity |]); constructor; tauto.
Qed.

Lemma brackets_state_escape (s : string) :
  forall stack i e,
    (e = true -> i = true) ->
    snd (brackets_state stack i e s) = true ->
    snd (fst (brackets_state stack i e s)) = true.
Proof.
  induction s as [| c s IH]; intros stack i e He; [exact He |].
  cbn [brackets_state]. destruct e; [apply IH; discriminate |].
  destruct (ch_eq c backslash && i) eqn:Eb.
  { apply IH. intros _. apply andb_prop in Eb as [_ Eb]. exact Eb. }
  repeat match goal with
         | |- context [if ?b then _ else _] => destruct b
         | |- context [match ?l with [] => _ | _ :: _ => _ end] => destruct l
         end; apply IH; discriminate.
Qed.

End balance_lemmas.

(** X21. [balanceBrackets] balances every text that does not end inside
    a string: the scanner of [tryCloseBrackets] reads its result to the
    end with an empty stack, so that [tryCloseBrackets] has nothing to
    add to it. *)
Theorem balanceBrackets_balances (x : string) :
  RepairMore.ends_in_string x = false ->
  Repair.brackets_scan [] false false (RepairMore.balanceBrackets x)
  = ([], false) /\
  Repair.tryCloseBrackets (RepairMore.balanceBrackets x)
  = RepairMore.balanceBrackets x.
Proof.
  unfold RepairMore.ends_in_string. intros Hend.
  assert (Hstate : RepairMore.brackets_state [] false false
                     (RepairMore.balanceBrackets x) = ([], false, false)).
  { unfold RepairMore.balanceBrackets.
    destruct (RepairMore.balance_scan 0 [] [] false false x)
      as [stack' R'] eqn:E.
    destruct (balance_simulation x 0 [] [] false false stack' R')
      as (Hop & inS' & esc' & H1 & H2);
      [constructor | intros j Hj; discriminate Hj | exact E |].
    destruct (H2 []) as [stk' H3].
    pose proof (brackets_state_escape x [] false false
                  ltac:(discriminate)) as Hesc.
    rewrite H3 in Hend, Hesc. cbn [fst snd] in Hend, Hesc. subst inS'.
    destruct esc'; [specialize (Hesc eq_refl); discriminate Hesc |].
    rewrite brackets_state_app. cbn [map] in H1. rewrite H1.
    destruct (close_open_closers stack' Hop) as [-> Hcl].
    apply brackets_state_pop, Hcl. }
  assert (Hbal : Repair.brackets_scan [] false false
                   (RepairMore.balanceBrackets x) = ([], false))
    by (rewrite brackets_scan_state, Hstate; reflexivity).
  split; [exact Hbal |].
  unfold Repair.tryCloseBrackets. rewrite Hbal. simpl. apply append_nil_r.
Qed.

Lemma balanceBrackets_balances_witness :
  Repair.tryCloseBrackets (RepairMore.balanceBrackets (dq "{'a': [1}, 2]]"))
  = RepairMore.balanceBrackets (dq "{'a': [1}, 2]]").
Proof.
  apply (proj2 (balanceBrackets_balances (dq "{'a': [1}, 2]]") eq_refl)).
Defined.

Section string_checks.

Lemma lt_of_nat (a b : nat) :
  JSNum.lt (JSNum.of_nat a) (JSNum.of_nat b) = (a <? b).
Proof.
  unfold JSNum.lt, JSNum.of_nat, JSNum.of_Z.
  destruct (Nat.ltb_spec a b) as [H | H].
  - apply negb_true_iff. apply not_true_iff_false. rewrite Qle_bool_iff.
    unfold Qle. simpl. lia.
  - apply negb_false_iff. apply Qle_bool_iff. unfold Qle. simpl. lia.
Qed.

End string_checks.

(** Run [safeParse] of a string schema on a string up to its checks. *)
Ltac run_string_parse :=
  unfold safeParse, run, createStrictContext, new_ParseContext, alloc;
  unfold bind at 1 2; unfold ret at 1; cbn [fst snd length app];
  unfold bind at 1;
  cbn [_parse Schema_ValaiType Schema_parse]; unfold ValaiString_parse;
  cbn [or_nil string_checks string_check shouldCoerce isLLMMode mode andb
       data];
  unfold JSNum.gt, bind, ret.

(** Decide a comparison of lengths in the goal. *)
Ltac decide_length x y :=
  rewrite (lt_of_nat x y); destruct (Nat.ltb_spec x y);
  cbn -[JSNum.lt JSNum.of_nat Nat.ltb].

(** X22. The length bounds of a string schema are exact: with [min(a)]
    and [max(b)] it accepts a string exactly when its length lies between
    [a] and [b], and then returns it unchanged. *)
Theorem string_length_bounds_are_exact (a b : nat) (m1 m2 : option string)
        (meta : Meta) (s : string) :
  safeParse
    (ValaiString (Some [SMin (JSNum.of_nat a) m1; SMax (JSNum.of_nat b) m2])
                 meta)
    (VString s)
  = ParseSuccess (VString s)
  <-> a <= String.length s <= b.
Proof.
  run_string_parse.
  decide_length (String.length s) a; decide_length b (String.length s);
    split; intros Hx; first [discriminate Hx | lia | reflexivity].
Qed.

Lemma string_length_bounds_are_exact_witness :
  safeParse
    (ValaiString (Some [SMin (JSNum.of_nat 2) None; SMax (JSNum.of_nat 5) None])
                 no_meta)
    (VString "abc")
  = ParseSuccess (VString "abc").
Proof.
  apply (proj2 (string_length_bounds_are_exact 2 5 None None no_meta "abc")).
  simpl. lia.
Defined.

(** X23. Checks and transformations run in the order of their
    declaration: [trim()] before [min(a)] validates the trimmed string,
    [min(a)] before [trim()] validates the string as given; both return
    the trimmed string. *)
Theorem string_checks_run_in_declaration_order (a : nat) (m : option string)
        (meta : Meta) (s : string) :
  (safeParse (ValaiString (Some [STrim; SMin (JSNum.of_nat a) m]) meta)
             (VString s)
   = ParseSuccess (VString (trim s))
   <-> a <= String.length (trim s)) /\
  (safeParse (ValaiString (Some [SMin (JSNum.of_nat a) m; STrim]) meta)
             (VString s)
   = ParseSuccess (VString (trim s))
   <-> a <= String.length s).
Proof.
  split; run_string_parse.
  - decide_length (String.length (trim s)) a;
      split; intros Hx; first [discriminate Hx | lia | reflexivity].
  - decide_length (String.length s) a;
      split; intros Hx; first [discriminate Hx | lia | reflexivity].
Qed.

Lemma string_checks_run_in_declaration_order_witness :
  safeParse (ValaiString (Some [SMin (JSNum.of_nat 1) None; STrim]) no_meta)
            (VString "  ")
  = ParseSuccess (VString (trim "  ")).
Proof.
  apply (proj2 (proj2 (string_checks_run_in_declaration_order
                         1 None no_meta "  "))).
  simpl. lia.
Defined.

Section substring_lemmas.

Import Repair.

Lemma balanced_from_prefix (o c : ascii) (s : string) :
  forall d i e r,
    balanced_from o c d i e s = Some r -> exists post, s = r ++ post.
Proof.
  induction s as [| x s IH]; intros d i e r H; [discriminate H |].
  cbn [balanced_from] in H.
  assert (K : forall d' i' e',
             option_map (String x) (balanced_from o c d' i' e' s) = Some r ->
             exists post, String x s = r ++ post).
  { intros d' i' e' Hk.
    destruct (balanced_from o c d' i' e' s) as [r' |] eqn:E;
      [| discriminate Hk].
    injection Hk as <-. destruct (IH _ _ _ _ E) as [post ->].
    exists post. reflexivity. }
  repeat match type of H with
         | (if ?b then _ else _) = _ => destruct b eqn:?
         end; try (eapply K; exact H).
  injection H as <-. exists s. reflexivity.
Qed.

Lemma from_first_suffix (o : ascii) (s t : string) :
  from_first o s = Some t -> exists pre, s = pre ++ t.
Proof.
  induction s as [| x s IH]; [discriminate |].
  cbn [from_first]. destruct (ch_eq x o).
  - intros [= <-]. exists EmptyString. reflexivity.
  - intros H. destruct (IH H) as [pre ->]. exists (String x pre). reflexivity.
Qed.

Lemma findBalancedJSON_part (text : string) (o c : ascii) (json : string) :
  findBalancedJSON text o c = Some json ->
  exists pre post, text = pre ++ json ++ post.
Proof.
  unfold findBalancedJSON.
  destruct (from_first o text) as [t |] eqn:E; [| discriminate].
  intros H. destruct (from_first_suffix _ _ _ E) as [pre ->].
  destruct (balanced_from_prefix _ _ _ _ _ _ _ H) as [post ->].
  exists pre, post. reflexivity.
Qed.

Lemma trimStart_suffix (s : string) : exists pre, s = pre ++ trimStart s.
Proof.
  induction s as [| x s [pre IH]]; [exists EmptyString; reflexivity |].
  cbn [trimStart]. destruct (is_space x).
  - exists (String x pre). cbn. rewrite <- IH. reflexivity.
  - exists EmptyString. reflexivity.
Qed.

Lemma trimEnd_prefix (s : string) : exists post, s = trimEnd s ++ post.
Proof.
  induction s as [| x s [post IH]]; [exists EmptyString; reflexivity |].
  cbn [trimEnd]. destruct (is_space x && is_empty (trimEnd s)).
  - exists (String x s). reflexivity.
  - exists post. cbn. rewrite <- IH. reflexivity.
Qed.

Lemma trim_part (s : string) : exists pre post, s = pre ++ trim s ++ post.
Proof.
  unfold trim. destruct (trimStart_suffix s) as [pre Hpre].
  destruct (trimEnd_prefix (trimStart s)) as [post Hpost].
  exists pre, post. rewrite <- Hpost. exact Hpre.
Qed.

End substring_lemmas.

(** X24. [extractJSONFromText] returns a part of its input: the text of
    the result, extracted or not, occurs in the input as one contiguous
    piece. *)
Theorem extractJSONFromText_returns_a_part (x : string) :
  exists pre post,
    x = pre ++ Repair.tx_text (Repair.extractJSONFromText x) ++ post.
Proof.
  destruct (trim_part x) as (pre & post & Hx).
  assert (Hin : forall o c json,
             Repair.findBalancedJSON (trim x) o c = Some json ->
             exists pre' post', x = pre' ++ json ++ post').
  { intros o c json H.
    destruct (findBalancedJSON_part _ _ _ _ H) as (p1 & p2 & Ht).
    exists (pre ++ p1), (p2 ++ post).
    rewrite Hx at 1. rewrite Ht, !append_assoc. reflexivity. }
  unfold Repair.extractJSONFromText.
  destruct ((startsWith (trim x) "{" && endsWith (trim x) "}")
            || (startsWith (trim x) "[" && endsWith (trim x) "]"));
    [exists pre, post; exact Hx |].
  destruct (Repair.findBalancedJSON (trim x) "{" "}") as [json |] eqn:Eo;
    [apply (Hin _ _ _ Eo) |].
  destruct (Repair.findBalancedJSON (trim x) "[" "]") as [json |] eqn:Ea;
    [apply (Hin _ _ _ Ea) |].
  exists pre, post. exact Hx.
Qed.

Section uniform_chain.

Lemma grows_length (st st' : Store) : grows st st' -> length st <= length st'.
Proof.
  intros H. destruct st as [| l st] using rev_ind; [simpl; lia |].
  destruct (H (length st) l) as [l' Hl'].
  - rewrite lookup_app_r, Nat.sub_diag by lia. reflexivity.
  - apply lookup_lt_Some in Hl'. rewrite length_app. simpl. lia.
Qed.

Lemma well_formed_grows (st st' : Store) (c : ParseContext) :
  well_formed st c = true -> grows st st' -> well_formed st' c = true.
Proof.
  intros H Hg. apply well_formed_spec in H as [Hnd Hall].
  unfold well_formed. apply andb_true_iff. split.
  - apply bool_decide_eq_true. exact Hnd.
  - apply forallb_forall. intros x Hx. apply Nat.ltb_lt.
    specialize (Hall x Hx). pose proof (grows_length st st' Hg). lia.
Qed.

Lemma uniform_ret {A : Type} (ctx : ParseContext) (a : A) :
  uniform ctx (ret a).
Proof.
  intros st _. exists []. intros c x _ H. rewrite app_nil_r. exact H.
Qed.

Lemma uniform_bind {A B : Type} (ctx : ParseContext) (m : M A)
      (k : A -> M B) :
  mono m -> uniform ctx m -> (forall a, uniform ctx (k a)) ->
  uniform ctx (bind m k).
Proof.
  intros Hmono Hm Hk st Hwf. unfold bind.
  destruct (Hm st Hwf) as [l1 H1]. specialize (Hmono st).
  destruct (m st) as [a st1]. cbn [snd] in H1, Hmono.
  destruct (Hk a st1 (well_formed_grows st st1 ctx Hwf Hmono)) as [l2 H2].
  exists (l1 ++ l2)%list. intros c x Hc Hx.
  rewrite app_assoc. apply (H2 c _ Hc), (H1 c x Hc Hx).
Qed.

Lemma uniform_read (ctx : ParseContext) (arr : nat) : uniform ctx (read arr).
Proof.
  intros st _. exists []. intros c x _ H. rewrite app_nil_r. exact H.
Qed.

Lemma uniform_hasIssues (ctx c : ParseContext) : uniform ctx (hasIssues c).
Proof.
  unfold hasIssues.
  apply uniform_bind; [apply mono_read | apply uniform_read |].
  intros; apply uniform_ret.
Qed.

Lemma uniform_addIssue (ctx : ParseContext) (d : IssueDetail)
      (m : option string) : uniform ctx (addIssue ctx d m).
Proof.
  intros st Hwf. apply well_formed_spec in Hwf as [Hnd _].
  exists [Build_Issue d (path ctx) m]. intros c x Hc Hx.
  rewrite (addIssue_lookup ctx d m st (issues c) Hnd), Hx.
  destruct (decide (issues c ∈ map issues (chain ctx))) as [_ | n];
    [reflexivity |].
  exfalso. apply n, list_elem_of_In, in_map, Hc.
Qed.

Lemma uniform_issue_when (cond : bool) (ctx : ParseContext) (d : IssueDetail)
      (m : option string) : uniform ctx (issue_when cond ctx d m).
Proof.
  unfold issue_when. destruct cond; [| apply uniform_ret].
  apply uniform_bind; [apply mono_addIssue | apply uniform_addIssue |].
  intros; apply uniform_ret.
Qed.

Lemma mono_string_check (ctx : ParseContext) (c : StringCheck) (s : string) :
  mono (string_check ctx c s).
Proof.
  destruct c; simpl; try apply mono_ret;
    (apply mono_bind; [apply mono_issue_when | intros; apply mono_ret]).
Qed.

Lemma uniform_string_checks (ctx : ParseContext) (cs : list StringCheck)
      (s : string) : uniform ctx (string_checks ctx cs s).
Proof.
  revert s. induction cs as [| c cs IH]; intros s; simpl;
    [apply uniform_ret |].
  apply uniform_bind; [apply mono_string_check | | intros; apply IH].
  destruct c; simpl; try apply uniform_ret;
    (apply uniform_bind;
     [apply mono_issue_when | apply uniform_issue_when
     | intros; apply uniform_ret]).
Qed.

Lemma mono_number_check (ctx : ParseContext) (c : NumberCheck) (n : JSNumber) :
  mono (number_check ctx c n).
Proof. destruct c; simpl; apply mono_issue_when. Qed.

Lemma uniform_number_checks (ctx : ParseContext) (cs : list NumberCheck)
      (n : JSNumber) : uniform ctx (number_checks ctx cs n).
Proof.
  induction cs as [| c cs IH]; simpl; [apply uniform_ret |].
  apply uniform_bind; [apply mono_number_check | | intros; apply IH].
  destruct c; simpl; apply uniform_issue_when.
Qed.

Lemma uniform_guard {A : Type} (m : M A) (ctx : ParseContext)
      (f : A -> value) :
  mono m -> uniform ctx m ->
  uniform ctx (let* x := m in
               let* has := hasIssues ctx in
               if has then ret invalid else success ctx (f x)).
Proof.
  intros Hmono Hm. apply uniform_bind; [exact Hmono | exact Hm |]. intros a.
  apply uniform_bind; [apply mono_hasIssues | apply uniform_hasIssues |].
  intros []; apply uniform_ret.
Qed.

Lemma uniform_array_length_checks ctx len a b c :
  uniform ctx (array_length_checks ctx len a b c).
Proof.
  unfold array_length_checks.
  apply uniform_bind;
    [destruct a; [apply mono_issue_when | apply mono_ret]
    | destruct a; [apply uniform_issue_when | apply uniform_ret] |].
  intros _.
  apply uniform_bind;
    [destruct b; [apply mono_issue_when | apply mono_ret]
    | destruct b; [apply uniform_issue_when | apply uniform_ret] |].
  intros _. destruct c; [apply uniform_issue_when | apply uniform_ret].
Qed.

Lemma lookup_before_alloc (st : Store) (r : nat) (x : list Issue) :
  st !! r = Some x -> (st ++ [[]])%list !! r = Some x.
Proof.
  intros H. rewrite lookup_app_l; [exact H | eapply lookup_lt_Some; exact H].
Qed.

(** A context created by [child] or [sibling], with the store after its
    allocation. *)
Lemma fresh_context (ctx : ParseContext) (d : value) (p : list PathSegment)
      (par : option ParseContext) (st : Store) :
  match par with Some c => well_formed st c = true | None => True end ->
  new_ParseContext d (mode ctx) (Some p) par (Some (llmOptions ctx)) st
  = ({| data := d; mode := mode ctx; path := p; issues := length st;
        parent := par; llmOptions := llmOptions ctx |},
     (st ++ [[]])%list) /\
  well_formed (st ++ [[]])%list
    {| data := d; mode := mode ctx; path := p; issues := length st;
       parent := par; llmOptions := llmOptions ctx |} = true.
Proof.
  intros Hpar. split; [reflexivity |].
  pose proof (new_context_well_formed d (mode ctx) (Some p) par
                (Some (llmOptions ctx)) st Hpar) as H.
  unfold new_ParseContext, alloc, bind, ret in H. cbn [fst snd] in H.
  apply H.
Qed.

Lemma uniform_with_child {A B : Type} (ctx : ParseContext) (d : value)
      (seg : PathSegment) (body : ParseContext -> M A)
      (k : ParseContext -> A -> M B) :
  (forall c, mono (body c)) -> (forall c, uniform c (body c)) ->
  (forall c a, uniform ctx (k c a)) ->
  uniform ctx (let* c := child ctx d seg in let* a := body c in k c a).
Proof.
  intros Hmono Hbody Hk st Hwf.
  destruct (fresh_context ctx d (path ctx ++ [seg])%list (Some ctx) st Hwf)
    as [E Hwf1].
  unfold child, bind at 1. rewrite E.
  set (c := {| data := d; mode := mode ctx;
               path := (path ctx ++ [seg])%list; issues := length st;
               parent := Some ctx; llmOptions := llmOptions ctx |}) in *.
  destruct (Hbody c _ Hwf1) as [l1 H1]. specialize (Hmono c (st ++ [[]])%list).
  unfold bind at 1.
  destruct (body c (st ++ [[]])%list) as [a st2]. cbn [snd] in H1, Hmono.
  assert (Hg : grows st st2).
  { eapply grows_trans; [| exact Hmono]. apply (mono_alloc st). }
  destruct (Hk c a st2 (well_formed_grows st st2 ctx Hwf Hg)) as [l2 H2].
  exists (l1 ++ l2)%list. intros x y Hx Hy.
  rewrite app_assoc. apply (H2 x _ Hx). apply (H1 x y).
  - right. exact Hx.
  - apply lookup_before_alloc, Hy.
Qed.

Lemma uniform_array_elements
      (parse_element : ParseContext -> M ParseReturnType)
      (ctx : ParseContext) :
  (forall c, mono (parse_element c)) ->
  (forall c, uniform c (parse_element c)) ->
  forall items i result,
    uniform ctx (array_elements parse_element ctx i items result).
Proof.
  intros Hmono Hp.
  induction items as [| item items IH]; intros i result; simpl;
    [apply uniform_ret |].
  apply (uniform_with_child ctx item (PIndex i) parse_element
           (fun _ parseResult =>
              match parseResult with
              | valid v =>
                  array_elements parse_element ctx (S i) items
                                 (result ++ [v])%list
                            | invalid => array_elements parse_element ctx (S i) items result
              | thrown => ret None
              end)); [exact Hmono | exact Hp |].
  intros _ [v | |]; first [apply IH | apply uniform_ret].
Qed.

Lemma uniform_object_properties
      (parse_with : Schema -> ParseContext -> M ParseReturnType)
            (ctx : ParseContext) (input : value)
      (entries : list (string * Schema)) :
  Forall (fun kv => (forall c, mono (parse_with (snd kv) c)) /\
                    forall c, uniform c (parse_with (snd kv) c)) entries ->
  forall result,
    uniform ctx (object_properties parse_with ctx input entries result).
Proof.
  induction 1 as [| [key schema] entries [Hm Hu] Htail IH]; intros result;
    simpl; [apply uniform_ret |].
  apply (uniform_with_child ctx (JSValue.lookup input key) (PKey key)
           (parse_with schema)
           (fun _ parseResult =>
              match parseResult with
              | valid v =>
                  if negb (is_undefined v) || JSValue.has_in input key
                  then object_properties parse_with ctx input entries
                         (JSValue.assign result key v)
                  else object_properties parse_with ctx input entries result
              | invalid =>
                  object_properties parse_with ctx input entries result
              | thrown => ret None
              end)); [exact Hm | exact Hu |].
  intros _ [v | |]; [destruct (_ || _) | |];
    first [apply IH | apply uniform_ret].
Qed.

Lemma uniform_object_unknown_keys ctx u shapeKeys input result :
  uniform ctx (object_unknown_keys ctx u shapeKeys input result).
Proof.
  unfold object_unknown_keys.
  destruct (0 <? _); [| apply uniform_ret].
  destruct (or_strip u); try apply uniform_ret.
  apply uniform_bind; [apply mono_addIssue | apply uniform_addIssue |].
  intros; apply uniform_ret.
Qed.

Lemma uniform_ValaiEnum_parse (values : list string) (ctx : ParseContext) :
  uniform ctx (ValaiEnum_parse values ctx).
Proof.
  unfold ValaiEnum_parse.
  destruct (match data ctx with VString _ => _ | _ => _ end) as [[] |];
    try apply uniform_addIssue; try apply uniform_ret.
  assert (Hs : uniform ctx
                 (if negb (includes_key values s)
                  then addIssue ctx (invalid_enum_value values s) None
                  else success ctx (VString s)))
    by (destruct (negb _); [apply uniform_addIssue | apply uniform_ret]).
  destruct (isLLMMode ctx); [| exact Hs].
  destruct (find _ values) as [found |]; [| exact Hs].
  destruct (is_empty found); [exact Hs | apply uniform_ret].
Qed.

Lemma sibling_free_shape (shape : list (string * Schema)) (P : Schema -> Prop) :
  forallb (fun '(_, s') => sibling_free s') shape = true ->
  Forall (fun kv => sibling_free (snd kv) = true -> P (snd kv)) shape ->
  Forall (fun kv => P (snd kv)) shape.
Proof.
  intros Hall H. induction H as [| [k s] shape Hh Ht IH]; constructor.
  - cbn [forallb] in Hall. apply andb_prop in Hall as [Hs _]. apply Hh, Hs.
  - cbn [forallb] in Hall. apply andb_prop in Hall as [_ Hs]. apply IH, Hs.
Qed.

Lemma uniform_Schema_parse (s : Schema) :
  sibling_free s = true -> forall ctx, uniform ctx (Schema_parse s ctx).
Proof.
  induction s as [checks meta | checks meta | element a b c meta IHe
                 | shape u meta IHshape | options meta IHoptions
                 | inner meta IH | inner meta IH | inner d meta IH
                 | values meta | l r meta IHl IHr]
    using Schema_nested_ind; cbn [sibling_free]; intros Hfree ctx;
    cbn [Schema_parse].
  - unfold ValaiString_parse.
    destruct (if shouldCoerce ctx then _ else _) as [[] |];
      try apply uniform_addIssue; try apply uniform_ret.
    apply (uniform_guard _ ctx VString);
      [apply mono_string_checks | apply uniform_string_checks].
  - unfold ValaiNumber_parse.
    destruct (match data ctx with VString _ => _ | _ => _ end);
      try apply uniform_addIssue.
    destruct (JSNum.isNaN n); [apply uniform_addIssue |].
    apply (uniform_guard _ ctx (fun _ => VNumber n));
      [apply mono_number_checks | apply uniform_number_checks].
  - destruct (data ctx); try apply uniform_addIssue.
    apply uniform_bind;
      [apply mono_array_length_checks | apply uniform_array_length_checks |].
        intros _.
    apply uniform_bind.
    + apply mono_array_elements. intros c0. apply mono_Schema_parse.
    + apply uniform_array_elements; [intros c0; apply mono_Schema_parse |].
      apply IHe, Hfree.
    + intros [result |]; [| apply uniform_ret].
      apply (uniform_guard (ret result) ctx VArray);
        [apply mono_ret | apply uniform_ret].
  - destruct (JSValue.is_plain_object (data ctx));
      [| apply uniform_addIssue].
    apply uniform_bind.
    + apply mono_object_properties, Forall_forall.
      intros kv _ c0. apply mono_Schema_parse.
    + apply uniform_object_properties.
      apply (sibling_free_shape shape
               (fun s' => (forall c0, mono (Schema_parse s' c0)) /\
                          forall c0, uniform c0 (Schema_parse s' c0)) Hfree).
      eapply Forall_impl; [exact IHshape |].
      intros kv Hkv Hf. split; [intros c0; apply mono_Schema_parse |].
      apply Hkv, Hf.
        + intros [result |]; [| apply uniform_ret].
      apply (uniform_guard _ ctx VObject);
        [apply mono_object_unknown_keys | apply uniform_object_unknown_keys].
  - discriminate Hfree.
  - destruct (data ctx); first [apply uniform_ret | apply IH, Hfree].
  - destruct (data ctx); first [apply uniform_ret | apply IH, Hfree].
  - destruct (data ctx); first [apply uniform_ret | apply IH, Hfree].
  - apply uniform_ValaiEnum_parse.
  - discriminate Hfree.
Qed.

End uniform_chain.

(** X25. The arrays of a chain receive the same issues: for a schema
    that contains no union and no intersection (the two classes that
    validate in a sibling context) and a context whose chain owns distinct
    allocated arrays, [_parse] appends one and the same list of issues to
    the array of the context and to the array of each of its ancestors. *)
Theorem chain_arrays_receive_the_same_issues (s : Schema)
        (ctx : ParseContext) (st : Store) :
  sibling_free s = true -> well_formed st ctx = true ->
  exists l, forall a,
      In a (chain ctx) ->
      issues_of (snd (Schema_parse s ctx st)) a = (issues_of st a ++ l)%list.
Proof.
  intros Hfree Hwf.
  destruct (uniform_Schema_parse s Hfree ctx st Hwf) as [l Hl].
  exists l. intros a Ha.
  destruct (well_formed_spec st ctx Hwf) as [_ Hall].
  destruct (lookup_lt_is_Some_2 st (issues a) (Hall a Ha)) as [x Hx].
  unfold issues_of. rewrite (Hl a x Ha Hx), Hx. reflexivity.
Qed.

Lemma chain_arrays_receive_the_same_issues_witness :
  exists l, forall a,
      In a (chain (fst (child (fst (createStrictContext VNull []))
                          (VString "x") (PKey "age")
                          (snd (createStrictContext VNull []))))) ->
      issues_of
        (snd (Schema_parse v.number
                (fst (child (fst (createStrictContext VNull []))
                        (VString "x") (PKey "age")
                        (snd (createStrictContext VNull []))))
                (snd (child (fst (createStrictContext VNull []))
                        (VString "x") (PKey "age")
                        (snd (createStrictContext VNull [])))))) a
      = (issues_of
           (snd (child (fst (createStrictContext VNull []))
                   (VString "x") (PKey "age")
                   (snd (createStrictContext VNull [])))) a ++ l)%list.
Proof.
  apply (chain_arrays_receive_the_same_issues v.number
           (fst (child (fst (createStrictContext VNull []))
                   (VString "x") (PKey "age")
                   (snd (createStrictContext VNull []))))
           (snd (child (fst (createStrictContext VNull []))
                   (VString "x") (PKey "age")
                   (snd (createStrictContext VNull []))))
           eq_refl eq_refl).
Defined.

Section two_modes.

Lemma same_place_fields (a b : ParseContext) :
  same_place a b ->
  data a = data b /\ path a = path b /\ issues a = issues b.
Proof. destruct a. cbn. tauto. Qed.

Lemma collect_same (a : ParseContext) :
  forall b i st, same_place a b ->
                 collectIssueInParent a i st = collectIssueInParent b i st.
Proof.
  induction a as [d m p r o | d m p r par o IH] using ParseContext_chain_ind;
    intros [d' m' p' r' [par' |] o'] i st H; cbn in H;
    destruct H as (_ & _ & _ & H); try contradiction; [reflexivity |].
  cbn [collectIssueInParent]. unfold bind.
  destruct (same_place_fields par par' H) as (_ & _ & ->).
  destruct (push (issues par') i st) as [u st1]. apply IH, H.
Qed.

Lemma addIssue_same (a b : ParseContext) (d : IssueDetail)
      (m : option string) (st : Store) :
  same_place a b -> addIssue a d m st = addIssue b d m st.
Proof.
  intros H. unfold addIssue, bind.
  destruct (same_place_fields a b H) as (_ & -> & ->).
  destruct (push (issues b) _ st) as [u st1].
  rewrite (collect_same a b _ st1 H). reflexivity.
Qed.

Lemma hasIssues_same (a b : ParseContext) (st : Store) :
  same_place a b -> hasIssues a st = hasIssues b st.
Proof.
  intros H. unfold hasIssues, read, bind, ret.
  destruct (same_place_fields a b H) as (_ & _ & ->). reflexivity.
Qed.

Lemma issue_when_same (cond : bool) (a b : ParseContext) (d : IssueDetail)
      (m : option string) (st : Store) :
  same_place a b -> issue_when cond a d m st = issue_when cond b d m st.
Proof.
  intros H. unfold issue_when, bind. destruct cond; [| reflexivity].
  rewrite (addIssue_same a b d m st H). reflexivity.
Qed.

Lemma string_checks_same (a b : ParseContext) (cs : list StringCheck) :
  same_place a b ->
  forall s st, string_checks a cs s st = string_checks b cs s st.
Proof.
  intros H. induction cs as [| c cs IH]; intros s st; [reflexivity |].
  cbn [string_checks]. unfold bind.
  assert (E : string_check a c s st = string_check b c s st).
  { destruct c; cbn [string_check]; try reflexivity; unfold bind;
      rewrite (issue_when_same _ a b _ _ st H); reflexivity. }
  rewrite E. destruct (string_check b c s st) as [r st1]. apply IH.
Qed.

Lemma number_checks_same (a b : ParseContext) (cs : list NumberCheck)
      (n : JSNumber) :
  same_place a b ->
  forall st, number_checks a cs n st = number_checks b cs n st.
Proof.
  intros H. induction cs as [| c cs IH]; intros st; [reflexivity |].
  cbn [number_checks]. unfold bind.
  assert (E : number_check a c n st = number_check b c n st).
  { destruct c; cbn [number_check]; apply issue_when_same, H. }
  rewrite E. destruct (number_check b c n st) as [r st1]. apply IH.
Qed.

Lemma bind_same {A B : Type} (m1 m2 : M A) (k1 k2 : A -> M B) (st : Store) :
  m1 st = m2 st -> (forall a st', k1 a st' = k2 a st') ->
  bind m1 k1 st = bind m2 k2 st.
Proof.
  intros Hm Hk. unfold bind. rewrite Hm. destruct (m2 st) as [a st1].
  apply Hk.
Qed.

Lemma array_length_checks_same (a b : ParseContext) len x y z (st : Store) :
  same_place a b ->
  array_length_checks a len x y z st = array_length_checks b len x y z st.
Proof.
  intros H. unfold array_length_checks.
  apply bind_same;
    [destruct x; [apply issue_when_same, H | reflexivity] |].
  intros _ st1.
  apply bind_same;
    [destruct y; [apply issue_when_same, H | reflexivity] |].
  intros _ st2. destruct z; [apply issue_when_same, H | reflexivity].
Qed.

Lemma object_unknown_keys_same (a b : ParseContext) u keys input result st :
  same_place a b ->
  object_unknown_keys a u keys input result st
  = object_unknown_keys b u keys input result st.
Proof.
  intros H. unfold object_unknown_keys.
  destruct (0 <? _); [| reflexivity].
  destruct (or_strip u); try reflexivity.
  unfold bind. rewrite (addIssue_same a b _ _ st H). reflexivity.
Qed.

Lemma array_elements_cons (p : ParseContext -> M ParseReturnType)
      (ctx : ParseContext) (i : nat) (item : value) (items result : list value)
      (st : Store) :
  array_elements p ctx i (item :: items) result st
  = match p (fst (child ctx item (PIndex i) st)) (st ++ [[]])%list with
    | (valid v, st2) =>
        array_elements p ctx (S i) items (result ++ [v])%list st2
        | (invalid, st2) => array_elements p ctx (S i) items result st2
    | (thrown, st2) => (None, st2)
    end.
Proof.
  cbn [array_elements]. unfold child, new_ParseContext, alloc, ret.
  unfold bind at 1 2. cbn [fst snd]. unfold bind at 1.
  destruct (p _ (st ++ [[]])%list) as [[v | |] st2]; reflexivity.
Qed.

Lemma object_properties_cons
      (p : Schema -> ParseContext -> M ParseReturnType)
            (ctx : ParseContext) (input : value)
      (key : string) (schema : Schema) (entries : list (string * Schema))
      (result : list (string * value)) (st : Store) :
  object_properties p ctx input ((key, schema) :: entries) result st
  = match p schema (fst (child ctx (JSValue.lookup input key) (PKey key) st))
            (st ++ [[]])%list with
    | (valid v, st2) =>
        if negb (is_undefined v) || JSValue.has_in input key
        then object_properties p ctx input entries
               (JSValue.assign result key v) st2
        else object_properties p ctx input entries result st2
    | (invalid, st2) => object_properties p ctx input entries result st2
    | (thrown, st2) => (None, st2)
    end.
Proof.
  cbn [object_properties]. unfold child, new_ParseContext, alloc, ret.
  unfold bind at 1 2. cbn [fst snd]. unfold bind at 1.
  destruct (p schema _ (st ++ [[]])%list) as [[v | |] st2];
    [| reflexivity | reflexivity].
  destruct (_ || _); reflexivity.
Qed.

Lemma plain_shape (shape : list (string * Schema)) (P : Schema -> Prop) :
  forallb (fun '(_, s') => plain s') shape = true ->
  Forall (fun kv => plain (snd kv) = true -> P (snd kv)) shape ->
  Forall (fun kv => P (snd kv)) shape.
Proof.
  intros Hall H. induction H as [| [k s] shape Hh Ht IH]; constructor.
  - cbn [forallb] in Hall. apply andb_prop in Hall as [Hs _]. apply Hh, Hs.
  - cbn [forallb] in Hall. apply andb_prop in Hall as [_ Hs]. apply IH, Hs.
Qed.

Lemma plain_sibling_free (s : Schema) :
  plain s = true -> sibling_free s = true.
Proof.
  induction s as [checks meta | checks meta | element a b c meta IHe
                 | shape u meta IHshape | options meta IHoptions
                 | inner meta IH | inner meta IH | inner d meta IH
                 | values meta | l r meta IHl IHr]
    using Schema_nested_ind; cbn [plain sibling_free]; intros H;
    try reflexivity; try discriminate H; auto.
  apply forallb_forall. intros [k s'] Hin.
  rewrite forallb_forall in H. rewrite List.Forall_forall in IHshape.
  apply (IHshape (k, s') Hin), (H (k, s') Hin).
Qed.

Lemma plain_reports (s : Schema) : plain s = true -> reports s = true.
Proof.
  induction s as [checks meta | checks meta | element a b c meta IHe
                 | shape u meta IHshape | options meta IHoptions
                 | inner meta IH | inner meta IH | inner d meta IH
                 | values meta | l r meta IHl IHr]
    using Schema_nested_ind; cbn [plain reports]; intros H;
    try reflexivity; try discriminate H; auto.
Qed.

(** What the parse of a fresh child tells when the array of the parent is
    empty in the end. *)
Lemma child_must_be_valid (s : Schema) (ctx : ParseContext) (d : value)
      (seg : PathSegment) (st st' : Store) :
    plain s = true -> mode ctx = strict_mode -> well_formed st ctx = true ->
  grows (snd (Schema_parse s (fst (child ctx d seg st)) (st ++ [[]])%list)) st' ->
  st' !! issues ctx = Some [] ->
  well_formed (st ++ [[]])%list (fst (child ctx d seg st)) = true /\
  (st ++ [[]])%list !! issues (fst (child ctx d seg st)) = Some [] /\
  well_formed (snd (Schema_parse s (fst (child ctx d seg st))
                      (st ++ [[]])%list)) ctx = true /\
  exists v, fst (Schema_parse s (fst (child ctx d seg st)) (st ++ [[]])%list)
            = valid v.
Proof.
    intros Hplain Hmode Hwf Hg Hfinal.
  pose proof (plain_sibling_free s Hplain) as Hfree.
  destruct (fresh_context ctx d (path ctx ++ [seg])%list (Some ctx) st Hwf)
    as [_ Hwf1].
  change (fst (child ctx d seg st))
    with {| data := d; mode := mode ctx; path := (path ctx ++ [seg])%list;
            issues := length st; parent := Some ctx;
            llmOptions := llmOptions ctx |} in *.
  set (c := {| data := d; mode := mode ctx; path := (path ctx ++ [seg])%list;
               issues := length st; parent := Some ctx;
               llmOptions := llmOptions ctx |}) in *.
  assert (Hnew : (st ++ [[]])%list !! issues c = Some []).
  { cbn [issues c]. rewrite lookup_app_r, Nat.sub_diag by lia. reflexivity. }
  destruct (uniform_Schema_parse s Hfree c _ Hwf1) as [l Hl].
  pose proof (mono_Schema_parse s c (st ++ [[]])%list) as Hmono.
    pose proof (flags_Schema_parse s (plain_reports s Hplain) c
                (st ++ [[]])%list) as Hflag.
  pose proof (strict_never_throws s c Hmode (st ++ [[]])%list) as Hnever.
  destruct (Schema_parse s c (st ++ [[]])%list) as [r st2].
  cbn [fst snd] in *.
  assert (Hg0 : grows st st2).
  { eapply grows_trans; [apply (mono_alloc st) | exact Hmono]. }
  split; [exact Hwf1 |]. split; [exact Hnew |].
  split; [apply (well_formed_grows st st2 ctx Hwf Hg0) |].
  destruct (well_formed_spec st ctx Hwf) as [_ Hall].
  destruct (lookup_lt_is_Some_2 st (issues ctx)
              (Hall ctx (or_introl eq_refl))) as [x Hx].
  pose proof (Hl ctx x (or_intror (or_introl eq_refl))
                (lookup_before_alloc st _ x Hx)) as H2.
  destruct (Hg _ _ H2) as [l' Hl']. rewrite Hfinal in Hl'.
  injection Hl' as Hl'. symmetry in Hl'.
  apply app_eq_nil in Hl' as [Hl' _]. apply app_eq_nil in Hl' as [_ ->].
  pose proof (Hl c [] (or_introl eq_refl) Hnew) as H1. cbn [app] in H1.
    destruct r as [v | |]; [exists v; reflexivity | | contradiction].
  exfalso. apply Hflag; [eexists; exact Hnew | reflexivity |].
  unfold issues_of. rewrite H1. reflexivity.
Qed.

Lemma child_same_place (a b : ParseContext) (d : value) (seg : PathSegment)
      (st : Store) :
  same_place a b ->
  same_place (fst (child a d seg st)) (fst (child b d seg st)).
Proof.
  intros H. destruct (same_place_fields a b H) as (_ & Hp & _).
  cbn. rewrite Hp. repeat split; exact H.
Qed.

Lemma guard_valid {A : Type} (m : M A) (ctx : ParseContext) (f : A -> value)
      (st : Store) (v : value) :
  fst ((let* x := m in
        let* has := hasIssues ctx in
        if has then ret invalid else success ctx (f x)) st) = valid v ->
  default [] (snd (m st) !! issues ctx) = [].
Proof.
  unfold bind, hasIssues, read, bind, ret, success, ret.
  destruct (m st) as [x st1]. cbn [snd]. 
  destruct (default [] (st1 !! issues ctx)) as [| i l]; [reflexivity |].
  cbn. discriminate.
Qed.

Lemma guard_valid_option {A : Type} (m : M (option A)) (ctx : ParseContext)
      (f : A -> value) (st : Store) (v : value) :
  fst ((let* o := m in
        match o with
        | Some x =>
            let* has := hasIssues ctx in
            if has then ret invalid else success ctx (f x)
        | None => ret thrown
        end) st) = valid v ->
  default [] (snd (m st) !! issues ctx) = [].
Proof.
  unfold bind, hasIssues, read, bind, ret, success, ret.
  destruct (m st) as [[x |] st1]; cbn [snd]; [| discriminate].
  destruct (default [] (st1 !! issues ctx)) as [| i l]; [reflexivity |].
  cbn. discriminate.
Qed.

Lemma empty_final (st st' : Store) (ctx : ParseContext) :
  well_formed st ctx = true -> grows st st' ->
  default [] (st' !! issues ctx) = [] -> st' !! issues ctx = Some [].
Proof.
  intros Hwf Hg H. destruct (well_formed_spec st ctx Hwf) as [_ Hall].
  destruct (lookup_lt_is_Some_2 st (issues ctx)
              (Hall ctx (or_introl eq_refl))) as [x Hx].
  destruct (Hg _ _ Hx) as [l Hl]. rewrite Hl in H |- *. cbn in H.
  rewrite H. reflexivity.
Qed.

Lemma agree_array_elements (element : Schema) :
  plain element = true -> agrees element ->
  forall cs cl, same_place cs cl -> mode cs = strict_mode ->
  forall items i result st,
    well_formed st cs = true ->
    snd (array_elements (Schema_parse element) cs i items result st)
      !! issues cs = Some [] ->
    array_elements (Schema_parse element) cs i items result st
    = array_elements (Schema_parse element) cl i items result st.
Proof.
  intros Hfree IHe cs cl Hsp Hmode.
  induction items as [| item items IH]; intros i result st Hwf Hfinal;
    [reflexivity |].
  rewrite !array_elements_cons. rewrite array_elements_cons in Hfinal.
  pose proof (child_must_be_valid element cs item (PIndex i) st) as K.
  pose proof (IHe (fst (child cs item (PIndex i) st))
                  (fst (child cl item (PIndex i) st)) (st ++ [[]])%list) as E.
  destruct (Schema_parse element (fst (child cs item (PIndex i) st))
              (st ++ [[]])%list) as [r st2].
  cbn [fst snd] in K, E.
  assert (Hg : grows st2
                 (snd (match r with
                       | valid v =>
                           array_elements (Schema_parse element) cs (S i)
                             items (result ++ [v])%list st2
                                              | invalid =>
                           array_elements (Schema_parse element) cs (S i)
                             items result st2
                       | thrown => (None, st2)
                       end))).
  { destruct r; first [apply mono_ret
                      | apply mono_array_elements; intros c0;
                        apply mono_Schema_parse]. }
  destruct (K _ Hfree Hmode Hwf Hg Hfinal) as (Hwf1 & Hnew & Hwf2 & v & ->).
  rewrite <- (E v (child_same_place cs cl item (PIndex i) st Hsp) Hmode
                Hwf1 Hnew eq_refl).
  apply IH; assumption.
Qed.

Lemma agree_object_properties (cs cl : ParseContext)
      (input : value) (entries : list (string * Schema)) :
  same_place cs cl -> mode cs = strict_mode ->
  Forall (fun kv => plain (snd kv) = true /\ agrees (snd kv)) entries ->
  forall result st,
    well_formed st cs = true ->
    snd (object_properties Schema_parse cs input entries result st)
      !! issues cs = Some [] ->
    object_properties Schema_parse cs input entries result st
    = object_properties Schema_parse cl input entries result st.
Proof.
  intros Hsp Hmode.
  induction 1 as [| [key schema] entries [Hfree IHs] Htail IH];
    intros result st Hwf Hfinal; [reflexivity |].
  cbn [snd] in Hfree, IHs.
  rewrite !object_properties_cons. rewrite object_properties_cons in Hfinal.
    pose proof (child_must_be_valid schema cs (JSValue.lookup input key)
                (PKey key) st) as K.
  pose proof (IHs (fst (child cs (JSValue.lookup input key) (PKey key) st))
                  (fst (child cl (JSValue.lookup input key) (PKey key) st))
                  (st ++ [[]])%list) as E.
  destruct (Schema_parse schema
              (fst (child cs (JSValue.lookup input key) (PKey key) st))
              (st ++ [[]])%list) as [r st2].
  cbn [fst snd] in K, E.
  assert (Hg : grows st2
                 (snd (match r with
                                              | valid v =>
                           if negb (is_undefined v) || JSValue.has_in input key
                           then object_properties Schema_parse cs input
                                  entries (JSValue.assign result key v) st2
                           else object_properties Schema_parse cs input
                                  entries result st2
                       | invalid =>
                           object_properties Schema_parse cs input entries
                             result st2
                       | thrown => (None, st2)
                       end))).
  { destruct r; [destruct (_ || _) | |];
      first [apply mono_ret
            | apply mono_object_properties, Forall_forall;
              intros kv _ c0; apply mono_Schema_parse]. }
  destruct (K _ Hfree Hmode Hwf Hg Hfinal) as (Hwf1 & Hnew & Hwf2 & v & ->).
  rewrite <- (E v (child_same_place cs cl _ (PKey key) st Hsp) Hmode
                Hwf1 Hnew eq_refl).
  destruct (_ || _); apply IH; assumption.
Qed.

Lemma not_valid_addIssue (ctx : ParseContext) (d : IssueDetail)
      (m : option string) (st : Store) (v : value) :
  fst (addIssue ctx d m st) = valid v -> False.
Proof. rewrite (proj2 (addIssue_snd ctx d m st)). discriminate. Qed.

Lemma agree_guard {A : Type} (m1 m2 : M A) (cs cl : ParseContext)
      (f : A -> value) (st : Store) :
  same_place cs cl -> m1 st = m2 st ->
  (let* x := m1 in
   let* has := hasIssues cs in
   if has then ret invalid else success cs (f x)) st
  = (let* x := m2 in
     let* has := hasIssues cl in
     if has then ret invalid else success cl (f x)) st.
Proof.
  intros Hsp Hm. apply bind_same; [exact Hm |]. intros x st1.
  apply bind_same; [apply hasIssues_same, Hsp |]. intros [] st2; reflexivity.
Qed.

Lemma bind_same_at {A B : Type} (m1 m2 : M A) (k1 k2 : A -> M B)
      (st : Store) :
  m1 st = m2 st ->
  k1 (fst (m1 st)) (snd (m1 st)) = k2 (fst (m1 st)) (snd (m1 st)) ->
  bind m1 k1 st = bind m2 k2 st.
Proof.
  intros Hm Hk. unfold bind. rewrite <- Hm. destruct (m1 st) as [a st1].
  exact Hk.
Qed.

Lemma bind_at {A B : Type} (m : M A) (k : A -> M B) (st : Store) :
  bind m k st = k (fst (m st)) (snd (m st)).
Proof. unfold bind. destruct (m st); reflexivity. Qed.

Lemma agree_Schema_parse (s : Schema) : plain s = true -> agrees s.
Proof.
  induction s as [checks meta | checks meta | element a b c meta IHe
                 | shape u meta IHshape | options meta IHoptions
                 | inner meta IH | inner meta IH | inner d meta IH
                 | values meta | l r meta IHl IHr]
    using Schema_nested_ind; cbn [plain]; intros Hfree;
    intros cs cl st v Hsp Hmode Hwf Hempty Hvalid;
    destruct (same_place_fields cs cl Hsp) as (Hdata & _ & _);
    cbn [Schema_parse] in Hvalid |- *.
  - unfold ValaiString_parse in *.
    assert (Hs : shouldCoerce cs = false)
      by (unfold shouldCoerce, isLLMMode; rewrite Hmode; reflexivity).
        rewrite Hs in *. rewrite <- Hdata.
    destruct (data cs) as [| | bb | nn | ss | items | props | bi] eqn:Ed;
      try (exfalso; eapply not_valid_addIssue; exact Hvalid).
    assert (Ev : (if shouldCoerce cl then Some (VString ss)
                  else Some (VString ss))
                 = Some (VString ss))
      by (destruct (shouldCoerce cl); reflexivity).
    rewrite Ev.
    apply agree_guard; [exact Hsp | apply string_checks_same, Hsp].
  - unfold ValaiNumber_parse in *. rewrite <- Hdata.
    assert (Hs : shouldCoerce cs = false)
      by (unfold shouldCoerce, isLLMMode; rewrite Hmode; reflexivity).
        destruct (data cs) as [| | bb | nn | ss | items | props | bi] eqn:Ed;
      try (exfalso; eapply not_valid_addIssue; exact Hvalid).
    + destruct (JSNum.isNaN nn);
        [exfalso; eapply not_valid_addIssue; exact Hvalid |].
      apply agree_guard; [exact Hsp | apply number_checks_same, Hsp].
    + rewrite Hs in Hvalid. exfalso. eapply not_valid_addIssue. exact Hvalid.
  - rewrite <- Hdata.
        destruct (data cs) as [| | bb | nn | ss | items | props | bi] eqn:Ed;
      try (exfalso; eapply not_valid_addIssue; exact Hvalid).
    rewrite bind_at in Hvalid.
    apply bind_same_at; [apply array_length_checks_same, Hsp |].
    pose proof (mono_array_length_checks cs (JSNum.of_nat (length items)) a b c st)
      as Hg1.
    set (st1 := snd (array_length_checks cs (JSNum.of_nat (length items)) a b c st))
      in *.
    assert (Hwf1 : well_formed st1 cs = true)
      by (apply (well_formed_grows st st1 cs Hwf Hg1)).
        apply bind_same_at.
    + apply (agree_array_elements element Hfree (IHe Hfree) cs cl Hsp Hmode);
        [exact Hwf1 |].
      apply (empty_final st1 _ cs Hwf1).
      * apply mono_array_elements. intros c0. apply mono_Schema_parse.
      * apply (guard_valid_option _ cs VArray st1 v Hvalid).
    + destruct (fst (array_elements _ cs 0 items [] st1)) as [result |];
        [| reflexivity].
      apply bind_same; [apply hasIssues_same, Hsp |].
      intros [] st2; reflexivity.
  - rewrite <- Hdata.
    destruct (JSValue.is_plain_object (data cs)) eqn:Ed;
      [| exfalso; eapply not_valid_addIssue; exact Hvalid].
    rewrite bind_at in Hvalid.
    assert (Hg1 : grows st (snd (object_properties Schema_parse cs (data cs)
                                   shape [] st))).
    { apply mono_object_properties, Forall_forall.
      intros kv _ c0. apply mono_Schema_parse. }
    assert (Hwf1 : well_formed
                     (snd (object_properties Schema_parse cs (data cs) shape
                             [] st))
                     cs = true)
      by (apply (well_formed_grows st _ cs Hwf Hg1)).
    destruct (fst (object_properties Schema_parse cs (data cs) shape [] st))
      as [result |] eqn:Eop; [| discriminate Hvalid].
    pose proof (guard_valid _ cs VObject _ v Hvalid) as Hend.
    apply (empty_final _ _ cs Hwf1
             (mono_object_unknown_keys cs u (JSValue.keys shape) (data cs)
                _ _))
      in Hend.
    apply bind_same_at.
    + apply (agree_object_properties cs cl (data cs) shape Hsp Hmode);
        [| exact Hwf | ].
      * apply (plain_shape shape
                 (fun s' => plain s' = true /\ agrees s') Hfree).
        eapply Forall_impl; [exact IHshape |].
        intros kv Hkv Hf. split; [exact Hf | apply Hkv, Hf].
      * destruct (well_formed_spec _ cs Hwf1) as [_ Hall].
        eapply (grows_nil _ _ (issues cs)).
        -- apply (mono_object_unknown_keys cs u (JSValue.keys shape) (data cs)
                    result).
        -- apply lookup_lt_is_Some_2, (Hall cs). left. reflexivity.
        -- exact Hend.
    + rewrite Eop.
      apply agree_guard; [exact Hsp |]. apply object_unknown_keys_same, Hsp.
  - discriminate Hfree.
  - rewrite <- Hdata. destruct (data cs) eqn:Ed; try reflexivity;
      apply (IH Hfree cs cl st v); assumption.
  - rewrite <- Hdata. destruct (data cs) eqn:Ed; try reflexivity;
      apply (IH Hfree cs cl st v); assumption.
    - rewrite <- Hdata. destruct (data cs) eqn:Ed; try reflexivity;
      apply (IH Hfree cs cl st v); assumption.
  - discriminate Hfree.
  - discriminate Hfree.
Qed.

Lemma safeParse_at_root (s : Schema) (d : value) :
  safeParse s d
  = fst (finalize (strict_root d)
           (fst (Schema_parse s (strict_root d) [[]]))
           (snd (Schema_parse s (strict_root d) [[]]))).
Proof.
  unfold safeParse, run, createStrictContext, new_ParseContext, alloc, ret.
  unfold bind at 1 2. cbn [fst snd length app]. rewrite bind_at. reflexivity.
Qed.

Lemma parseLLM_at_root (s : Schema) (d : value)
      (options : option LLMParseOptions) :
  is_string d = false ->
  parseLLM s d options
  = fst (finalize
           {| data := d; mode := llm_mode; path := []; issues := 0;
              parent := None; llmOptions := merge_llmOptions options |}
           (fst (Schema_parse s
                   {| data := d; mode := llm_mode; path := []; issues := 0;
                      parent := None;
                      llmOptions := merge_llmOptions options |} [[]]))
           (snd (Schema_parse s
                   {| data := d; mode := llm_mode; path := []; issues := 0;
                      parent := None;
                      llmOptions := merge_llmOptions options |} [[]]))).
Proof.
  intros Hd.
  unfold parseLLM, run, createLLMContext, new_ParseContext, alloc, ret.
  unfold bind at 1 2. cbn [fst snd length app]. rewrite bind_at.
  destruct d; try reflexivity. discriminate Hd.
Qed.

End two_modes.

(** X26. The LLM mode agrees with the strict mode on what the strict mode
    accepts, for the schemas built from the string, number, array and
    object classes and the optional, nullable and default wrappers (not
    for unions, enums and intersections): for such a schema and an input
    that is not a string (so that [parseLLM] does not pre-process it), if
    [safeParse] succeeds then [parseLLM] succeeds with the same value,
    whatever the options. *)
Theorem llm_mode_agrees_with_strict_success (s : Schema) (d v : value)
        (options : option LLMParseOptions) :
  plain s = true -> is_string d = false ->
  safeParse s d = ParseSuccess v ->
  parseLLM s d options = ParseSuccess v.
Proof.
  intros Hfree Hd. rewrite safeParse_at_root, (parseLLM_at_root s d options Hd).
  set (cs := strict_root d).
  set (cl := {| data := d; mode := llm_mode; path := []; issues := 0;
                parent := None; llmOptions := merge_llmOptions options |}).
  intros Hstrict.
  assert (Hvalid : exists x, fst (Schema_parse s cs [[]]) = valid x).
    { destruct (fst (Schema_parse s cs [[]])) as [x | |];
      [exists x; reflexivity | |];
      unfold finalize, bind, read, ret in Hstrict; discriminate Hstrict. }
  destruct Hvalid as [x Hx].
  rewrite <- (agree_Schema_parse s Hfree cs cl [[]] x);
    [exact Hstrict | repeat split | reflexivity | reflexivity | reflexivity
    | exact Hx].
Qed.

Lemma llm_mode_agrees_with_strict_success_witness :
  parseLLM (v.object [("tags", v.array v.string)])
           (VObject [("tags", VArray [VString "a"])]) None
  = ParseSuccess (VObject [("tags", VArray [VString "a"])]).
Proof.
  apply (llm_mode_agrees_with_strict_success
           (v.object [("tags", v.array v.string)])
           (VObject [("tags", VArray [VString "a"])])
           (VObject [("tags", VArray [VString "a"])]) None
           eq_refl eq_refl eq_refl).
Defined.

(** With a union the two modes can differ on accepted data: the strict
    mode rejects the first member and takes the second, the LLM mode
    coerces for the first. *)
Lemma llm_mode_differs_on_unions :
  safeParse (v.union [v.object [("a", v.number)]; v.object [("a", v.string)]])
            (VObject [("a", VString "5")])
  = ParseSuccess (VObject [("a", VString "5")]) /\
  parseLLM (v.union [v.object [("a", v.number)]; v.object [("a", v.string)]])
           (VObject [("a", VString "5")]) None
  = ParseSuccess (VObject [("a", VNumber (JSNum.of_nat 5))]).
Proof. split; vm_compute; reflexivity. Qed.

(** ** Schema objects are never mutated *)

Section object_lemmas.

Import Objects.

Lemma framed_ret {A : Type} (n : nat) (Q : A -> Prop) (x : A) :
  Q x -> framed n Q (ret x).
Proof.
  intros Hx h y h' Hn H. unfold ret in H. injection H as <- <-. auto.
Qed.

Lemma framed_throw {A : Type} (n : nat) (Q : A -> Prop) :
  framed n Q (@throw A).
Proof. intros h y h' _ H. discriminate H. Qed.

Lemma framed_bind {A B : Type} (n : nat) (P : A -> Prop) (Q : B -> Prop)
      (m : H A) (k : A -> H B) :
  framed n P m -> (forall x, P x -> framed n Q (k x)) ->
  framed n Q (bind m k).
Proof.
  intros Hm Hk h y h' Hn H. unfold bind in H.
  destruct (m h) as [[x h1] |] eqn:E; [| discriminate].
  destruct (Hm h x h1 Hn E) as (Hn1 & Hf1 & Hx).
  destruct (Hk x Hx h1 y h' Hn1 H) as (Hn2 & Hf2 & Hy).
  split; [exact Hn2 |]. split; [| exact Hy].
  intros a Ha. rewrite (Hf2 a Ha). apply Hf1, Ha.
Qed.

Lemma framed_alloc (n : nat) (o : Object) :
  framed n (fun a => n <= a) (alloc o).
Proof.
  intros h a h' Hn H. unfold alloc in H. injection H as <- <-.
  rewrite length_app. cbn [length].
  split; [lia |]. split; [| exact Hn].
  intros a Ha. apply lookup_app_l. lia.
Qed.

Lemma framed_load (n : nat) (a : addr) : framed n (fun _ => True) (load a).
Proof.
  intros h o h' Hn H. unfold load in H.
  destruct (h !! a); [| discriminate]. injection H as <- <-. auto.
Qed.

Lemma framed_store (n : nat) (a : addr) (o : Object) :
  n <= a -> framed n (fun _ => True) (store a o).
Proof.
  intros Ha h u h' Hn H. unfold store in H.
  destruct (h !! a); [| discriminate]. injection H as <- <-.
  rewrite length_insert. split; [exact Hn |]. split; [| exact I].
  intros a' Ha'. apply list_lookup_insert_ne. lia.
Qed.

Lemma framed_get (n : nat) (o : Field) (k : string) :
  framed n (fun _ => True) (get o k).
Proof.
  unfold get. destruct o; try apply framed_throw.
  eapply framed_bind; [apply framed_load |]. intros obj _.
  destruct obj; first [apply framed_throw | apply framed_ret; exact I].
Qed.

Lemma framed_entries (n : nat) (o : Field) :
  framed n (fun _ => True) (entries o).
Proof.
  unfold entries.
  destruct o; try apply framed_throw; [apply framed_ret; exact I |].
  eapply framed_bind; [apply framed_load |]. intros obj _.
  destruct obj; first [apply framed_throw | apply framed_ret; exact I].
Qed.

Lemma framed_string_checks_or_empty (n : nat) (f : Field) :
  framed n (fun _ => True) (string_checks_or_empty f).
Proof.
  unfold string_checks_or_empty.
  destruct f; try apply framed_throw; [apply framed_ret; exact I |].
  eapply framed_bind; [apply framed_load |]. intros obj _.
  destruct obj; first [apply framed_throw | apply framed_ret; exact I].
Qed.

Lemma framed_number_checks_or_empty (n : nat) (f : Field) :
  framed n (fun _ => True) (number_checks_or_empty f).
Proof.
  unfold number_checks_or_empty.
  destruct f; try apply framed_throw; [apply framed_ret; exact I |].
  eapply framed_bind; [apply framed_load |]. intros obj _.
  destruct obj; first [apply framed_throw | apply framed_ret; exact I].
Qed.

(** An assignment to a property of an object allocated after the heap
    had [n] objects. *)
Lemma framed_put (n : nat) (a : addr) (k : string) (x : Field) :
  n <= a -> framed n (fun _ => True) (put a k x).
Proof.
  intros Ha. unfold put.
  eapply framed_bind; [apply framed_load |]. intros obj _.
  destruct obj; first [apply framed_throw | apply framed_store, Ha].
Qed.

Ltac framed_step :=
  lazymatch goal with
  | |- framed _ _ (bind _ _) =>
      eapply framed_bind; [framed_step | intros ? ?; framed_step]
  | |- framed _ _ (ret _) =>
      apply framed_ret; first [assumption | exact I]
  | |- framed _ _ throw => apply framed_throw
  | |- framed _ _ (alloc _) => apply framed_alloc
  | |- framed _ _ (load _) => apply framed_load
  | |- framed _ _ (get _ _) => apply framed_get
  | |- framed _ _ (entries _) => apply framed_entries
  | |- framed _ _ (string_checks_or_empty _) =>
      apply framed_string_checks_or_empty
  | |- framed _ _ (number_checks_or_empty _) =>
      apply framed_number_checks_or_empty
  | |- framed _ _ (put _ _ _) => apply framed_put; assumption
  | |- framed _ _ (match ?x with _ => _ end) => destruct x; framed_step
  | |- _ => idtac
  end.

Lemma framed_new_ValaiType (n : nat) (c : Class) (def : Field) :
  framed n (fun a => n <= a) (new_ValaiType c def).
Proof. unfold new_ValaiType. framed_step. Qed.

Lemma framed_new_ValaiString (n : nat) (def : Field) :
  framed n (fun a => n <= a) (new_ValaiString def).
Proof. unfold new_ValaiString. framed_step. apply framed_new_ValaiType. Qed.

Lemma framed_new_ValaiNumber (n : nat) (def : Field) :
  framed n (fun a => n <= a) (new_ValaiNumber def).
Proof. unfold new_ValaiNumber. framed_step. apply framed_new_ValaiType. Qed.

Lemma framed_new_ValaiArray (n : nat) (element def : Field) :
  framed n (fun a => n <= a) (new_ValaiArray element def).
Proof. unfold new_ValaiArray. framed_step. apply framed_new_ValaiType. Qed.

Lemma framed_new_ValaiIntersection (n : nat) (l r def : Field) :
  framed n (fun a => n <= a) (new_ValaiIntersection l r def).
Proof.
  unfold new_ValaiIntersection. framed_step. apply framed_new_ValaiType.
Qed.

Lemma framed_new_with_property (n : nat) (c : Class) (d : addr)
      (k : string) (x : Field) :
  framed n (fun a => n <= a)
         (let+ this := new_ValaiType c (FRef d) in
          let+ _ := put this k x in
          ret this).
Proof.
  eapply framed_bind; [apply framed_new_ValaiType |]. intros this Hthis.
  framed_step.
Qed.

Lemma framed_new_ValaiObject (n : nat) (shape def : Field) :
  framed n (fun a => n <= a) (new_ValaiObject shape def).
Proof.
  unfold new_ValaiObject.
  eapply framed_bind; [apply framed_entries |]. intros props _.
  eapply framed_bind; [apply framed_alloc |]. intros d _.
  apply framed_new_with_property.
Qed.

Lemma framed_new_ValaiUnion (n : nat) (options def : Field) :
  framed n (fun a => n <= a) (new_ValaiUnion options def).
Proof.
  unfold new_ValaiUnion.
  eapply framed_bind; [apply framed_entries |]. intros props _.
  eapply framed_bind; [apply framed_alloc |]. intros d _.
  apply framed_new_with_property.
Qed.

Lemma framed_new_ValaiEnum (n : nat) (values def : Field) :
  framed n (fun a => n <= a) (new_ValaiEnum values def).
Proof.
  unfold new_ValaiEnum.
  eapply framed_bind; [apply framed_entries |]. intros props _.
  eapply framed_bind; [apply framed_alloc |]. intros d _.
  apply framed_new_with_property.
Qed.

Lemma framed_clone (n : nat) (this : addr) (def : Field) :
  framed n (fun a => n <= a) (_clone this def).
Proof.
  unfold _clone.
  eapply framed_bind; [apply framed_load |]. intros obj _.
  destruct obj as [c props | | | | |]; try apply framed_throw.
  destruct c;
    first [apply framed_new_ValaiString | apply framed_new_ValaiNumber
          | apply framed_new_ValaiType | idtac];
    (eapply framed_bind; [apply framed_get |]; intros ? _);
    first [apply framed_new_ValaiArray | apply framed_new_ValaiObject
          | apply framed_new_ValaiUnion | apply framed_new_ValaiEnum
          | idtac].
  eapply framed_bind; [apply framed_get |]. intros ? _.
  apply framed_new_ValaiIntersection.
Qed.

Lemma framed_invoke (n : nat) (m : Method) (receiver : addr) :
  framed n (fun a => n <= a) (invoke m receiver).
Proof.
  unfold invoke.
  eapply framed_bind; [apply framed_load |]. intros obj _.
  destruct obj as [c props | | | | |]; try apply framed_throw.
  destruct m, c; try apply framed_throw;
    unfold ValaiType_describe, ValaiType_examples, ValaiType_optional,
      ValaiType_nullable, ValaiType_default, ValaiString_addCheck,
      ValaiNumber_addCheck, ValaiArray_min, ValaiArray_max,
      ValaiArray_length, ValaiArray_with, ValaiObject_strict,
      ValaiObject_strip, ValaiObject_passthrough, ValaiObject_with;
    framed_step;
    first [apply framed_clone | apply framed_new_ValaiType
          | apply framed_new_ValaiString | apply framed_new_ValaiNumber
          | apply framed_new_ValaiArray | apply framed_new_ValaiObject].
Qed.

Lemma framed_kept (h h' : Heap) :
  (forall a, a < length h -> h' !! a = h !! a) -> kept h h'.
Proof.
  intros Hf a o Ha. rewrite (Hf a); [exact Ha |].
  eapply lookup_lt_Some. exact Ha.
Qed.

(** Reading a schema from a heap that kept every object. *)
Lemma plain_at_kept (h h' : Heap) (f : Field) props :
  kept h h' -> plain_at h f = Some props -> plain_at h' f = Some props.
Proof.
  intros Hk. destruct f; try discriminate. cbn [plain_at].
  destruct (h !! a) as [o |] eqn:E; [| discriminate].
  rewrite (Hk a o E). auto.
Qed.

Lemma string_checks_at_kept (h h' : Heap) (f : Field) l :
  kept h h' ->
  string_checks_at h f = Some l -> string_checks_at h' f = Some l.
Proof.
  intros Hk. destruct f; try discriminate; [auto |]. cbn [string_checks_at].
  destruct (h !! a) as [o |] eqn:E; [| discriminate].
  rewrite (Hk a o E). auto.
Qed.

Lemma number_checks_at_kept (h h' : Heap) (f : Field) l :
  kept h h' ->
  number_checks_at h f = Some l -> number_checks_at h' f = Some l.
Proof.
  intros Hk. destruct f; try discriminate; [auto |]. cbn [number_checks_at].
  destruct (h !! a) as [o |] eqn:E; [| discriminate].
  rewrite (Hk a o E). auto.
Qed.

Lemma schemas_at_kept (h h' : Heap) (f : Field) l :
  kept h h' -> schemas_at h f = Some l -> schemas_at h' f = Some l.
Proof.
  intros Hk. destruct f; try discriminate. cbn [schemas_at].
  destruct (h !! a) as [o |] eqn:E; [| discriminate].
  rewrite (Hk a o E). auto.
Qed.

Lemma strings_at_kept (h h' : Heap) (f : Field) l :
  kept h h' -> strings_at h f = Some l -> strings_at h' f = Some l.
Proof.
  intros Hk. destruct f; try discriminate. cbn [strings_at].
  destruct (h !! a) as [o |] eqn:E; [| discriminate].
  rewrite (Hk a o E). auto.
Qed.

Lemma at_ref_impl {A : Type} (g g' : addr -> option A) (f : Field) (x : A) :
  (forall a y, g a = Some y -> g' a = Some y) ->
  at_ref g f = Some x -> at_ref g' f = Some x.
Proof. intros Hg. destruct f; try discriminate. apply Hg. Qed.

Lemma mapM_impl {A B : Type} (g g' : A -> option B) (l : list A)
      (r : list B) :
  (forall a y, g a = Some y -> g' a = Some y) ->
  mapM g l = Some r -> mapM g' l = Some r.
Proof.
  intros Hg H. apply mapM_Some in H. apply mapM_Some.
  eapply Forall2_impl; [exact H |]. intros a y. apply Hg.
Qed.

Lemma decode_entry_impl (g g' : addr -> option Schema) (kf : string * Field)
      (ks : string * Schema) :
  (forall a y, g a = Some y -> g' a = Some y) ->
  decode_entry g kf = Some ks -> decode_entry g' kf = Some ks.
Proof.
  intros Hg H. unfold decode_entry in *.
  apply bind_Some in H as (s & Hs & H).
  rewrite (at_ref_impl g g' _ s Hg Hs). exact H.
Qed.

Lemma decode_kept (h h' : Heap) :
  kept h h' ->
  forall fuel a s, decode fuel h a = Some s -> decode fuel h' a = Some s.
Proof.
  intros Hk. induction fuel as [| fuel IH]; intros a s H; [discriminate H |].
  cbn [decode] in H |- *.
  destruct (h !! a) as [[c props | | | | |] |] eqn:E; try discriminate H.
  rewrite (Hk a _ E).
  apply bind_Some in H as (def & Hdef & H).
  rewrite (plain_at_kept h h' _ def Hk Hdef). cbn [mbind option_bind].
  apply bind_Some in H as (meta & Hmeta & H). rewrite Hmeta.
  cbn [mbind option_bind].
  destruct c;
    repeat (apply bind_Some in H as (? & Hx & H);
            first
              [ rewrite (string_checks_at_kept h h' _ _ Hk Hx)
              | rewrite (number_checks_at_kept h h' _ _ Hk Hx)
              | rewrite (plain_at_kept h h' _ _ Hk Hx)
              | rewrite (schemas_at_kept h h' _ _ Hk Hx)
              | rewrite (strings_at_kept h h' _ _ Hk Hx)
              | rewrite (at_ref_impl _ (decode fuel h') _ _ IH Hx)
              | rewrite (mapM_impl _ (decode fuel h') _ _ IH Hx)
              | rewrite (mapM_impl _ (decode_entry (decode fuel h')) _ _
                           (fun kf ks =>
                              decode_entry_impl _ (decode fuel h') kf ks IH)
                           Hx)
              | rewrite Hx ];
            cbn [mbind option_bind]; clear Hx);
    exact H.
Qed.

End object_lemmas.

Section method_lemmas.

Import Objects.

Lemma bind_run {A B : Type} (m : H A) (k : A -> H B) (h h1 : Heap) (x : A) :
  m h = Some (x, h1) -> bind m k h = k x h1.
Proof. intros E. unfold bind. rewrite E. reflexivity. Qed.

Lemma run_get (h : Heap) (a : addr) (c : Class) props (k : string) :
  h !! a = Some (OInstance c props) ->
  get (FRef a) k h = Some (field props k, h).
Proof. intros E. unfold get, bind, load. rewrite E. reflexivity. Qed.

Lemma run_get_plain (h : Heap) (a : addr) props (k : string) :
  h !! a = Some (OPlain props) ->
  get (FRef a) k h = Some (field props k, h).
Proof. intros E. unfold get, bind, load. rewrite E. reflexivity. Qed.

Lemma run_entries (h : Heap) (a : addr) props :
  h !! a = Some (OPlain props) -> entries (FRef a) h = Some (props, h).
Proof. intros E. unfold entries, bind, load. rewrite E. reflexivity. Qed.

Lemma lookup_new (h l : Heap) (i : nat) :
  (h ++ l)%list !! (length h + i) = l !! i.
Proof.
  rewrite lookup_app_r by lia. f_equal. lia.
Qed.

Lemma lookup_new_0 (h l : Heap) : (h ++ l)%list !! length h = l !! 0.
Proof. rewrite <- (Nat.add_0_r (length h)) at 1. apply lookup_new. Qed.

Lemma lookup_old (h l : Heap) (a : addr) (o : Object) :
  h !! a = Some o -> (h ++ l)%list !! a = Some o.
Proof. intros E. apply lookup_app_l_Some, E. Qed.

Lemma kept_app (h l : Heap) : kept h (h ++ l)%list.
Proof. intros a o. apply lookup_old. Qed.

Lemma run_new_ValaiType (c : Class) (def : Field) (h : Heap) :
  new_ValaiType c def h
  = Some (length h, (h ++ [OInstance c [("_def", def)]])%list).
Proof.
  unfold new_ValaiType, bind, alloc, put, bind, load, store, ret.
  rewrite lookup_new_0. cbn [lookup list_lookup].
  rewrite lookup_new_0. cbn [lookup list_lookup].
  f_equal. f_equal.
  rewrite insert_app_r_alt by lia. rewrite Nat.sub_diag. reflexivity.
Qed.

Lemma run_new_with (c : Class) (d : Field) (k : string) (x : Field)
      (h : Heap) :
  (let+ this := new_ValaiType c d in
   let+ _ := put this k x in
   ret this) h
  = Some (length h,
          (h ++ [OInstance c (JSValue.assign [("_def", d)] k x)])%list).
Proof.
  rewrite (bind_run _ _ _ _ _ (run_new_ValaiType c d h)).
  unfold bind, put, bind, load, store, ret.
  rewrite lookup_new_0. cbn [lookup list_lookup].
  rewrite lookup_new_0. cbn [lookup list_lookup].
  f_equal. f_equal.
  rewrite insert_app_r_alt by lia. rewrite Nat.sub_diag. reflexivity.
Qed.


Lemma run_construct (c : Class) (init : list (string * Field)) (lit : addr)
      (L : list (string * Field)) (h : Heap) :
  h !! lit = Some (OPlain L) ->
  (let+ props := entries (FRef lit) in
   let+ d := alloc (OPlain (JSValue.spread init props)) in
   new_ValaiType c (FRef d)) h
  = Some (length h + 1,
          (h ++ [OPlain (JSValue.spread init L);
                 OInstance c [("_def", FRef (length h))]])%list).
Proof.
  intros E. rewrite (bind_run _ _ _ _ _ (run_entries h lit L E)).
  unfold bind at 1. unfold alloc at 1.
  rewrite run_new_ValaiType, length_app, <- app_assoc. reflexivity.
Qed.

Lemma run_construct_with (c : Class) (init : list (string * Field))
      (lit : addr) (L : list (string * Field)) (k : string) (x : Field)
      (h : Heap) :
  h !! lit = Some (OPlain L) ->
  (let+ props := entries (FRef lit) in
   let+ d := alloc (OPlain (JSValue.spread init props)) in
   let+ this := new_ValaiType c (FRef d) in
   let+ _ := put this k x in
   ret this) h
  = Some (length h + 1,
          (h ++ [OPlain (JSValue.spread init L);
                 OInstance c (JSValue.assign [("_def", FRef (length h))] k x)])%list).
Proof.
  intros E. rewrite (bind_run _ _ _ _ _ (run_entries h lit L E)).
  unfold bind at 1. unfold alloc at 1.
  rewrite run_new_with, length_app, <- app_assoc. reflexivity.
Qed.

Lemma run_load (h : Heap) (a : addr) (o : Object) :
  h !! a = Some o -> load a h = Some (o, h).
Proof. intros E. unfold load. rewrite E. reflexivity. Qed.

Lemma run_clone (h : Heap) (this lit : addr) (c : Class) props L :
  h !! this = Some (OInstance c props) ->
  h !! lit = Some (OPlain L) ->
  _clone this (FRef lit) h
  = Some (length h + (length (cloned c lit L (length h)) - 1),
          (h ++ cloned c lit L (length h))%list).
Proof.
  intros E El. unfold _clone.
  rewrite (bind_run _ _ _ _ _ (run_load h this _ E)).
  destruct c; cbn [cloned length Nat.sub];
    try rewrite (bind_run _ _ _ _ _ (run_get_plain h lit L _ El));
    try rewrite (bind_run _ _ _ _ _ (run_get_plain h lit L _ El));
    try (rewrite run_new_ValaiType, Nat.add_0_r; reflexivity).
  - apply run_construct, El.
  - apply run_construct, El.
  - apply run_construct, El.
  - unfold new_ValaiObject. rewrite (run_construct_with _ _ lit L _ _ h El).
    reflexivity.
  - unfold new_ValaiUnion. rewrite (run_construct_with _ _ lit L _ _ h El).
    reflexivity.
  - unfold new_ValaiEnum. rewrite (run_construct_with _ _ lit L _ _ h El).
    reflexivity.
  - apply run_construct, El.
Qed.


Lemma field_here (k : string) (x : Field) p : field ((k, x) :: p) k = x.
Proof. unfold field. cbn [JSValue.own]. rewrite String.eqb_refl. reflexivity. Qed.

Lemma field_next (k k' : string) (x : Field) p :
  String.eqb k k' = false -> field ((k', x) :: p) k = field p k.
Proof. intros E. unfold field. cbn [JSValue.own]. rewrite E. reflexivity. Qed.

Lemma NoDup_keys_spread {A : Type} (target source : list (string * A)) :
  NoDup (JSValue.keys target) ->
  NoDup (JSValue.keys (JSValue.spread target source)).
Proof.
  revert target. induction source as [| [k x] source IH]; intros target H;
    [exact H |].
  cbn [JSValue.spread fold_left]. apply IH.
  apply (NoDup_keys_set target k x H).
Qed.

Lemma own_copy (def : list (string * Field)) (k0 : string) (x : Field)
      (k : string) :
  NoDup (JSValue.keys def) ->
  JSValue.own (JSValue.set (JSValue.spread [] def) k0 x) k
  = if String.eqb k k0 then Some x else JSValue.own def k.
Proof.
  intros Hnd.
  assert (E1 : JSValue.own (JSValue.set (JSValue.spread [] def) k0 x) k
               = if String.eqb k k0 then Some x
                 else JSValue.own (JSValue.spread [] def) k)
    by exact (get_set (JSValue.spread [] def) k0 x k).
  assert (E2 : JSValue.own (JSValue.spread [] def) k
               = match JSValue.own def k with
                 | Some y => Some y
                 | None => None
                 end)
    by exact (get_spread [] def k Hnd).
  rewrite E1, E2. destruct (JSValue.own def k); reflexivity.
Qed.

Lemma NoDup_copy (def : list (string * Field)) (k0 : string) (x : Field) :
  NoDup (JSValue.keys (JSValue.set (JSValue.spread [] def) k0 x)).
Proof.
  apply (NoDup_keys_set (JSValue.spread [] def) k0 x).
  apply NoDup_keys_spread, NoDup_nil. exact I.
Qed.

Lemma field_copy (def : list (string * Field)) (k0 : string) (x : Field)
      (k : string) :
  NoDup (JSValue.keys def) ->
  field (JSValue.set (JSValue.spread [] def) k0 x) k
  = if String.eqb k k0 then x else field def k.
Proof.
  intros Hnd. unfold field. rewrite (own_copy def k0 x k Hnd).
  destruct (String.eqb k k0); reflexivity.
Qed.

Lemma field_construct (init def : list (string * Field)) (k0 : string)
      (x : Field) (k : string) :
  NoDup (JSValue.keys def) ->
  field (JSValue.spread init (JSValue.set (JSValue.spread [] def) k0 x)) k
  = if String.eqb k k0 then x
    else match JSValue.own def k with
         | Some y => y
         | None => field init k
         end.
Proof.
  intros Hnd. unfold field at 1.
  assert (E : JSValue.own
                (JSValue.spread init
                   (JSValue.set (JSValue.spread [] def) k0 x)) k
              = match JSValue.own
                        (JSValue.set (JSValue.spread [] def) k0 x) k with
                | Some y => Some y
                | None => JSValue.own init k
                end)
    by exact (get_spread init _ k (NoDup_copy def k0 x)).
  rewrite E, (own_copy def k0 x k Hnd).
  destruct (String.eqb k k0); [reflexivity |].
  destruct (JSValue.own def k); reflexivity.
Qed.

Lemma plain_at_inv (h : Heap) (f : Field) def :
  plain_at h f = Some def -> exists d, f = FRef d /\ h !! d = Some (OPlain def).
Proof.
  destruct f; try discriminate. cbn [plain_at].
  destruct (h !! a) as [[] |] eqn:E; try discriminate.
  intros [= <-]. exists a. auto.
Qed.

Lemma decode_mono (h : Heap) :
  forall fuel a s, decode fuel h a = Some s -> decode (S fuel) h a = Some s.
Proof.
  induction fuel as [| fuel IH]; intros a s H; [discriminate H |].
  cbn [decode] in H. set (fuel1 := S fuel) in *. cbn [decode].
  destruct (h !! a) as [[c props | | | | |] |] eqn:E; try discriminate H.
  apply bind_Some in H as (def & Hdef & H). rewrite Hdef.
  cbn [mbind option_bind].
  apply bind_Some in H as (meta & Hmeta & H). rewrite Hmeta.
  cbn [mbind option_bind].
  destruct c;
    repeat (apply bind_Some in H as (? & Hx & H);
            first
              [ rewrite (at_ref_impl _ (decode fuel1 h) _ _ IH Hx)
              | rewrite (mapM_impl _ (decode fuel1 h) _ _ IH Hx)
              | rewrite (mapM_impl _ (decode_entry (decode fuel1 h)) _ _
                           (fun kf ks =>
                              decode_entry_impl _ (decode fuel1 h) kf ks IH)
                           Hx)
              | rewrite Hx ];
            cbn [mbind option_bind]; clear Hx);
    exact H.
Qed.

Lemma decode_later (h h' : Heap) (fuel : nat) (a : addr) (s : Schema) :
  kept h h' -> decode fuel h a = Some s -> decode (S fuel) h' a = Some s.
Proof. intros Hk H. apply decode_mono, (decode_kept h h' Hk), H. Qed.


Lemma run_describe_like (h : Heap) (this d : addr) (c : Class) props def
      (k0 : string) (x : Field) :
  h !! this = Some (OInstance c props) ->
  field props "_def" = FRef d ->
  h !! d = Some (OPlain def) ->
  (let+ def := get (FRef this) "_def" in
   let+ props := entries def in
   let+ literal :=
     alloc (OPlain (JSValue.set (JSValue.spread [] props) k0 x)) in
   _clone this (FRef literal)) h
  = Some (length h + length (cloned c (length h)
                               (JSValue.set (JSValue.spread [] def) k0 x)
                               (length h + 1)),
          (h ++ OPlain (JSValue.set (JSValue.spread [] def) k0 x)
             :: cloned c (length h)
                  (JSValue.set (JSValue.spread [] def) k0 x)
                  (length h + 1))%list).
Proof.
  intros E Hd Ed.
  rewrite (bind_run _ _ _ _ _ (run_get h this c props _ E)), Hd.
  rewrite (bind_run _ _ _ _ _ (run_entries h d def Ed)).
  unfold bind at 1. unfold alloc at 1.
  rewrite (run_clone _ this (length h) c props
             (JSValue.set (JSValue.spread [] def) k0 x)
             (lookup_old h _ _ _ E)).
  - rewrite length_app, <- app_assoc. cbn [length app]. f_equal. f_equal.
    destruct c; cbn [cloned length]; lia.
  - rewrite lookup_new_0. reflexivity.
Qed.


Section construct_fields.

Variables (init def : list (string * Field)) (k0 : string) (x : Field).
Hypothesis Hnd : NoDup (JSValue.keys def).

Lemma copy_same : field (JSValue.set (JSValue.spread [] def) k0 x) k0 = x.
Proof. rewrite (field_copy def k0 x k0 Hnd), String.eqb_refl. reflexivity. Qed.

Lemma copy_other (k : string) :
  String.eqb k k0 = false -> field (JSValue.set (JSValue.spread [] def) k0 x) k = field def k.
Proof. intros E. rewrite (field_copy def k0 x k Hnd), E. reflexivity. Qed.

Lemma construct_same : field (JSValue.spread init (JSValue.set (JSValue.spread [] def) k0 x)) k0 = x.
Proof.
  rewrite (field_construct init def k0 x k0 Hnd), String.eqb_refl.
  reflexivity.
Qed.

Lemma construct_other (k : string) :
  String.eqb k k0 = false -> field init k = FUndefined ->
  field (JSValue.spread init (JSValue.set (JSValue.spread [] def) k0 x)) k = field def k.
Proof.
  intros E Ei. rewrite (field_construct init def k0 x k Hnd), E, Ei.
  reflexivity.
Qed.

Lemma construct_kept (k : string) :
  String.eqb k k0 = false -> field init k = field def k ->
  field (JSValue.spread init (JSValue.set (JSValue.spread [] def) k0 x)) k = field def k.
Proof.
  intros E Ei. rewrite (field_construct init def k0 x k Hnd), E, Ei.
  unfold field. destruct (JSValue.own def k); reflexivity.
Qed.

Lemma construct_copied (k : string) :
  String.eqb k k0 = false -> field init k = field (JSValue.set (JSValue.spread [] def) k0 x) k ->
  field (JSValue.spread init (JSValue.set (JSValue.spread [] def) k0 x)) k = field def k.
Proof.
  intros E Ei. apply construct_kept; [exact E |].
  rewrite Ei. apply copy_other, E.
Qed.

Lemma construct_unknownKeys :
  String.eqb "unknownKeys" k0 = false ->
  field init "unknownKeys" = FString "strip" ->
  decode_unknownKeys (field (JSValue.spread init (JSValue.set (JSValue.spread [] def) k0 x)) "unknownKeys")
  = decode_unknownKeys (field def "unknownKeys").
Proof.
  intros E Ei. rewrite (field_construct init def k0 x _ Hnd), E, Ei.
  unfold field. destruct (JSValue.own def "unknownKeys"); reflexivity.
Qed.

End construct_fields.

Lemma field_nil (k : string) : field [] k = FUndefined.
Proof. reflexivity. Qed.

Ltac here :=
  repeat first [rewrite field_here | rewrite field_next by reflexivity
               | rewrite field_nil].

Ltac field_of_key Hnd k :=
  first
    [ rewrite (construct_other _ _ _ _ Hnd k) by reflexivity
    | rewrite (construct_kept _ _ _ _ Hnd k)
        by first [reflexivity | here; assumption]
    | rewrite (construct_copied _ _ _ _ Hnd k) by reflexivity
    | rewrite (copy_other _ _ _ Hnd k) by reflexivity
    | idtac ].

Ltac fields Hnd :=
  rewrite ?(construct_same _ _ _ _ Hnd), ?(copy_same _ _ _ Hnd);
  field_of_key Hnd "description"; field_of_key Hnd "examples";
  field_of_key Hnd "checks"; field_of_key Hnd "element";
  field_of_key Hnd "minLength"; field_of_key Hnd "maxLength";
  field_of_key Hnd "exactLength"; field_of_key Hnd "shape";
  field_of_key Hnd "options"; field_of_key Hnd "values";
  field_of_key Hnd "left"; field_of_key Hnd "right";
  field_of_key Hnd "innerType"; field_of_key Hnd "defaultValue";
  field_of_key Hnd "unknownKeys";
  try rewrite (construct_unknownKeys _ _ _ _ Hnd) by reflexivity.


Lemma plain_at_new (h l : Heap) (i : nat) props :
  l !! i = Some (OPlain props) ->
  plain_at (h ++ l)%list (FRef (length h + i)) = Some props.
Proof. intros E. unfold plain_at. rewrite lookup_new, E. reflexivity. Qed.

Lemma plain_at_new_0 (h l : Heap) props :
  l !! 0 = Some (OPlain props) ->
  plain_at (h ++ l)%list (FRef (length h)) = Some props.
Proof. intros E. unfold plain_at. rewrite lookup_new_0, E. reflexivity. Qed.

(** The object at the address of a new instance, and its definition. *)
Ltac new_instance :=
  cbn [decode]; rewrite ?lookup_new, ?lookup_new_0;
  cbn [lookup list_lookup]; here;
  first [ erewrite plain_at_new by reflexivity
        | erewrite plain_at_new_0 by reflexivity ];
  cbn [mbind option_bind].

Lemma run_string_checks_or_empty (h : Heap) (f : Field) checks :
  string_checks_at h f = Some checks ->
  string_checks_or_empty f h = Some (or_nil checks, h).
Proof.
  destruct f; try discriminate; cbn [string_checks_at string_checks_or_empty].
  - intros [= <-]. reflexivity.
  - unfold bind, load. destruct (h !! a) as [[] |]; try discriminate.
    intros [= <-]. reflexivity.
Qed.

Lemma run_number_checks_or_empty (h : Heap) (f : Field) checks :
  number_checks_at h f = Some checks ->
  number_checks_or_empty f h = Some (or_nil checks, h).
Proof.
  destruct f; try discriminate; cbn [number_checks_at number_checks_or_empty].
  - intros [= <-]. reflexivity.
  - unfold bind, load. destruct (h !! a) as [[] |]; try discriminate.
    intros [= <-]. reflexivity.
Qed.

Lemma run_wrapper (h : Heap) (c : Class) (literal : list (string * Field)) :
  (let+ lit := alloc (OPlain literal) in new_ValaiType c (FRef lit)) h
  = Some (length h + 1,
          (h ++ [OPlain literal; OInstance c [("_def", FRef (length h))]])%list).
Proof.
  unfold bind at 1. unfold alloc at 1.
  rewrite run_new_ValaiType, length_app, <- app_assoc. reflexivity.
Qed.

Lemma run_string_addCheck (h : Heap) (this d : addr) props def checks check :
  h !! this = Some (OInstance C_ValaiString props) ->
  field props "_def" = FRef d ->
  h !! d = Some (OPlain def) ->
  string_checks_at h (field def "checks") = Some checks ->
  ValaiString_addCheck this check h
  = Some (length h + 3,
          (h ++ [OStringChecks (or_nil checks ++ [check]);
                 OPlain (JSValue.set (JSValue.spread [] def) "checks"
                                     (FRef (length h)));
                 OPlain (JSValue.spread
                           [("typeName", FString "ValaiString")]
                           (JSValue.set (JSValue.spread [] def) "checks"
                                        (FRef (length h))));
                 OInstance C_ValaiString
                           [("_def", FRef (length h + 2))]])%list).
Proof.
  intros E Hd Ed Hc. unfold ValaiString_addCheck.
  rewrite (bind_run _ _ _ _ _ (run_get h this _ props _ E)), Hd.
  rewrite (bind_run _ _ _ _ _ (run_entries h d def Ed)).
  rewrite (bind_run _ _ _ _ _ (run_get_plain h d def _ Ed)).
  rewrite (bind_run _ _ _ _ _ (run_string_checks_or_empty h _ checks Hc)).
  unfold bind at 1. unfold alloc at 1.
  unfold bind at 1. unfold alloc at 1.
  unfold new_ValaiString. rewrite length_app. cbn [length].
  rewrite (run_construct _ _ (length h + 1)
             (JSValue.set (JSValue.spread [] def) "checks" (FRef (length h)))).
  - rewrite !length_app, <- !app_assoc, <- ?Nat.add_assoc.
    cbn [length app Nat.add]. reflexivity.
  - rewrite <- app_assoc. cbn [app]. rewrite lookup_new. reflexivity.
Qed.

Lemma run_number_addCheck (h : Heap) (this d : addr) props def checks check :
  h !! this = Some (OInstance C_ValaiNumber props) ->
  field props "_def" = FRef d ->
  h !! d = Some (OPlain def) ->
  number_checks_at h (field def "checks") = Some checks ->
  ValaiNumber_addCheck this check h
  = Some (length h + 3,
          (h ++ [ONumberChecks (or_nil checks ++ [check]);
                 OPlain (JSValue.set (JSValue.spread [] def) "checks"
                                     (FRef (length h)));
                 OPlain (JSValue.spread
                           [("typeName", FString "ValaiNumber")]
                           (JSValue.set (JSValue.spread [] def) "checks"
                                        (FRef (length h))));
                 OInstance C_ValaiNumber
                           [("_def", FRef (length h + 2))]])%list).
Proof.
  intros E Hd Ed Hc. unfold ValaiNumber_addCheck.
  rewrite (bind_run _ _ _ _ _ (run_get h this _ props _ E)), Hd.
  rewrite (bind_run _ _ _ _ _ (run_entries h d def Ed)).
  rewrite (bind_run _ _ _ _ _ (run_get_plain h d def _ Ed)).
  rewrite (bind_run _ _ _ _ _ (run_number_checks_or_empty h _ checks Hc)).
  unfold bind at 1. unfold alloc at 1.
  unfold bind at 1. unfold alloc at 1.
  unfold new_ValaiNumber. rewrite length_app. cbn [length].
  rewrite (run_construct _ _ (length h + 1)
             (JSValue.set (JSValue.spread [] def) "checks" (FRef (length h)))).
  - rewrite !length_app, <- !app_assoc, <- ?Nat.add_assoc.
    cbn [length app Nat.add]. reflexivity.
  - rewrite <- app_assoc. cbn [app]. rewrite lookup_new. reflexivity.
Qed.

Lemma run_array_with (h : Heap) (this d : addr) props def (k : string)
      (n : JSNumber) :
  h !! this = Some (OInstance C_ValaiArray props) ->
  field props "_def" = FRef d ->
  h !! d = Some (OPlain def) ->
  ValaiArray_with this k n h
  = Some (length h + 2,
          (h ++ [OPlain (JSValue.set (JSValue.spread [] def) k (FNumber n));
                 OPlain (JSValue.spread
                           [("typeName", FString "ValaiArray");
                            ("element", field def "element")]
                           (JSValue.set (JSValue.spread [] def) k
                                        (FNumber n)));
                 OInstance C_ValaiArray
                           [("_def", FRef (length h + 1))]])%list).
Proof.
  intros E Hd Ed. unfold ValaiArray_with.
  rewrite (bind_run _ _ _ _ _ (run_get h this _ props _ E)), Hd.
  rewrite (bind_run _ _ _ _ _ (run_get_plain h d def _ Ed)).
  rewrite (bind_run _ _ _ _ _ (run_entries h d def Ed)).
  unfold bind at 1. unfold alloc at 1.
  unfold new_ValaiArray.
  rewrite (run_construct _ _ (length h)
             (JSValue.set (JSValue.spread [] def) k (FNumber n))).
  - rewrite !length_app, <- !app_assoc, <- ?Nat.add_assoc.
    cbn [length app Nat.add]. reflexivity.
  - rewrite lookup_new_0. reflexivity.
Qed.

Lemma run_object_with (h : Heap) (this d : addr) props def (u : string) :
  h !! this = Some (OInstance C_ValaiObject props) ->
  field props "_def" = FRef d ->
  h !! d = Some (OPlain def) ->
  ValaiObject_with this u h
  = Some (length h + 2,
          (h ++ [OPlain (JSValue.set (JSValue.spread [] def) "unknownKeys"
                                     (FString u));
                 OPlain (JSValue.spread
                           [("typeName", FString "ValaiObject");
                            ("shape", field props "shape");
                            ("unknownKeys", FString "strip")]
                           (JSValue.set (JSValue.spread [] def) "unknownKeys"
                                        (FString u)));
                 OInstance C_ValaiObject
                           [("_def", FRef (length h + 1));
                            ("shape", field props "shape")]])%list).
Proof.
  intros E Hd Ed. unfold ValaiObject_with.
  rewrite (bind_run _ _ _ _ _ (run_get h this _ props _ E)).
  rewrite (bind_run _ _ _ _ _ (run_get h this _ props _ E)), Hd.
  rewrite (bind_run _ _ _ _ _ (run_entries h d def Ed)).
  unfold bind at 1. unfold alloc at 1.
  unfold new_ValaiObject.
  rewrite (run_construct_with _ _ (length h)
             (JSValue.set (JSValue.spread [] def) "unknownKeys" (FString u))).
  - rewrite !length_app, <- !app_assoc, <- ?Nat.add_assoc.
    cbn [length app Nat.add]. reflexivity.
  - rewrite lookup_new_0. reflexivity.
Qed.



Lemma string_checks_at_new_0 (h l : Heap) checks :
  l !! 0 = Some (OStringChecks checks) ->
  string_checks_at (h ++ l)%list (FRef (length h)) = Some (Some checks).
Proof.
  intros E. unfold string_checks_at. rewrite lookup_new_0, E. reflexivity.
Qed.

Lemma number_checks_at_new_0 (h l : Heap) checks :
  l !! 0 = Some (ONumberChecks checks) ->
  number_checks_at (h ++ l)%list (FRef (length h)) = Some (Some checks).
Proof.
  intros E. unfold number_checks_at. rewrite lookup_new_0, E. reflexivity.
Qed.


Ltac use_facts Hk IH :=
  repeat (match goal with
    | Hx : string_checks_at _ _ = Some _ |- _ =>
        rewrite (string_checks_at_kept _ _ _ _ Hk Hx)
    | Hx : number_checks_at _ _ = Some _ |- _ =>
        rewrite (number_checks_at_kept _ _ _ _ Hk Hx)
    | Hx : plain_at _ _ = Some _ |- _ =>
        rewrite (plain_at_kept _ _ _ _ Hk Hx)
    | Hx : schemas_at _ _ = Some _ |- _ =>
        rewrite (schemas_at_kept _ _ _ _ Hk Hx)
    | Hx : strings_at _ _ = Some _ |- _ =>
        rewrite (strings_at_kept _ _ _ _ Hk Hx)
    | Hx : at_ref _ _ = Some _ |- _ =>
        rewrite (at_ref_impl _ _ _ _ IH Hx)
    | Hx : mapM (decode_entry ?g) ?l = Some ?r
      |- context [mapM (decode_entry ?g') ?l] =>
        rewrite (mapM_impl (decode_entry g) (decode_entry g') l r
                   (fun kf ks => decode_entry_impl g g' kf ks IH) Hx)
    | Hx : mapM _ _ = Some _ |- _ => rewrite (mapM_impl _ _ _ _ IH Hx)
    | Hx : decode_length _ = Some _ |- _ => rewrite Hx
    | Hx : decode_default _ = Some _ |- _ => rewrite Hx
    | Hx : decode_unknownKeys _ = Some _ |- _ => rewrite Hx
    | Hx : decode_description _ = Some _ |- _ => rewrite Hx
    | Hx : decode_examples _ = Some _ |- _ => rewrite Hx
    end;
    cbn [mbind option_bind]).

Ltac decode_side Hnd Hcons Hdec0 :=
  new_instance; here; unfold decode_meta;
  fields Hnd; here; rewrite <- ?Hcons;
  try (erewrite string_checks_at_new_0 by reflexivity);
  try (erewrite number_checks_at_new_0 by reflexivity);
  change (decode_unknownKeys (FString "strict")) with (Some uk_strict);
  change (decode_unknownKeys (FString "strip")) with (Some uk_strip);
  change (decode_unknownKeys (FString "passthrough"))
    with (Some uk_passthrough);
  cbn [at_ref decode_description decode_examples decode_length
         decode_default mbind option_bind];
  try match goal with
  | Ed : ?h0 !! _ = Some (OPlain _), F := S ?f
    |- context [(?h0 ++ ?l)%list] =>
      let Hk := fresh "Hk" in
      let IH := fresh "IH" in
      pose proof (kept_app h0 l) as Hk;
      pose proof (fun a s => decode_later h0 _ f a s Hk) as IH;
      change (S f) with F in IH;
      try rewrite (decode_kept _ _ Hk _ _ _ Hdec0);
      cbn [mbind option_bind];
      use_facts Hk IH
  end;
  repeat (match goal with
          | Hx : decode_length _ = Some _ |- _ => rewrite Hx
          | Hx : decode_default _ = Some _ |- _ => rewrite Hx
          | Hx : decode_unknownKeys _ = Some _ |- _ => rewrite Hx
          | Hx : decode_description _ = Some _ |- _ => rewrite Hx
          | Hx : decode_examples _ = Some _ |- _ => rewrite Hx
          end;
          cbn [mbind option_bind]);
  reflexivity.

Ltac nodup_explicit :=
  unfold JSValue.keys; cbn [map fst];
  repeat (apply NoDup_cons; split;
          [ let Hin := fresh "Hin" in
            intros Hin;
            repeat (apply elem_of_cons in Hin as [Hin | Hin];
                    [discriminate Hin |]);
            inversion Hin |]);
  apply NoDup_nil; exact I.

Ltac constructed_side Hnd Hcons :=
  unfold constructed; eexists _, _, _;
  split; [rewrite lookup_new; reflexivity |];
  split;
  [ here;
    first [ erewrite plain_at_new by reflexivity
          | erewrite plain_at_new_0 by reflexivity ];
    reflexivity |];
  split;
  [ first [ apply NoDup_copy
          | apply NoDup_keys_spread; nodup_explicit
          | nodup_explicit ]
  | cbv beta iota; here; fields Hnd; here;
    repeat (rewrite (copy_other _ _ _ Hnd) by reflexivity);
    rewrite <- ?Hcons;
    first [exact I | reflexivity] ].

Lemma invoke_decodes (m : Method) (receiver : nat) (h : Heap) (fuel : nat)
        (this that : Schema) :
  constructed h receiver ->
  decode fuel h receiver = Some this ->
  returned m this = Some that ->
  exists b h',
    invoke m receiver h = Some (b, h') /\
    decode (S fuel) h' b = Some that /\
    constructed h' b.
Proof.
  intros (c & props & def & E & Hdef & Hnd & Hcons) Hdec0 Hret.
  pose proof Hdec0 as Hdec.
  destruct fuel as [| fuel]; [discriminate Hdec |].
  cbn [decode] in Hdec. rewrite E, Hdef in Hdec. cbn [mbind option_bind] in Hdec.
  apply bind_Some in Hdec as (meta & Hmeta & Hdec).
  destruct (plain_at_inv h _ def Hdef) as (d & Hd & Ed).
  unfold decode_meta in Hmeta.
  apply bind_Some in Hmeta as (dd & Hdd & Hmeta).
  apply bind_Some in Hmeta as (ee & Hee & Hmeta).
  injection Hmeta as <-.
  unfold invoke. rewrite (bind_run _ _ _ _ _ (run_load h receiver _ E)).
  set (fuel1 := S fuel) in *.
  destruct c; cbv beta iota in Hdec, Hcons;
    repeat (apply bind_Some in Hdec as (? & ? & Hdec));
    injection Hdec as <-;
    destruct m; cbn [returned with_meta meta_of examples description] in Hret;
    try discriminate Hret; injection Hret as <-.
  all: lazymatch goal with
       | |- exists b h', ValaiType_describe _ _ _ = _ /\ _ =>
           unfold ValaiType_describe;
           rewrite (run_describe_like h receiver d _ props def _ _ E Hd Ed)
       | |- exists b h', ValaiType_examples _ _ _ = _ /\ _ =>
           unfold ValaiType_examples;
           rewrite (run_describe_like h receiver d _ props def _ _ E Hd Ed)
       | |- exists b h', ValaiType_optional _ _ = _ /\ _ =>
           unfold ValaiType_optional; rewrite run_wrapper
       | |- exists b h', ValaiType_nullable _ _ = _ /\ _ =>
           unfold ValaiType_nullable; rewrite run_wrapper
       | |- exists b h', ValaiType_default _ _ _ = _ /\ _ =>
           unfold ValaiType_default; rewrite run_wrapper
       | |- exists b h', ValaiString_addCheck _ _ _ = _ /\ _ =>
           erewrite (run_string_addCheck h receiver d props def)
             by eassumption
       | |- exists b h', ValaiNumber_addCheck _ _ _ = _ /\ _ =>
           erewrite (run_number_addCheck h receiver d props def)
             by eassumption
       | |- exists b h', ValaiArray_min _ _ _ = _ /\ _ =>
           unfold ValaiArray_min;
           rewrite (run_array_with h receiver d props def _ _ E Hd Ed)
       | |- exists b h', ValaiArray_max _ _ _ = _ /\ _ =>
           unfold ValaiArray_max;
           rewrite (run_array_with h receiver d props def _ _ E Hd Ed)
       | |- exists b h', ValaiArray_length _ _ _ = _ /\ _ =>
           unfold ValaiArray_length;
           rewrite (run_array_with h receiver d props def _ _ E Hd Ed)
       | |- exists b h', ValaiObject_strict _ _ = _ /\ _ =>
           unfold ValaiObject_strict;
           rewrite (run_object_with h receiver d props def _ E Hd Ed)
       | |- exists b h', ValaiObject_strip _ _ = _ /\ _ =>
           unfold ValaiObject_strip;
           rewrite (run_object_with h receiver d props def _ E Hd Ed)
       | |- exists b h', ValaiObject_passthrough _ _ = _ /\ _ =>
           unfold ValaiObject_passthrough;
           rewrite (run_object_with h receiver d props def _ E Hd Ed)
       end.
  all: eexists _, _; (split; [reflexivity |]).
  all: cbn [cloned length]; split.
  all: lazymatch goal with
       | |- decode _ _ _ = _ => decode_side Hnd Hcons Hdec0
       | |- constructed _ _ => constructed_side Hnd Hcons
       end.
Qed.

End method_lemmas.

(** C5. A chainable configuration method returns a new schema object and
    mutates nothing. For a receiver as its constructor left it, which
    validates as the schema [this], a call of a method [m] of its class
    returns: the object returned is new, is again as a constructor leaves
    it, and validates as [returned m this]. And whenever a call returns,
    it has written no object that existed before: the receiver, its
    definition object, its array of checks and every other object of the
    heap are kept as they were, so that every schema object validates
    after the call as it did before. With [a = string()] and
    [b = a.min(3)], [a.safeParse("x")] still succeeds while
    [b.safeParse("x")] fails. *)
Theorem schema_methods_do_not_mutate :
  (forall (m : Method) (receiver : nat) (h : Objects.Heap) (fuel : nat)
          (this that : Schema),
      Objects.constructed h receiver ->
      Objects.decode fuel h receiver = Some this ->
      returned m this = Some that ->
      exists returned_ref h',
        Objects.invoke m receiver h = Some (returned_ref, h') /\
        Objects.decode (S fuel) h' returned_ref = Some that /\
        Objects.constructed h' returned_ref) /\
  (forall (m : Method) (receiver returned_ref : nat) (h h' : Objects.Heap),
      Objects.invoke m receiver h = Some (returned_ref, h') ->
      length h <= returned_ref /\
      returned_ref <> receiver /\
      Objects.kept h h' /\
      (forall fuel a s,
          Objects.decode fuel h a = Some s ->
          Objects.decode fuel h' a = Some s) /\
      (forall fuel a d r,
          Objects.safeParse_at fuel h a d = Some r ->
          Objects.safeParse_at fuel h' a d = Some r)) /\
  match Objects.a_then_b [] with
  | Some ((a, b), h) =>
      option_map result_success (Objects.safeParse_at 1 h a (VString "x"))
      = Some true /\
      option_map result_success (Objects.safeParse_at 1 h b (VString "x"))
      = Some false
  | None => False
  end.
Proof.
  split; [exact invoke_decodes |].
  split; [| vm_compute; split; reflexivity].
  intros m receiver b h h' Hinv.
  destruct (framed_invoke (length h) m receiver h b h' (le_n _) Hinv)
    as (_ & Hframe & Hb).
  assert (Hk : Objects.kept h h') by (apply framed_kept, Hframe).
  assert (Hrecv : receiver < length h).
  { unfold Objects.invoke, Objects.bind, Objects.load in Hinv.
    destruct (h !! receiver) eqn:E; [| discriminate Hinv].
    eapply lookup_lt_Some. exact E. }
  split; [exact Hb |]. split; [lia |]. split; [exact Hk |].
  split; [apply (decode_kept h h' Hk) |].
  intros fuel a d r. unfold Objects.safeParse_at.
  destruct (Objects.decode fuel h a) as [s |] eqn:E; [| discriminate].
  rewrite (decode_kept h h' Hk fuel a s E). auto.
Qed.

Lemma schema_methods_do_not_mutate_witness :
  (exists returned_ref h',
      Objects.invoke string_email 1
        [Objects.OPlain [("typeName", Objects.FString "ValaiString")];
         Objects.OInstance Objects.C_ValaiString [("_def", Objects.FRef 0)]]
      = Some (returned_ref, h') /\
      Objects.decode 2 h' returned_ref
      = Some (ValaiString (Some [SEmail None]) no_meta) /\
      Objects.constructed h' returned_ref) /\
  Objects.kept
    [Objects.OPlain [("typeName", Objects.FString "ValaiString")];
     Objects.OInstance Objects.C_ValaiString [("_def", Objects.FRef 0)]]
    [Objects.OPlain [("typeName", Objects.FString "ValaiString")];
     Objects.OInstance Objects.C_ValaiString [("_def", Objects.FRef 0)];
     Objects.OStringChecks [SEmail None];
     Objects.OPlain [("typeName", Objects.FString "ValaiString");
                     ("checks", Objects.FRef 2)];
     Objects.OPlain [("typeName", Objects.FString "ValaiString");
                     ("checks", Objects.FRef 2)];
     Objects.OInstance Objects.C_ValaiString [("_def", Objects.FRef 4)]].
Proof.
  split.
  - apply (proj1 schema_methods_do_not_mutate string_email 1 _ 1 v.string);
      [| reflexivity | reflexivity].
    exists Objects.C_ValaiString, [("_def", Objects.FRef 0)],
      [("typeName", Objects.FString "ValaiString")].
    split; [reflexivity |]. split; [reflexivity |]. split; [| exact I].
    apply NoDup_cons. split; [intros H; inversion H | apply NoDup_nil; exact I].
  - eapply (proj1 (proj2 schema_methods_do_not_mutate) string_email 1 5).
    reflexivity.
Defined.
